(** * Micro25519: the prime-field and multi-precision arithmetic core

    A shallow embedding of [mpiarith.c] and [gfparith.c] (with the types and
    constants of [config.h]) and the proofs of their arithmetic contracts.

    Machine integers are values of [Z]; every conversion or operation of the
    C code that wraps is written out with the conversion functions [Word],
    [DWord] and [SDWord].  Arrays of words are lists of [Z], least
    significant word first, read with [a.[i]] and written with [upd]. *)

From Stdlib Require Import ZArith List Lia Bool Znumtheory.
Import ListNotations.
Local Open Scope Z_scope.

(** ** config.h *)

Definition CONSTK : Z := 255.
Definition CONSTC : Z := 19.
Definition WSIZE : Z := 32.
Definition LEN : nat := Z.to_nat ((CONSTK + WSIZE - 1) / WSIZE).

Definition M25519_NO_ERROR : Z := 0.
Definition M25519_ERR_INVERS : Z := 2.

(** [uint32_t], [uint64_t] and [int64_t] as conversions on [Z]. *)
Definition Word (x : Z) : Z := x mod 2 ^ WSIZE.
Definition DWord (x : Z) : Z := x mod 2 ^ (2 * WSIZE).
Definition SDWord (x : Z) : Z :=
  (x + 2 ^ (2 * WSIZE - 1)) mod 2 ^ (2 * WSIZE) - 2 ^ (2 * WSIZE - 1).

(** The masks of gfparith.c. *)
Definition ALL1MASK : Z := Word (-1).
Definition MSB1MASK : Z := Word (Z.shiftl 1 (WSIZE - 1)).
Definition MSB0MASK : Z := Z.shiftr ALL1MASK 1.
Definition MIN4MASK : Z := Word (-4).
Definition FOURXPHI : Z := DWord (Z.shiftl (DWord MSB0MASK) 2).
Definition FOURXPMI : Z := DWord (Z.shiftl (DWord ALL1MASK) 2).
Definition FOURXPLO : Z := DWord (Z.shiftl (DWord (ALL1MASK - (CONSTC - 1))) 2).

(** ** Arrays and loops *)

Notation "a '.[' i ']'" := (nth i a 0) (at level 1, left associativity, format "a .[ i ]").

(** [r[i] = v].  A write past the end of the list leaves it as it is (the C
    code never makes one on buffers of the documented sizes). *)
Fixpoint upd (l : list Z) (i : nat) (v : Z) : list Z :=
  match l, i with
  | [], _ => []
  | _ :: t, O => v :: t
  | h :: t, S i' => h :: upd t i' v
  end.

(** [for (i = lo; i < lo + n; i++) s = body i s]. *)
Fixpoint for_up {St : Type} (n i : nat) (body : nat -> St -> St) (s : St) : St :=
  match n with
  | O => s
  | S n' => for_up n' (S i) body (body i s)
  end.

(** [for (i = hi; i > hi - n; i--) s = body i s]. *)
Fixpoint for_down {St : Type} (n i : nat) (body : nat -> St -> St) (s : St) : St :=
  match n with
  | O => s
  | S n' => for_down n' (i - 1) body (body i s)
  end.

(** [while (cond) body], giving up when the fuel is spent.  The condition
    and the body may fail (a failed assertion), and evaluating the condition
    may change the state. *)
Fixpoint while {St : Type} (fuel : nat) (cond : St -> option (bool * St))
    (body : St -> option St) (s : St) : option St :=
  match fuel with
  | O => None
  | S fuel' =>
      match cond s with
      | None => None
      | Some (false, s1) => Some s1
      | Some (true, s1) =>
          match body s1 with
          | None => None
          | Some s2 => while fuel' cond body s2
          end
      end
  end.

(** ** mpiarith.c *)

(** In every function below the destination [r] is threaded through: the
    result holds the new contents of the buffer.  The operands are arrays
    of their own; the calls that pass [r] itself as the operand [a] are
    given after [gfp_mul]. *)

Definition mpi_setw (r : list Z) (a : Z) (len : nat) : list Z :=
  let r := for_down (len - 1) (len - 1) (fun i r => upd r i 0) r in
  upd r 0 a.

Definition mpi_cmpw (a : list Z) (b : Z) (len : nat) : Z :=
  let is0 := for_down (len - 1) (len - 1) (fun i is0 => Z.lor is0 a.[i]) 0 in
  let r := 0 in
  let r := r + Z.lor (Z.b2z (b >? a.[0])) (Z.b2z (negb (is0 =? 0))) in
  let r := r - Z.land (Z.b2z (b <? a.[0])) (Z.b2z (is0 =? 0)) in
  r.

(** [assert(len <= WSIZE)] makes the function partial. *)
Definition mpi_cmp (a b : list Z) (len : nat) : option Z :=
  if Z.of_nat len <=? WSIZE then
    let '(lt, gt) :=
      for_down len (len - 1)
        (fun i '(lt, gt) =>
           (Z.lor (Word (Z.shiftl lt 1)) (Z.b2z (a.[i] <? b.[i])),
            Z.lor (Word (Z.shiftl gt 1)) (Z.b2z (a.[i] >? b.[i]))))
        (0, 0) in
    let r := 0 in
    let r := r + Z.b2z (gt >? lt) in
    let r := r - Z.b2z (lt >? gt) in
    Some r
  else None.

Definition mpi_copy (r a : list Z) (len : nat) : list Z :=
  for_down len (len - 1) (fun i r => upd r i a.[i]) r.

Definition mpi_cadd (r a b : list Z) (add : Z) (len : nat) : list Z * Z :=
  let mask := Word (0 - Z.land add 1) in
  for_up len 0
    (fun i '(r, sum) =>
       let sum := DWord (sum + DWord (DWord a.[i] + Z.land b.[i] mask)) in
       let r := upd r i (Word sum) in
       let sum := Z.shiftr sum WSIZE in
       (r, sum))
    (r, 0).

Definition mpi_shr (r a : list Z) (len : nat) : list Z * Z :=
  let retval := Z.land a.[0] 1 in
  let r :=
    for_up (len - 1) 0
      (fun i r =>
         upd r i (Z.lor (Word (Z.shiftl a.[S i] (WSIZE - 1))) (Z.shiftr a.[i] 1)))
      r in
  let r := upd r (len - 1) (Z.shiftr a.[(len - 1)%nat] 1) in
  (r, retval).

Definition mpi_sub (r a b : list Z) (len : nat) : list Z * Z :=
  let '(r, dif) :=
    for_up len 0
      (fun i '(r, dif) =>
         let dif := DWord (dif + DWord (DWord a.[i] + Word (Z.lnot b.[i]))) in
         let r := upd r i (Word dif) in
         let dif := Z.shiftr dif WSIZE in
         (r, dif))
      (r, 1) in
  (r, 1 - dif).

(** ** gfparith.c *)

Definition gfp_setp (r : list Z) : list Z :=
  let r := upd r (LEN - 1) MSB0MASK in
  let r := for_down (LEN - 2) (LEN - 2) (fun i r => upd r i ALL1MASK) r in
  upd r 0 (Word (0 - CONSTC)).

Definition gfp_add (r a b : list Z) : list Z :=
  let sum := DWord (DWord a.[(LEN - 1)%nat] + b.[(LEN - 1)%nat]) in
  let msw := Z.land (Word sum) MSB0MASK in
  let sum := DWord (DWord CONSTC * Word (Z.shiftr sum (WSIZE - 1))) in
  let '(r, sum) :=
    for_up (LEN - 1) 0
      (fun i '(r, sum) =>
         let sum := DWord (sum + DWord (DWord a.[i] + b.[i])) in
         let r := upd r i (Word sum) in
         let sum := Z.shiftr sum WSIZE in
         (r, sum))
      (r, sum) in
  upd r (LEN - 1) (Word (msw + Word sum)).

(** The signed accumulator: [>>] on [SDWord] is the arithmetic shift that the
    preprocessor check of the file demands, [Z.shiftr] on a negative [Z]. *)
Definition gfp_sub (r a b : list Z) : list Z :=
  let sum := SDWord (SDWord FOURXPHI + a.[(LEN - 1)%nat] - b.[(LEN - 1)%nat]) in
  let msw := Z.land (Word sum) MSB0MASK in
  let sum := SDWord (SDWord CONSTC * Word (Z.shiftr sum (WSIZE - 1))) in
  let sum := SDWord (sum - Z.shiftl CONSTC 2) in
  let '(r, sum) :=
    for_up (LEN - 1) 0
      (fun i '(r, sum) =>
         let sum := SDWord (sum + SDWord (SDWord a.[i] - b.[i])) in
         let r := upd r i (Word sum) in
         let sum := Z.shiftr sum WSIZE in
         (r, sum))
      (r, sum) in
  upd r (LEN - 1) (Word (Word (msw + Word sum) + 4)).

(** The alternative implementation kept in the comment block at the end of
    gfparith.c. *)
Definition gfp_sub_v2 (r a b : list Z) : list Z :=
  let sum := DWord (DWord FOURXPHI + a.[(LEN - 1)%nat] - b.[(LEN - 1)%nat]) in
  let msw := Z.land (Word sum) MSB0MASK in
  let sum := DWord (DWord CONSTC * Word (Z.shiftr sum (WSIZE - 1))) in
  let sum := DWord (sum + DWord (DWord FOURXPLO + a.[0%nat] - b.[0%nat])) in
  let r := upd r 0 (Word sum) in
  let sum := Z.shiftr sum WSIZE in
  let '(r, sum) :=
    for_up (LEN - 1 - 1) 1
      (fun i '(r, sum) =>
         let sum := DWord (sum + DWord (DWord FOURXPMI + a.[i] - b.[i])) in
         let r := upd r i (Word sum) in
         let sum := Z.shiftr sum WSIZE in
         (r, sum))
      (r, sum) in
  upd r (LEN - 1) (Word (msw + Word sum)).

Definition gfp_hlv (r a : list Z) : list Z :=
  let mask := Word (0 - Z.land a.[0%nat] 1) in
  let sum := SDWord (SDWord a.[0%nat] - Z.land CONSTC mask) in
  let tmp := Word sum in
  let sum := Z.shiftr sum WSIZE in
  let '(r, tmp, sum) :=
    for_up (LEN - 1 - 1) 1
      (fun i '(r, tmp, sum) =>
         let sum := SDWord (sum + SDWord a.[i]) in
         let r := upd r (i - 1)
                    (Z.lor (Word (Z.shiftl (Word sum) (WSIZE - 1))) (Z.shiftr tmp 1)) in
         let tmp := Word sum in
         let sum := Z.shiftr sum WSIZE in
         (r, tmp, sum))
      (r, tmp, sum) in
  let sum := SDWord (sum + SDWord (SDWord a.[(LEN - 1)%nat] + Z.land MSB1MASK mask)) in
  let r := upd r (LEN - 2)
             (Z.lor (Word (Z.shiftl (Word sum) (WSIZE - 1))) (Z.shiftr tmp 1)) in
  upd r (LEN - 1) (Word (Z.shiftr sum 1)).

(** The scratch array [t] lives on the stack and is not initialised; every
    word of it is written before it is read, so it starts here as zeros. *)
Definition gfp_mul (r a b : list Z) : list Z :=
  let t := repeat 0 (2 * LEN) in
  let '(t, prod) :=
    for_up LEN 0
      (fun j '(t, prod) =>
         let prod := DWord (prod + DWord (DWord a.[j] * b.[0%nat])) in
         let t := upd t j (Word prod) in
         let prod := Z.shiftr prod WSIZE in
         (t, prod))
      (t, 0) in
  let t := upd t LEN (Word prod) in
  let t :=
    for_up (LEN - 1) 1
      (fun i t =>
         let '(t, prod) :=
           for_up LEN 0
             (fun j '(t, prod) =>
                let prod := DWord (prod + DWord (DWord a.[j] * b.[i])) in
                let prod := DWord (prod + t.[(i + j)%nat]) in
                let t := upd t (i + j) (Word prod) in
                let prod := Z.shiftr prod WSIZE in
                (t, prod))
             (t, 0) in
         upd t (i + LEN) (Word prod))
      t in
  let '(t, prod) :=
    for_up (LEN - 1) 0
      (fun i '(t, prod) =>
         let prod :=
           DWord (prod + DWord (DWord (DWord t.[(i + LEN)%nat] * Z.shiftl CONSTC 1) + t.[i])) in
         let t := upd t i (Word prod) in
         let prod := Z.shiftr prod WSIZE in
         (t, prod))
      (t, 0) in
  let prod :=
    DWord (prod + DWord (DWord (DWord t.[(2 * LEN - 1)%nat] * Z.shiftl CONSTC 1)
                         + t.[(LEN - 1)%nat])) in
  let msw := Z.land (Word prod) MSB0MASK in
  let prod := DWord (DWord CONSTC * Z.shiftr prod (WSIZE - 1)) in
  let '(r, prod) :=
    for_up (LEN - 1) 0
      (fun i '(r, prod) =>
         let prod := DWord (prod + t.[i]) in
         let r := upd r i (Word prod) in
         let prod := Z.shiftr prod WSIZE in
         (r, prod))
      (r, prod) in
  upd r (LEN - 1) (Word (msw + Word prod)).

(** ** Calls that update an operand in place

    [gfp_fred], [gfp_cmp] and [gfp_inv] call [mpi_cadd], [mpi_shr], [mpi_sub],
    [gfp_sub] and [gfp_hlv] with the destination [r] and the operand [a] being
    the same array.  In such a call a read of [a[i]] is a read of the current
    contents of [r]; the definitions below are the same C functions with [a]
    read that way. *)

Definition mpi_cadd_inplace (r b : list Z) (add : Z) (len : nat) : list Z * Z :=
  let mask := Word (0 - Z.land add 1) in
  for_up len 0
    (fun i '(r, sum) =>
       let sum := DWord (sum + DWord (DWord r.[i] + Z.land b.[i] mask)) in
       let r := upd r i (Word sum) in
       let sum := Z.shiftr sum WSIZE in
       (r, sum))
    (r, 0).

Definition mpi_shr_inplace (r : list Z) (len : nat) : list Z * Z :=
  let retval := Z.land r.[0] 1 in
  let r :=
    for_up (len - 1) 0
      (fun i r =>
         upd r i (Z.lor (Word (Z.shiftl r.[S i] (WSIZE - 1))) (Z.shiftr r.[i] 1)))
      r in
  let r := upd r (len - 1) (Z.shiftr r.[(len - 1)%nat] 1) in
  (r, retval).

Definition mpi_sub_inplace (r b : list Z) (len : nat) : list Z * Z :=
  let '(r, dif) :=
    for_up len 0
      (fun i '(r, dif) =>
         let dif := DWord (dif + DWord (DWord r.[i] + Word (Z.lnot b.[i]))) in
         let r := upd r i (Word dif) in
         let dif := Z.shiftr dif WSIZE in
         (r, dif))
      (r, 1) in
  (r, 1 - dif).

Definition gfp_sub_inplace (r b : list Z) : list Z :=
  let sum := SDWord (SDWord FOURXPHI + r.[(LEN - 1)%nat] - b.[(LEN - 1)%nat]) in
  let msw := Z.land (Word sum) MSB0MASK in
  let sum := SDWord (SDWord CONSTC * Word (Z.shiftr sum (WSIZE - 1))) in
  let sum := SDWord (sum - Z.shiftl CONSTC 2) in
  let '(r, sum) :=
    for_up (LEN - 1) 0
      (fun i '(r, sum) =>
         let sum := SDWord (sum + SDWord (SDWord r.[i] - b.[i])) in
         let r := upd r i (Word sum) in
         let sum := Z.shiftr sum WSIZE in
         (r, sum))
      (r, sum) in
  upd r (LEN - 1) (Word (Word (msw + Word sum) + 4)).

Definition gfp_hlv_inplace (r : list Z) : list Z :=
  let mask := Word (0 - Z.land r.[0%nat] 1) in
  let sum := SDWord (SDWord r.[0%nat] - Z.land CONSTC mask) in
  let tmp := Word sum in
  let sum := Z.shiftr sum WSIZE in
  let '(r, tmp, sum) :=
    for_up (LEN - 1 - 1) 1
      (fun i '(r, tmp, sum) =>
         let sum := SDWord (sum + SDWord r.[i]) in
         let r := upd r (i - 1)
                    (Z.lor (Word (Z.shiftl (Word sum) (WSIZE - 1))) (Z.shiftr tmp 1)) in
         let tmp := Word sum in
         let sum := Z.shiftr sum WSIZE in
         (r, tmp, sum))
      (r, tmp, sum) in
  let sum := SDWord (sum + SDWord (SDWord r.[(LEN - 1)%nat] + Z.land MSB1MASK mask)) in
  let r := upd r (LEN - 2)
             (Z.lor (Word (Z.shiftl (Word sum) (WSIZE - 1))) (Z.shiftr tmp 1)) in
  upd r (LEN - 1) (Word (Z.shiftr sum 1)).

(** ** gfparith.c, continued *)

(** The local array [p] starts uninitialised and is filled by [gfp_setp]. *)
Definition gfp_fred (r a : list Z) : list Z :=
  let p := gfp_setp (repeat 0 LEN) in
  let '(r, rbit) := mpi_sub r a p LEN in
  let '(r, _) := mpi_cadd_inplace r p rbit LEN in
  let '(r, rbit) := mpi_sub_inplace r p LEN in
  let '(r, _) := mpi_cadd_inplace r p rbit LEN in
  r.

Definition gfp_cmp (a b : list Z) : option Z :=
  let p := gfp_setp (repeat 0 LEN) in
  let ar := repeat 0 LEN in
  let br := repeat 0 LEN in
  let '(ar, rbit) := mpi_sub ar a p LEN in
  let '(ar, _) := mpi_cadd_inplace ar p rbit LEN in
  let '(ar, rbit) := mpi_sub_inplace ar p LEN in
  let '(ar, _) := mpi_cadd_inplace ar p rbit LEN in
  let '(br, rbit) := mpi_sub br b p LEN in
  let '(br, _) := mpi_cadd_inplace br p rbit LEN in
  let '(br, rbit) := mpi_sub_inplace br p LEN in
  let '(br, _) := mpi_cadd_inplace br p rbit LEN in
  mpi_cmp ar br LEN.

(** The working set of [gfp_inv].  [ux], [vx] and [x1] are the three parts of
    the local array [tmp]; [x2] is the caller's buffer [r] itself.  [cmp_lens]
    is a ghost trace: the [len] argument of every call of [mpi_cmp]. *)
Record inv_state : Type := mk_inv {
  ux : list Z;
  vx : list Z;
  x1 : list Z;
  x2 : list Z;
  uvlen : nat;
  cmp_lens : list nat
}.

Definition set_ux (s : inv_state) (v : list Z) : inv_state :=
  mk_inv v (vx s) (x1 s) (x2 s) (uvlen s) (cmp_lens s).
Definition set_vx (s : inv_state) (v : list Z) : inv_state :=
  mk_inv (ux s) v (x1 s) (x2 s) (uvlen s) (cmp_lens s).
Definition set_x1 (s : inv_state) (v : list Z) : inv_state :=
  mk_inv (ux s) (vx s) v (x2 s) (uvlen s) (cmp_lens s).
Definition set_x2 (s : inv_state) (v : list Z) : inv_state :=
  mk_inv (ux s) (vx s) (x1 s) v (uvlen s) (cmp_lens s).
Definition set_uvlen (s : inv_state) (n : nat) : inv_state :=
  mk_inv (ux s) (vx s) (x1 s) (x2 s) n (cmp_lens s).

(** [mpi_cmp(ux, vx, len)] on the working set, recorded in the trace. *)
Definition inv_cmp (s : inv_state) (len : nat) : option (Z * inv_state) :=
  match mpi_cmp (ux s) (vx s) len with
  | None => None
  | Some c =>
      Some (c, mk_inv (ux s) (vx s) (x1 s) (x2 s) (uvlen s) (cmp_lens s ++ [len]))
  end.

(** The body of the main loop of [gfp_inv]. *)
Definition inv_body (fuel : nat) (s : inv_state) : option inv_state :=
  match
    while fuel
      (fun s => Some (Z.land (ux s).[0%nat] 1 =? 0, s))
      (fun s =>
         let s := set_ux s (fst (mpi_shr_inplace (ux s) (uvlen s))) in
         Some (set_x1 s (gfp_hlv_inplace (x1 s))))
      s
  with
  | None => None
  | Some s =>
      match
        while fuel
          (fun s => Some (Z.land (vx s).[0%nat] 1 =? 0, s))
          (fun s =>
             let s := set_vx s (fst (mpi_shr_inplace (vx s) (uvlen s))) in
             Some (set_x2 s (gfp_hlv_inplace (x2 s))))
          s
      with
      | None => None
      | Some s =>
          match inv_cmp s (uvlen s) with
          | None => None
          | Some (c, s) =>
              let s :=
                if c >=? 0 then
                  let s := set_ux s (fst (mpi_sub_inplace (ux s) (vx s) (uvlen s))) in
                  set_x1 s (gfp_sub_inplace (x1 s) (x2 s))
                else
                  let s := set_vx s (fst (mpi_sub_inplace (vx s) (ux s) (uvlen s))) in
                  set_x2 s (gfp_sub_inplace (x2 s) (x1 s)) in
              let s :=
                if ((ux s).[(uvlen s - 1)%nat] =? 0) && ((vx s).[(uvlen s - 1)%nat] =? 0)
                then set_uvlen s (uvlen s - 1)
                else s in
              Some s
          end
      end
  end.

(** [gfp_inv(r, a)]: the return code and the final working set.  The
    [while] loops of the C code are not bounded; [fuel] bounds each of them
    here, and [None] is a run that spends it or fails an assertion. *)
Definition gfp_inv_run (fuel : nat) (r a : list Z) : option (Z * inv_state) :=
  let tmp := repeat 0 (3 * LEN) in
  let ux0 := mpi_copy (firstn LEN tmp) a LEN in
  let vx0 := gfp_setp (firstn LEN (skipn LEN tmp)) in
  let x10 := mpi_setw (skipn (2 * LEN) tmp) 1 LEN in
  let x20 := mpi_setw r 0 LEN in
  let s := mk_inv ux0 vx0 x10 x20 LEN [] in
  match
    while fuel
      (fun s =>
         match inv_cmp s LEN with
         | None => None
         | Some (c, s) => Some (c >=? 0, s)
         end)
      (fun s => Some (set_ux s (fst (mpi_sub_inplace (ux s) (vx s) LEN))))
      s
  with
  | None => None
  | Some s =>
      if mpi_cmpw (ux s) 0 LEN =? 0 then Some (M25519_ERR_INVERS, s)
      else
        match
          while fuel
            (fun s =>
               Some (negb (mpi_cmpw (ux s) 1 (uvlen s) =? 0)
                     && negb (mpi_cmpw (vx s) 1 (uvlen s) =? 0), s))
            (inv_body fuel)
            s
        with
        | None => None
        | Some s =>
            let s :=
              if mpi_cmpw (ux s) 1 LEN =? 0
              then set_x2 s (mpi_copy (x2 s) (x1 s) LEN)
              else s in
            Some (M25519_NO_ERROR, s)
        end
  end.

(** The return code and the contents of [r] after the call. *)
Definition gfp_inv (fuel : nat) (r a : list Z) : option (Z * list Z) :=
  match gfp_inv_run fuel r a with
  | None => None
  | Some (c, s) => Some (c, x2 s)
  end.

(** ** Vocabulary of the contracts *)

(** The integer an array of words stands for: [sum a[i] * 2^(32 i)]. *)
Fixpoint value (l : list Z) : Z :=
  match l with
  | [] => 0
  | w :: t => w + 2 ^ WSIZE * value t
  end.

Definition words (l : list Z) : Prop := Forall (fun w => 0 <= w < 2 ^ WSIZE) l.

(** A field element: [LEN] words, any value in [[0, 2^256 - 1]]. *)
Definition felem (a : list Z) : Prop := length a = LEN /\ words a.

(** The prime [p = 2^k - c]. *)
Definition p : Z := 2 ^ CONSTK - CONSTC.

(** Weight of the word with index [i]. *)
Definition pw (i : nat) : Z := 2 ^ (WSIZE * Z.of_nat i).

(** The invariant of the main loop of [gfp_inv] on input [a] of value [A]:
    [ux] and [vx] are positive, coprime and fit in [uvlen] words, and
    [x1 * A = ux] and [x2 * A = vx] modulo [p]. *)
Definition inv_ok (A : Z) (s : inv_state) : Prop :=
  felem (ux s) /\ felem (vx s) /\ felem (x1 s) /\ felem (x2 s) /\
  (1 <= uvlen s <= LEN)%nat /\
  1 <= value (ux s) < pw (uvlen s) /\ 1 <= value (vx s) < pw (uvlen s) /\
  Z.gcd (value (ux s)) (value (vx s)) = 1 /\
  (p | value (x1 s) * A - value (ux s)) /\
  (p | value (x2 s) * A - value (vx s)) /\
  Forall (fun n => (1 <= n <= LEN)%nat) (cmp_lens s).

(** The number of iterations the main loop of [gfp_inv] can still make. *)
Definition inv_measure (s : inv_state) : Z :=
  Z.log2 (value (ux s)) + Z.log2 (value (vx s))
  + (if Z.odd (value (ux s)) && Z.odd (value (vx s)) then 1 else 0).

(** Field elements of the scenarios: 0, 1, 2, p - 1 and 2^256 - 1. *)
Definition fe_zero : list Z := [0; 0; 0; 0; 0; 0; 0; 0].
Definition fe_one : list Z := [1; 0; 0; 0; 0; 0; 0; 0].
Definition fe_two : list Z := [2; 0; 0; 0; 0; 0; 0; 0].
Definition fe_p_minus_1 : list Z :=
  [0xFFFFFFEC; 0xFFFFFFFF; 0xFFFFFFFF; 0xFFFFFFFF;
   0xFFFFFFFF; 0xFFFFFFFF; 0xFFFFFFFF; 0x7FFFFFFF].
Definition fe_max : list Z :=
  [0xFFFFFFFF; 0xFFFFFFFF; 0xFFFFFFFF; 0xFFFFFFFF;
   0xFFFFFFFF; 0xFFFFFFFF; 0xFFFFFFFF; 0xFFFFFFFF].
(** A buffer with arbitrary previous contents. *)
Definition buf_sevens : list Z := [7; 7; 7; 7; 7; 7; 7; 7].

(** Executable versions of [words] and [felem]. *)
Definition wordsb (l : list Z) : bool :=
  forallb (fun w => (0 <=? w) && (w <? 2 ^ WSIZE)) l.

Definition felemb (a : list Z) : bool := Nat.eqb (length a) LEN && wordsb a.

(** ** A primality certificate for [p]

    Lucas' test: [n] is prime when some [a] has [a^(n-1) = 1 (mod n)] and
    [a^((n-1)/q) <> 1 (mod n)] for every prime [q] dividing [n - 1].  A
    certificate lists, for each number, the witness [a] and the factorisation
    of [n - 1] into primes that occur earlier in the list (or are 2). *)

Fixpoint powmod_pos (a : Z) (e : positive) (n : Z) : Z :=
  match e with
  | xH => a mod n
  | xO e' => let r := powmod_pos a e' n in (r * r) mod n
  | xI e' => let r := powmod_pos a e' n in (r * r * a) mod n
  end.

Definition powmod (a e n : Z) : Z :=
  match e with
  | Zpos e' => powmod_pos a e' n
  | _ => 1 mod n
  end.

Definition cert_entry : Type := (Z * Z * list (Z * Z))%type.

Definition factors_product (fs : list (Z * Z)) : Z :=
  fold_right (fun '(q, k) acc => q ^ k * acc) 1 fs.

Definition check_entry (known : list Z) (e : cert_entry) : bool :=
  let '(n, a, fs) := e in
  (1 <? n)
  && (n - 1 =? factors_product fs)
  && (powmod a (n - 1) n =? 1)
  && forallb
       (fun '(q, k) =>
          existsb (Z.eqb q) known && (0 <? k)
          && negb (powmod a ((n - 1) / q) n =? 1))
       fs.

Fixpoint check_cert (known : list Z) (es : list cert_entry) : bool :=
  match es with
  | [] => true
  | e :: es' => check_entry known e && check_cert (fst (fst e) :: known) es'
  end.

Definition p_cert : list cert_entry :=
  [(3, 2, [(2, 1)]);
   (17, 3, [(2, 4)]);
   (7, 3, [(2, 1); (3, 1)]);
   (239, 7, [(2, 1); (7, 1); (17, 1)]);
   (479, 13, [(2, 1); (239, 1)]);
   (32573, 2, [(2, 2); (17, 1); (479, 1)]);
   (65147, 2, [(2, 1); (32573, 1)]);
   (5, 2, [(2, 2)]);
   (11, 2, [(2, 1); (5, 1)]);
   (353, 3, [(2, 5); (11, 1)]);
   (31, 3, [(2, 1); (3, 1); (5, 1)]);
   (13, 2, [(2, 2); (3, 1)]);
   (53, 2, [(2, 2); (13, 1)]);
   (107, 2, [(2, 1); (53, 1)]);
   (37, 2, [(2, 2); (3, 2)]);
   (223, 3, [(2, 1); (3, 1); (37, 1)]);
   (41, 6, [(2, 3); (5, 1)]);
   (1723, 3, [(2, 1); (3, 1); (7, 1); (41, 1)]);
   (430751, 17, [(2, 1); (5, 3); (1723, 1)]);
   (43, 3, [(2, 1); (3, 1); (7, 1)]);
   (173, 2, [(2, 2); (43, 1)]);
   (4153, 5, [(2, 3); (3, 1); (173, 1)]);
   (31757755568855353, 10, [(2, 3); (3, 1); (31, 1); (107, 1); (223, 1); (4153, 1); (430751, 1)]);
   (29, 2, [(2, 2); (7, 1)]);
   (2437, 2, [(2, 2); (3, 1); (7, 1); (29, 1)]);
   (97, 5, [(2, 5); (3, 1)]);
   (19, 2, [(2, 1); (3, 2)]);
   (419, 2, [(2, 1); (11, 1); (19, 1)]);
   (569003, 2, [(2, 1); (7, 1); (97, 1); (419, 1)]);
   (2773320623, 5, [(2, 1); (2437, 1); (569003, 1)]);
   (72106336199, 7, [(2, 1); (13, 1); (2773320623, 1)]);
   (23, 5, [(2, 1); (11, 1)]);
   (47, 5, [(2, 1); (23, 1)]);
   (127, 3, [(2, 1); (3, 2); (7, 1)]);
   (103, 5, [(2, 1); (3, 1); (17, 1)]);
   (991, 6, [(2, 1); (3, 2); (5, 1); (11, 1)]);
   (8574133, 2, [(2, 2); (3, 1); (7, 1); (103, 1); (991, 1)]);
   (1919519569386763, 2, [(2, 1); (3, 1); (7, 1); (19, 1); (47, 2); (127, 1); (8574133, 1)]);
   (83, 2, [(2, 1); (41, 1)]);
   (9463, 3, [(2, 1); (3, 1); (19, 1); (83, 1)]);
   (37853, 2, [(2, 2); (9463, 1)]);
   (75707, 2, [(2, 1); (37853, 1)]);
   (75445702479781427272750846543864801, 7, [(2, 5); (3, 2); (5, 2); (75707, 1); (72106336199, 1); (1919519569386763, 1)]);
   (59, 2, [(2, 1); (29, 1)]);
   (487, 3, [(2, 1); (3, 5)]);
   (57467, 2, [(2, 1); (59, 1); (487, 1)]);
   (131, 2, [(2, 1); (5, 1); (13, 1)]);
   (132049, 26, [(2, 4); (3, 2); (7, 1); (131, 1)]);
   (3727, 3, [(2, 1); (3, 4); (23, 1)]);
   (1923133, 2, [(2, 2); (3, 1); (43, 1); (3727, 1)]);
   (74058212732561358302231226437062788676166966415465897661863160754340907, 2, [(2, 1); (3, 1); (353, 1); (57467, 1); (132049, 1); (1923133, 1); (31757755568855353, 1); (75445702479781427272750846543864801, 1)]);
   (57896044618658097711785492504343953926634992332820282019728792003956564819949, 2, [(2, 2); (3, 1); (65147, 1); (74058212732561358302231226437062788676166966415465897661863160754340907, 1)])].

(** * The other functions of mpiarith.c and gfparith.c *)

(** ** mpiarith.c: addition and multiplication *)

Definition mpi_add (r a b : list Z) (len : nat) : list Z * Z :=
  for_up len 0
    (fun i '(r, sum) =>
       let sum := DWord (sum + DWord (DWord a.[i] + b.[i])) in
       let r := upd r i (Word sum) in
       let sum := Z.shiftr sum WSIZE in
       (r, sum))
    (r, 0).

(** [assert((r != a) && (r != b))]: the operands are arrays other than [r],
    as they are here.  After the first loop [j] is [len]. *)
Definition mpi_mul (r a b : list Z) (len : nat) : list Z :=
  let '(r, prod) :=
    for_up len 0
      (fun j '(r, prod) =>
         let prod := DWord (prod + DWord (DWord a.[j] * b.[0%nat])) in
         let r := upd r j (Word prod) in
         let prod := Z.shiftr prod WSIZE in
         (r, prod))
      (r, 0) in
  let r := upd r len (Word prod) in
  for_up (len - 1) 1
    (fun i r =>
       let '(r, prod) :=
         for_up len 0
           (fun j '(r, prod) =>
              let prod := DWord (prod + DWord (DWord a.[j] * b.[i])) in
              let prod := DWord (prod + r.[(i + j)%nat]) in
              let r := upd r (i + j) (Word prod) in
              let prod := Z.shiftr prod WSIZE in
              (r, prod))
           (r, 0) in
       upd r (i + len) (Word prod))
    r.

(** The two functions of the comment block at the end of mpiarith.c. *)
Definition mpi_mul32 (r a b : list Z) (len : nat) : list Z :=
  let '(r, prod) :=
    for_up len 0
      (fun i '(r, prod) =>
         let prod := DWord (prod + DWord (DWord a.[i] * b.[0%nat])) in
         let r := upd r i (Word prod) in
         let prod := Z.shiftr prod WSIZE in
         (r, prod))
      (r, 0) in
  upd r len (Word prod).

(** After [for (j = 1; j < len; j++)] the index [j] is [len], or 1 when
    [len] is 0; after the inner loop of row [i < len] it is [len]. *)
Definition mpi_sqr (r a : list Z) (len : nat) : list Z :=
  let r := upd r 0 0 in
  let '(r, prod) :=
    for_up (len - 1) 1
      (fun j '(r, prod) =>
         let prod := DWord (prod + DWord (DWord a.[j] * a.[0%nat])) in
         let r := upd r j (Word prod) in
         let prod := Z.shiftr prod WSIZE in
         (r, prod))
      (r, 0) in
  let r := upd r (Nat.max 1 len) (Word prod) in
  let r :=
    for_up (len - 1) 1
      (fun i r =>
         let '(r, prod) :=
           for_up (len - (i + 1)) (i + 1)
             (fun j '(r, prod) =>
                let prod := DWord (prod + DWord (DWord a.[j] * a.[i])) in
                let prod := DWord (prod + r.[(i + j)%nat]) in
                let r := upd r (i + j) (Word prod) in
                let prod := Z.shiftr prod WSIZE in
                (r, prod))
             (r, 0) in
         upd r (i + len) (Word prod))
      r in
  fst
    (for_up len 0
       (fun i '(r, sum) =>
          let prod := DWord (DWord a.[i] * a.[i]) in
          let sum := DWord (sum + Word prod) in
          let sum := DWord (sum + DWord (DWord r.[(2 * i)%nat] + r.[(2 * i)%nat])) in
          let r := upd r (2 * i) (Word sum) in
          let sum := Z.shiftr sum WSIZE in
          let sum := DWord (sum + Word (Z.shiftr prod WSIZE)) in
          let sum := DWord (sum + DWord (DWord r.[(2 * i + 1)%nat] + r.[(2 * i + 1)%nat])) in
          let r := upd r (2 * i + 1) (Word sum) in
          let sum := Z.shiftr sum WSIZE in
          (r, sum))
       (r, 0)).

(** ** gfparith.c: comparison with [p], negation, squaring, short product *)

Definition gfp_cmpp (a : list Z) : Z :=
  let lt := Z.b2z (a.[(LEN - 1)%nat] <? MSB0MASK) in
  let gt := Z.b2z (a.[(LEN - 1)%nat] >? MSB0MASK) in
  let '(lt, gt) :=
    for_down (LEN - 2) (LEN - 2)
      (fun i '(lt, gt) =>
         (Z.lor (Word (Z.shiftl lt 1)) (Z.b2z (a.[i] <? ALL1MASK)),
          Word (Z.shiftl gt 1)))
      (lt, gt) in
  let lt := Z.lor (Word (Z.shiftl lt 1)) (Z.b2z (a.[0%nat] <? Word (0 - CONSTC))) in
  let gt := Z.lor (Word (Z.shiftl gt 1)) (Z.b2z (a.[0%nat] >? Word (0 - CONSTC))) in
  let r := 0 in
  let r := r + Z.b2z (gt >? lt) in
  let r := r - Z.b2z (lt >? gt) in
  r.

(** [neg] is an [int]; only its lowest bit is used. *)
Definition gfp_cneg (r a : list Z) (neg : Z) : list Z :=
  let mask := Word (0 - Word (Z.land neg 1)) in
  let sum := SDWord (SDWord MIN4MASK + Z.lxor mask a.[(LEN - 1)%nat]) in
  let msw := Z.land (Word sum) MSB0MASK in
  let sum := SDWord (SDWord CONSTC * Word (Z.shiftr sum (WSIZE - 1))) in
  let sum := SDWord (SDWord (sum - Z.shiftl CONSTC 1)
                     - Z.land mask (Z.shiftl CONSTC 1 - 1)) in
  let '(r, sum) :=
    for_up (LEN - 1) 0
      (fun i '(r, sum) =>
         let sum := SDWord (sum + SDWord (Z.lxor mask a.[i])) in
         let r := upd r i (Word sum) in
         let sum := Z.shiftr sum WSIZE in
         (r, sum))
      (r, sum) in
  upd r (LEN - 1) (Word (Word (msw + Word sum) + 4)).

(** The scratch array [t] is not initialised; [t[0]] is set first and every
    other word is written before it is read. *)
Definition gfp_sqr (r a : list Z) : list Z :=
  let t := repeat 0 (2 * LEN) in
  let t := upd t 0 0 in
  let '(t, prod) :=
    for_up (LEN - 1) 1
      (fun j '(t, prod) =>
         let prod := DWord (prod + DWord (DWord a.[j] * a.[0%nat])) in
         let t := upd t j (Word prod) in
         let prod := Z.shiftr prod WSIZE in
         (t, prod))
      (t, 0) in
  let t := upd t LEN (Word prod) in
  let t :=
    for_up (LEN - 1) 1
      (fun i t =>
         let '(t, prod) :=
           for_up (LEN - (i + 1)) (i + 1)
             (fun j '(t, prod) =>
                let prod := DWord (prod + DWord (DWord a.[j] * a.[i])) in
                let prod := DWord (prod + t.[(i + j)%nat]) in
                let t := upd t (i + j) (Word prod) in
                let prod := Z.shiftr prod WSIZE in
                (t, prod))
             (t, 0) in
         upd t (i + LEN) (Word prod))
      t in
  let t :=
    fst
      (for_up LEN 0
         (fun i '(t, sum) =>
            let prod := DWord (DWord a.[i] * a.[i]) in
            let sum := DWord (sum + Word prod) in
            let sum := DWord (sum + DWord (DWord t.[(2 * i)%nat] + t.[(2 * i)%nat])) in
            let t := upd t (2 * i) (Word sum) in
            let sum := Z.shiftr sum WSIZE in
            let sum := DWord (sum + Word (Z.shiftr prod WSIZE)) in
            let sum :=
              DWord (sum + DWord (DWord t.[(2 * i + 1)%nat] + t.[(2 * i + 1)%nat])) in
            let t := upd t (2 * i + 1) (Word sum) in
            let sum := Z.shiftr sum WSIZE in
            (t, sum))
         (t, 0)) in
  let '(t, prod) :=
    for_up (LEN - 1) 0
      (fun i '(t, prod) =>
         let prod :=
           DWord (prod + DWord (DWord (DWord t.[(i + LEN)%nat] * Z.shiftl CONSTC 1) + t.[i])) in
         let t := upd t i (Word prod) in
         let prod := Z.shiftr prod WSIZE in
         (t, prod))
      (t, 0) in
  let prod :=
    DWord (prod + DWord (DWord (DWord t.[(2 * LEN - 1)%nat] * Z.shiftl CONSTC 1)
                         + t.[(LEN - 1)%nat])) in
  let msw := Z.land (Word prod) MSB0MASK in
  let prod := DWord (DWord CONSTC * Z.shiftr prod (WSIZE - 1)) in
  let '(r, prod) :=
    for_up (LEN - 1) 0
      (fun i '(r, prod) =>
         let prod := DWord (prod + t.[i]) in
         let r := upd r i (Word prod) in
         let prod := Z.shiftr prod WSIZE in
         (r, prod))
      (r, prod) in
  upd r (LEN - 1) (Word (msw + Word prod)).

(** Only the word [b[0]] of the second operand is read.  The scratch array
    [t] has [LEN + 1] words, all written by the first loop and the store that
    follows it. *)
Definition gfp_mul32 (r a b : list Z) : list Z :=
  let t := repeat 0 (LEN + 1) in
  let '(t, prod) :=
    for_up LEN 0
      (fun j '(t, prod) =>
         let prod := DWord (prod + DWord (DWord a.[j] * b.[0%nat])) in
         let t := upd t j (Word prod) in
         let prod := Z.shiftr prod WSIZE in
         (t, prod))
      (t, 0) in
  let t := upd t LEN (Word prod) in
  let msw := Z.land t.[(LEN - 1)%nat] MSB0MASK in
  let prod := DWord (DWord CONSTC * Z.shiftr t.[(LEN - 1)%nat] (WSIZE - 1)) in
  let prod :=
    DWord (prod + DWord (DWord (DWord t.[(0 + LEN)%nat] * Z.shiftl CONSTC 1) + t.[0%nat])) in
  let r := upd r 0 (Word prod) in
  let prod := Z.shiftr prod WSIZE in
  let '(r, prod) :=
    for_up (LEN - 1 - 1) 1
      (fun i '(r, prod) =>
         let prod := DWord (prod + DWord t.[i]) in
         let r := upd r i (Word prod) in
         let prod := Z.shiftr prod WSIZE in
         (r, prod))
      (r, prod) in
  upd r (LEN - 1) (Word (Word prod + msw)).

(** ** gfparith.c: the alternative implementations of the comment block *)

Definition gfp_cneg_v2 (r a : list Z) (neg : Z) : list Z :=
  let mask := Word (0 - Word (Z.land neg 1)) in
  let sum := DWord (DWord (Z.shiftr FOURXPHI 1) + Z.lxor mask a.[(LEN - 1)%nat]) in
  let msw := Z.land (Word sum) MSB0MASK in
  let sum := DWord (DWord CONSTC * Word (Z.shiftr sum (WSIZE - 1))) in
  let sum := DWord (sum - Z.land mask (Z.shiftl CONSTC 1 - 1)) in
  let sum := DWord (sum + DWord (DWord (Z.shiftr FOURXPLO 1) + Z.lxor mask a.[0%nat])) in
  let r := upd r 0 (Word sum) in
  let sum := Z.shiftr sum WSIZE in
  let '(r, sum) :=
    for_up (LEN - 1 - 1) 1
      (fun i '(r, sum) =>
         let sum := DWord (sum + DWord (DWord (Z.shiftr FOURXPMI 1) + Z.lxor mask a.[i])) in
         let r := upd r i (Word sum) in
         let sum := Z.shiftr sum WSIZE in
         (r, sum))
      (r, sum) in
  upd r (LEN - 1) (Word (msw + Word sum)).

Definition gfp_hlv_v2 (r a : list Z) : list Z :=
  let mask := Word (0 - Z.land a.[0%nat] 1) in
  let sum := DWord (DWord a.[0%nat] + Z.land (Word (0 - CONSTC)) mask) in
  let tmp := Word sum in
  let sum := Z.shiftr sum WSIZE in
  let '(r, tmp, sum) :=
    for_up (LEN - 1 - 1) 1
      (fun i '(r, tmp, sum) =>
         let sum := DWord (sum + DWord (DWord a.[i] + mask)) in
         let r := upd r (i - 1)
                    (Z.lor (Word (Z.shiftl (Word sum) (WSIZE - 1))) (Z.shiftr tmp 1)) in
         let tmp := Word sum in
         let sum := Z.shiftr sum WSIZE in
         (r, tmp, sum))
      (r, tmp, sum) in
  let sum := DWord (sum + DWord (DWord a.[(LEN - 1)%nat] + Z.land MSB0MASK mask)) in
  let r := upd r (LEN - 2)
             (Z.lor (Word (Z.shiftl (Word sum) (WSIZE - 1))) (Z.shiftr tmp 1)) in
  upd r (LEN - 1) (Word (Z.shiftr sum 1)).

(** [a] holds [2 * LEN] words.  The words of [r] written by the first loop
    are read back by the second. *)
Definition gfp_red (r a : list Z) : list Z :=
  let '(r, prod) :=
    for_up (LEN - 1) 0
      (fun i '(r, prod) =>
         let prod :=
           DWord (prod + DWord (DWord (DWord a.[(i + LEN)%nat] * Z.shiftl CONSTC 1) + a.[i])) in
         let r := upd r i (Word prod) in
         let prod := Z.shiftr prod WSIZE in
         (r, prod))
      (r, 0) in
  let prod :=
    DWord (prod + DWord (DWord (DWord a.[(2 * LEN - 1)%nat] * Z.shiftl CONSTC 1)
                         + a.[(LEN - 1)%nat])) in
  let msw := Z.land (Word prod) MSB0MASK in
  let sum := DWord (DWord CONSTC * Z.shiftr prod (WSIZE - 1)) in
  let '(r, sum) :=
    for_up (LEN - 1) 0
      (fun i '(r, sum) =>
         let sum := DWord (sum + r.[i]) in
         let r := upd r i (Word sum) in
         let sum := Z.shiftr sum WSIZE in
         (r, sum))
      (r, sum) in
  upd r (LEN - 1) (Word (msw + Word sum)).

(** [a] holds [LEN + 1] words. *)
Definition gfp_red32 (r a : list Z) : list Z :=
  let prod := DWord (DWord CONSTC * Z.shiftr a.[(LEN - 1)%nat] (WSIZE - 1)) in
  let msw := Z.land a.[(LEN - 1)%nat] MSB0MASK in
  let prod :=
    DWord (prod + DWord (DWord (DWord a.[LEN] * Z.shiftl CONSTC 1) + a.[0%nat])) in
  let r := upd r 0 (Word prod) in
  let prod := Z.shiftr prod WSIZE in
  let '(r, prod) :=
    for_up (LEN - 1 - 1) 1
      (fun i '(r, prod) =>
         let prod := DWord (prod + DWord a.[i]) in
         let r := upd r i (Word prod) in
         let prod := Z.shiftr prod WSIZE in
         (r, prod))
      (r, prod) in
  upd r (LEN - 1) (Word (Word prod + msw)).

(** ** mpiarith.c: conversion from and to hex-strings *)

Definition M25519_ERR_HEXSTR : Z := 1.

(** [sizeof(Word)] and the conversion to [unsigned char]. *)
Definition sizeof_Word : nat := 4.
Definition UChar (x : Z) : Z := x mod 2 ^ 8.

(** A C string is the array of its character codes, read as [unsigned char];
    the first code 0 ends it.  (The tests of [mpi_from_hex] on [hexstr[0]] and
    [hexstr[1]] give the same verdict when [char] is signed.) *)
Fixpoint strlen (s : list Z) : nat :=
  match s with
  | [] => O
  | c :: t => if c =? 0 then O else S (strlen t)
  end.

(** [#define TOLOWER(a) (((a) <= 'Z') ? ((a) + 32) : (a))], ['Z'] being 90. *)
Definition TOLOWER (a : Z) : Z := if a <=? 90 then a + 32 else a.

(** [i = 0; while (cond && i < len) { body; i++ }]: the counter [i] bounds
    the number of iterations by [len]; after [len] iterations [i < len]
    fails, so nothing is lost by stopping there. *)
Fixpoint while_upto {St : Type} (n : nat) (cond : St -> bool) (body : St -> St)
    (s : St) : St :=
  match n with
  | O => s
  | S n' => if cond s then while_upto n' cond body (body s) else s
  end.

(** [hexstr] is [NULL] ([None]) or a string.  The result is the return code
    and the contents of [r].  ['0'] is 48, ['9'] is 57, ['x'] is 120. *)
Definition mpi_from_hex (r : list Z) (hexstr : option (list Z)) (len : nat)
    : Z * list Z :=
  match hexstr with
  | None => (M25519_ERR_HEXSTR, r)
  | Some hexstr =>
      let hlen := strlen hexstr in
      if (hlen <? 3)%nat then (M25519_ERR_HEXSTR, r)
      else if negb (hexstr.[0%nat] =? 48) || negb (TOLOWER hexstr.[1%nat] =? 120)
      then (M25519_ERR_HEXSTR, r)
      else
        let '(r, hlen, i) :=
          while_upto len
            (fun '(r, hlen, i) => (2 <? hlen)%nat && (i <? len)%nat)
            (fun '(r, hlen, i) =>
               let m := Nat.min (hlen - 2) (2 * sizeof_Word) in
               let w :=
                 for_up m (hlen - m)
                   (fun j w =>
                      let c := UChar hexstr.[j] in
                      let c := UChar (if c <=? 57 then c - 48 else Z.land c 7 + 9) in
                      Z.lor (Word (Z.shiftl w 4)) c)
                   0 in
               let r := upd r i w in
               (r, (hlen - m)%nat, S i))
            (r, hlen, O) in
        let r := for_up (len - i) i (fun k r => upd r k 0) r in
        (M25519_NO_ERROR, r)
  end.

(** The result is the contents of [hexstr]; [sizeof(Word) << 1] is
    [2 * sizeof_Word], and [j] is [2 * sizeof_Word] after the inner loop. *)
Definition mpi_to_hex (hexstr a : list Z) (len : nat) : list Z :=
  let hexstr := upd hexstr 0 48 in
  let hexstr := upd hexstr 1 120 in
  let hlen := (1 + len * (2 * sizeof_Word))%nat in
  let hexstr := upd hexstr (hlen + 1) 0 in
  let '(hexstr, hlen, i) :=
    while_upto len
      (fun '(hexstr, hlen, i) => (2 <=? hlen)%nat && (i <? len)%nat)
      (fun '(hexstr, hlen, i) =>
         let w := a.[i] in
         let '(hexstr, w) :=
           for_up (2 * sizeof_Word) 0
             (fun j '(hexstr, w) =>
                let c := Z.land (UChar w) 15 in
                let hexstr := upd hexstr (hlen - j) (c + (if c <? 10 then 48 else 55)) in
                let w := Z.shiftr w 4 in
                (hexstr, w))
             (hexstr, w) in
         (hexstr, (hlen - 2 * sizeof_Word)%nat, S i))
      (hexstr, hlen, O) in
  hexstr.

(** Vocabulary of the statements on hex-strings: the [j]-th hex digit of a
    word, and the character that [mpi_to_hex] writes for a digit. *)
Definition nibble (w : Z) (j : nat) : Z := (w / 16 ^ Z.of_nat j) mod 16.
Definition hexchar (c : Z) : Z := c + (if c <? 10 then 48 else 55).

(** The hex digits [0-9], [A-F] and [a-f], the value of one, and the number
    that the [n] characters from [s[lo]] on write, the first one being the
    most significant. *)
Definition is_hexdigit (c : Z) : bool :=
  ((48 <=? c) && (c <=? 57)) || ((65 <=? c) && (c <=? 70)) ||
  ((97 <=? c) && (c <=? 102)).
Definition hexdigit_val (c : Z) : Z :=
  if c <=? 57 then c - 48 else if c <=? 70 then c - 55 else c - 87.
Fixpoint hexnum (s : list Z) (lo n : nat) : Z :=
  match n with
  | O => 0
  | S n' => 16 * hexnum s lo n' + hexdigit_val s.[(lo + n')%nat]
  end.

(** ** Operands of the examples *)

Definition mp_ones : list Z := [4294967295; 4294967295].
Definition mp_one : list Z := [1; 0].
Definition mp_hi : list Z := [0; 1].
Definition mp_hi1 : list Z := [1; 1].
Definition mp_sevens : list Z := [7; 7; 7].
Definition mp_nines : list Z := [9; 9].
Definition mp_buf5 : list Z := [5; 5; 5; 5; 5].
(** The field element [2 * 2^224]. *)
Definition fe_top2 : list Z := [0; 0; 0; 0; 0; 0; 0; 2].
(** The strings [0x], [0X1f] and [1f], and a character buffer. *)
Definition str_0x : list Z := [48; 120; 0].
Definition str_0X1f : list Z := [48; 88; 49; 102; 0].
Definition str_1f : list Z := [49; 102; 0].
(** The string [0x1aB]. *)
Definition str_0x1aB : list Z := [48; 120; 49; 97; 66; 0].
Definition char_buf : list Z := repeat 35 24.
Definition mp_buf9 : list Z := repeat 9 (LEN + 1).
Definition wide_ones : list Z := repeat 4294967295 (2 * LEN).
Definition wide_sevens : list Z := repeat 7 (2 * LEN).

(** ** Vocabulary of the proofs about squaring *)

(** The squares on the diagonal of the product [a * a]:
    [sum a[k]^2 * 2^(64 k)] over [k < i]. *)
Fixpoint diag (a : list Z) (i : nat) : Z :=
  match i with
  | O => 0
  | S k => diag a k + a.[k] * a.[k] * pw (2 * k)
  end.

(** * The RISC-V assembly versions (RV32IM) *)

Module RV32.

(** The registers that the routines use; [zero] reads as 0 and ignores
    writes. *)
Inductive reg : Type := zero | a0 | a1 | a2 | a3 | a4 | a5 | a6 | a7.

Definition reg_eqb (r1 r2 : reg) : bool :=
  match r1, r2 with
  | zero, zero | a0, a0 | a1, a1 | a2, a2 | a3, a3
  | a4, a4 | a5, a5 | a6, a6 | a7, a7 => true
  | _, _ => false
  end.

(** The machine: the 32-bit registers, and the memory as the 32-bit word
    at each (word-aligned) byte address. *)
Record machine : Type := { regs : reg -> Z; mem : Z -> Z }.

Definition get (s : machine) (r : reg) : Z :=
  match r with zero => 0 | _ => regs s r end.

Definition set (rd : reg) (v : Z) (s : machine) : machine :=
  {| regs := fun r => if reg_eqb r rd then v else regs s r; mem := mem s |}.

Definition store (ad v : Z) (s : machine) : machine :=
  {| regs := regs s; mem := fun ad' => if ad' =? ad then v else mem s ad' |}.

(** A register read as a signed number. *)
Definition signed (v : Z) : Z := if v <? 2 ^ 31 then v else v - 2 ^ 32.

(** ** The instructions *)

Definition instr : Type := machine -> machine.

Definition mv (rd rs : reg) : instr := fun s => set rd (get s rs) s.
Definition li (rd : reg) (imm : Z) : instr := fun s => set rd (Word imm) s.
Definition add (rd rs1 rs2 : reg) : instr :=
  fun s => set rd (Word (get s rs1 + get s rs2)) s.
Definition sub (rd rs1 rs2 : reg) : instr :=
  fun s => set rd (Word (get s rs1 - get s rs2)) s.
Definition addi (rd rs1 : reg) (imm : Z) : instr :=
  fun s => set rd (Word (get s rs1 + imm)) s.
Definition and (rd rs1 rs2 : reg) : instr :=
  fun s => set rd (Z.land (get s rs1) (get s rs2)) s.
Definition or (rd rs1 rs2 : reg) : instr :=
  fun s => set rd (Z.lor (get s rs1) (get s rs2)) s.
Definition xor (rd rs1 rs2 : reg) : instr :=
  fun s => set rd (Z.lxor (get s rs1) (get s rs2)) s.
Definition andi (rd rs1 : reg) (imm : Z) : instr :=
  fun s => set rd (Z.land (get s rs1) (Word imm)) s.
Definition sltu (rd rs1 rs2 : reg) : instr :=
  fun s => set rd (if get s rs1 <? get s rs2 then 1 else 0) s.
Definition slli (rd rs1 : reg) (shamt : Z) : instr :=
  fun s => set rd (Word (Z.shiftl (get s rs1) shamt)) s.
Definition srli (rd rs1 : reg) (shamt : Z) : instr :=
  fun s => set rd (Z.shiftr (get s rs1) shamt) s.
Definition srai (rd rs1 : reg) (shamt : Z) : instr :=
  fun s => set rd (Word (Z.shiftr (signed (get s rs1)) shamt)) s.
Definition mul (rd rs1 rs2 : reg) : instr :=
  fun s => set rd (Word (get s rs1 * get s rs2)) s.
(** [lw rd, off(rs1)] and [sw rs2, off(rs1)]. *)
Definition lw (rd : reg) (off : Z) (rs1 : reg) : instr :=
  fun s => set rd (mem s (Word (get s rs1 + off))) s.
Definition sw (rs2 : reg) (off : Z) (rs1 : reg) : instr :=
  fun s => store (Word (get s rs1 + off)) (get s rs2) s.

(** A block of instructions without a branch. *)
Fixpoint run (l : list instr) (s : machine) : machine :=
  match l with
  | [] => s
  | i :: l' => run l' (i s)
  end.

(** [L: block; bnez r, L]: the block is run, and run again as long as [r]
    is not 0 after it; [fuel] bounds the number of runs. *)
Fixpoint loop_bnez (fuel : nat) (block : list instr) (r : reg) (s : machine)
    : option machine :=
  match fuel with
  | O => None
  | S fuel' =>
      let s := run block s in
      if get s r =? 0 then Some s else loop_bnez fuel' block r s
  end.

(** ** mpi_sub_rvm.S *)

Module MpiSub.

Definition rptr := a0.
Definition aptr := a1.
Definition bptr := a2.
Definition len := a3.
Definition tmp1 := a4.
Definition tmp2 := a5.
Definition dif := a6.
Definition bor := a7.

Definition LLOOP : list instr :=
  [ lw dif 0 aptr;
    lw tmp1 0 bptr;
    addi aptr aptr 4;
    addi bptr bptr 4;
    sltu tmp2 dif tmp1;
    sub dif dif tmp1;
    sltu tmp1 dif bor;
    sub dif dif bor;
    add bor tmp1 tmp2;
    addi len len (-1);
    sw dif 0 rptr;
    addi rptr rptr 4 ].

Definition mpi_sub_rvm (fuel : nat) (s : machine) : option machine :=
  let s := mv bor zero s in
  match loop_bnez fuel LLOOP len s with
  | Some s => Some (mv a0 bor s)
  | None => None
  end.

End MpiSub.

(** ** mpi_shr_rvm.S *)

Module MpiShr.

Definition rptr := a0.
Definition aptr := a1.
Definition len := a2.
Definition tmp := a3.
Definition cur := a4.
Definition old := a5.
Definition rval := a6.

Definition LLOOP : list instr :=
  [ lw cur 0 aptr;
    addi aptr aptr 4;
    addi len len (-1);
    slli tmp cur 31;
    or tmp tmp old;
    srli old cur 1;
    sw tmp 0 rptr;
    addi rptr rptr 4 ].

Definition LTERM : list instr :=
  [ sw old 0 rptr;
    mv a0 rval ].

Definition mpi_shr_rvm (fuel : nat) (s : machine) : option machine :=
  let s :=
    run [ lw old 0 aptr;
          addi aptr aptr 4;
          addi len len (-1);
          andi rval old 1;
          srli old old 1 ] s in
  if get s len =? 0 then Some (run LTERM s)
  else
    match loop_bnez fuel LLOOP len s with
    | Some s => Some (run LTERM s)
    | None => None
    end.

End MpiShr.

(** ** gfp_sub_rvm.S *)

Module GfpSub.

Definition CCON : Z := 19.

Definition rptr := a0.
Definition aptr := a1.
Definition bptr := a2.
Definition tmp0 := a3.
Definition tmp1 := a4.
Definition sumw := a5.
Definition cryw := a6.
Definition rmsw := a7.

Definition SUBW_V1 (shi slo ccw cin : reg) (i : Z) : list instr :=
  [ slli ccw ccw 2;
    sltu tmp0 cin ccw;
    sub shi cin ccw;
    lw slo i aptr;
    lw tmp1 i bptr;
    add slo slo shi;
    sltu shi slo shi;
    sub shi shi tmp0;
    sltu tmp0 slo tmp1;
    sub slo slo tmp1;
    sub shi shi tmp0;
    sw slo i rptr ].

Definition SUBW_V2 (shi slo cin : reg) (i : Z) : list instr :=
  [ lw slo i aptr;
    lw tmp1 i bptr;
    srai tmp0 cin 1;
    add slo slo cin;
    sltu shi slo cin;
    add shi shi tmp0;
    sltu tmp0 slo tmp1;
    sub slo slo tmp1;
    sub shi shi tmp0;
    sw slo i rptr ].

Definition SUBW_V3 (shi slo : reg) (i : Z) : list instr :=
  [ lw tmp0 i aptr;
    lw tmp1 i bptr;
    addi slo tmp0 (-4);
    sltu tmp0 slo tmp0;
    addi shi tmp0 1;
    sltu tmp0 slo tmp1;
    sub slo slo tmp1;
    sub shi shi tmp0 ].

Definition SUBW_V4 (sum cin : reg) (i : Z) : list instr :=
  [ add sum sum cin;
    addi sum sum 4;
    sw sum i rptr ].

Definition MULHIXC (rhi rlo ccw dhi dlo : reg) : list instr :=
  [ srli tmp0 dlo 31;
    slli rhi dhi 1;
    add rhi rhi tmp0;
    slli rlo dlo 1;
    mul rhi rhi ccw;
    srli rlo rlo 1 ].

Definition gfp_sub_rvm (s : machine) : machine :=
  run (SUBW_V3 cryw sumw 28
       ++ [ li tmp1 CCON ]
       ++ MULHIXC cryw rmsw tmp1 cryw sumw
       ++ SUBW_V1 cryw sumw tmp1 cryw 0
       ++ SUBW_V2 cryw sumw cryw 4
       ++ SUBW_V2 cryw sumw cryw 8
       ++ SUBW_V2 cryw sumw cryw 12
       ++ SUBW_V2 cryw sumw cryw 16
       ++ SUBW_V2 cryw sumw cryw 20
       ++ SUBW_V2 cryw sumw cryw 24
       ++ SUBW_V4 rmsw cryw 28) s.

End GfpSub.

(** ** gfp_hlv_rvm.S *)

Module GfpHlv.

Definition CCON : Z := 19.

Definition rptr := a0.
Definition aptr := a1.
Definition mask := a2.
Definition tmp0 := a3.
Definition tmp1 := a4.
Definition dif0 := a5.
Definition dif1 := a6.
Definition bbit := a7.

Definition HLVW_V1 (bbo dif : reg) (i : Z) : list instr :=
  [ lw dif i aptr;
    li tmp0 CCON;
    andi tmp1 dif 1;
    sub mask zero tmp1;
    and tmp0 tmp0 mask;
    sltu bbo dif tmp0;
    sub dif dif tmp0 ].

Definition HLVW_V2 (bbo dif bbi old : reg) (i : Z) : list instr :=
  [ lw tmp0 i aptr;
    srli old old 1;
    sub dif tmp0 bbi;
    sltu bbo tmp0 bbi;
    slli tmp1 dif 31;
    or old old tmp1;
    sw old (i - 4) rptr ].

Definition HLVW_V3 (cry sum bbi old : reg) (i : Z) : list instr :=
  [ lw sum i aptr;
    srli old old 1;
    slli mask mask 31;
    sub mask mask bbi;
    add sum sum mask;
    sltu cry sum mask;
    slli tmp0 sum 31;
    xor old old tmp0;
    sw old (i - 4) rptr;
    srli sum sum 1;
    slli cry cry 31;
    xor sum sum cry;
    sw sum i rptr ].

Definition gfp_hlv_rvm (s : machine) : machine :=
  run (HLVW_V1 bbit dif0 0
       ++ HLVW_V2 bbit dif1 bbit dif0 4
       ++ HLVW_V2 bbit dif0 bbit dif1 8
       ++ HLVW_V2 bbit dif1 bbit dif0 12
       ++ HLVW_V2 bbit dif0 bbit dif1 16
       ++ HLVW_V2 bbit dif1 bbit dif0 20
       ++ HLVW_V2 bbit dif0 bbit dif1 24
       ++ HLVW_V3 bbit dif1 bbit dif0 28) s.

End GfpHlv.

(** The [n] words of the array at the address [p]. *)
Definition load_array (m : Z -> Z) (p : Z) (n : nat) : list Z :=
  map (fun i => m (p + 4 * Z.of_nat i)) (seq 0 n).

(** A machine for the examples: the memory holds the words of a list from
    the address 0 on, the registers [a0], [a1], [a2], [a3] the arguments. *)
Definition machine_of (l : list Z) (v0 v1 v2 v3 : Z) : machine :=
  {| regs := fun r => match r with
                   | a0 => v0 | a1 => v1 | a2 => v2 | a3 => v3 | _ => 0
                   end;
     mem := fun ad => if (0 <=? ad) && (ad mod 4 =? 0)
                      then nth (Z.to_nat (ad / 4)) l 0 else 0 |}.

(** [mpi_sub_rvm(r, a, b, 2)] with [a] at the address 0, [b] at 8 and [r]
    at 16, and [mpi_shr_rvm(r, r, 3)] on the array at the address 0. *)
Definition mach_sub : machine :=
  machine_of (mp_ones ++ mp_hi1 ++ mp_nines) 16 0 8 2.
Definition mach_shr : machine := machine_of mp_sevens 0 0 3 0.
(** [gfp_sub_rvm(r, a, b)] with [a] at the address 0, [b] at 32 and [r] at
    64, and [gfp_hlv_rvm(r, r)] on the array at the address 0. *)
Definition mach_gsub : machine :=
  machine_of (fe_two ++ fe_p_minus_1 ++ buf_sevens) 64 0 32 0.
Definition mach_ghlv : machine := machine_of fe_max 0 0 0 0.

End RV32.

(** * Proofs *)

(** ** Conversions *)

Lemma Word_small x : 0 <= x < 2 ^ 32 -> Word x = x.
Proof. intros; unfold Word, WSIZE; apply Z.mod_small; lia. Qed.

Lemma Word_range x : 0 <= Word x < 2 ^ 32.
Proof. unfold Word, WSIZE; apply Z.mod_pos_bound; lia. Qed.

Lemma DWord_small x : 0 <= x < 2 ^ 64 -> DWord x = x.
Proof. intros; unfold DWord, WSIZE; apply Z.mod_small; simpl; lia. Qed.

Lemma SDWord_small x : - 2 ^ 63 <= x < 2 ^ 63 -> SDWord x = x.
Proof.
  intros; unfold SDWord, WSIZE; simpl (2 * 32 - 1); simpl (2 * 32).
  rewrite Z.mod_small; lia.
Qed.

Lemma shiftr_WSIZE x : Z.shiftr x WSIZE = x / 2 ^ 32.
Proof. unfold WSIZE; apply Z.shiftr_div_pow2; lia. Qed.

Lemma consts :
  ALL1MASK = 2 ^ 32 - 1 /\ MSB1MASK = 2 ^ 31 /\ MSB0MASK = 2 ^ 31 - 1 /\
  MIN4MASK = 2 ^ 32 - 4 /\ FOURXPHI = 2 ^ 33 - 4 /\ FOURXPMI = 2 ^ 34 - 4 /\
  FOURXPLO = 2 ^ 34 - 76 /\ LEN = 8%nat.
Proof. repeat split; reflexivity. Qed.

(** ** Word weights *)

Lemma pw_0 : pw 0 = 1.
Proof. reflexivity. Qed.

Lemma pw_S i : pw (S i) = 2 ^ 32 * pw i.
Proof.
  unfold pw, WSIZE. rewrite Nat2Z.inj_succ, Z.mul_succ_r, Z.pow_add_r by lia.
  lia.
Qed.

Lemma pw_pos i : 0 < pw i.
Proof. unfold pw, WSIZE; apply Z.pow_pos_nonneg; lia. Qed.

Lemma pw_add i j : pw (i + j) = pw i * pw j.
Proof.
  unfold pw, WSIZE. rewrite Nat2Z.inj_add, Z.mul_add_distr_l, Z.pow_add_r by lia.
  reflexivity.
Qed.

(** ** Lists of words *)

Lemma value_app l1 l2 : value (l1 ++ l2) = value l1 + pw (length l1) * value l2.
Proof.
  induction l1 as [|w l1 IH]; cbn [app value length].
  - rewrite pw_0; lia.
  - rewrite IH, pw_S. unfold WSIZE. lia.
Qed.

Lemma words_nth l i : words l -> 0 <= l.[i] < 2 ^ 32.
Proof.
  intros H; revert i; induction H as [|w l Hw _ IH]; intros [|i]; cbn; auto; lia.
Qed.

Lemma words_app l1 l2 : words l1 -> words l2 -> words (l1 ++ l2).
Proof. intros; apply Forall_app; auto. Qed.

Lemma words_firstn n l : words l -> words (firstn n l).
Proof.
  intros H; rewrite <- (firstn_skipn n l) in H. apply Forall_app in H; tauto.
Qed.

Lemma words_skipn n l : words l -> words (skipn n l).
Proof.
  intros H; rewrite <- (firstn_skipn n l) in H. apply Forall_app in H; tauto.
Qed.

Lemma value_range l : words l -> 0 <= value l < pw (length l).
Proof.
  induction 1 as [|w l Hw _ IH]; cbn [value length].
  - rewrite pw_0; lia.
  - rewrite pw_S. unfold WSIZE in *. lia.
Qed.

Lemma firstn_S_nth (l : list Z) i :
  (i < length l)%nat -> firstn (S i) l = firstn i l ++ [l.[i]].
Proof.
  revert i; induction l as [|w l IH]; intros i Hi; cbn in Hi; [lia|].
  destruct i as [|i]; [reflexivity|].
  rewrite !firstn_cons. cbn [nth app]. rewrite IH by lia. reflexivity.
Qed.

Lemma value_firstn_S l i :
  value (firstn (S i) l) = value (firstn i l) + l.[i] * pw i.
Proof.
  destruct (Nat.lt_ge_cases i (length l)) as [Hi|Hi].
  - rewrite firstn_S_nth, value_app by exact Hi.
    rewrite length_firstn, Nat.min_l by lia. cbn [value]. lia.
  - rewrite !firstn_all2 by lia. rewrite nth_overflow by lia. lia.
Qed.

Lemma value_split n l : value l = value (firstn n l) + pw (length (firstn n l)) * value (skipn n l).
Proof. rewrite <- value_app, firstn_skipn; reflexivity. Qed.

Lemma value_split_le n l :
  (n <= length l)%nat -> value l = value (firstn n l) + pw n * value (skipn n l).
Proof.
  intros H. rewrite (value_split n l) at 1. rewrite length_firstn, Nat.min_l by lia.
  reflexivity.
Qed.

Lemma length_upd l i v : length (upd l i v) = length l.
Proof.
  revert i; induction l as [|w l IH]; intros [|i]; cbn; auto.
Qed.

Lemma nth_upd_eq l i v : (i < length l)%nat -> (upd l i v).[i] = v.
Proof.
  revert i; induction l as [|w l IH]; intros [|i] H; cbn in *; try lia; auto.
  apply IH; lia.
Qed.

Lemma nth_upd_neq l i j v : i <> j -> (upd l i v).[j] = l.[j].
Proof.
  revert i j; induction l as [|w l IH]; intros [|i] [|j] H; cbn; auto; try lia.
Qed.

Lemma firstn_upd_ge l i k v : (k <= i)%nat -> firstn k (upd l i v) = firstn k l.
Proof.
  revert i k; induction l as [|w l IH]; intros [|i] [|k] H; cbn; auto; try lia.
  f_equal; apply IH; lia.
Qed.

Lemma skipn_upd_lt l i k v : (i < k)%nat -> skipn k (upd l i v) = skipn k l.
Proof.
  revert i k; induction l as [|w l IH]; intros [|i] [|k] H; cbn; auto; try lia.
  apply IH; lia.
Qed.

Lemma firstn_S_upd l i v :
  (i < length l)%nat -> firstn (S i) (upd l i v) = firstn i l ++ [v].
Proof.
  intros H. rewrite firstn_S_nth by (rewrite length_upd; exact H).
  rewrite firstn_upd_ge, nth_upd_eq by auto. reflexivity.
Qed.

Lemma value_firstn_S_upd l i v :
  (i < length l)%nat -> value (firstn (S i) (upd l i v)) = value (firstn i l) + v * pw i.
Proof.
  intros H. rewrite firstn_S_upd, value_app by exact H.
  rewrite length_firstn, Nat.min_l by lia. cbn [value]. lia.
Qed.

Lemma words_firstn_S_upd l i v :
  (i < length l)%nat -> words (firstn i l) -> 0 <= v < 2 ^ 32 ->
  words (firstn (S i) (upd l i v)).
Proof.
  intros H Hw Hv. rewrite firstn_S_upd by exact H.
  apply words_app; [exact Hw|]. constructor; [exact Hv|constructor].
Qed.

Lemma words_upd l i v : words l -> 0 <= v < 2 ^ 32 -> words (upd l i v).
Proof.
  intros H Hv; revert i; induction H as [|w l Hw Hl IH]; intros [|i]; cbn [upd];
    try constructor; auto; try exact Hv.
  apply IH.
Qed.

Lemma value_upd l i v :
  (i < length l)%nat -> value (upd l i v) = value l + (v - l.[i]) * pw i.
Proof.
  revert i; induction l as [|w l IH]; intros [|i] H; cbn in H; try lia.
  - cbn [upd value nth]. rewrite pw_0. lia.
  - cbn [upd value nth]. rewrite IH, pw_S by lia. unfold WSIZE. lia.
Qed.

Lemma value_inj l1 l2 :
  words l1 -> words l2 -> length l1 = length l2 -> value l1 = value l2 -> l1 = l2.
Proof.
  intros H1; revert l2; induction H1 as [|w l1 Hw Hl1 IH]; intros l2 H2 Hlen Hv.
  - destruct l2; [reflexivity|discriminate].
  - destruct H2 as [|w' l2 Hw' Hl2]; [discriminate|].
    cbn [value] in Hv. cbn in Hlen. unfold WSIZE in *.
    assert (w = w' /\ value l1 = value l2) as [-> Hv'] by lia.
    f_equal. apply IH; auto.
Qed.

(** ** Loop rules *)

Lemma for_up_ind {St : Type} (P : nat -> St -> Prop) (body : nat -> St -> St) n :
  forall i s,
    P i s ->
    (forall k s, (i <= k < i + n)%nat -> P k s -> P (S k) (body k s)) ->
    P (i + n)%nat (for_up n i body s).
Proof.
  induction n as [|n IH]; intros i s H0 Hstep; cbn [for_up].
  - rewrite Nat.add_0_r; exact H0.
  - replace (i + S n)%nat with (S i + n)%nat by lia.
    apply IH.
    + apply Hstep; [lia|exact H0].
    + intros k s' Hk; apply Hstep; lia.
Qed.

(** [P k s]: the indices from [k] upwards have been visited. *)
Lemma for_down_ind {St : Type} (P : nat -> St -> Prop) (body : nat -> St -> St) n :
  forall i s,
    (n <= S i)%nat ->
    P (S i) s ->
    (forall k s, (S i - n <= k <= i)%nat -> P (S k) s -> P k (body k s)) ->
    P (S i - n)%nat (for_down n i body s).
Proof.
  induction n as [|n IH]; intros i s Hn H0 Hstep; cbn [for_down].
  - rewrite Nat.sub_0_r; exact H0.
  - destruct i as [|i].
    + assert (n = 0%nat) by lia; subst n. cbn [for_down].
      apply (Hstep 0%nat); [lia|exact H0].
    + replace (S (S i) - S n)%nat with (S i - n)%nat by lia.
      replace (S i - 1)%nat with i by lia.
      apply IH; [lia| |].
      * apply Hstep; [lia|exact H0].
      * intros k s' Hk; apply Hstep; lia.
Qed.

Lemma skipn_S_eq (l1 l2 : list Z) k :
  skipn k l1 = skipn k l2 -> skipn (S k) l1 = skipn (S k) l2.
Proof.
  intros H. change (S k) with (1 + k)%nat. rewrite <- !skipn_skipn, H. reflexivity.
Qed.

Lemma wordsb_words l : wordsb l = true -> words l.
Proof.
  unfold wordsb, words. rewrite forallb_forall, Forall_forall.
  intros H x Hx. specialize (H x Hx). apply andb_true_iff in H.
  destruct H as [H1 H2]. apply Z.leb_le in H1. apply Z.ltb_lt in H2. lia.
Qed.

Lemma felemb_felem a : felemb a = true -> felem a.
Proof.
  unfold felemb, felem. intros H. apply andb_true_iff in H. destruct H as [H1 H2].
  split; [apply Nat.eqb_eq; exact H1|apply wordsb_words; exact H2].
Qed.

(** ** Calls that update an operand in place

    Each loop reads the word of [a] at an index before it writes [r] at that
    index, so the call with [a] and [r] the same array computes what the
    function computes on the value [a] had at the call. *)

Lemma for_up_ext {St : Type} (P : nat -> St -> Prop) (f g : nat -> St -> St) n :
  forall i s,
    P i s ->
    (forall k t, (i <= k < i + n)%nat -> P k t -> f k t = g k t /\ P (S k) (g k t)) ->
    for_up n i f s = for_up n i g s.
Proof.
  induction n as [|n IH]; intros i s H0 Hs; cbn [for_up]; [reflexivity|].
  destruct (Hs i s ltac:(lia) H0) as [E Q]. rewrite E.
  apply IH; [exact Q|]. intros k t Hk. apply Hs. lia.
Qed.

Lemma mpi_cadd_inplace_eq r b add len :
  mpi_cadd_inplace r b add len = mpi_cadd r r b add len.
Proof.
  unfold mpi_cadd_inplace, mpi_cadd. cbv zeta.
  apply for_up_ext
    with (P := fun k (t : list Z * Z) => forall j, (k <= j)%nat -> (fst t).[j] = r.[j]).
  - intros j _. reflexivity.
  - intros k [r' sum] _ H. cbn [fst] in H. rewrite (H k (le_n k)).
    split; [reflexivity|]. intros j Hj. cbn [fst].
    rewrite nth_upd_neq by lia. apply H. lia.
Qed.

Lemma mpi_sub_inplace_eq r b len :
  mpi_sub_inplace r b len = mpi_sub r r b len.
Proof.
  unfold mpi_sub_inplace, mpi_sub.
  match goal with
  | |- match ?L with _ => _ end = match ?R with _ => _ end =>
      assert (E : L = R); [|rewrite E; reflexivity]
  end.
  apply for_up_ext
    with (P := fun k (t : list Z * Z) => forall j, (k <= j)%nat -> (fst t).[j] = r.[j]).
  - intros j _. reflexivity.
  - intros k [r' dif] _ H. cbn [fst] in H. rewrite (H k (le_n k)).
    split; [reflexivity|]. intros j Hj. cbn [fst].
    rewrite nth_upd_neq by lia. apply H. lia.
Qed.

Lemma mpi_shr_inplace_eq r len :
  mpi_shr_inplace r len = mpi_shr r r len.
Proof.
  unfold mpi_shr_inplace, mpi_shr. cbv zeta.
  assert (E : forall n,
    for_up n 0
      (fun i r0 =>
         upd r0 i (Z.lor (Word (Z.shiftl r0.[S i] (WSIZE - 1))) (Z.shiftr r0.[i] 1))) r
    = for_up n 0
      (fun i r0 =>
         upd r0 i (Z.lor (Word (Z.shiftl r.[S i] (WSIZE - 1))) (Z.shiftr r.[i] 1))) r
    /\ forall j, (n <= j)%nat ->
       (for_up n 0
          (fun i r0 =>
             upd r0 i (Z.lor (Word (Z.shiftl r.[S i] (WSIZE - 1))) (Z.shiftr r.[i] 1))) r).[j]
       = r.[j]).
  { intros n. split.
    - apply for_up_ext
        with (P := fun k (t : list Z) => forall j, (k <= j)%nat -> t.[j] = r.[j]).
      + intros j _. reflexivity.
      + intros k r' _ H. rewrite (H k (le_n k)), (H (S k)) by lia.
        split; [reflexivity|]. intros j Hj.
        rewrite nth_upd_neq by lia. apply H. lia.
    - refine (for_up_ind (fun k (t : list Z) => forall j, (k <= j)%nat -> t.[j] = r.[j])
                _ n 0%nat r _ _).
      + intros j _. reflexivity.
      + intros k r' _ H j Hj. rewrite nth_upd_neq by lia. apply H. lia. }
  destruct (E (len - 1)%nat) as [E1 E2]. rewrite E1, E2 by lia. reflexivity.
Qed.

Lemma gfp_sub_inplace_eq r b : gfp_sub_inplace r b = gfp_sub r r b.
Proof.
  unfold gfp_sub_inplace, gfp_sub. cbv zeta.
  match goal with
  | |- match ?L with _ => _ end = match ?R with _ => _ end =>
      assert (E : L = R); [|rewrite E; reflexivity]
  end.
  apply for_up_ext
    with (P := fun k (t : list Z * Z) => forall j, (k <= j)%nat -> (fst t).[j] = r.[j]).
  - intros j _. reflexivity.
  - intros k [r' sum] _ H. cbn [fst] in H. rewrite (H k (le_n k)).
    split; [reflexivity|]. intros j Hj. cbn [fst].
    rewrite nth_upd_neq by lia. apply H. lia.
Qed.

Lemma gfp_hlv_inplace_eq r : gfp_hlv_inplace r = gfp_hlv r r.
Proof.
  unfold gfp_hlv_inplace, gfp_hlv. cbv zeta.
  match goal with
  | |- match ?L with _ => _ end = match ?R with _ => _ end =>
      assert (E : L = R /\ (fst (fst R)).[(LEN - 1)%nat] = r.[(LEN - 1)%nat])
  end.
  { split.
    - apply for_up_ext
        with (P := fun k (t : list Z * Z * Z) =>
                     forall j, (k <= j)%nat -> (fst (fst t)).[j] = r.[j]).
      + intros j _. reflexivity.
      + intros k [[r' tmp] sum] Hk H. cbn [fst] in H. rewrite (H k (le_n k)).
        split; [reflexivity|]. intros j Hj. cbn [fst].
        rewrite nth_upd_neq by lia. apply H. lia.
    - match goal with
      | |- (fst (fst (for_up ?n ?i ?body ?s))).[_] = _ =>
          refine (for_up_ind (fun k (t : list Z * Z * Z) =>
                    forall j, (k <= j)%nat -> (fst (fst t)).[j] = r.[j])
                    body n i s _ _ (LEN - 1)%nat _)
      end.
      + intros j _. reflexivity.
      + intros k [[r' tmp] sum] Hk H j Hj. cbn [fst] in *.
        rewrite nth_upd_neq by lia. apply H. lia.
      + change LEN with 8%nat. lia. }
  destruct E as [E1 E2]. rewrite E1.
  match goal with
  | |- context [match ?R with _ => _ end] => destruct R as [[r' tmp] sum]
  end.
  cbn [fst] in E2. rewrite E2. reflexivity.
Qed.

(** ** Carry chains *)

Lemma carry_step X k : (X mod 2 ^ 32) * pw k + (X / 2 ^ 32) * pw (S k) = X * pw k.
Proof.
  rewrite pw_S. pose proof (Z.div_mod X (2 ^ 32) ltac:(lia)) as H.
  replace (X * pw k) with ((2 ^ 32 * (X / 2 ^ 32) + X mod 2 ^ 32) * pw k) by (rewrite <- H; reflexivity).
  ring.
Qed.

Lemma Word_lnot x : 0 <= x < 2 ^ 32 -> Word (Z.lnot x) = 2 ^ 32 - 1 - x.
Proof.
  intros H. unfold Word, WSIZE. rewrite Z.lnot_eq_pred_opp.
  symmetry. apply (Z.mod_unique _ _ (-1)); lia.
Qed.

Lemma land_mask_0 x : Z.land x 0 = 0.
Proof. apply Z.land_0_r. Qed.

Lemma land_mask_ones x : 0 <= x < 2 ^ 32 -> Z.land x (2 ^ 32 - 1) = x.
Proof.
  intros H. change (2 ^ 32 - 1) with (Z.ones 32).
  rewrite Z.land_ones by lia. apply Z.mod_small; lia.
Qed.

(** ** mpi_sub *)

Lemma mpi_sub_spec r a b len :
  (len <= length r)%nat -> words a -> words b ->
  length (fst (mpi_sub r a b len)) = length r /\
  skipn len (fst (mpi_sub r a b len)) = skipn len r /\
  words (firstn len (fst (mpi_sub r a b len))) /\
  0 <= snd (mpi_sub r a b len) <= 1 /\
  value (firstn len (fst (mpi_sub r a b len))) =
    value (firstn len a) - value (firstn len b) + snd (mpi_sub r a b len) * pw len.
Proof.
  intros Hlen Ha Hb. unfold mpi_sub.
  match goal with |- context [for_up len 0 ?body ?s0] =>
    pose proof (for_up_ind
      (fun i (s : list Z * Z) =>
         length (fst s) = length r /\ skipn i (fst s) = skipn i r /\
         words (firstn i (fst s)) /\ 0 <= snd s <= 1 /\
         value (firstn i (fst s)) + snd s * pw i =
           value (firstn i a) + pw i - value (firstn i b))
      body len 0%nat s0) as H;
    destruct (for_up len 0 body s0) as [r' dif]
  end.
  cbn [fst snd] in *. rewrite Nat.add_0_l in H.
  destruct H as (H1 & H2 & H3 & H4 & H5).
  - cbn [fst snd firstn skipn value]. rewrite pw_0. repeat split; try constructor; lia.
  - intros k [rk dk] Hk (I1 & I2 & I3 & I4 & I5). cbn [fst snd] in *.
    pose proof (words_nth a k Ha) as Hak. pose proof (words_nth b k Hb) as Hbk.
    rewrite Word_lnot by exact Hbk.
    rewrite (DWord_small a.[k]) by lia.
    rewrite (DWord_small (a.[k] + _)) by lia.
    rewrite DWord_small by lia.
    rewrite shiftr_WSIZE.
    set (X := dk + (a.[k] + (2 ^ 32 - 1 - b.[k]))) in *.
    assert (HX : 0 <= X < 2 * 2 ^ 32) by (unfold X; lia).
    pose proof (carry_step X k) as HC.
    pose proof (Z.mod_pos_bound X (2 ^ 32) ltac:(lia)) as HM.
    assert (HQ : 0 <= X / 2 ^ 32 <= 1).
    { split; [apply Z.div_pos; lia|].
      apply Z.lt_succ_r. apply Z.div_lt_upper_bound; lia. }
    split; [rewrite length_upd; exact I1|].
    split; [rewrite skipn_upd_lt by lia; apply skipn_S_eq; exact I2|].
    split; [apply words_firstn_S_upd; try lia; auto; unfold Word, WSIZE; exact HM|].
    split; [exact HQ|].
    rewrite value_firstn_S_upd by lia. rewrite !value_firstn_S.
    unfold Word, WSIZE. rewrite pw_S in *.
    assert (HX' : X * pw k = dk * pw k + a.[k] * pw k + (2 ^ 32 - 1) * pw k - b.[k] * pw k)
      by (unfold X; ring).
    clear HX HM HQ. clearbody X.
    generalize dependent (X mod 2 ^ 32). generalize dependent (X / 2 ^ 32).
    intros; lia.
  - repeat split; auto; try lia.
Qed.

(** ** mpi_cadd *)

Lemma mpi_cadd_spec r a b add len :
  (len <= length r)%nat -> words a -> words b -> 0 <= add <= 1 ->
  length (fst (mpi_cadd r a b add len)) = length r /\
  skipn len (fst (mpi_cadd r a b add len)) = skipn len r /\
  words (firstn len (fst (mpi_cadd r a b add len))) /\
  0 <= snd (mpi_cadd r a b add len) <= 1 /\
  value (firstn len (fst (mpi_cadd r a b add len)))
    + snd (mpi_cadd r a b add len) * pw len =
    value (firstn len a) + add * value (firstn len b).
Proof.
  intros Hlen Ha Hb Hadd. unfold mpi_cadd.
  match goal with |- context [for_up len 0 ?body ?s0] =>
    pose proof (for_up_ind
      (fun i (s : list Z * Z) =>
         length (fst s) = length r /\ skipn i (fst s) = skipn i r /\
         words (firstn i (fst s)) /\ 0 <= snd s <= 1 /\
         value (firstn i (fst s)) + snd s * pw i =
           value (firstn i a) + add * value (firstn i b))
      body len 0%nat s0) as H;
    destruct (for_up len 0 body s0) as [r' sum]
  end.
  cbn [fst snd] in *. rewrite Nat.add_0_l in H. apply H; clear H.
  - cbn [fst snd firstn skipn value]. repeat split; try constructor; lia.
  - intros k [rk sk] Hk (I1 & I2 & I3 & I4 & I5). cbn [fst snd] in *.
    pose proof (words_nth a k Ha) as Hak. pose proof (words_nth b k Hb) as Hbk.
    assert (Hm : Z.land b.[k] (Word (0 - Z.land add 1)) = add * b.[k]).
    { assert (add = 0 \/ add = 1) as [-> | ->] by lia.
      - change (Word (0 - Z.land 0 1)) with 0. rewrite Z.land_0_r; lia.
      - change (Word (0 - Z.land 1 1)) with (2 ^ 32 - 1).
        rewrite land_mask_ones by exact Hbk. lia. }
    rewrite Hm.
    assert (Hab : 0 <= add * b.[k] < 2 ^ 32) by nia.
    rewrite (DWord_small a.[k]) by lia.
    rewrite (DWord_small (a.[k] + _)) by lia.
    rewrite DWord_small by lia.
    rewrite shiftr_WSIZE.
    set (X := sk + (a.[k] + add * b.[k])) in *.
    assert (HX : 0 <= X < 2 * 2 ^ 32) by (unfold X; lia).
    pose proof (carry_step X k) as HC.
    pose proof (Z.mod_pos_bound X (2 ^ 32) ltac:(lia)) as HM.
    assert (HQ : 0 <= X / 2 ^ 32 <= 1).
    { split; [apply Z.div_pos; lia|].
      apply Z.lt_succ_r. apply Z.div_lt_upper_bound; lia. }
    split; [rewrite length_upd; exact I1|].
    split; [rewrite skipn_upd_lt by lia; apply skipn_S_eq; exact I2|].
    split; [apply words_firstn_S_upd; try lia; auto; unfold Word, WSIZE; exact HM|].
    split; [exact HQ|].
    rewrite value_firstn_S_upd by lia. rewrite !value_firstn_S.
    unfold Word, WSIZE. rewrite pw_S in *.
    assert (HX' : X * pw k = sk * pw k + a.[k] * pw k + add * b.[k] * pw k)
      by (unfold X; ring).
    clear HX HM HQ. clearbody X.
    generalize dependent (X mod 2 ^ 32). generalize dependent (X / 2 ^ 32).
    intros; lia.
Qed.

(** ** gfp_setp and gfp_fred *)

Lemma gfp_setp_spec :
  felem (gfp_setp (repeat 0 LEN)) /\ value (gfp_setp (repeat 0 LEN)) = p.
Proof.
  split; [apply felemb_felem|]; vm_compute; reflexivity.
Qed.

Lemma firstn_LEN (l : list Z) : length l = LEN -> firstn LEN l = l.
Proof. intros H. apply firstn_all2. lia. Qed.

Lemma pw_LEN : pw LEN = 2 ^ 256.
Proof. vm_compute; reflexivity. Qed.

Lemma p_val : p = 2 ^ 255 - 19.
Proof. vm_compute; reflexivity. Qed.

(** One round of [gfp_fred]: subtract [p], add it back on a borrow. *)
Lemma fred_round r a pp :
  length r = LEN -> felem a -> felem pp -> value pp = p ->
  felem (fst (mpi_cadd (fst (mpi_sub r a pp LEN)) (fst (mpi_sub r a pp LEN)) pp
                (snd (mpi_sub r a pp LEN)) LEN)) /\
  value (fst (mpi_cadd (fst (mpi_sub r a pp LEN)) (fst (mpi_sub r a pp LEN)) pp
                (snd (mpi_sub r a pp LEN)) LEN)) =
    (if value a <? p then value a else value a - p).
Proof.
  intros Hr [Hla Hwa] [Hlp Hwp] Hp.
  destruct (mpi_sub_spec r a pp LEN ltac:(lia) Hwa Hwp) as (S1 & S2 & S3 & S4 & S5).
  destruct (mpi_sub r a pp LEN) as [r1 bw]. cbn [fst snd] in *.
  rewrite (firstn_LEN r1) in * by lia.
  rewrite (firstn_LEN a), (firstn_LEN pp) in S5 by lia.
  destruct (mpi_cadd_spec r1 r1 pp bw LEN ltac:(lia) S3 Hwp S4) as (C1 & C2 & C3 & C4 & C5).
  destruct (mpi_cadd r1 r1 pp bw LEN) as [r2 cy]. cbn [fst snd] in *.
  rewrite (firstn_LEN r2) in * by lia.
  rewrite (firstn_LEN r1), (firstn_LEN pp) in C5 by lia.
  pose proof (value_range a Hwa) as Ra. rewrite Hla in Ra.
  pose proof (value_range r1 S3) as R1. rewrite S1, Hr in R1.
  pose proof (value_range r2 C3) as R2. rewrite C1, S1, Hr in R2.
  rewrite pw_LEN in *. rewrite Hp, p_val in *.
  split; [split; [lia|exact C3]|].
  destruct (Z.ltb_spec (value a) (2 ^ 255 - 19)); lia.
Qed.

Lemma gfp_fred_rounds r a :
  let pp := gfp_setp (repeat 0 LEN) in
  let round r a :=
    fst (mpi_cadd (fst (mpi_sub r a pp LEN)) (fst (mpi_sub r a pp LEN)) pp
           (snd (mpi_sub r a pp LEN)) LEN) in
  gfp_fred r a = round (round r a) (round r a).
Proof.
  unfold gfp_fred. cbv zeta.
  destruct (mpi_sub r a (gfp_setp (repeat 0 LEN)) LEN) as [r1 b1]. cbn [fst snd].
  rewrite mpi_cadd_inplace_eq.
  destruct (mpi_cadd r1 r1 (gfp_setp (repeat 0 LEN)) b1 LEN) as [r2 c2]. cbn [fst snd].
  rewrite mpi_sub_inplace_eq.
  destruct (mpi_sub r2 r2 (gfp_setp (repeat 0 LEN)) LEN) as [r3 b3]. cbn [fst snd].
  rewrite mpi_cadd_inplace_eq.
  destruct (mpi_cadd r3 r3 (gfp_setp (repeat 0 LEN)) b3 LEN) as [r4 c4]. reflexivity.
Qed.

Lemma gfp_fred_value r a :
  length r = LEN -> felem a ->
  felem (gfp_fred r a) /\ value (gfp_fred r a) = value a mod p.
Proof.
  intros Hr Ha. rewrite gfp_fred_rounds. cbv zeta.
  destruct gfp_setp_spec as [Hpp Hpv].
  destruct (fred_round r a _ Hr Ha Hpp Hpv) as [F1 V1].
  set (r1 := fst (mpi_cadd _ _ _ _ _)) in *.
  destruct (fred_round r1 r1 _ (proj1 F1) F1 Hpp Hpv) as [F2 V2].
  split; [exact F2|]. rewrite V2, V1.
  destruct Ha as [Hla Hwa]. pose proof (value_range a Hwa) as Ra.
  rewrite Hla, pw_LEN in Ra. rewrite p_val.
  destruct (Z.ltb_spec (value a) (2 ^ 255 - 19)) as [H|H].
  - rewrite (proj2 (Z.ltb_lt _ _) H). symmetry; apply Z.mod_small; lia.
  - destruct (Z.ltb_spec (value a - (2 ^ 255 - 19)) (2 ^ 255 - 19)) as [H'|H'].
    + apply (Z.mod_unique _ _ 1); lia.
    + apply (Z.mod_unique _ _ 2); lia.
Qed.

(** ** Splitting the top word *)

Lemma land_MSB0 x : Z.land (Word x) MSB0MASK = x mod 2 ^ 31.
Proof.
  change MSB0MASK with (Z.ones 31). rewrite Z.land_ones by lia.
  unfold Word, WSIZE. apply Z.mod_mod_divide.
  exists 2; reflexivity.
Qed.

Lemma shiftr_31 x : Z.shiftr x (WSIZE - 1) = x / 2 ^ 31.
Proof. unfold WSIZE; apply Z.shiftr_div_pow2; lia. Qed.

Lemma split_31 x : x = 2 ^ 31 * (x / 2 ^ 31) + x mod 2 ^ 31.
Proof. apply Z.div_mod; lia. Qed.

Lemma value_LEN a :
  length a = LEN -> value a = value (firstn 7 a) + a.[7%nat] * pw 7.
Proof.
  intros H. rewrite <- value_firstn_S. rewrite firstn_all2; [reflexivity|].
  rewrite H; vm_compute; lia.
Qed.

Lemma pw_7 : pw 7 = 2 ^ 224.
Proof. vm_compute; reflexivity. Qed.

Lemma felem_upd_top r v :
  length r = LEN -> words (firstn 7 r) -> 0 <= v < 2 ^ 32 ->
  felem (upd r 7 v) /\ value (upd r 7 v) = value (firstn 7 r) + v * pw 7.
Proof.
  intros Hl Hw Hv. assert (H8 : LEN = 8%nat) by reflexivity.
  split; [split|].
  - rewrite length_upd; exact Hl.
  - rewrite <- (firstn_all2 (n := 8) (upd r 7 v)) by (rewrite length_upd; lia).
    apply words_firstn_S_upd; auto; lia.
  - rewrite <- (firstn_all2 (n := 8) (upd r 7 v)) by (rewrite length_upd; lia).
    apply value_firstn_S_upd; lia.
Qed.

(** ** gfp_add *)

Lemma gfp_add_spec r a b :
  length r = LEN -> felem a -> felem b ->
  felem (gfp_add r a b) /\
  0 <= value (gfp_add r a b) <= 2 * p - 1 /\
  exists h, value (gfp_add r a b) = value a + value b - h * p.
Proof.
  intros Hr [Hla Ha] [Hlb Hb]. assert (H8 : LEN = 8%nat) by reflexivity.
  unfold gfp_add. rewrite H8. change (8 - 1)%nat with 7%nat.
  pose proof (words_nth a 7 Ha) as Ha7. pose proof (words_nth b 7 Hb) as Hb7.
  rewrite (DWord_small a.[7%nat]) by lia.
  rewrite (DWord_small (a.[7%nat] + _)) by lia.
  set (s := a.[7%nat] + b.[7%nat]) in *.
  rewrite land_MSB0, shiftr_31.
  assert (Hh : 0 <= s / 2 ^ 31 <= 3).
  { split; [apply Z.div_pos; lia|].
    apply Z.lt_succ_r. apply Z.div_lt_upper_bound; lia. }
  pose proof (Z.mod_pos_bound s (2 ^ 31) ltac:(lia)) as Hm.
  pose proof (split_31 s) as Hs.
  rewrite (Word_small (s / 2 ^ 31)) by lia.
  change (DWord CONSTC) with 19.
  rewrite (DWord_small (19 * _)) by lia.
  match goal with |- context [for_up 7 0 ?body ?s0] =>
    pose proof (for_up_ind
      (fun i (st : list Z * Z) =>
         length (fst st) = length r /\ words (firstn i (fst st)) /\
         0 <= snd st <= 57 /\
         value (firstn i (fst st)) + snd st * pw i =
           19 * (s / 2 ^ 31) + value (firstn i a) + value (firstn i b))
      body 7 0%nat s0) as H;
    destruct (for_up 7 0 body s0) as [r' sum]
  end.
  cbn [fst snd] in H. rewrite Nat.add_0_l in H.
  destruct H as (I1 & I2 & I3 & I4).
  - cbn [firstn value]. rewrite pw_0. repeat split; try constructor; lia.
  - intros k [rk sk] Hk (I1 & I2 & I3 & I4). cbn [fst snd] in *.
    pose proof (words_nth a k Ha) as Hak. pose proof (words_nth b k Hb) as Hbk.
    rewrite (DWord_small a.[k]) by lia.
    rewrite (DWord_small (a.[k] + _)) by lia.
    rewrite DWord_small by lia.
    rewrite shiftr_WSIZE.
    set (X := sk + (a.[k] + b.[k])) in *.
    assert (HX : 0 <= X < 3 * 2 ^ 32) by (unfold X; lia).
    pose proof (carry_step X k) as HC.
    pose proof (Z.mod_pos_bound X (2 ^ 32) ltac:(lia)) as HM.
    assert (HQ : 0 <= X / 2 ^ 32 <= 57).
    { split; [apply Z.div_pos; lia|].
      apply Z.lt_succ_r. apply Z.div_lt_upper_bound; lia. }
    split; [rewrite length_upd; exact I1|].
    split; [apply words_firstn_S_upd; try lia; auto; unfold Word, WSIZE; exact HM|].
    split; [exact HQ|].
    rewrite value_firstn_S_upd by lia. rewrite !value_firstn_S.
    unfold Word, WSIZE. rewrite pw_S in *.
    assert (HX' : X * pw k = sk * pw k + a.[k] * pw k + b.[k] * pw k)
      by (unfold X; ring).
    clear HX HM HQ. clearbody X.
    generalize dependent (X mod 2 ^ 32). generalize dependent (X / 2 ^ 32).
    intros; lia.
  - rewrite (Word_small sum) by lia.
    rewrite (Word_small (_ + sum)) by lia.
    destruct (felem_upd_top r' (s mod 2 ^ 31 + sum)) as [F V]; try lia; auto.
    split; [exact F|]. rewrite V.
    rewrite (value_LEN a Hla), (value_LEN b Hlb).
    pose proof (value_range _ I2) as R7.
    rewrite length_firstn, Nat.min_l in R7 by lia.
    rewrite pw_7, p_val in *.
    remember (s / 2 ^ 31) as q eqn:Eq. remember (s mod 2 ^ 31) as m eqn:Em.
    clear Eq Em. subst s.
    split; [lia|]. exists q. lia.
Qed.

(** ** gfp_sub and gfp_sub_v2 *)

Lemma Word_add_l x y : Word (Word x + y) = Word (x + y).
Proof. unfold Word. apply Zplus_mod_idemp_l. Qed.

Lemma Word_add_r x y : Word (x + Word y) = Word (x + y).
Proof. unfold Word. apply Zplus_mod_idemp_r. Qed.

Lemma div_bounds X lo hi :
  lo * 2 ^ 32 <= X < (hi + 1) * 2 ^ 32 -> lo <= X / 2 ^ 32 <= hi.
Proof.
  intros H. split.
  - apply Z.div_le_lower_bound; lia.
  - apply Z.lt_succ_r. apply Z.div_lt_upper_bound; lia.
Qed.

Lemma div31_bounds X lo hi :
  lo * 2 ^ 31 <= X < (hi + 1) * 2 ^ 31 -> lo <= X / 2 ^ 31 <= hi.
Proof.
  intros H. split.
  - apply Z.div_le_lower_bound; lia.
  - apply Z.lt_succ_r. apply Z.div_lt_upper_bound; lia.
Qed.

(** The quotient of the biased top-word difference by [2^31]. *)
Lemma gfp_sub_spec r a b :
  length r = LEN -> felem a -> felem b ->
  felem (gfp_sub r a b) /\
  0 <= value (gfp_sub r a b) <= 2 * p - 1 /\
  value (gfp_sub r a b) =
    value a - value b + (4 - (2 ^ 33 - 4 + a.[7%nat] - b.[7%nat]) / 2 ^ 31) * p.
Proof.
  intros Hr [Hla Ha] [Hlb Hb]. assert (H8 : LEN = 8%nat) by reflexivity.
  unfold gfp_sub. rewrite H8. change (8 - 1)%nat with 7%nat.
  pose proof (words_nth a 7 Ha) as Ha7. pose proof (words_nth b 7 Hb) as Hb7.
  change (SDWord FOURXPHI) with (2 ^ 33 - 4).
  rewrite (SDWord_small (2 ^ 33 - 4 + _ - _)) by lia.
  set (s := 2 ^ 33 - 4 + a.[7%nat] - b.[7%nat]) in *.
  rewrite land_MSB0, shiftr_31.
  assert (Hh : 1 <= s / 2 ^ 31 <= 5) by (apply div31_bounds; unfold s; lia).
  pose proof (Z.mod_pos_bound s (2 ^ 31) ltac:(lia)) as Hm.
  pose proof (split_31 s) as Hs.
  rewrite (Word_small (s / 2 ^ 31)) by lia.
  change (SDWord CONSTC) with 19. change (Z.shiftl CONSTC 2) with 76.
  rewrite (SDWord_small (19 * _)) by lia.
  rewrite (SDWord_small (19 * _ - 76)) by lia.
  match goal with |- context [for_up 7 0 ?body ?s0] =>
    pose proof (for_up_ind
      (fun i (st : list Z * Z) =>
         length (fst st) = length r /\ words (firstn i (fst st)) /\
         -57 <= snd st <= 19 /\ ((1 <= i)%nat -> -2 <= snd st <= 1) /\
         value (firstn i (fst st)) + snd st * pw i =
           19 * (s / 2 ^ 31) - 76 + value (firstn i a) - value (firstn i b))
      body 7 0%nat s0) as H;
    destruct (for_up 7 0 body s0) as [r' sum]
  end.
  cbn [fst snd] in H. rewrite Nat.add_0_l in H.
  destruct H as (I1 & I2 & I3 & I3' & I4).
  - cbn [firstn value]. rewrite pw_0. repeat split; try constructor; lia.
  - intros k [rk sk] Hk (I1 & I2 & I3 & I3' & I4). cbn [fst snd] in *.
    pose proof (words_nth a k Ha) as Hak. pose proof (words_nth b k Hb) as Hbk.
    rewrite (SDWord_small a.[k]) by lia.
    rewrite (SDWord_small (a.[k] - _)) by lia.
    rewrite SDWord_small by lia.
    rewrite shiftr_WSIZE.
    set (X := sk + (a.[k] - b.[k])) in *.
    pose proof (carry_step X k) as HC.
    pose proof (Z.mod_pos_bound X (2 ^ 32) ltac:(lia)) as HM.
    assert (HQ : -2 <= X / 2 ^ 32 <= 1) by (apply div_bounds; unfold X; lia).
    split; [rewrite length_upd; exact I1|].
    split; [apply words_firstn_S_upd; try lia; auto; unfold Word, WSIZE; exact HM|].
    split; [lia|]. split; [intros _; exact HQ|].
    rewrite value_firstn_S_upd by lia. rewrite !value_firstn_S.
    unfold Word, WSIZE. rewrite pw_S in *.
    assert (HX' : X * pw k = sk * pw k + a.[k] * pw k - b.[k] * pw k)
      by (unfold X; ring).
    clear HM HQ. clearbody X.
    generalize dependent (X mod 2 ^ 32). generalize dependent (X / 2 ^ 32).
    intros; lia.
  - specialize (I3' ltac:(lia)).
    rewrite Word_add_r, Word_add_l.
    rewrite (Word_small (_ + sum + 4)) by lia.
    destruct (felem_upd_top r' (s mod 2 ^ 31 + sum + 4)) as [F V]; try lia; auto.
    split; [exact F|]. rewrite V.
    rewrite (value_LEN a Hla), (value_LEN b Hlb).
    pose proof (value_range _ I2) as R7.
    rewrite length_firstn, Nat.min_l in R7 by lia.
    rewrite pw_7, p_val in *.
    remember (s / 2 ^ 31) as q eqn:Eq. remember (s mod 2 ^ 31) as m eqn:Em.
    clear Eq Em. subst s.
    split; lia.
Qed.

Lemma gfp_sub_v2_spec r a b :
  length r = LEN -> felem a -> felem b ->
  felem (gfp_sub_v2 r a b) /\
  value (gfp_sub_v2 r a b) =
    value a - value b + (4 - (2 ^ 33 - 4 + a.[7%nat] - b.[7%nat]) / 2 ^ 31) * p.
Proof.
  intros Hr [Hla Ha] [Hlb Hb]. assert (H8 : LEN = 8%nat) by reflexivity.
  unfold gfp_sub_v2. rewrite H8. change (8 - 1 - 1)%nat with 6%nat.
  change (8 - 1)%nat with 7%nat.
  pose proof (words_nth a 7 Ha) as Ha7. pose proof (words_nth b 7 Hb) as Hb7.
  pose proof (words_nth a 0 Ha) as Ha0. pose proof (words_nth b 0 Hb) as Hb0.
  change (DWord FOURXPHI) with (2 ^ 33 - 4).
  change (DWord FOURXPLO) with (2 ^ 34 - 76).
  change (DWord FOURXPMI) with (2 ^ 34 - 4).
  rewrite (DWord_small (2 ^ 33 - 4 + _ - _)) by lia.
  set (s := 2 ^ 33 - 4 + a.[7%nat] - b.[7%nat]) in *.
  rewrite land_MSB0, shiftr_31.
  assert (Hh : 1 <= s / 2 ^ 31 <= 5) by (apply div31_bounds; unfold s; lia).
  pose proof (Z.mod_pos_bound s (2 ^ 31) ltac:(lia)) as Hm.
  pose proof (split_31 s) as Hs.
  rewrite (Word_small (s / 2 ^ 31)) by lia.
  change (DWord CONSTC) with 19.
  rewrite (DWord_small (19 * _)) by lia.
  rewrite (DWord_small (2 ^ 34 - 76 + _ - _)) by lia.
  rewrite (DWord_small (19 * _ + _)) by lia.
  rewrite shiftr_WSIZE.
  set (Y := 19 * (s / 2 ^ 31) + (2 ^ 34 - 76 + a.[0%nat] - b.[0%nat])) in *.
  pose proof (carry_step Y 0) as HC0.
  pose proof (Z.mod_pos_bound Y (2 ^ 32) ltac:(lia)) as HM0.
  assert (HQ0 : 2 <= Y / 2 ^ 32 <= 5) by (apply div_bounds; unfold Y; lia).
  match goal with |- context [for_up 6 1 ?body ?s0] =>
    pose proof (for_up_ind
      (fun i (st : list Z * Z) =>
         length (fst st) = length r /\ words (firstn i (fst st)) /\
         2 <= snd st <= 5 /\
         value (firstn i (fst st)) + (snd st - 4) * pw i =
           19 * (s / 2 ^ 31) - 76 + value (firstn i a) - value (firstn i b))
      body 6 1%nat s0) as H;
    destruct (for_up 6 1 body s0) as [r' sum]
  end.
  cbn [fst snd] in H. change (1 + 6)%nat with 7%nat in H.
  destruct H as (I1 & I2 & I3 & I4).
  - split; [apply length_upd|].
    split; [apply words_firstn_S_upd;
            [lia|apply Forall_nil|unfold Word, WSIZE; exact HM0]|].
    split; [exact HQ0|].
    rewrite value_firstn_S_upd by lia. rewrite !value_firstn_S.
    cbn [firstn value]. unfold Word, WSIZE. rewrite pw_S, pw_0 in *.
    assert (HY : Y * 1 = 19 * (s / 2 ^ 31) + 2 ^ 34 - 76 + a.[0%nat] - b.[0%nat])
      by (unfold Y; ring).
    clear HM0 HQ0 Hs. clearbody Y.
    generalize dependent (Y mod 2 ^ 32). generalize dependent (Y / 2 ^ 32).
    intros; lia.
  - intros k [rk sk] Hk (I1 & I2 & I3 & I4). cbn [fst snd] in *.
    pose proof (words_nth a k Ha) as Hak. pose proof (words_nth b k Hb) as Hbk.
    rewrite (DWord_small (2 ^ 34 - 4 + _ - _)) by lia.
    rewrite DWord_small by lia.
    rewrite shiftr_WSIZE.
    set (X := sk + (2 ^ 34 - 4 + a.[k] - b.[k])) in *.
    pose proof (carry_step X k) as HC.
    pose proof (Z.mod_pos_bound X (2 ^ 32) ltac:(lia)) as HM.
    assert (HQ : 2 <= X / 2 ^ 32 <= 5) by (apply div_bounds; unfold X; lia).
    split; [rewrite length_upd; exact I1|].
    split; [apply words_firstn_S_upd; try lia; auto; unfold Word, WSIZE; exact HM|].
    split; [exact HQ|].
    rewrite value_firstn_S_upd by lia. rewrite !value_firstn_S.
    unfold Word, WSIZE. rewrite pw_S in *.
    assert (HX' : X * pw k = sk * pw k + (2 ^ 34 - 4) * pw k + a.[k] * pw k - b.[k] * pw k)
      by (unfold X; ring).
    clear HM HQ HC0 HM0 HQ0. clearbody X.
    generalize dependent (X mod 2 ^ 32). generalize dependent (X / 2 ^ 32).
    intros; lia.
  - rewrite (Word_small sum) by lia.
    rewrite (Word_small (_ + sum)) by lia.
    destruct (felem_upd_top r' (s mod 2 ^ 31 + sum)) as [F V]; try lia; auto.
    split; [exact F|]. rewrite V.
    rewrite (value_LEN a Hla), (value_LEN b Hlb).
    rewrite pw_7, p_val in *.
    remember (s / 2 ^ 31) as q eqn:Eq. remember (s mod 2 ^ 31) as m eqn:Em.
    clear Eq Em HC0 HM0 HQ0. subst s.
    lia.
Qed.

Lemma gfp_sub_v2_same r a b :
  length r = LEN -> felem a -> felem b -> gfp_sub r a b = gfp_sub_v2 r a b.
Proof.
  intros Hr Ha Hb.
  destruct (gfp_sub_spec r a b Hr Ha Hb) as ([L1 W1] & _ & V1).
  destruct (gfp_sub_v2_spec r a b Hr Ha Hb) as ([L2 W2] & V2).
  apply value_inj; auto; congruence.
Qed.

(** ** Shifts and bitwise or *)

Lemma lor_shiftl_add x y n :
  0 <= n -> 0 <= y < 2 ^ n -> Z.lor (x * 2 ^ n) y = x * 2 ^ n + y.
Proof.
  intros Hn Hy. rewrite <- Z.add_lor_land.
  assert (H0 : Z.land (x * 2 ^ n) y = 0); [|rewrite H0; lia].
  apply Z.bits_inj'. intros i Hi. rewrite Z.land_spec, Z.bits_0.
  destruct (Z.lt_ge_cases i n) as [Hlt|Hge].
  - rewrite Z.mul_pow2_bits_low by lia. reflexivity.
  - rewrite <- (Z.mod_small y (2 ^ n)) by lia.
    rewrite Z.mod_pow2_bits_high by lia. apply andb_false_r.
Qed.

Lemma Word_shiftl_31 x : Word (Z.shiftl (Word x) (WSIZE - 1)) = (x mod 2) * 2 ^ 31.
Proof.
  unfold Word, WSIZE. rewrite Z.shiftl_mul_pow2 by lia.
  change (32 - 1) with 31.
  set (w := x mod 2 ^ 32).
  assert (Hw2 : w mod 2 = x mod 2).
  { unfold w. apply Z.mod_mod_divide. exists (2 ^ 31); reflexivity. }
  rewrite <- Hw2.
  pose proof (Z.div_mod w 2 ltac:(lia)) as Hw.
  pose proof (Z.mod_pos_bound w 2 ltac:(lia)) as Hb.
  symmetry. apply (Z.mod_unique _ _ (w / 2)); lia.
Qed.

Lemma shiftr_1 x : Z.shiftr x 1 = x / 2.
Proof. rewrite Z.shiftr_div_pow2 by lia. reflexivity. Qed.

Lemma land_1 x : Z.land x 1 = x mod 2.
Proof. change 1 with (Z.ones 1) at 1. rewrite Z.land_ones by lia. reflexivity. Qed.

(** [(x << 31) | (t >> 1)] on words. *)
Lemma shift_in x t :
  0 <= t < 2 ^ 32 ->
  Z.lor (Word (Z.shiftl (Word x) (WSIZE - 1))) (Z.shiftr t 1) = (x mod 2) * 2 ^ 31 + t / 2.
Proof.
  intros Ht. rewrite Word_shiftl_31, shiftr_1. apply lor_shiftl_add; [lia|].
  split; [apply Z.div_pos; lia|apply Z.div_lt_upper_bound; lia].
Qed.

Lemma value_mod2 a : value a mod 2 = a.[0%nat] mod 2.
Proof.
  destruct a as [|w t]; [reflexivity|]. cbn [value nth]. unfold WSIZE.
  replace (w + 2 ^ 32 * value t) with (w + (2 ^ 31 * value t) * 2) by lia.
  apply Z.mod_add; lia.
Qed.

(** ** gfp_hlv *)

Lemma gfp_hlv_spec r a :
  length r = LEN -> felem a ->
  felem (gfp_hlv r a) /\
  2 * value (gfp_hlv r a) = value a + (value a mod 2) * p.
Proof.
  intros Hr [Hla Ha]. assert (H8 : LEN = 8%nat) by reflexivity.
  unfold gfp_hlv. rewrite H8. change (8 - 1 - 1)%nat with 6%nat.
  change (8 - 1)%nat with 7%nat. change (8 - 2)%nat with 6%nat.
  rewrite value_mod2.
  pose proof (words_nth a 7 Ha) as Ha7. pose proof (words_nth a 0 Ha) as Ha0.
  rewrite land_1.
  pose proof (Z.mod_pos_bound a.[0%nat] 2 ltac:(lia)) as Ho.
  pose proof (Z.div_mod a.[0%nat] 2 ltac:(lia)) as Hdm.
  set (o := a.[0%nat] mod 2) in *.
  assert (Hc : Z.land CONSTC (Word (0 - o)) = 19 * o).
  { assert (o = 0 \/ o = 1) as [-> | ->] by lia; reflexivity. }
  assert (Hmsb : Z.land MSB1MASK (Word (0 - o)) = 2 ^ 31 * o).
  { assert (o = 0 \/ o = 1) as [-> | ->] by lia; reflexivity. }
  rewrite Hc, Hmsb.
  rewrite (SDWord_small a.[0%nat]) by lia.
  rewrite (SDWord_small (a.[0%nat] - _)) by lia.
  rewrite (SDWord_small a.[7%nat]) by lia.
  rewrite (SDWord_small (a.[7%nat] + _)) by lia.
  rewrite shiftr_WSIZE.
  set (X0 := a.[0%nat] - 19 * o) in *.
  pose proof (Z.div_mod X0 (2 ^ 32) ltac:(lia)) as HX0.
  pose proof (Z.mod_pos_bound X0 (2 ^ 32) ltac:(lia)) as HM0.
  assert (HQ0 : - o <= X0 / 2 ^ 32 <= 0).
  { assert (o = 0 \/ o = 1) as [Ho' | Ho'] by lia; rewrite Ho';
      apply div_bounds; unfold X0; lia. }
  assert (Hev : (X0 mod 2 ^ 32) mod 2 = 0).
  { rewrite Z.mod_mod_divide by (exists (2 ^ 31); reflexivity).
    unfold X0. rewrite Hdm.
    replace (2 * (a.[0%nat] / 2) + o - 19 * o) with (0 + (a.[0%nat] / 2 - 9 * o) * 2) by lia.
    rewrite Z.mod_add by lia. reflexivity. }
  match goal with |- context [for_up 6 1 ?body ?s0] =>
    pose proof (for_up_ind
      (fun i (st : list Z * Z * Z) =>
         length (fst (fst st)) = length r /\
         words (firstn (i - 1) (fst (fst st))) /\
         0 <= snd (fst st) < 2 ^ 32 /\
         - o <= snd st <= 0 /\
         2 * value (firstn (i - 1) (fst (fst st)))
           + (snd (fst st) - snd (fst st) mod 2) * pw (i - 1) + snd st * pw i =
           value (firstn i a) - 19 * o)
      body 6 1%nat s0) as H;
    destruct (for_up 6 1 body s0) as [[r' tmp] sum]
  end.
  cbn [fst snd] in H. change (1 + 6)%nat with 7%nat in H.
  change (7 - 1)%nat with 6%nat in H.
  destruct H as (I1 & I2 & I3 & I4 & I5).
  - change (1 - 1)%nat with 0%nat. rewrite (value_firstn_S a 0).
    cbn [firstn value fst snd]. rewrite pw_S, pw_0.
    unfold Word, WSIZE. rewrite Hev.
    split; [reflexivity|]. split; [constructor|]. split; [exact HM0|].
    split; [exact HQ0|].
    fold X0. assert (HX0' : X0 = a.[0%nat] - 19 * o) by reflexivity.
    clear Hev HM0 HQ0. clearbody X0.
    generalize dependent (X0 mod 2 ^ 32). generalize dependent (X0 / 2 ^ 32).
    intros; lia.
  - intros k [[rk tk] sk] Hk (I1 & I2 & I3 & I4 & I5). cbn [fst snd] in *.
    pose proof (words_nth a k Ha) as Hak.
    rewrite (SDWord_small a.[k]) by lia.
    rewrite SDWord_small by lia.
    rewrite shiftr_WSIZE.
    rewrite shift_in by exact I3.
    set (X := sk + a.[k]) in *.
    pose proof (Z.div_mod X (2 ^ 32) ltac:(lia)) as HX.
    pose proof (Z.mod_pos_bound X (2 ^ 32) ltac:(lia)) as HM.
    assert (HQ : - o <= X / 2 ^ 32 <= 0).
    { assert (o = 0 \/ o = 1) as [Ho' | Ho'] by lia; rewrite Ho' in *;
        apply div_bounds; unfold X; lia. }
    pose proof (Z.mod_pos_bound X 2 ltac:(lia)) as HX2.
    pose proof (Z.div_mod tk 2 ltac:(lia)) as Htk.
    pose proof (Z.mod_pos_bound tk 2 ltac:(lia)) as Htk2.
    assert (HW2 : Word X mod 2 = X mod 2).
    { unfold Word, WSIZE. apply Z.mod_mod_divide. exists (2 ^ 31); reflexivity. }
    destruct k as [|k]; [lia|].
    replace (S (S k) - 1)%nat with (S k) by lia.
    replace (S k - 1)%nat with k in * by lia.
    split; [rewrite length_upd; exact I1|].
    split; [apply words_firstn_S_upd; try lia; auto|].
    split; [apply Word_range|].
    split; [exact HQ|].
    rewrite value_firstn_S_upd by lia. rewrite (value_firstn_S a (S k)).
    rewrite HW2. unfold Word, WSIZE. rewrite !pw_S in *.
    assert (HX' : X * pw k = sk * pw k + a.[S k] * pw k) by (unfold X; ring).
    clear HM HQ HW2 HX0 HM0 HQ0 Hev. clearbody X.
    generalize dependent (X mod 2 ^ 32). generalize dependent (X / 2 ^ 32).
    generalize dependent (X mod 2). generalize dependent (tk mod 2).
    generalize dependent (tk / 2).
    intros; nia.
  - rewrite shift_in by exact I3.
    rewrite SDWord_small by lia.
    set (X := sum + (a.[7%nat] + 2 ^ 31 * o)) in *.
    assert (HXr : 0 <= X < 2 ^ 33).
    { assert (o = 0 \/ o = 1) as [Ho' | Ho'] by lia; rewrite Ho' in *; unfold X; lia. }
    rewrite shiftr_1.
    pose proof (Z.div_mod X 2 ltac:(lia)) as HX.
    pose proof (Z.mod_pos_bound X 2 ltac:(lia)) as HX2.
    pose proof (Z.div_mod tmp 2 ltac:(lia)) as Htk.
    pose proof (Z.mod_pos_bound tmp 2 ltac:(lia)) as Htk2.
    rewrite (Word_small (X / 2)) by lia.
    assert (L6 : length (upd r' 6 (X mod 2 * 2 ^ 31 + tmp / 2)) = LEN)
      by (rewrite length_upd; lia).
    assert (W6 : words (firstn 7 (upd r' 6 (X mod 2 * 2 ^ 31 + tmp / 2))))
      by (apply words_firstn_S_upd; try lia; auto).
    destruct (felem_upd_top _ (X / 2) L6 W6 ltac:(lia)) as [F V].
    split; [exact F|]. rewrite V.
    rewrite value_firstn_S_upd by lia.
    rewrite (value_LEN a Hla).
    change (pw 6) with (2 ^ 192) in *. rewrite pw_7, p_val in *.
    assert (HX' : X = sum + a.[7%nat] + 2 ^ 31 * o) by (unfold X; ring).
    clear HX0 HM0 HQ0 Hev W6 V. clearbody X.
    generalize dependent (X mod 2). generalize dependent (X / 2).
    generalize dependent (tmp mod 2). generalize dependent (tmp / 2).
    intros; lia.
Qed.

(** ** More on lists *)

Lemma firstn_upd_lt l i n v :
  (i < n)%nat -> firstn n (upd l i v) = upd (firstn n l) i v.
Proof.
  revert i n; induction l as [|w l IH]; intros [|i] [|n] H; cbn; auto; try lia.
  f_equal; apply IH; lia.
Qed.

Lemma nth_firstn_lt (l : list Z) i n : (i < n)%nat -> (firstn n l).[i] = l.[i].
Proof.
  revert i n; induction l as [|w l IH]; intros [|i] [|n] H; cbn; auto; try lia.
  apply IH; lia.
Qed.

Lemma nth_skipn_eq (l1 l2 : list Z) k j :
  skipn k l1 = skipn k l2 -> (k <= j)%nat -> l1.[j] = l2.[j].
Proof.
  intros H Hj. replace j with (k + (j - k))%nat by lia.
  rewrite <- !nth_skipn. rewrite H. reflexivity.
Qed.

Lemma value_firstn_upd_in l i n v :
  (i < n)%nat -> (n <= length l)%nat ->
  value (firstn n (upd l i v)) = value (firstn n l) + (v - l.[i]) * pw i.
Proof.
  intros Hi Hn. rewrite firstn_upd_lt by exact Hi.
  rewrite value_upd by (rewrite length_firstn; lia).
  rewrite nth_firstn_lt by exact Hi. reflexivity.
Qed.

Lemma words_firstn_upd_in l i n v :
  words (firstn n l) -> 0 <= v < 2 ^ 32 -> words (firstn n (upd l i v)).
Proof.
  intros Hw Hv. destruct (Nat.lt_ge_cases i n) as [H|H].
  - rewrite firstn_upd_lt by exact H. apply words_upd; assumption.
  - rewrite firstn_upd_ge by exact H. exact Hw.
Qed.

Lemma words_firstn_le (l : list Z) m n :
  (m <= n)%nat -> words (firstn n l) -> words (firstn m l).
Proof.
  intros H Hw. replace m with (Nat.min m n) by lia.
  rewrite <- firstn_firstn. apply words_firstn; exact Hw.
Qed.

(** ** gfp_mul: the product *)

Lemma mul_bound x y c :
  0 <= x < 2 ^ 32 -> 0 <= y < 2 ^ 32 -> 0 <= c < 2 ^ 32 ->
  0 <= c + x * y <= (2 ^ 32 - 1) * 2 ^ 32.
Proof. intros; nia. Qed.

Lemma mul_row0 a b t :
  length t = 16%nat -> words a -> words b ->
  forall st,
    st = for_up 8 0
           (fun j '(t, prod) =>
              let prod := DWord (prod + DWord (DWord a.[j] * b.[0%nat])) in
              let t := upd t j (Word prod) in
              let prod := Z.shiftr prod WSIZE in
              (t, prod))
           (t, 0) ->
    length (fst st) = 16%nat /\ words (firstn 8 (fst st)) /\
    0 <= snd st < 2 ^ 32 /\
    value (firstn 8 (fst st)) + snd st * pw 8 = value (firstn 8 a) * b.[0%nat].
Proof.
  intros Ht Ha Hb st ->.
  match goal with |- context [for_up 8 0 ?body ?s0] =>
    pose proof (for_up_ind
      (fun i (st : list Z * Z) =>
         length (fst st) = 16%nat /\ words (firstn i (fst st)) /\
         0 <= snd st < 2 ^ 32 /\
         value (firstn i (fst st)) + snd st * pw i = value (firstn i a) * b.[0%nat])
      body 8 0%nat s0) as H
  end.
  apply H; clear H.
  - cbn [fst snd firstn value]. repeat split; try constructor; lia.
  - intros k [tk pk] Hk (I1 & I2 & I3 & I4). cbn [fst snd] in *.
    pose proof (words_nth a k Ha) as Hak. pose proof (words_nth b 0 Hb) as Hb0.
    pose proof (mul_bound a.[k] b.[0%nat] pk Hak Hb0 I3) as HB.
    assert (HP : 0 <= a.[k] * b.[0%nat]) by nia.
    rewrite (DWord_small a.[k]) by lia.
    rewrite (DWord_small (a.[k] * _)) by lia.
    rewrite DWord_small by lia.
    rewrite shiftr_WSIZE.
    set (X := pk + a.[k] * b.[0%nat]) in *.
    pose proof (carry_step X k) as HC.
    pose proof (Z.mod_pos_bound X (2 ^ 32) ltac:(lia)) as HM.
    assert (HQ : 0 <= X / 2 ^ 32 <= 2 ^ 32 - 1) by (apply div_bounds; lia).
    split; [rewrite length_upd; exact I1|].
    split; [apply words_firstn_S_upd; try lia; auto; unfold Word, WSIZE; exact HM|].
    split; [lia|].
    rewrite value_firstn_S_upd by lia. rewrite !value_firstn_S.
    unfold Word, WSIZE. rewrite pw_S in *.
    assert (HX' : X * pw k = pk * pw k + a.[k] * pw k * b.[0%nat])
      by (unfold X; ring).
    clear HM HQ HB. clearbody X.
    generalize dependent (X mod 2 ^ 32). generalize dependent (X / 2 ^ 32).
    intros; lia.
Qed.

Lemma mul_row a b i t :
  length t = 16%nat -> words a -> words b -> (1 <= i <= 7)%nat ->
  words (firstn (i + 8) t) ->
  forall st,
    st = for_up 8 0
           (fun j '(t, prod) =>
              let prod := DWord (prod + DWord (DWord a.[j] * b.[i])) in
              let prod := DWord (prod + t.[(i + j)%nat]) in
              let t := upd t (i + j) (Word prod) in
              let prod := Z.shiftr prod WSIZE in
              (t, prod))
           (t, 0) ->
    length (fst st) = 16%nat /\ words (firstn (i + 8) (fst st)) /\
    0 <= snd st < 2 ^ 32 /\
    value (firstn (i + 8) (fst st)) + snd st * pw (i + 8) =
      value (firstn (i + 8) t) + value (firstn 8 a) * b.[i] * pw i.
Proof.
  intros Ht Ha Hb Hi Hw st ->.
  match goal with |- context [for_up 8 0 ?body ?s0] =>
    pose proof (for_up_ind
      (fun j (st : list Z * Z) =>
         length (fst st) = 16%nat /\ words (firstn (i + 8) (fst st)) /\
         0 <= snd st < 2 ^ 32 /\
         value (firstn (i + 8) (fst st)) + snd st * pw (i + j) =
           value (firstn (i + 8) t) + value (firstn j a) * b.[i] * pw i)
      body 8 0%nat s0) as H
  end.
  apply H; clear H.
  - cbn [fst snd firstn value]. repeat split; auto; lia.
  - intros k [tk pk] Hk (I1 & I2 & I3 & I4). cbn [fst snd] in *.
    pose proof (words_nth a k Ha) as Hak. pose proof (words_nth b i Hb) as Hbi.
    assert (Htk : 0 <= tk.[(i + k)%nat] < 2 ^ 32).
    { rewrite <- (nth_firstn_lt tk (i + k) (i + 8)) by lia.
      apply words_nth; exact I2. }
    pose proof (mul_bound a.[k] b.[i] pk Hak Hbi I3) as HB.
    assert (HP : 0 <= a.[k] * b.[i]) by nia.
    rewrite (DWord_small a.[k]) by lia.
    rewrite (DWord_small (a.[k] * _)) by lia.
    rewrite (DWord_small (pk + _)) by lia.
    rewrite DWord_small by lia.
    rewrite shiftr_WSIZE.
    set (X := pk + a.[k] * b.[i] + tk.[(i + k)%nat]) in *.
    pose proof (carry_step X (i + k)) as HC.
    pose proof (Z.mod_pos_bound X (2 ^ 32) ltac:(lia)) as HM.
    assert (HQ : 0 <= X / 2 ^ 32 <= 2 ^ 32 - 1) by (apply div_bounds; unfold X; lia).
    split; [rewrite length_upd; exact I1|].
    split; [apply words_firstn_upd_in; auto; unfold Word, WSIZE; exact HM|].
    split; [lia|].
    rewrite value_firstn_upd_in by lia. rewrite !value_firstn_S.
    replace (i + S k)%nat with (S (i + k)) by lia.
    unfold Word, WSIZE.
    assert (HX' : X * pw (i + k) =
                  pk * pw (i + k) + a.[k] * pw k * b.[i] * pw i
                  + tk.[(i + k)%nat] * pw (i + k))
      by (unfold X; rewrite (pw_add i k); ring).
    clear HM HQ HB. clearbody X.
    generalize dependent (X mod 2 ^ 32). generalize dependent (X / 2 ^ 32).
    intros; lia.
Qed.

Lemma mul_rows a b t :
  length t = 16%nat -> words a -> words b ->
  words (firstn 9 t) -> value (firstn 9 t) = value (firstn 8 a) * b.[0%nat] ->
  forall t',
    t' = for_up 7 1
           (fun i t =>
              let '(t, prod) :=
                for_up 8 0
                  (fun j '(t, prod) =>
                     let prod := DWord (prod + DWord (DWord a.[j] * b.[i])) in
                     let prod := DWord (prod + t.[(i + j)%nat]) in
                     let t := upd t (i + j) (Word prod) in
                     let prod := Z.shiftr prod WSIZE in
                     (t, prod))
                  (t, 0) in
              upd t (i + 8) (Word prod))
           t ->
    length t' = 16%nat /\ words t' /\
    value t' = value (firstn 8 a) * value (firstn 8 b).
Proof.
  intros Ht Ha Hb Hw Hv t' ->.
  match goal with |- context [for_up 7 1 ?body ?s0] =>
    pose proof (for_up_ind
      (fun i (t : list Z) =>
         length t = 16%nat /\ words (firstn (i + 8) t) /\
         value (firstn (i + 8) t) = value (firstn 8 a) * value (firstn i b))
      body 7 1%nat s0) as H;
    set (tf := for_up 7 1 body s0) in *
  end.
  change (1 + 7)%nat with 8%nat in H. cbv beta in H.
  destruct H as (I1 & I2 & I3).
  - split; [exact Ht|]. split; [exact Hw|].
    change (1 + 8)%nat with 9%nat. rewrite Hv.
    rewrite (value_firstn_S b 0). cbn [firstn value]. rewrite pw_0. lia.
  - intros i tk Hi (I1 & I2 & I3).
    destruct (for_up 8 0 _ (tk, 0)) as [t1 prod] eqn:E.
    destruct (mul_row a b i tk I1 Ha Hb ltac:(lia) I2 _ (eq_sym E))
      as (R1 & R2 & R3 & R4).
    cbn [fst snd] in *.
    rewrite (Word_small prod) by lia.
    split; [rewrite length_upd; exact R1|].
    replace (S i + 8)%nat with (S (i + 8)) by lia.
    split; [apply words_firstn_S_upd; try lia; auto|].
    rewrite value_firstn_S_upd by lia. rewrite (value_firstn_S b i).
    rewrite I3 in R4. lia.
  - rewrite firstn_all2 in I2, I3 by lia. auto.
Qed.

(** ** gfp_mul: the two reduction steps *)

Lemma mul_red1 t :
  length t = 16%nat -> words t ->
  forall st,
    st = for_up 7 0
           (fun i '(t, prod) =>
              let prod :=
                DWord (prod + DWord (DWord (DWord t.[(i + 8)%nat] * Z.shiftl CONSTC 1)
                                     + t.[i])) in
              let t := upd t i (Word prod) in
              let prod := Z.shiftr prod WSIZE in
              (t, prod))
           (t, 0) ->
    length (fst st) = 16%nat /\ skipn 7 (fst st) = skipn 7 t /\
    words (firstn 7 (fst st)) /\ 0 <= snd st <= 38 /\
    value (firstn 7 (fst st)) + snd st * pw 7 =
      value (firstn 7 t) + 38 * value (firstn 7 (skipn 8 t)).
Proof.
  intros Ht Hw st ->.
  match goal with |- context [for_up 7 0 ?body ?s0] =>
    pose proof (for_up_ind
      (fun i (st : list Z * Z) =>
         length (fst st) = 16%nat /\ skipn i (fst st) = skipn i t /\
         words (firstn i (fst st)) /\ 0 <= snd st <= 38 /\
         value (firstn i (fst st)) + snd st * pw i =
           value (firstn i t) + 38 * value (firstn i (skipn 8 t)))
      body 7 0%nat s0) as H
  end.
  apply H; clear H.
  - cbn [fst snd firstn skipn value]. repeat split; try constructor; lia.
  - intros k [tk pk] Hk (I1 & I2 & I3 & I4 & I5). cbn [fst snd] in *.
    rewrite (nth_skipn_eq tk t k (k + 8) I2) by lia.
    rewrite (nth_skipn_eq tk t k k I2) by lia.
    pose proof (words_nth t k Hw) as Hlo. pose proof (words_nth t (k + 8) Hw) as Hhi.
    change (Z.shiftl CONSTC 1) with 38.
    rewrite (DWord_small t.[(k + 8)%nat]) by lia.
    rewrite (DWord_small (_ * 38)) by lia.
    rewrite (DWord_small (_ * 38 + _)) by lia.
    rewrite DWord_small by lia.
    rewrite shiftr_WSIZE.
    set (X := pk + (t.[(k + 8)%nat] * 38 + t.[k])) in *.
    pose proof (carry_step X k) as HC.
    pose proof (Z.mod_pos_bound X (2 ^ 32) ltac:(lia)) as HM.
    assert (HQ : 0 <= X / 2 ^ 32 <= 38) by (apply div_bounds; unfold X; lia).
    split; [rewrite length_upd; exact I1|].
    split; [rewrite skipn_upd_lt by lia; apply skipn_S_eq; exact I2|].
    split; [apply words_firstn_S_upd; try lia; auto; unfold Word, WSIZE; exact HM|].
    split; [exact HQ|].
    rewrite value_firstn_S_upd by lia. rewrite !value_firstn_S.
    rewrite nth_skipn. replace (8 + k)%nat with (k + 8)%nat by lia.
    unfold Word, WSIZE. rewrite pw_S in *.
    assert (HX' : X * pw k = pk * pw k + 38 * t.[(k + 8)%nat] * pw k + t.[k] * pw k)
      by (unfold X; ring).
    clear HM HQ. clearbody X.
    generalize dependent (X mod 2 ^ 32). generalize dependent (X / 2 ^ 32).
    intros; lia.
Qed.

Lemma mul_red2 r t c :
  length r = 8%nat -> words (firstn 7 t) -> 0 <= c <= 1482 ->
  forall st,
    st = for_up 7 0
           (fun i '(r, prod) =>
              let prod := DWord (prod + t.[i]) in
              let r := upd r i (Word prod) in
              let prod := Z.shiftr prod WSIZE in
              (r, prod))
           (r, c) ->
    length (fst st) = 8%nat /\ words (firstn 7 (fst st)) /\ 0 <= snd st <= 1482 /\
    value (firstn 7 (fst st)) + snd st * pw 7 = c + value (firstn 7 t).
Proof.
  intros Hr Hw Hc st ->.
  match goal with |- context [for_up 7 0 ?body ?s0] =>
    pose proof (for_up_ind
      (fun i (st : list Z * Z) =>
         length (fst st) = 8%nat /\ words (firstn i (fst st)) /\
         0 <= snd st <= 1482 /\
         value (firstn i (fst st)) + snd st * pw i = c + value (firstn i t))
      body 7 0%nat s0) as H
  end.
  apply H; clear H.
  - cbn [fst snd firstn value]. rewrite pw_0. repeat split; try constructor; lia.
  - intros k [rk pk] Hk (I1 & I2 & I3 & I4). cbn [fst snd] in *.
    assert (Htk : 0 <= t.[k] < 2 ^ 32).
    { rewrite <- (nth_firstn_lt t k 7) by lia. apply words_nth; exact Hw. }
    rewrite DWord_small by lia.
    rewrite shiftr_WSIZE.
    set (X := pk + t.[k]) in *.
    pose proof (carry_step X k) as HC.
    pose proof (Z.mod_pos_bound X (2 ^ 32) ltac:(lia)) as HM.
    assert (HQ : 0 <= X / 2 ^ 32 <= 1) by (apply div_bounds; unfold X; lia).
    split; [rewrite length_upd; exact I1|].
    split; [apply words_firstn_S_upd; try lia; auto; unfold Word, WSIZE; exact HM|].
    split; [lia|].
    rewrite value_firstn_S_upd by lia. rewrite !value_firstn_S.
    unfold Word, WSIZE. rewrite pw_S in *.
    assert (HX' : X * pw k = pk * pw k + t.[k] * pw k) by (unfold X; ring).
    clear HM HQ. clearbody X.
    generalize dependent (X mod 2 ^ 32). generalize dependent (X / 2 ^ 32).
    intros; lia.
Qed.

(** ** gfp_mul *)

Lemma gfp_mul_spec r a b :
  length r = LEN -> felem a -> felem b ->
  felem (gfp_mul r a b) /\
  0 <= value (gfp_mul r a b) <= 2 * p - 1 /\
  exists h, value (gfp_mul r a b) = value a * value b - h * p.
Proof.
  intros Hr [Hla Ha] [Hlb Hb]. assert (H8 : LEN = 8%nat) by reflexivity.
  unfold gfp_mul. change LEN with 8%nat.
  change (8 - 1)%nat with 7%nat. change (2 * 8 - 1)%nat with 15%nat.
  change (2 * 8)%nat with 16%nat.
  (* the product *)
  destruct (for_up 8 0 _ (repeat 0 16, 0)) as [t1 p1] eqn:E1.
  destruct (mul_row0 a b (repeat 0 16) eq_refl Ha Hb _ (eq_sym E1))
    as (A1 & A2 & A3 & A4).
  cbn [fst snd] in *. clear E1.
  rewrite (Word_small p1) by lia.
  match goal with |- context [for_up 7 1 ?body (upd t1 8 p1)] =>
    remember (for_up 7 1 body (upd t1 8 p1)) as t2 eqn:E2
  end.
  apply mul_rows in E2; auto.
  2: rewrite length_upd; exact A1.
  2: apply (words_firstn_S_upd t1 8 p1); try lia; auto.
  2: rewrite (value_firstn_S_upd t1 8 p1) by lia; lia.
  destruct E2 as (B1 & B2 & B3).
  rewrite (firstn_all2 (n := 8) a), (firstn_all2 (n := 8) b) in B3 by lia.
  clear A1 A2 A3 A4 t1 p1.
  (* first step of the reduction *)
  destruct (for_up 7 0 _ (t2, 0)) as [t3 p3] eqn:E3.
  destruct (mul_red1 t2 B1 B2 _ (eq_sym E3)) as (C1 & C2 & C3 & C4 & C5).
  cbn [fst snd] in *. clear E3.
  rewrite (nth_skipn_eq t3 t2 7 15 C2) by lia.
  rewrite (nth_skipn_eq t3 t2 7 7 C2) by lia.
  pose proof (words_nth t2 7 B2) as Ht7. pose proof (words_nth t2 15 B2) as Ht15.
  change (Z.shiftl CONSTC 1) with 38. change (DWord CONSTC) with 19.
  rewrite (DWord_small t2.[15%nat]) by lia.
  rewrite (DWord_small (_ * 38)) by lia.
  rewrite (DWord_small (_ * 38 + _)) by lia.
  rewrite (DWord_small (p3 + _)) by lia.
  set (P := p3 + (t2.[15%nat] * 38 + t2.[7%nat])) in *.
  (* second step of the reduction *)
  rewrite land_MSB0, shiftr_31.
  assert (Hh : 0 <= P / 2 ^ 31 <= 77) by (apply div31_bounds; unfold P; lia).
  pose proof (Z.mod_pos_bound P (2 ^ 31) ltac:(lia)) as Hm.
  pose proof (split_31 P) as HP.
  rewrite (DWord_small (19 * _)) by lia.
  destruct (for_up 7 0 _ (r, 19 * (P / 2 ^ 31))) as [r' p4] eqn:E4.
  destruct (mul_red2 r t3 (19 * (P / 2 ^ 31)) ltac:(lia) C3 ltac:(lia) _ (eq_sym E4))
    as (D1 & D2 & D3 & D4).
  cbn [fst snd] in *. clear E4.
  rewrite (Word_small p4) by lia.
  rewrite (Word_small (_ + p4)) by lia.
  destruct (felem_upd_top r' (P mod 2 ^ 31 + p4)) as [F V]; try lia; auto.
  split; [exact F|]. rewrite V.
  pose proof (value_range _ D2) as R7.
  rewrite length_firstn, Nat.min_l in R7 by lia.
  (* the value of the 16-word product, split in halves *)
  pose proof (value_split_le 8 t2 ltac:(lia)) as HS.
  assert (L8 : length (skipn 8 t2) = 8%nat) by (rewrite length_skipn; lia).
  pose proof (value_firstn_S (skipn 8 t2) 7) as HH.
  rewrite (firstn_all2 (n := 8) (skipn 8 t2)) in HH by lia.
  rewrite nth_skipn in HH. change (8 + 7)%nat with 15%nat in HH.
  pose proof (value_firstn_S t2 7) as HL.
  pose proof (value_range _ (words_skipn 8 t2 B2)) as RH.
  change (pw 8) with (2 ^ 256) in *. rewrite pw_7, p_val in *.
  remember (P / 2 ^ 31) as q eqn:Eq. remember (P mod 2 ^ 31) as m eqn:Em.
  clear Eq Em. subst P.
  split; [lia|].
  exists (2 * value (skipn 8 t2) + q). lia.
Qed.

(** ** mpi_cmp *)

Lemma value_skipn_S (l : list Z) k :
  value (skipn k l) = l.[k] + 2 ^ 32 * value (skipn (S k) l).
Proof.
  revert k; induction l as [|w l IH]; intros k.
  - rewrite !skipn_nil. destruct k; cbn; lia.
  - destruct k as [|k].
    + reflexivity.
    + cbn [skipn nth]. rewrite IH. reflexivity.
Qed.

Lemma lor_double_bit x (b : bool) : Z.lor (2 * x) (Z.b2z b) = 2 * x + Z.b2z b.
Proof.
  pose proof (lor_shiftl_add x (Z.b2z b) 1 ltac:(lia)) as H.
  change (2 ^ 1) with 2 in H. rewrite (Z.mul_comm 2 x). apply H.
  destruct b; cbn; lia.
Qed.

Lemma Word_shiftl_1 x : 0 <= x < 2 ^ 31 -> Word (Z.shiftl x 1) = 2 * x.
Proof.
  intros H. rewrite Z.shiftl_mul_pow2 by lia. rewrite Word_small; lia.
Qed.

Lemma pow2_S_nat (n : nat) : 2 ^ Z.of_nat (S n) = 2 * 2 ^ Z.of_nat n.
Proof. rewrite Nat2Z.inj_succ, Z.pow_succ_r by lia. reflexivity. Qed.

Lemma pow2_le_31 (n : nat) : (n <= 31)%nat -> 2 ^ Z.of_nat n <= 2 ^ 31.
Proof. intros H. apply Z.pow_le_mono_r; lia. Qed.

Lemma mpi_cmp_spec a b len :
  (len <= 32)%nat -> words a -> words b ->
  mpi_cmp a b len = Some (Z.sgn (value (firstn len a) - value (firstn len b))).
Proof.
  intros Hlen Ha Hb. unfold mpi_cmp.
  replace (Z.of_nat len <=? WSIZE) with true
    by (symmetry; apply Z.leb_le; unfold WSIZE; lia).
  destruct len as [|n]; [reflexivity|].
  replace (S n - 1)%nat with n by lia.
  match goal with |- context [for_down (S n) n ?body ?s0] =>
    pose proof (for_down_ind
      (fun k (st : Z * Z) =>
         0 <= fst st < 2 ^ Z.of_nat (S n - k) /\
         0 <= snd st < 2 ^ Z.of_nat (S n - k) /\
         (fst st < snd st <->
          value (skipn k (firstn (S n) b)) < value (skipn k (firstn (S n) a))) /\
         (snd st < fst st <->
          value (skipn k (firstn (S n) a)) < value (skipn k (firstn (S n) b))))
      body (S n) n s0 ltac:(lia)) as H;
    destruct (for_down (S n) n body s0) as [lt gt]
  end.
  replace (S n - S n)%nat with 0%nat in H by lia.
  cbn [fst snd] in H.
  destruct H as (I1 & I2 & I3 & I4).
  - rewrite !skipn_all2 by (rewrite length_firstn; lia).
    replace (S n - S n)%nat with 0%nat by lia. cbn. lia.
  - clear lt gt. intros k [lt gt] Hk (I1 & I2 & I3 & I4). cbn [fst snd] in *.
    replace (S n - k)%nat with (S (n - k)) by lia.
    replace (S n - S k)%nat with (n - k)%nat in * by lia.
    rewrite pow2_S_nat.
    pose proof (pow2_le_31 (n - k) ltac:(lia)) as Hp.
    rewrite !Word_shiftl_1 by lia. rewrite !lor_double_bit.
    rewrite (value_skipn_S (firstn (S n) a) k), (value_skipn_S (firstn (S n) b) k).
    rewrite !nth_firstn_lt by lia.
    pose proof (words_nth a k Ha) as Hak. pose proof (words_nth b k Hb) as Hbk.
    rewrite Z.gtb_ltb.
    destruct (Z.ltb_spec a.[k] b.[k]); destruct (Z.ltb_spec b.[k] a.[k]);
      cbn [Z.b2z]; lia.
  - cbn [skipn] in I3, I4. rewrite !Z.gtb_ltb.
    f_equal.
    destruct (Z.ltb_spec lt gt); destruct (Z.ltb_spec gt lt); cbn [Z.b2z]; lia.
Qed.

(** ** mpi_cmpw *)

Lemma mpi_cmpw_is0 a len :
  words a ->
  let is0 := for_down (len - 1) (len - 1) (fun i is0 => Z.lor is0 a.[i]) 0 in
  0 <= is0 /\ (is0 = 0 <-> value (skipn 1 (firstn len a)) = 0).
Proof.
  intros Ha. cbv zeta.
  destruct len as [|n]; [cbn; lia|].
  replace (S n - 1)%nat with n by lia.
  destruct n as [|n].
  { cbn [for_down]. rewrite skipn_all2 by (rewrite length_firstn; lia). cbn; lia. }
  match goal with |- context [for_down (S n) (S n) ?body ?s0] =>
    pose proof (for_down_ind
      (fun k (is0 : Z) =>
         0 <= is0 /\ (is0 = 0 <-> value (skipn k (firstn (S (S n)) a)) = 0))
      body (S n) (S n) s0 ltac:(lia)) as H
  end.
  replace (S (S n) - S n)%nat with 1%nat in H by lia.
  apply H; clear H.
  - rewrite skipn_all2 by (rewrite length_firstn; lia). cbn; lia.
  - intros k is0 Hk (I1 & I2).
    pose proof (words_nth a k Ha) as Hak.
    rewrite (value_skipn_S (firstn (S (S n)) a) k).
    rewrite nth_firstn_lt by lia.
    pose proof (value_range _ (words_skipn (S k) _ (words_firstn (S (S n)) a Ha))) as R.
    split.
    + apply Z.lor_nonneg; lia.
    + rewrite Z.lor_eq_0_iff. lia.
Qed.

(** What [mpi_cmpw] computes: the verdict on word 0 is the sign of [b - a[0]]. *)
Lemma mpi_cmpw_spec a b len :
  words a -> (1 <= len)%nat ->
  mpi_cmpw a b len =
    if value (skipn 1 (firstn len a)) =? 0 then Z.sgn (b - a.[0%nat]) else 1.
Proof.
  intros Ha Hlen. unfold mpi_cmpw.
  destruct (mpi_cmpw_is0 a len Ha) as [H0 H1]. cbv zeta in H0, H1.
  set (is0 := for_down (len - 1) (len - 1) _ 0) in *.
  rewrite Z.gtb_ltb.
  destruct (Z.eqb_spec (value (skipn 1 (firstn len a))) 0) as [E|E].
  - rewrite (proj2 H1 E). cbn [Z.eqb negb Z.b2z].
    destruct (Z.ltb_spec a.[0%nat] b); destruct (Z.ltb_spec b a.[0%nat]);
      cbn; lia.
  - destruct (Z.eqb_spec is0 0) as [E'|E']; [tauto|].
    cbn [negb Z.b2z]. rewrite Z.land_0_r.
    destruct (Z.ltb_spec a.[0%nat] b); cbn; lia.
Qed.

Lemma mpi_cmpw_eq0 a b len :
  words a -> (1 <= len)%nat -> 0 <= b < 2 ^ 32 ->
  (mpi_cmpw a b len = 0 <-> value (firstn len a) = b).
Proof.
  intros Ha Hlen Hb. rewrite mpi_cmpw_spec by assumption.
  pose proof (value_skipn_S (firstn len a) 0) as HV.
  change (skipn 0 (firstn len a)) with (firstn len a) in HV.
  rewrite nth_firstn_lt in HV by lia.
  pose proof (value_range _ (words_skipn 1 _ (words_firstn len a Ha))) as R.
  pose proof (words_nth a 0 Ha) as Ha0.
  destruct (Z.eqb_spec (value (skipn 1 (firstn len a))) 0) as [E|E]; lia.
Qed.

(** ** mpi_shr *)

Lemma shift_in_word x t :
  0 <= x < 2 ^ 32 -> 0 <= t < 2 ^ 32 ->
  Z.lor (Word (Z.shiftl x (WSIZE - 1))) (Z.shiftr t 1) = (x mod 2) * 2 ^ 31 + t / 2.
Proof.
  intros Hx Ht. rewrite <- (Word_small x) at 1 by exact Hx. apply shift_in; exact Ht.
Qed.

Lemma mpi_shr_spec r a len :
  (1 <= len <= length r)%nat -> words a ->
  length (fst (mpi_shr r a len)) = length r /\
  skipn len (fst (mpi_shr r a len)) = skipn len r /\
  words (firstn len (fst (mpi_shr r a len))) /\
  2 * value (firstn len (fst (mpi_shr r a len))) + a.[0%nat] mod 2 =
    value (firstn len a).
Proof.
  intros Hlen Ha. unfold mpi_shr. cbn [fst].
  destruct len as [|n]; [lia|]. replace (S n - 1)%nat with n by lia.
  match goal with |- context [for_up n 0 ?body ?s0] =>
    pose proof (for_up_ind
      (fun i (r' : list Z) =>
         length r' = length r /\ skipn i r' = skipn i r /\
         words (firstn i r') /\
         2 * value (firstn i r') + a.[0%nat] mod 2 =
           value (firstn i a) + (a.[i] mod 2) * pw i)
      body n 0%nat s0) as H;
    set (r1 := for_up n 0 body s0) in *
  end.
  rewrite Nat.add_0_l in H. cbv beta in H.
  destruct H as (I1 & I2 & I3 & I4).
  - cbn [firstn skipn value]. rewrite pw_0. repeat split; try constructor; lia.
  - intros k rk Hk (I1 & I2 & I3 & I4).
    pose proof (words_nth a k Ha) as Hak. pose proof (words_nth a (S k) Ha) as Hak1.
    rewrite shift_in_word by assumption.
    pose proof (Z.div_mod a.[k] 2 ltac:(lia)) as Hd.
    pose proof (Z.mod_pos_bound a.[k] 2 ltac:(lia)) as Hm.
    pose proof (Z.mod_pos_bound a.[S k] 2 ltac:(lia)) as Hm1.
    split; [rewrite length_upd; exact I1|].
    split; [rewrite skipn_upd_lt by lia; apply skipn_S_eq; exact I2|].
    split; [apply words_firstn_S_upd; try lia; auto|].
    rewrite value_firstn_S_upd by lia. rewrite (value_firstn_S a k).
    rewrite pw_S.
    generalize dependent (a.[k] mod 2). generalize dependent (a.[k] / 2).
    generalize dependent (a.[S k] mod 2).
    intros; nia.
  - pose proof (words_nth a n Ha) as Han.
    pose proof (Z.div_mod a.[n] 2 ltac:(lia)) as Hd.
    pose proof (Z.mod_pos_bound a.[n] 2 ltac:(lia)) as Hm.
    rewrite shiftr_1.
    split; [rewrite length_upd; exact I1|].
    split; [rewrite skipn_upd_lt by lia; apply skipn_S_eq; exact I2|].
    split; [apply words_firstn_S_upd; try lia; auto|].
    rewrite value_firstn_S_upd by lia. rewrite (value_firstn_S a n).
    generalize dependent (a.[n] mod 2). generalize dependent (a.[n] / 2).
    intros; nia.
Qed.

(** ** Buffers of [LEN] words *)

Lemma length_8 (l : list Z) :
  length l = LEN ->
  exists w0 w1 w2 w3 w4 w5 w6 w7, l = [w0; w1; w2; w3; w4; w5; w6; w7].
Proof.
  intros H. change LEN with 8%nat in H.
  do 8 (destruct l as [|? l]; [discriminate|]).
  destruct l; [|discriminate]. repeat eexists.
Qed.

Lemma mpi_copy_LEN r a : length r = LEN -> length a = LEN -> mpi_copy r a LEN = a.
Proof.
  intros Hr Ha.
  destruct (length_8 r Hr) as (r0 & r1 & r2 & r3 & r4 & r5 & r6 & r7 & ->).
  destruct (length_8 a Ha) as (a0 & a1 & a2 & a3 & a4 & a5 & a6 & a7 & ->).
  reflexivity.
Qed.

Lemma mpi_setw_LEN r w : length r = LEN -> mpi_setw r w LEN = [w; 0; 0; 0; 0; 0; 0; 0].
Proof.
  intros Hr.
  destruct (length_8 r Hr) as (r0 & r1 & r2 & r3 & r4 & r5 & r6 & r7 & ->).
  reflexivity.
Qed.

(** ** Primality of [p] *)

Lemma prime_divisor_exists m : 1 < m -> exists q, Z.prime q /\ (q | m).
Proof.
  intros Hm. assert (H0 : 0 <= m) by lia. revert Hm.
  pattern m. apply Z_lt_induction; [|exact H0]. clear m H0.
  intros m IH Hm. destruct (prime_dec m) as [Hp|Hnp].
  - exists m. split; [apply prime_alt; exact Hp|apply Z.divide_refl].
  - destruct (not_prime_divide m Hm Hnp) as (d & Hd & Hdiv).
    destruct (IH d ltac:(lia) ltac:(lia)) as (q & Hq & Hqd).
    exists q. split; [exact Hq|]. eapply Z.divide_trans; eassumption.
Qed.

Lemma mul_mod_1_coprime x y n : 1 < n -> (x * y) mod n = 1 -> Z.gcd x n = 1.
Proof.
  intros Hn H.
  pose proof (Z.div_mod (x * y) n ltac:(lia)) as Hdm. rewrite H in Hdm.
  apply Z.divide_1_r_nonneg; [apply Z.gcd_nonneg|].
  replace 1 with (x * y - n * (x * y / n)) by lia.
  apply Z.divide_sub_r.
  - apply Z.divide_mul_l. apply Z.gcd_divide_l.
  - apply Z.divide_mul_l. apply Z.gcd_divide_r.
Qed.

Section Lucas.
Variables n a : Z.
Hypothesis Hn : 1 < n.
Hypothesis Ha : a ^ (n - 1) mod n = 1.
Hypothesis Hq : forall q, Z.prime q -> (q | n - 1) -> a ^ ((n - 1) / q) mod n <> 1.

Lemma order_mul k c : 0 <= k -> 0 <= c -> a ^ k mod n = 1 -> a ^ (k * c) mod n = 1.
Proof.
  intros Hk Hc H. rewrite Z.pow_mul_r by assumption.
  rewrite <- Z.mod_pow_l, H, Z.pow_1_l by assumption. apply Z.mod_small; lia.
Qed.

Lemma order_mod k m :
  0 < k -> 0 <= m -> a ^ k mod n = 1 -> a ^ m mod n = 1 -> a ^ (m mod k) mod n = 1.
Proof.
  intros Hk Hm Ek Em.
  pose proof (Z.div_mod m k ltac:(lia)) as Hdm.
  pose proof (Z.mod_pos_bound m k Hk) as Hb.
  assert (Hd : 0 <= m / k) by (apply Z.div_pos; lia).
  rewrite Hdm in Em at 1.
  rewrite Z.pow_add_r in Em by nia.
  rewrite Z.mul_mod in Em by lia.
  rewrite (order_mul k (m / k)) in Em by (try lia; exact Ek).
  rewrite Z.mul_1_l, Z.mod_mod in Em by lia. exact Em.
Qed.

Lemma order_gcd k :
  0 <= k -> forall m, 0 <= m ->
  a ^ k mod n = 1 -> a ^ m mod n = 1 -> a ^ Z.gcd k m mod n = 1.
Proof.
  intros Hk. pattern k. apply Z_lt_induction; [|exact Hk]. clear k Hk.
  intros k IH m Hm Ek Em.
  destruct (Z.eq_dec k 0) as [->|Hk0].
  - rewrite Z.gcd_0_l, Z.abs_eq by lia. exact Em.
  - assert (Hk : 0 <= k).
    { destruct (Z.lt_ge_cases k 0) as [Hneg|]; [|lia].
      rewrite Z.pow_neg_r in Ek by lia. rewrite Z.mod_0_l in Ek by lia. lia. }
    rewrite <- Z.gcd_mod by exact Hk0.
    pose proof (Z.mod_pos_bound m k ltac:(lia)) as Hb.
    apply IH; [lia|lia|apply order_mod; try lia; assumption|exact Ek].
Qed.

Lemma powers_distinct i j :
  0 <= i -> i < j -> j < n - 1 -> a ^ i mod n <> a ^ j mod n.
Proof.
  intros Hi Hij Hj Heq.
  assert (E : a ^ (j - i) mod n = 1).
  { assert (H1 : (a ^ (n - 1 - i) * a ^ i) mod n = 1).
    { rewrite <- Z.pow_add_r by lia. replace (n - 1 - i + i) with (n - 1) by lia.
      exact Ha. }
    rewrite <- Z.mul_mod_idemp_r, Heq, Z.mul_mod_idemp_r in H1 by lia.
    rewrite <- Z.pow_add_r in H1 by lia.
    replace (n - 1 - i + j) with (n - 1 + (j - i)) in H1 by lia.
    rewrite Z.pow_add_r in H1 by lia.
    rewrite <- Z.mul_mod_idemp_l, Ha, Z.mul_1_l in H1 by lia. exact H1. }
  pose proof (order_gcd (j - i) ltac:(lia) (n - 1) ltac:(lia) E Ha) as Eg.
  set (g := Z.gcd (j - i) (n - 1)) in *.
  assert (Hg0 : 0 <= g) by apply Z.gcd_nonneg.
  destruct (Z.gcd_divide_l (j - i) (n - 1)) as [c1 Hc1].
  destruct (Z.gcd_divide_r (j - i) (n - 1)) as [c Hc].
  fold g in Hc1, Hc.
  assert (Hgpos : 0 < g).
  { destruct (Z.eq_dec g 0) as [E0|]; [rewrite E0 in Hc1; lia|lia]. }
  assert (Hgle : g <= j - i).
  { apply Z.divide_pos_le; [lia|exists c1; exact Hc1]. }
  assert (Hc1' : 1 < c).
  { destruct (Z.le_gt_cases c 1) as [Hle|]; [exfalso|lia].
    assert (c * g <= g) by nia. lia. }
  destruct (prime_divisor_exists c Hc1') as (q & Hqp & [d Hd]).
  assert (Hq2 : 2 <= q) by (apply Z.prime_ge_2; exact Hqp).
  assert (Hdpos : 0 <= d) by nia.
  apply (Hq q Hqp).
  - exists (d * g). rewrite Hc, Hd. ring.
  - replace ((n - 1) / q) with (g * d).
    + apply order_mul; try lia; exact Eg.
    + apply Z.div_unique_exact; [lia|]. rewrite Hc, Hd. ring.
Qed.

Lemma power_unit i : 0 <= i <= n - 1 -> Z.gcd (a ^ i mod n) n = 1.
Proof.
  intros Hi. apply (mul_mod_1_coprime _ (a ^ (n - 1 - i))); [exact Hn|].
  rewrite Z.mul_mod_idemp_l by lia.
  rewrite <- Z.pow_add_r by lia. replace (i + (n - 1 - i)) with (n - 1) by lia.
  exact Ha.
Qed.

Lemma power_range i : 0 <= i <= n - 1 -> 1 <= a ^ i mod n < n.
Proof.
  intros Hi. pose proof (Z.mod_pos_bound (a ^ i) n ltac:(lia)) as Hb.
  pose proof (power_unit i Hi) as Hu.
  destruct (Z.eq_dec (a ^ i mod n) 0) as [E|E]; [|lia].
  rewrite E in Hu. rewrite Z.gcd_0_l, Z.abs_eq in Hu by lia. lia.
Qed.

Lemma powers_cover x : 1 <= x < n -> exists i, 0 <= i <= n - 1 /\ x = a ^ i mod n.
Proof.
  intros Hx.
  set (N := Z.to_nat (n - 1)).
  set (L := map (fun i : nat => a ^ Z.of_nat i mod n) (seq 0 N)).
  set (T := map Z.of_nat (seq 1 N)).
  assert (HL : NoDup L).
  { apply NoDup_map_NoDup_ForallPairs; [|apply seq_NoDup].
    intros u v Hu Hv Huv. apply in_seq in Hu, Hv.
    destruct (Nat.lt_total u v) as [H|[H|H]]; [|exact H|].
    - exfalso.
      apply (powers_distinct (Z.of_nat u) (Z.of_nat v));
        unfold N in *; try lia; try exact Huv.
    - exfalso.
      apply (powers_distinct (Z.of_nat v) (Z.of_nat u));
        unfold N in *; try lia; try (symmetry; exact Huv). }
  assert (Hincl : incl L T).
  { intros y Hy. apply in_map_iff in Hy. destruct Hy as (u & <- & Hu).
    apply in_seq in Hu.
    pose proof (power_range (Z.of_nat u) ltac:(unfold N in *; lia)) as Hr.
    apply in_map_iff. exists (Z.to_nat (a ^ Z.of_nat u mod n)).
    split; [lia|]. apply in_seq. unfold N. lia. }
  assert (Hlen : (length T <= length L)%nat).
  { unfold T, L. rewrite !length_map, !length_seq. lia. }
  pose proof (NoDup_length_incl HL Hlen Hincl) as Hback.
  assert (HxT : In x T).
  { apply in_map_iff. exists (Z.to_nat x). split; [lia|].
    apply in_seq. unfold N. lia. }
  apply Hback in HxT. apply in_map_iff in HxT. destruct HxT as (u & Hu & Hin).
  apply in_seq in Hin. exists (Z.of_nat u). split; [unfold N in *; lia|].
  symmetry; exact Hu.
Qed.

Lemma lucas_prime : Z.prime n.
Proof.
  split; [exact Hn|]. intros x Hx Hdiv.
  destruct (powers_cover x ltac:(lia)) as (i & Hi & E).
  pose proof (power_unit i Hi) as Hu. rewrite <- E in Hu.
  apply Z.divide_gcd_iff in Hdiv; lia.
Qed.
End Lucas.

Lemma powmod_pos_spec a e n : 0 < n -> powmod_pos a e n = a ^ Zpos e mod n.
Proof.
  intros Hn. induction e as [e IH|e IH|]; cbn [powmod_pos].
  - rewrite IH. rewrite Pos2Z.inj_xI.
    replace (2 * Z.pos e + 1) with (Z.pos e + Z.pos e + 1) by lia.
    rewrite !Z.pow_add_r, Z.pow_1_r by lia.
    rewrite <- Z.mul_mod_idemp_l by lia.
    rewrite <- (Z.mul_mod (a ^ Z.pos e) (a ^ Z.pos e)) by lia.
    rewrite Z.mul_mod_idemp_l by lia. reflexivity.
  - rewrite IH. rewrite Pos2Z.inj_xO.
    replace (2 * Z.pos e) with (Z.pos e + Z.pos e) by lia.
    rewrite !Z.pow_add_r by lia.
    rewrite <- Z.mul_mod by lia. reflexivity.
  - rewrite Z.pow_1_r. reflexivity.
Qed.

Lemma powmod_spec a e n : 0 < n -> 0 <= e -> powmod a e n = a ^ e mod n.
Proof.
  intros Hn He. destruct e as [|e|e]; [reflexivity|apply powmod_pos_spec; exact Hn|lia].
Qed.

Lemma prime_divides_factors fs q :
  Forall (fun f : Z * Z => Z.prime (fst f) /\ 0 < snd f) fs ->
  Z.prime q -> (q | factors_product fs) -> exists k, In (q, k) fs.
Proof.
  intros Hfs Hq. induction Hfs as [|[q1 k1] fs [H1 H2] _ IH]; cbn [factors_product fold_right].
  - intros Hd. apply Z.divide_1_r in Hd. pose proof (Z.prime_ge_2 q Hq). lia.
  - intros Hd. cbn [fst snd] in *.
    apply Z.divide_prime_mul in Hd; [|exact Hq].
    destruct Hd as [Hd|Hd].
    + apply Z.divide_prime_pp in Hd; try assumption; try lia.
      subst q1. exists k1. left; reflexivity.
    + destruct (IH Hd) as [k Hk]. exists k. right; exact Hk.
Qed.

Lemma check_entry_sound known e :
  Forall Z.prime known -> check_entry known e = true -> Z.prime (fst (fst e)).
Proof.
  intros Hknown. destruct e as [[n a] fs]. unfold check_entry. cbn [fst].
  rewrite !andb_true_iff. intros [[[H1 H2] H3] H4].
  apply Z.ltb_lt in H1. apply Z.eqb_eq in H2, H3.
  rewrite forallb_forall in H4.
  assert (Hfs : Forall (fun f : Z * Z => Z.prime (fst f) /\ 0 < snd f) fs).
  { apply Forall_forall. intros [q k] Hin. specialize (H4 _ Hin). cbn beta iota in H4.
    rewrite !andb_true_iff in H4. destruct H4 as [[Hk Hpos] _].
    apply existsb_exists in Hk. destruct Hk as (q' & Hq' & Heq).
    apply Z.eqb_eq in Heq. subst q'. cbn [fst snd]. split.
    - rewrite Forall_forall in Hknown. apply Hknown; exact Hq'.
    - apply Z.ltb_lt; exact Hpos. }
  apply (lucas_prime n a H1).
  - rewrite <- powmod_spec by lia. exact H3.
  - intros q Hq Hdiv. rewrite H2 in Hdiv.
    destruct (prime_divides_factors fs q Hfs Hq Hdiv) as [k Hin].
    specialize (H4 _ Hin). cbn beta iota in H4.
    rewrite !andb_true_iff in H4. destruct H4 as [_ Hne].
    apply negb_true_iff, Z.eqb_neq in Hne.
    pose proof (Z.prime_ge_2 q Hq).
    rewrite <- powmod_spec; [exact Hne|lia|apply Z.div_pos; lia].
Qed.

Lemma check_cert_sound es :
  forall known, Forall Z.prime known -> check_cert known es = true ->
  Forall (fun e : cert_entry => Z.prime (fst (fst e))) es.
Proof.
  induction es as [|e es IH]; intros known Hk H; [constructor|].
  cbn [check_cert] in H. apply andb_true_iff in H. destruct H as [H1 H2].
  pose proof (check_entry_sound known e Hk H1) as He.
  constructor; [exact He|]. apply (IH (fst (fst e) :: known)); [|exact H2].
  constructor; assumption.
Qed.

Lemma p_prime : Z.prime p.
Proof.
  assert (H : Forall (fun e : cert_entry => Z.prime (fst (fst e))) p_cert).
  { apply (check_cert_sound p_cert [2]).
    - constructor; [exact Z.prime_2|constructor].
    - vm_compute; reflexivity. }
  assert (Hin : existsb (fun e : cert_entry => fst (fst e) =? p) p_cert = true)
    by (vm_compute; reflexivity).
  apply existsb_exists in Hin. destruct Hin as (e & Hin & He).
  apply Z.eqb_eq in He. rewrite <- He.
  rewrite Forall_forall in H. apply H; exact Hin.
Qed.

(** ** The while rule *)

Lemma while_rule {St : Type} (I Q : St -> Prop) (m : St -> nat)
    (cond : St -> option (bool * St)) (body : St -> option St) :
  (forall s, I s ->
     exists b s1, cond s = Some (b, s1) /\
       ((b = false /\ Q s1) \/
        (b = true /\ exists s2, body s1 = Some s2 /\ I s2 /\ (m s2 < m s)%nat))) ->
  forall fuel s, I s -> (m s < fuel)%nat ->
  exists s', while fuel cond body s = Some s' /\ Q s'.
Proof.
  intros Hstep fuel. induction fuel as [|fuel IH]; intros s HI Hm; [lia|].
  cbn [while].
  destruct (Hstep s HI) as (b & s1 & Hc & [[-> HQ]|[-> (s2 & Hb & HI2 & Hm2)]]).
  - rewrite Hc. exists s1. split; [reflexivity|exact HQ].
  - rewrite Hc, Hb. apply IH; [exact HI2|lia].
Qed.

(** ** Values that fit in fewer words *)

Lemma value_firstn_small l n :
  words l -> value l < pw n -> value (firstn n l) = value l /\ value (skipn n l) = 0.
Proof.
  intros Hw Hv.
  pose proof (value_split n l) as Hs.
  pose proof (value_range _ (words_firstn n l Hw)) as R1.
  pose proof (value_range _ (words_skipn n l Hw)) as R2.
  pose proof (pw_pos (length (firstn n l))) as Hp.
  destruct (Nat.le_gt_cases n (length l)) as [Hn|Hn].
  - rewrite length_firstn, Nat.min_l in * by lia.
    assert (value (skipn n l) = 0) by nia. split; nia.
  - rewrite firstn_all2, skipn_all2 by lia. split; reflexivity.
Qed.

Lemma words_of_parts l n :
  words (firstn n l) -> words (skipn n l) -> words l.
Proof. intros H1 H2. rewrite <- (firstn_skipn n l). apply words_app; assumption. Qed.

(** An in-place operation on the low [n] words of a value that fits in [n]
    words. *)
Lemma low_words_update l l' n v :
  words l -> value l < pw n -> (n <= length l)%nat ->
  length l' = length l -> skipn n l' = skipn n l -> words (firstn n l') ->
  value (firstn n l') = v ->
  words l' /\ value l' = v.
Proof.
  intros Hw Hv Hn Hl Hs Hw' Hv'.
  destruct (value_firstn_small l n Hw Hv) as [_ H0].
  split.
  - apply (words_of_parts l' n); [exact Hw'|]. rewrite Hs. apply words_skipn; exact Hw.
  - rewrite (value_split_le n l') by lia. rewrite Hs, H0, Hv'. lia.
Qed.

Lemma land_1_even l : Z.land l.[0%nat] 1 = value l mod 2.
Proof. rewrite land_1, value_mod2. reflexivity. Qed.

Lemma p_odd_coprime : Z.gcd p 2 = 1.
Proof. vm_compute; reflexivity. Qed.

Lemma p_pos : 2 < p.
Proof. rewrite p_val. lia. Qed.

Lemma log2_half x y : 1 <= y -> 2 * y <= x -> Z.log2 y + 1 <= Z.log2 x.
Proof.
  intros Hy Hx. pose proof (Z.log2_double y ltac:(lia)) as Hd.
  pose proof (Z.log2_le_mono (2 * y) x Hx) as Hm. lia.
Qed.

Lemma gcd_half x y : 
  Z.gcd (2 * x) y = 1 -> Z.gcd x y = 1.
Proof.
  intros H. apply Z.divide_1_r_nonneg; [apply Z.gcd_nonneg|].
  rewrite <- H. apply Z.gcd_greatest.
  - apply Z.divide_mul_r. apply Z.gcd_divide_l.
  - apply Z.gcd_divide_r.
Qed.

Lemma gcd_sub x y : Z.gcd x y = 1 -> Z.gcd (x - y) y = 1.
Proof.
  intros H. apply Z.divide_1_r_nonneg; [apply Z.gcd_nonneg|].
  rewrite <- H.
  pose proof (Z.gcd_divide_l (x - y) y) as H1.
  pose proof (Z.gcd_divide_r (x - y) y) as H2.
  set (g := Z.gcd (x - y) y) in *.
  apply Z.gcd_greatest; [|exact H2].
  replace x with (x - y + y) by lia. apply Z.divide_add_r; assumption.
Qed.

Lemma gcd_even_even x y : x mod 2 = 0 -> y mod 2 = 0 -> Z.gcd x y <> 1.
Proof.
  intros Hx Hy H.
  assert (H2 : (2 | Z.gcd x y)).
  { apply Z.gcd_greatest; apply Z.mod_divide; lia. }
  rewrite H in H2. apply Z.divide_1_r_nonneg in H2; lia.
Qed.

Lemma halve_congruence x x' u u' A o :
  2 * x' = x + o * p -> u = 2 * u' -> (p | x * A - u) -> (p | x' * A - u').
Proof.
  intros Hx Hu [c Hc].
  apply (Z.gauss p 2); [|exact p_odd_coprime].
  exists (c + o * A). nia.
Qed.

(** ** gfp_inv: the halving loops *)

(** One iteration: [mpi_shr(u, u, n); gfp_hlv(x, x)] on an even [u]. *)
Lemma shr_hlv_step A u x n :
  felem u -> felem x -> (1 <= n <= LEN)%nat ->
  value u < pw n -> value u mod 2 = 0 -> (p | value x * A - value u) ->
  felem (fst (mpi_shr_inplace u n)) /\ felem (gfp_hlv_inplace x) /\
  2 * value (fst (mpi_shr_inplace u n)) = value u /\
  (p | value (gfp_hlv_inplace x) * A - value (fst (mpi_shr_inplace u n))).
Proof.
  intros [Hlu Hwu] Hx Hn Hv Hev Hc.
  rewrite mpi_shr_inplace_eq, gfp_hlv_inplace_eq.
  destruct (mpi_shr_spec u u n ltac:(lia) Hwu) as (S1 & S2 & S3 & S4).
  rewrite <- value_mod2, Hev in S4.
  destruct (value_firstn_small u n Hwu Hv) as [Hf _]. rewrite Hf in S4.
  destruct (low_words_update u (fst (mpi_shr u u n)) n
              (value (firstn n (fst (mpi_shr u u n)))) Hwu Hv ltac:(lia) S1 S2 S3 eq_refl)
    as [W V].
  destruct (gfp_hlv_spec x x (proj1 Hx) Hx) as [Fx Vx].
  split; [split; [lia|exact W]|]. split; [exact Fx|].
  split; [lia|].
  apply (halve_congruence (value x) _ (value u) _ A (value x mod 2)); [exact Vx|lia|exact Hc].
Qed.

Lemma log2_fits x (n : nat) : 1 <= x < pw n -> (n <= LEN)%nat -> Z.log2 x < 256.
Proof.
  intros Hx Hn. apply Z.log2_lt_pow2; [lia|].
  assert (pw n <= 2 ^ 256); [|lia].
  unfold pw, WSIZE. apply Z.pow_le_mono_r; [lia|]. change LEN with 8%nat in Hn. lia.
Qed.

Lemma shift_ux A F s :
  inv_ok A s -> (256 <= F)%nat ->
  exists s',
    while F
      (fun s => Some (Z.land (ux s).[0%nat] 1 =? 0, s))
      (fun s =>
         let s := set_ux s (fst (mpi_shr_inplace (ux s) (uvlen s))) in
         Some (set_x1 s (gfp_hlv_inplace (x1 s))))
      s = Some s' /\
    inv_ok A s' /\ vx s' = vx s /\ x2 s' = x2 s /\ uvlen s' = uvlen s /\
    cmp_lens s' = cmp_lens s /\ value (ux s') mod 2 = 1 /\
    (s' = s \/ (value (ux s) mod 2 = 0 /\ 2 * value (ux s') <= value (ux s))).
Proof.
  intros Hs HF.
  match goal with |- exists s', while F ?cond ?body s = Some s' /\ _ =>
    destruct (while_rule
      (fun t => inv_ok A t /\ vx t = vx s /\ x2 t = x2 s /\ uvlen t = uvlen s /\
                cmp_lens t = cmp_lens s /\
                (t = s \/ (value (ux s) mod 2 = 0 /\ 2 * value (ux t) <= value (ux s))))
      (fun t => inv_ok A t /\ vx t = vx s /\ x2 t = x2 s /\ uvlen t = uvlen s /\
                cmp_lens t = cmp_lens s /\ value (ux t) mod 2 = 1 /\
                (t = s \/ (value (ux s) mod 2 = 0 /\ 2 * value (ux t) <= value (ux s))))
      (fun t => Z.to_nat (Z.log2 (value (ux t))))
      cond body) with (fuel := F) (s := s) as (s' & Hw & HQ)
  end.
  - intros t (Ht & E1 & E2 & E3 & E4 & E5).
    exists (Z.land (ux t).[0%nat] 1 =? 0), t. split; [reflexivity|].
    rewrite land_1_even.
    pose proof (Z.mod_pos_bound (value (ux t)) 2 ltac:(lia)) as Hb.
    destruct (Z.eqb_spec (value (ux t) mod 2) 0) as [Hev|Hodd].
    + right. split; [reflexivity|].
      destruct Ht as (Fu & Fv & F1 & F2 & Hn & Ru & Rv & Hg & C1 & C2 & Hl).
      destruct (shr_hlv_step A (ux t) (x1 t) (uvlen t) Fu F1 Hn ltac:(lia) Hev C1)
        as (Fu' & F1' & Vu & C1').
      eexists. split; [reflexivity|].
      destruct t as [u v y1 y2 n lg]. cbn [ux vx x1 x2 uvlen cmp_lens set_ux set_x1] in *.
      set (u' := fst (mpi_shr_inplace u n)) in *.
      assert (Hu2 : 2 <= value u).
      { pose proof (Z.div_mod (value u) 2 ltac:(lia)). lia. }
      split; [|apply Z2Nat.inj_lt; try apply Z.log2_nonneg;
               pose proof (log2_half (value u) (value u') ltac:(lia) ltac:(lia)); lia].
      split.
      { unfold inv_ok. cbn [ux vx x1 x2 uvlen cmp_lens set_ux set_x1].
        refine (conj Fu' (conj Fv (conj F1' (conj F2 (conj Hn (conj _ (conj Rv
                 (conj _ (conj C1' (conj C2 Hl)))))))))); [lia|].
        apply gcd_half. rewrite Vu. exact Hg. }
      refine (conj E1 (conj E2 (conj E3 (conj E4 _)))).
      right. destruct E5 as [E5|[E5 E6]].
      * rewrite <- E5. cbn [ux]. split; [exact Hev|lia].
      * split; [exact E5|lia].
    + left. split; [reflexivity|].
      refine (conj Ht (conj E1 (conj E2 (conj E3 (conj E4 (conj _ E5)))))). lia.
  - refine (conj Hs (conj eq_refl (conj eq_refl (conj eq_refl (conj eq_refl _))))).
    left; reflexivity.
  - destruct Hs as (Fu & Fv & F1 & F2 & Hn & Ru & Rv & Hg & C1 & C2 & Hl).
    pose proof (log2_fits _ _ Ru ltac:(lia)). pose proof (Z.log2_nonneg (value (ux s))). lia.
  - exists s'. split; [exact Hw|]. tauto.
Qed.

Lemma shift_vx A F s :
  inv_ok A s -> (256 <= F)%nat ->
  exists s',
    while F
      (fun s => Some (Z.land (vx s).[0%nat] 1 =? 0, s))
      (fun s =>
         let s := set_vx s (fst (mpi_shr_inplace (vx s) (uvlen s))) in
         Some (set_x2 s (gfp_hlv_inplace (x2 s))))
      s = Some s' /\
    inv_ok A s' /\ ux s' = ux s /\ x1 s' = x1 s /\ uvlen s' = uvlen s /\
    cmp_lens s' = cmp_lens s /\ value (vx s') mod 2 = 1 /\
    (s' = s \/ (value (vx s) mod 2 = 0 /\ 2 * value (vx s') <= value (vx s))).
Proof.
  intros Hs HF.
  match goal with |- exists s', while F ?cond ?body s = Some s' /\ _ =>
    destruct (while_rule
      (fun t => inv_ok A t /\ ux t = ux s /\ x1 t = x1 s /\ uvlen t = uvlen s /\
                cmp_lens t = cmp_lens s /\
                (t = s \/ (value (vx s) mod 2 = 0 /\ 2 * value (vx t) <= value (vx s))))
      (fun t => inv_ok A t /\ ux t = ux s /\ x1 t = x1 s /\ uvlen t = uvlen s /\
                cmp_lens t = cmp_lens s /\ value (vx t) mod 2 = 1 /\
                (t = s \/ (value (vx s) mod 2 = 0 /\ 2 * value (vx t) <= value (vx s))))
      (fun t => Z.to_nat (Z.log2 (value (vx t))))
      cond body) with (fuel := F) (s := s) as (s' & Hw & HQ)
  end.
  - intros t (Ht & E1 & E2 & E3 & E4 & E5).
    exists (Z.land (vx t).[0%nat] 1 =? 0), t. split; [reflexivity|].
    rewrite land_1_even.
    pose proof (Z.mod_pos_bound (value (vx t)) 2 ltac:(lia)) as Hb.
    destruct (Z.eqb_spec (value (vx t) mod 2) 0) as [Hev|Hodd].
    + right. split; [reflexivity|].
      destruct Ht as (Fu & Fv & F1 & F2 & Hn & Ru & Rv & Hg & C1 & C2 & Hl).
      destruct (shr_hlv_step A (vx t) (x2 t) (uvlen t) Fv F2 Hn ltac:(lia) Hev C2)
        as (Fv' & F2' & Vv & C2').
      eexists. split; [reflexivity|].
      destruct t as [u v y1 y2 n lg]. cbn [ux vx x1 x2 uvlen cmp_lens set_vx set_x2] in *.
      set (v' := fst (mpi_shr_inplace v n)) in *.
      assert (Hv2 : 2 <= value v).
      { pose proof (Z.div_mod (value v) 2 ltac:(lia)). lia. }
      split; [|apply Z2Nat.inj_lt; try apply Z.log2_nonneg;
               pose proof (log2_half (value v) (value v') ltac:(lia) ltac:(lia)); lia].
      split.
      { unfold inv_ok. cbn [ux vx x1 x2 uvlen cmp_lens set_vx set_x2].
        refine (conj Fu (conj Fv' (conj F1 (conj F2' (conj Hn (conj Ru (conj _
                 (conj _ (conj C1 (conj C2' Hl)))))))))); [lia|].
        rewrite Z.gcd_comm. apply gcd_half. rewrite Vv, Z.gcd_comm. exact Hg. }
      refine (conj E1 (conj E2 (conj E3 (conj E4 _)))).
      right. destruct E5 as [E5|[E5 E6]].
      * rewrite <- E5. cbn [vx]. split; [exact Hev|lia].
      * split; [exact E5|lia].
    + left. split; [reflexivity|].
      refine (conj Ht (conj E1 (conj E2 (conj E3 (conj E4 (conj _ E5)))))). lia.
  - refine (conj Hs (conj eq_refl (conj eq_refl (conj eq_refl (conj eq_refl _))))).
    left; reflexivity.
  - destruct Hs as (Fu & Fv & F1 & F2 & Hn & Ru & Rv & Hg & C1 & C2 & Hl).
    pose proof (log2_fits _ _ Rv ltac:(lia)). pose proof (Z.log2_nonneg (value (vx s))). lia.
  - exists s'. split; [exact Hw|]. tauto.
Qed.

(** ** gfp_inv: the subtraction step *)

(** [mpi_sub(u, u, v, n); gfp_sub(x, x, y)] with [v <= u]. *)
Lemma sub_step A u v x y n :
  felem u -> felem v -> felem x -> felem y -> (1 <= n <= LEN)%nat ->
  value u < pw n -> value v < pw n -> value v <= value u ->
  (p | value x * A - value u) -> (p | value y * A - value v) ->
  felem (fst (mpi_sub_inplace u v n)) /\ felem (gfp_sub_inplace x y) /\
  value (fst (mpi_sub_inplace u v n)) = value u - value v /\
  (p | value (gfp_sub_inplace x y) * A - value (fst (mpi_sub_inplace u v n))).
Proof.
  intros [Hlu Hwu] [Hlv Hwv] Hx Hy Hn Hu Hv Hle [c1 Hc1] [c2 Hc2].
  rewrite mpi_sub_inplace_eq, gfp_sub_inplace_eq.
  destruct (mpi_sub_spec u u v n ltac:(lia) Hwu Hwv) as (S1 & S2 & S3 & S4 & S5).
  destruct (value_firstn_small u n Hwu Hu) as [Hfu _].
  destruct (value_firstn_small v n Hwv Hv) as [Hfv _].
  rewrite Hfu, Hfv in S5.
  pose proof (value_range _ S3) as R. rewrite length_firstn, Nat.min_l in R by lia.
  pose proof (value_range _ Hwv) as Rv.
  assert (Hbw : snd (mpi_sub u u v n) = 0).
  { pose proof (pw_pos n).
    assert (snd (mpi_sub u u v n) = 0 \/ snd (mpi_sub u u v n) = 1) as [E|E] by lia;
      [exact E|]. rewrite E in S5. lia. }
  rewrite Hbw in S5.
  destruct (low_words_update u (fst (mpi_sub u u v n)) n (value u - value v)
              Hwu Hu ltac:(lia) S1 S2 S3 ltac:(lia)) as [W V].
  destruct (gfp_sub_spec x x y (proj1 Hx) Hx Hy) as (Fs & _ & Vs).
  split; [split; [lia|exact W]|]. split; [exact Fs|]. split; [exact V|].
  rewrite V, Vs.
  set (h := 4 - (2 ^ 33 - 4 + x.[7%nat] - y.[7%nat]) / 2 ^ 31).
  exists (c1 - c2 + h * A). nia.
Qed.

(** The test [ux[uvlen-1] == 0] that lets [uvlen] shrink. *)
Lemma top_word_zero u n :
  words u -> 1 <= value u < pw n -> (1 <= n)%nat -> u.[(n - 1)%nat] = 0 ->
  (2 <= n)%nat /\ value u < pw (n - 1).
Proof.
  intros Hw Hv Hn H0.
  destruct (value_firstn_small u n Hw ltac:(lia)) as [Hf _].
  destruct n as [|n]; [lia|]. replace (S n - 1)%nat with n in * by lia.
  rewrite value_firstn_S, H0 in Hf.
  pose proof (value_range _ (words_firstn n u Hw)) as R.
  assert (Hpw : pw (length (firstn n u)) <= pw n).
  { unfold pw, WSIZE. apply Z.pow_le_mono_r; [lia|]. rewrite length_firstn. lia. }
  split; [|lia].
  destruct n as [|n]; [|lia]. cbn [firstn value] in Hf. lia.
Qed.

Lemma odd_mod2 x : x mod 2 = 1 -> Z.odd x = true.
Proof. intros H. rewrite Zmod_odd in H. destruct (Z.odd x); [reflexivity|discriminate]. Qed.

Lemma measure_after_sub u v u2 v2 (f : bool) :
  1 <= v2 -> v2 < u2 -> u2 mod 2 = 1 -> v2 mod 2 = 1 ->
  Z.log2 u2 + Z.log2 v2 + 1 <= Z.log2 u + Z.log2 v + (if f then 1 else 0)
  \/ (u2 = u /\ v2 = v /\ f = true) ->
  Z.log2 (u2 - v2) + Z.log2 v2
    + (if Z.odd (u2 - v2) && Z.odd v2 then 1 else 0)
  < Z.log2 u + Z.log2 v + (if f then 1 else 0).
Proof.
  intros Hv Hlt Hu2 Hv2 H.
  rewrite Z.odd_sub, (odd_mod2 u2 Hu2), (odd_mod2 v2 Hv2). cbn [xorb andb].
  pose proof (Z.log2_le_mono (u2 - v2) u2 ltac:(lia)).
  destruct H as [H|(-> & -> & ->)]; lia.
Qed.

(** ** gfp_inv: one iteration of the main loop *)

Lemma Forall_snoc {X : Type} (P : X -> Prop) l x : Forall P l -> P x -> Forall P (l ++ [x]).
Proof. intros Hl Hx. apply Forall_app. split; [exact Hl|constructor; [exact Hx|constructor]]. Qed.

Lemma inv_body_step A F s :
  inv_ok A s -> (256 <= F)%nat -> value (ux s) <> 1 -> value (vx s) <> 1 ->
  match inv_body F s with
  | Some s' => inv_ok A s' /\ inv_measure s' < inv_measure s
  | None => False
  end.
Proof.
  intros Hs HF Hu1 Hv1. cbv delta [inv_body] beta.
  destruct (shift_ux A F s Hs HF) as (s1 & W1 & I1 & Ev1 & Ex21 & En1 & El1 & Odd1 & Ch1).
  rewrite W1.
  destruct (shift_vx A F s1 I1 HF) as (s2 & W2 & I2 & Eu2 & Ex12 & En2 & El2 & Odd2 & Ch2).
  rewrite W2. clear W1 W2.
  assert (Hu_rel : (value (ux s1) = value (ux s) /\ value (ux s) mod 2 = 1) \/
                   (value (ux s) mod 2 = 0 /\ 2 * value (ux s1) <= value (ux s))).
  { destruct Ch1 as [E|H]; [left|right; exact H].
    rewrite E in Odd1. rewrite E. split; [reflexivity|exact Odd1]. }
  assert (Hv_rel : (value (vx s2) = value (vx s1) /\ value (vx s1) mod 2 = 1) \/
                   (value (vx s1) mod 2 = 0 /\ 2 * value (vx s2) <= value (vx s1))).
  { destruct Ch2 as [E|H]; [left|right; exact H].
    rewrite E in Odd2. rewrite E. split; [reflexivity|exact Odd2]. }
  clear Ch1 Ch2.
  assert (Odd_u2 : value (ux s2) mod 2 = 1) by (rewrite Eu2; exact Odd1).
  rewrite Ev1 in Hv_rel. rewrite <- Eu2 in Hu_rel.
  assert (Hgs : Z.gcd (value (ux s)) (value (vx s)) = 1) by apply Hs.
  assert (Hpos : 1 <= value (ux s) /\ 1 <= value (vx s)).
  { destruct Hs as (_ & _ & _ & _ & _ & Ru & Rv & _). lia. }
  destruct I2 as (Fu & Fv & F1 & F2 & Hn & Ru & Rv & Hg & C1 & C2 & Hl).
  set (u := value (ux s)) in *. set (v := value (vx s)) in *.
  set (u2 := value (ux s2)) in *. set (v2 := value (vx s2)) in *.
  (* the two sides differ *)
  assert (Hne : u2 <> v2).
  { intros E. rewrite E, Z.gcd_diag, Z.abs_eq in Hg by lia.
    destruct Hu_rel as [[Hu _]|[Hu _]]; [lia|].
    destruct Hv_rel as [[Hv _]|[Hv _]]; [lia|].
    apply (gcd_even_even u v Hu Hv Hgs). }
  (* the measure after the halvings *)
  assert (HM : Z.log2 u2 + Z.log2 v2 + 1
               <= Z.log2 u + Z.log2 v + (if Z.odd u && Z.odd v then 1 else 0)
               \/ (u2 = u /\ v2 = v /\ Z.odd u && Z.odd v = true)).
  { assert (Hf : 0 <= (if Z.odd u && Z.odd v then 1 else 0))
      by (destruct (Z.odd u && Z.odd v); lia).
    destruct Hu_rel as [[Hu Hou]|[Hu Hu']]; destruct Hv_rel as [[Hv Hov]|[Hv Hv']].
    - right. rewrite (odd_mod2 u Hou), (odd_mod2 v Hov). auto.
    - left. pose proof (log2_half v v2 ltac:(lia) Hv'). rewrite Hu. lia.
    - left. pose proof (log2_half u u2 ltac:(lia) Hu'). rewrite Hv. lia.
    - left. pose proof (log2_half u u2 ltac:(lia) Hu').
      pose proof (log2_half v v2 ltac:(lia) Hv'). lia. }
  (* the comparison *)
  unfold inv_cmp.
  rewrite (mpi_cmp_spec (ux s2) (vx s2) (uvlen s2)) by
      (try apply Fu; try apply Fv; change LEN with 8%nat in Hn; lia).
  destruct (value_firstn_small (ux s2) (uvlen s2) (proj2 Fu) ltac:(lia)) as [-> _].
  destruct (value_firstn_small (vx s2) (uvlen s2) (proj2 Fv) ltac:(lia)) as [-> _].
  fold u2 v2. unfold inv_measure at 2. fold u v.
  assert (Hl' : Forall (fun n => (1 <= n <= LEN)%nat) (cmp_lens s2 ++ [uvlen s2]))
    by (apply Forall_snoc; assumption).
  destruct s2 as [U V Y1 Y2 n lg].
  cbv zeta.
  cbn [ux vx x1 x2 uvlen cmp_lens set_ux set_vx set_x1 set_x2 set_uvlen] in *.
  rewrite Z.geb_leb.
  destruct (Z.leb_spec 0 (Z.sgn (u2 - v2))) as [Hge|Hlt].
  - cbn [ux vx x1 x2 uvlen cmp_lens set_ux set_vx set_x1 set_x2 set_uvlen].
    apply (proj1 (Z.sgn_nonneg _)) in Hge.
    destruct (sub_step A U V Y1 Y2 n Fu Fv F1 F2 Hn ltac:(lia) ltac:(lia) ltac:(lia) C1 C2)
      as (Fu' & F1' & Vu' & C1').
    fold u2 v2 in Vu'.
    set (U' := fst (mpi_sub_inplace U V n)) in *. set (Y1' := gfp_sub_inplace Y1 Y2) in *.
    assert (Hg' : Z.gcd (value U') v2 = 1) by (rewrite Vu'; apply gcd_sub; exact Hg).
    assert (HM' : Z.log2 (value U') + Z.log2 v2
                  + (if Z.odd (value U') && Z.odd v2 then 1 else 0)
                  < Z.log2 u + Z.log2 v + (if Z.odd u && Z.odd v then 1 else 0)).
    { rewrite Vu'. apply measure_after_sub; try lia. exact HM. }
    destruct ((U'.[(n - 1)%nat] =? 0) && (V.[(n - 1)%nat] =? 0)) eqn:Etop.
    + apply andb_true_iff in Etop. destruct Etop as [E1 E2].
      apply Z.eqb_eq in E1, E2.
      destruct (top_word_zero U' n (proj2 Fu') ltac:(lia) ltac:(lia) E1) as [Hn2 Hu'].
      destruct (top_word_zero V n (proj2 Fv) ltac:(lia) ltac:(lia) E2) as [_ Hv'].
      split; [|exact HM'].
      unfold inv_ok. cbn [ux vx x1 x2 uvlen cmp_lens set_ux set_vx set_x1 set_x2 set_uvlen].
      refine (conj Fu' (conj Fv (conj F1' (conj F2 (conj _ (conj _ (conj _
               (conj Hg' (conj C1' (conj C2 Hl'))))))))));
        subst u2 v2; cbn [ux vx] in *; lia.
    + split; [|exact HM'].
      unfold inv_ok. cbn [ux vx x1 x2 uvlen cmp_lens set_ux set_vx set_x1 set_x2 set_uvlen].
      refine (conj Fu' (conj Fv (conj F1' (conj F2 (conj Hn (conj _ (conj Rv
               (conj Hg' (conj C1' (conj C2 Hl'))))))))));
        subst u2 v2; cbn [ux vx] in *; lia.
  - cbn [ux vx x1 x2 uvlen cmp_lens set_ux set_vx set_x1 set_x2 set_uvlen].
    assert (Hlt' : u2 < v2).
    { destruct (Z.lt_ge_cases u2 v2) as [H|H]; [exact H|].
      pose proof (proj2 (Z.sgn_nonneg (u2 - v2)) ltac:(lia)). lia. }
    destruct (sub_step A V U Y2 Y1 n Fv Fu F2 F1 Hn ltac:(lia) ltac:(lia) ltac:(lia) C2 C1)
      as (Fv' & F2' & Vv' & C2').
    fold u2 v2 in Vv'.
    set (V' := fst (mpi_sub_inplace V U n)) in *. set (Y2' := gfp_sub_inplace Y2 Y1) in *.
    assert (Hg' : Z.gcd u2 (value V') = 1).
    { rewrite Vv', Z.gcd_comm. apply gcd_sub. rewrite Z.gcd_comm. exact Hg. }
    assert (HM' : Z.log2 u2 + Z.log2 (value V')
                  + (if Z.odd u2 && Z.odd (value V') then 1 else 0)
                  < Z.log2 u + Z.log2 v + (if Z.odd u && Z.odd v then 1 else 0)).
    { rewrite Vv'.
      pose proof (measure_after_sub v u v2 u2 (Z.odd u && Z.odd v)
                    ltac:(lia) Hlt' Odd2 Odd_u2) as HX.
      rewrite (andb_comm (Z.odd u2)). 
      assert (HM2 : Z.log2 v2 + Z.log2 u2 + 1
                    <= Z.log2 v + Z.log2 u + (if Z.odd u && Z.odd v then 1 else 0)
                    \/ (v2 = v /\ u2 = u /\ Z.odd u && Z.odd v = true))
        by (destruct HM as [H|(H1 & H2 & H3)]; [left; lia|right; auto]).
      specialize (HX HM2). lia. }
    destruct ((U.[(n - 1)%nat] =? 0) && (V'.[(n - 1)%nat] =? 0)) eqn:Etop.
    + apply andb_true_iff in Etop. destruct Etop as [E1 E2].
      apply Z.eqb_eq in E1, E2.
      destruct (top_word_zero U n (proj2 Fu) ltac:(lia) ltac:(lia) E1) as [Hn2 Hu'].
      destruct (top_word_zero V' n (proj2 Fv') ltac:(lia) ltac:(lia) E2) as [_ Hv'].
      split; [|exact HM'].
      unfold inv_ok. cbn [ux vx x1 x2 uvlen cmp_lens set_ux set_vx set_x1 set_x2 set_uvlen].
      refine (conj Fu (conj Fv' (conj F1 (conj F2' (conj _ (conj _ (conj _
               (conj Hg' (conj C1 (conj C2' Hl'))))))))));
        subst u2 v2; cbn [ux vx] in *; lia.
    + split; [|exact HM'].
      unfold inv_ok. cbn [ux vx x1 x2 uvlen cmp_lens set_ux set_vx set_x1 set_x2 set_uvlen].
      refine (conj Fu (conj Fv' (conj F1 (conj F2' (conj Hn (conj Ru (conj _
               (conj Hg' (conj C1 (conj C2' Hl'))))))))));
        subst u2 v2; cbn [ux vx] in *; lia.
Qed.

Lemma inv_body_ok A F s :
  inv_ok A s -> (256 <= F)%nat -> value (ux s) <> 1 -> value (vx s) <> 1 ->
  exists s', inv_body F s = Some s' /\ inv_ok A s' /\ inv_measure s' < inv_measure s.
Proof.
  intros Hs HF Hu Hv. pose proof (inv_body_step A F s Hs HF Hu Hv) as H.
  destruct (inv_body F s) as [s'|]; [|contradiction].
  exists s'. split; [reflexivity|exact H].
Qed.

(** ** gfp_inv *)

Ltac splits := repeat match goal with |- _ /\ _ => split end.

Lemma inv_measure_nonneg s : 0 <= inv_measure s.
Proof.
  unfold inv_measure.
  pose proof (Z.log2_nonneg (value (ux s))). pose proof (Z.log2_nonneg (value (vx s))).
  destruct (Z.odd (value (ux s)) && Z.odd (value (vx s))); lia.
Qed.

Lemma log2_p : Z.log2 p = 254.
Proof. vm_compute; reflexivity. Qed.

Lemma log2_below_p x : 1 <= x < p -> Z.log2 x <= 254.
Proof.
  intros H. assert (Z.log2 x < 255); [|lia].
  apply Z.log2_lt_pow2; [lia|]. rewrite p_val in H. lia.
Qed.

(** The reduction loop [while (mpi_cmp(ux, vx, LEN) >= 0) mpi_sub(ux, ux, vx, LEN)]. *)
Lemma inv_reduce_loop fuel s :
  (3 <= fuel)%nat -> felem (ux s) -> felem (vx s) -> value (vx s) = p ->
  exists s',
    while fuel
      (fun s =>
         match inv_cmp s LEN with
         | None => None
         | Some (c, s) => Some (c >=? 0, s)
         end)
      (fun s => Some (set_ux s (fst (mpi_sub_inplace (ux s) (vx s) LEN))))
      s = Some s' /\
    felem (ux s') /\ vx s' = vx s /\ x1 s' = x1 s /\ x2 s' = x2 s /\
    uvlen s' = uvlen s /\
    (Forall (fun n => (1 <= n <= LEN)%nat) (cmp_lens s) ->
     Forall (fun n => (1 <= n <= LEN)%nat) (cmp_lens s')) /\
    value (ux s') = value (ux s) mod p.
Proof.
  intros HF Fu Fv Hp.
  pose proof (value_range _ (proj2 Fu)) as Ru0. rewrite (proj1 Fu), pw_LEN in Ru0.
  match goal with |- exists s', while fuel ?cond ?body s = Some s' /\ _ =>
    destruct (while_rule
      (fun t => felem (ux t) /\ vx t = vx s /\ x1 t = x1 s /\ x2 t = x2 s /\
                uvlen t = uvlen s /\
                (Forall (fun n => (1 <= n <= LEN)%nat) (cmp_lens s) ->
                 Forall (fun n => (1 <= n <= LEN)%nat) (cmp_lens t)) /\
                value (ux t) mod p = value (ux s) mod p /\
                value (ux t) <= value (ux s))
      (fun t => felem (ux t) /\ vx t = vx s /\ x1 t = x1 s /\ x2 t = x2 s /\
                uvlen t = uvlen s /\
                (Forall (fun n => (1 <= n <= LEN)%nat) (cmp_lens s) ->
                 Forall (fun n => (1 <= n <= LEN)%nat) (cmp_lens t)) /\
                value (ux t) = value (ux s) mod p)
      (fun t => Z.to_nat (value (ux t) / p))
      cond body) with (fuel := fuel) (s := s) as (s' & Hw & HQ)
  end.
  - intros t (Fut & E1 & E2 & E3 & E4 & E5 & E6 & E7).
    unfold inv_cmp. rewrite E1.
    rewrite (mpi_cmp_spec (ux t) (vx s) LEN) by
        (try apply Fut; try apply Fv; change LEN with 8%nat; lia).
    rewrite (firstn_LEN (ux t)), (firstn_LEN (vx s)) by (try apply Fut; apply Fv).
    rewrite Hp.
    pose proof (value_range _ (proj2 Fut)) as Rt. rewrite (proj1 Fut), pw_LEN in Rt.
    pose proof p_pos as Hpp.
    assert (Hlog : Forall (fun n => (1 <= n <= LEN)%nat) (cmp_lens s) ->
                   Forall (fun n => (1 <= n <= LEN)%nat) (cmp_lens t ++ [LEN])).
    { intros H. apply Forall_snoc; [apply E5; exact H|]. change LEN with 8%nat. lia. }
    eexists _, _. split; [reflexivity|].
    rewrite Z.geb_leb.
    destruct (Z.leb_spec 0 (Z.sgn (value (ux t) - p))) as [Hge|Hlt].
    + right. split; [reflexivity|].
      apply (proj1 (Z.sgn_nonneg _)) in Hge.
      cbn [ux vx x1 x2 uvlen cmp_lens set_ux].
      destruct (mpi_sub_spec (ux t) (ux t) (vx s) LEN ltac:(destruct Fut; lia)
                  (proj2 Fut) (proj2 Fv)) as (S1 & S2 & S3 & S4 & S5).
      rewrite <- mpi_sub_inplace_eq in S1, S2, S3, S4, S5.
      set (u' := fst (mpi_sub_inplace (ux t) (vx s) LEN)) in *.
      rewrite (firstn_LEN u') in * by (destruct Fut; lia).
      rewrite (firstn_LEN (ux t)), (firstn_LEN (vx s)) in S5 by (try apply Fut; apply Fv).
      rewrite Hp, pw_LEN in S5.
      pose proof (value_range _ S3) as R'. rewrite S1, (proj1 Fut), pw_LEN in R'.
      assert (Hv' : value u' = value (ux t) - p) by lia.
      eexists. split; [reflexivity|]. cbn [ux vx x1 x2 uvlen cmp_lens set_ux].
      split.
      * splits; try assumption; try reflexivity;
          [split; [destruct Fut; lia|exact S3]| |rewrite Hv'; lia].
        rewrite Hv'. rewrite <- E6. replace (value (ux t) - p) with (value (ux t) + (-1) * p) by lia.
        apply Z.mod_add. lia.
      * rewrite Hv'.
        replace (value (ux t) - p) with (value (ux t) + (-1) * p) by lia.
        rewrite Z.div_add by lia.
        assert (1 <= value (ux t) / p) by (apply Z.div_le_lower_bound; lia).
        lia.
    + left. split; [reflexivity|]. cbn [ux vx x1 x2 uvlen cmp_lens].
      assert (Hlt' : value (ux t) < p).
      { destruct (Z.lt_ge_cases (value (ux t)) p) as [H|H]; [exact H|].
        pose proof (proj2 (Z.sgn_nonneg (value (ux t) - p)) ltac:(lia)). lia. }
      splits; try assumption; try reflexivity.
      rewrite <- E6. symmetry. apply Z.mod_small. lia.
  - refine (conj Fu (conj eq_refl (conj eq_refl (conj eq_refl (conj eq_refl
             (conj (fun H => H) (conj eq_refl _))))))). lia.
  - assert (value (ux s) / p < 3); [|lia].
    apply Z.div_lt_upper_bound; rewrite p_val; lia.
  - exists s'. split; [exact Hw|exact HQ].
Qed.

(** The main loop. *)
Lemma inv_main_loop A fuel s :
  (256 <= fuel)%nat -> inv_ok A s -> inv_measure s < Z.of_nat fuel ->
  exists s',
    while fuel
      (fun s =>
         Some (negb (mpi_cmpw (ux s) 1 (uvlen s) =? 0)
               && negb (mpi_cmpw (vx s) 1 (uvlen s) =? 0), s))
      (inv_body fuel)
      s = Some s' /\
    inv_ok A s' /\ (value (ux s') = 1 \/ value (vx s') = 1).
Proof.
  intros HF Hs Hm.
  apply (while_rule (inv_ok A)
           (fun t => inv_ok A t /\ (value (ux t) = 1 \/ value (vx t) = 1))
           (fun t => Z.to_nat (inv_measure t))).
  - intros t Ht. eexists _, _. split; [reflexivity|].
    pose proof Ht as (Fu & Fv & F1 & F2 & Hn & Ru & Rv & Hg & C1 & C2 & Hl).
    pose proof (mpi_cmpw_eq0 (ux t) 1 (uvlen t) (proj2 Fu) ltac:(lia) ltac:(lia)) as Eu.
    pose proof (mpi_cmpw_eq0 (vx t) 1 (uvlen t) (proj2 Fv) ltac:(lia) ltac:(lia)) as Ev.
    destruct (value_firstn_small (ux t) (uvlen t) (proj2 Fu) ltac:(lia)) as [Hfu _].
    destruct (value_firstn_small (vx t) (uvlen t) (proj2 Fv) ltac:(lia)) as [Hfv _].
    rewrite Hfu in Eu. rewrite Hfv in Ev.
    destruct (Z.eqb_spec (mpi_cmpw (ux t) 1 (uvlen t)) 0) as [E1|E1].
    + left. split; [reflexivity|]. split; [exact Ht|]. left. apply Eu; exact E1.
    + destruct (Z.eqb_spec (mpi_cmpw (vx t) 1 (uvlen t)) 0) as [E2|E2].
      * left. split; [reflexivity|]. split; [exact Ht|]. right. apply Ev; exact E2.
      * right. split; [reflexivity|].
        destruct (inv_body_ok A fuel t Ht HF) as (t' & Hb & Ht' & Hm');
          [tauto|tauto|].
        exists t'. split; [exact Hb|]. split; [exact Ht'|].
        pose proof (inv_measure_nonneg t'). lia.
  - exact Hs.
  - pose proof (inv_measure_nonneg s). lia.
Qed.

Lemma gfp_inv_run_ok fuel r a :
  length r = LEN -> felem a -> (510 <= fuel)%nat ->
  match gfp_inv_run fuel r a with
  | Some (c, s) =>
      felem (x2 s) /\ Forall (fun n => (1 <= n <= LEN)%nat) (cmp_lens s) /\
      ((value a mod p = 0 /\ c = M25519_ERR_INVERS /\ x2 s = repeat 0 LEN) \/
       (value a mod p <> 0 /\ c = M25519_NO_ERROR /\ (p | value (x2 s) * value a - 1)))
  | None => False
  end.
Proof.
  intros Hr Ha HF. cbv delta [gfp_inv_run] beta zeta.
  change (firstn LEN (repeat 0 (3 * LEN))) with (repeat 0 LEN).
  change (firstn LEN (skipn LEN (repeat 0 (3 * LEN)))) with (repeat 0 LEN).
  change (skipn (2 * LEN) (repeat 0 (3 * LEN))) with (repeat 0 LEN).
  rewrite (mpi_copy_LEN (repeat 0 LEN) a eq_refl (proj1 Ha)).
  rewrite (mpi_setw_LEN (repeat 0 LEN) 1 eq_refl), (mpi_setw_LEN r 0 Hr).
  destruct gfp_setp_spec as [Fp Vp].
  set (pp := gfp_setp (repeat 0 LEN)) in *.
  set (one := [1; 0; 0; 0; 0; 0; 0; 0]). set (zero := [0; 0; 0; 0; 0; 0; 0; 0]).
  assert (Fone : felem one) by (apply felemb_felem; reflexivity).
  assert (Fzero : felem zero) by (apply felemb_felem; reflexivity).
  (* the reduction loop *)
  destruct (inv_reduce_loop fuel (mk_inv a pp one zero LEN []) ltac:(lia) Ha Fp Vp)
    as (s1 & W1 & Fu1 & Evx & Ex1 & Ex2 & En & Hlog & Vu1).
  rewrite W1. clear W1. cbn [ux vx x1 x2 uvlen cmp_lens] in *.
  specialize (Hlog (Forall_nil _)).
  pose proof p_pos as Hpp.
  pose proof (Z.mod_pos_bound (value a) p ltac:(lia)) as Hmod.
  pose proof (mpi_cmpw_eq0 (ux s1) 0 LEN (proj2 Fu1) ltac:(change LEN with 8%nat; lia)
                ltac:(lia)) as Hz.
  rewrite (firstn_LEN (ux s1) (proj1 Fu1)), Vu1 in Hz.
  destruct (Z.eqb_spec (mpi_cmpw (ux s1) 0 LEN) 0) as [E0|E0].
  - (* a = 0 (mod p) *)
    rewrite Ex2. split; [exact Fzero|]. split; [exact Hlog|].
    left. split; [apply Hz; exact E0|]. split; reflexivity.
  - (* the main loop *)
    assert (Hnz : value a mod p <> 0) by (intros H; apply E0, Hz, H).
    assert (Hok : inv_ok (value a) s1).
    { unfold inv_ok. rewrite Evx, Ex1, Ex2, En, Vu1, Vp, pw_LEN.
      splits; try assumption; try (change LEN with 8%nat; lia); try apply Fp;
        try apply Fone; try apply Fzero; try lia; try (rewrite p_val; lia).
      - rewrite p_val in *. lia.
      - rewrite Z.gcd_comm. apply (Z.coprime_prime_small p); [exact p_prime|lia].
      - exists (value a / p). change (value one) with 1.
        pose proof (Z.div_mod (value a) p ltac:(lia)). lia.
      - exists (-1). change (value zero) with 0. lia. }
    assert (Hm : inv_measure s1 < Z.of_nat fuel).
    { unfold inv_measure. rewrite Evx, Vu1, Vp, log2_p.
      pose proof (log2_below_p (value a mod p) ltac:(lia)).
      destruct (Z.odd (value a mod p) && Z.odd p); lia. }
    destruct (inv_main_loop (value a) fuel s1 ltac:(lia) Hok Hm)
      as (s2 & W2 & Hok2 & Hone).
    rewrite W2. clear W2.
    destruct Hok2 as (Fu & Fv & F1 & F2 & Hn & Ru & Rv & Hg & C1 & C2 & Hl).
    pose proof (mpi_cmpw_eq0 (ux s2) 1 LEN (proj2 Fu) ltac:(change LEN with 8%nat; lia)
                  ltac:(lia)) as H1.
    rewrite (firstn_LEN (ux s2) (proj1 Fu)) in H1.
    destruct (Z.eqb_spec (mpi_cmpw (ux s2) 1 LEN) 0) as [E1|E1].
    + cbn [x2 cmp_lens set_x2].
      rewrite (mpi_copy_LEN (x2 s2) (x1 s2) (proj1 F2) (proj1 F1)).
      split; [exact F1|]. split; [exact Hl|]. right.
      split; [exact Hnz|]. split; [reflexivity|].
      rewrite <- (proj1 H1 E1). exact C1.
    + split; [exact F2|]. split; [exact Hl|]. right.
      split; [exact Hnz|]. split; [reflexivity|].
      destruct Hone as [Hone|Hone]; [exfalso; apply E1, H1, Hone|].
      rewrite <- Hone. exact C2.
Qed.

(** ** Congruences and composite operations *)

Lemma cong_sub_mul x y h : x = y - h * p -> x mod p = y mod p.
Proof.
  intros ->. replace (y - h * p) with (y + (- h) * p) by ring.
  apply Z.mod_add. pose proof p_pos; lia.
Qed.

Lemma cong_divide x y : (p | x - y) -> x mod p = y mod p.
Proof.
  intros [c Hc]. apply (cong_sub_mul x y (- c)). lia.
Qed.

Lemma gfp_cmp_fred a b :
  gfp_cmp a b = mpi_cmp (gfp_fred (repeat 0 LEN) a) (gfp_fred (repeat 0 LEN) b) LEN.
Proof.
  unfold gfp_cmp, gfp_fred. cbv zeta.
  repeat match goal with
         | |- context [match ?e with pair _ _ => _ end] => destruct e
         end.
  reflexivity.
Qed.

Lemma gfp_cmp_spec a b :
  felem a -> felem b ->
  gfp_cmp a b = Some (Z.sgn (value a mod p - value b mod p)).
Proof.
  intros Ha Hb. rewrite gfp_cmp_fred.
  destruct (gfp_fred_value (repeat 0 LEN) a eq_refl Ha) as [[La Wa] Va].
  destruct (gfp_fred_value (repeat 0 LEN) b eq_refl Hb) as [[Lb Wb] Vb].
  rewrite mpi_cmp_spec by (try assumption; change LEN with 8%nat; lia).
  rewrite !firstn_LEN by assumption. rewrite Va, Vb. reflexivity.
Qed.

Lemma gfp_inv_ok fuel r a :
  length r = LEN -> felem a -> (510 <= fuel)%nat ->
  exists c r',
    gfp_inv fuel r a = Some (c, r') /\ felem r' /\
    ((value a mod p = 0 /\ c = M25519_ERR_INVERS /\ r' = repeat 0 LEN) \/
     (value a mod p <> 0 /\ c = M25519_NO_ERROR /\ (p | value r' * value a - 1))).
Proof.
  intros Hr Ha HF. pose proof (gfp_inv_run_ok fuel r a Hr Ha HF) as H.
  unfold gfp_inv. destruct (gfp_inv_run fuel r a) as [[c s]|]; [|contradiction].
  exists c, (x2 s). split; [reflexivity|]. tauto.
Qed.

Lemma fred_mul_one t1 t2 a r :
  length t1 = LEN -> length t2 = LEN -> felem a -> felem r ->
  (p | value r * value a - 1) ->
  gfp_fred t2 (gfp_mul t1 a r) = fe_one.
Proof.
  intros H1 H2 Ha Hr Hd.
  destruct (gfp_mul_spec t1 a r H1 Ha Hr) as (Fm & _ & h & Vm).
  destruct (gfp_fred_value t2 _ H2 Fm) as [Ff Vf].
  assert (F1 : felem fe_one) by (apply felemb_felem; reflexivity).
  apply value_inj;
    [exact (proj2 Ff)|exact (proj2 F1)|rewrite (proj1 Ff), (proj1 F1); reflexivity|].
  rewrite Vf, (cong_sub_mul _ _ h Vm).
  rewrite (cong_divide (value a * value r) 1) by (rewrite Z.mul_comm; exact Hd).
  vm_compute; reflexivity.
Qed.

(** * The contracts of the specification *)

Lemma fred_of_value t x c :
  length t = LEN -> felem x -> felem c -> value c = value x mod p -> gfp_fred t x = c.
Proof.
  intros Ht Hx Hc Hv. destruct (gfp_fred_value t x Ht Hx) as [Ff Vf].
  apply value_inj;
    [exact (proj2 Ff)|exact (proj2 Hc)|rewrite (proj1 Ff), (proj1 Hc); reflexivity|].
  rewrite Vf, Hv. reflexivity.
Qed.

Lemma felem_scenarios :
  felem fe_zero /\ felem fe_one /\ felem fe_two /\ felem fe_p_minus_1 /\
  felem fe_max /\ felem buf_sevens.
Proof. repeat split; reflexivity || (apply wordsb_words; reflexivity). Qed.

(** C1. For all [a] and [b] in [[0, 2^256 - 1]], [gfp_mul(r, a, b)] writes
    eight words whose value is congruent to [a * b] modulo [p] and lies in
    [[0, 2p - 1]]. *)
Theorem C1_gfp_mul_correct (r a b : list Z) :
  length r = LEN -> felem a -> felem b ->
  felem (gfp_mul r a b) /\
  value (gfp_mul r a b) mod p = (value a * value b) mod p /\
  0 <= value (gfp_mul r a b) <= 2 * p - 1.
Proof.
  intros Hr Ha Hb. destruct (gfp_mul_spec r a b Hr Ha Hb) as (F & R & h & V).
  split; [exact F|]. split; [apply (cong_sub_mul _ _ h V)|exact R].
Qed.

Lemma C1_gfp_mul_correct_witness :
  length buf_sevens = LEN /\ felem fe_max /\ felem fe_p_minus_1 /\
  (felem (gfp_mul buf_sevens fe_max fe_p_minus_1) /\
   value (gfp_mul buf_sevens fe_max fe_p_minus_1) mod p
     = (value fe_max * value fe_p_minus_1) mod p /\
   0 <= value (gfp_mul buf_sevens fe_max fe_p_minus_1) <= 2 * p - 1).
Proof.
  assert (H1 : length buf_sevens = LEN) by reflexivity.
  assert (H2 : felem fe_max) by (apply felemb_felem; reflexivity).
  assert (H3 : felem fe_p_minus_1) by (apply felemb_felem; reflexivity).
  exact (conj H1 (conj H2 (conj H3
           (C1_gfp_mul_correct buf_sevens fe_max fe_p_minus_1 H1 H2 H3)))).
Defined.

(** C2. For all [a] and [b] in [[0, 2^256 - 1]], [gfp_add(r, a, b)] writes
    eight words whose value is congruent to [a + b] modulo [p] and lies in
    [[0, 2p - 1]]; and for [a = p - 1], [b = 1] the full reduction of the sum
    is the all-zero array. *)
Theorem C2_gfp_add_correct (r r' a b : list Z) :
  length r = LEN -> length r' = LEN -> felem a -> felem b ->
  (felem (gfp_add r a b) /\
   value (gfp_add r a b) mod p = (value a + value b) mod p /\
   0 <= value (gfp_add r a b) <= 2 * p - 1) /\
  gfp_fred r' (gfp_add r fe_p_minus_1 fe_one) = fe_zero.
Proof.
  intros Hr Hr' Ha Hb. split.
  - destruct (gfp_add_spec r a b Hr Ha Hb) as (F & R & h & V).
    split; [exact F|]. split; [apply (cong_sub_mul _ _ h V)|exact R].
  - destruct felem_scenarios as (F0 & F1 & _ & Fp & _).
    destruct (gfp_add_spec r fe_p_minus_1 fe_one Hr Fp F1) as (F & R & h & V).
    apply fred_of_value; [exact Hr'|exact F|exact F0|].
    rewrite (cong_sub_mul _ _ h V). vm_compute; reflexivity.
Qed.

Lemma C2_gfp_add_correct_witness :
  length buf_sevens = LEN /\ length fe_two = LEN /\ felem fe_max /\ felem fe_max /\
  ((felem (gfp_add buf_sevens fe_max fe_max) /\
    value (gfp_add buf_sevens fe_max fe_max) mod p = (value fe_max + value fe_max) mod p /\
    0 <= value (gfp_add buf_sevens fe_max fe_max) <= 2 * p - 1) /\
   gfp_fred fe_two (gfp_add buf_sevens fe_p_minus_1 fe_one) = fe_zero).
Proof.
  assert (H1 : length buf_sevens = LEN) by reflexivity.
  assert (H2 : length fe_two = LEN) by reflexivity.
  assert (H3 : felem fe_max) by (apply felemb_felem; reflexivity).
  exact (conj H1 (conj H2 (conj H3 (conj H3
           (C2_gfp_add_correct buf_sevens fe_two fe_max fe_max H1 H2 H3 H3))))).
Defined.

(** C3. For every [a] in [[0, 2^256 - 1]], values above [2p] included,
    [gfp_fred(r, a)] writes eight words whose value lies in [[0, p - 1]] and
    is congruent to [a] modulo [p]. *)
Theorem C3_gfp_fred_canonical (r a : list Z) :
  length r = LEN -> felem a ->
  felem (gfp_fred r a) /\
  0 <= value (gfp_fred r a) <= p - 1 /\
  value (gfp_fred r a) mod p = value a mod p.
Proof.
  intros Hr Ha. destruct (gfp_fred_value r a Hr Ha) as [F V].
  pose proof p_pos as Hp.
  pose proof (Z.mod_pos_bound (value a) p ltac:(lia)) as Hb.
  split; [exact F|]. rewrite V. split; [lia|]. apply Z.mod_mod; lia.
Qed.

Lemma C3_gfp_fred_canonical_witness :
  length buf_sevens = LEN /\ felem fe_max /\ 2 * p < value fe_max /\
  (felem (gfp_fred buf_sevens fe_max) /\
   0 <= value (gfp_fred buf_sevens fe_max) <= p - 1 /\
   value (gfp_fred buf_sevens fe_max) mod p = value fe_max mod p).
Proof.
  assert (H1 : length buf_sevens = LEN) by reflexivity.
  assert (H2 : felem fe_max) by (apply felemb_felem; reflexivity).
  assert (H3 : 2 * p < value fe_max) by (vm_compute; reflexivity).
  exact (conj H1 (conj H2 (conj H3 (C3_gfp_fred_canonical buf_sevens fe_max H1 H2)))).
Defined.

(** C4. With enough fuel for its loops (510 iterations each), [gfp_inv(r, a)]
    returns [M25519_ERR_INVERS] exactly when [a] is congruent to 0 modulo
    [p]; for every other [a] in [[0, 2^256 - 1]] it returns
    [M25519_NO_ERROR] and writes an [r] with
    [gfp_fred(gfp_mul(a, r)) = [1, 0, 0, 0, 0, 0, 0, 0]]. *)
Theorem C4_gfp_inv_correct (fuel : nat) (r t1 t2 a : list Z) :
  length r = LEN -> length t1 = LEN -> length t2 = LEN -> felem a ->
  (510 <= fuel)%nat ->
  (value a mod p = 0 <->
   exists r', gfp_inv fuel r a = Some (M25519_ERR_INVERS, r')) /\
  (value a mod p <> 0 ->
   exists r', gfp_inv fuel r a = Some (M25519_NO_ERROR, r') /\
              gfp_fred t2 (gfp_mul t1 a r') = fe_one).
Proof.
  intros Hr H1 H2 Ha HF.
  destruct (gfp_inv_ok fuel r a Hr Ha HF) as (c & r' & E & Fr & Hcase).
  rewrite E. split; [split|].
  - intros Hz. destruct Hcase as [(_ & -> & _)|(Hnz & _)]; [|contradiction].
    exists r'. reflexivity.
  - intros [r'' Hr'']. injection Hr'' as Hc _.
    destruct Hcase as [(Hz & _)|(_ & Hc' & _)]; [exact Hz|].
    rewrite Hc' in Hc. discriminate.
  - intros Hnz. destruct Hcase as [(Hz & _)|(_ & -> & Hd)]; [contradiction|].
    exists r'. split; [reflexivity|]. apply fred_mul_one; assumption.
Qed.

Lemma C4_gfp_inv_correct_witness :
  length buf_sevens = LEN /\ length fe_zero = LEN /\ length fe_one = LEN /\
  felem fe_two /\ (510 <= 510)%nat /\
  ((value fe_two mod p = 0 <->
    exists r', gfp_inv 510 buf_sevens fe_two = Some (M25519_ERR_INVERS, r')) /\
   (value fe_two mod p <> 0 ->
    exists r', gfp_inv 510 buf_sevens fe_two = Some (M25519_NO_ERROR, r') /\
               gfp_fred fe_one (gfp_mul fe_zero fe_two r') = fe_one)).
Proof.
  assert (H1 : length buf_sevens = LEN) by reflexivity.
  assert (H2 : length fe_zero = LEN) by reflexivity.
  assert (H3 : length fe_one = LEN) by reflexivity.
  assert (H4 : felem fe_two) by (apply felemb_felem; reflexivity).
  assert (H5 : (510 <= 510)%nat) by lia.
  exact (conj H1 (conj H2 (conj H3 (conj H4 (conj H5
           (C4_gfp_inv_correct 510 buf_sevens fe_zero fe_one fe_two H1 H2 H3 H4 H5)))))).
Defined.

(** C5. For every [a] in [[0, 2^256 - 1]], [gfp_hlv(r, a)] writes eight words
    whose value lies in [[0, 2p - 1]], equals [a / 2] when [a] is even and is
    congruent to [(a + p) / 2] modulo [p] when [a] is odd; hence
    [gfp_hlv(gfp_add(a, a))] is congruent to [a] modulo [p]. *)
Theorem C5_gfp_hlv_correct (r r' a : list Z) :
  length r = LEN -> length r' = LEN -> felem a ->
  felem (gfp_hlv r a) /\
  0 <= value (gfp_hlv r a) <= 2 * p - 1 /\
  (value a mod 2 = 0 -> value (gfp_hlv r a) = value a / 2) /\
  (value a mod 2 = 1 -> value (gfp_hlv r a) mod p = ((value a + p) / 2) mod p) /\
  value (gfp_hlv r' (gfp_add r a a)) mod p = value a mod p.
Proof.
  intros Hr Hr' Ha. destruct (gfp_hlv_spec r a Hr Ha) as [F V].
  pose proof (value_range a (proj2 Ha)) as Ra. rewrite (proj1 Ha), pw_LEN in Ra.
  pose proof (Z.mod_pos_bound (value a) 2 ltac:(lia)) as Hb.
  split; [exact F|]. split; [rewrite p_val in *; lia|].
  split; [|split].
  - intros Hev. rewrite Hev in V. apply Z.div_unique_exact; lia.
  - intros Hodd. rewrite Hodd in V. f_equal.
    apply Z.div_unique_exact; lia.
  - destruct (gfp_add_spec r a a Hr Ha Ha) as (Fs & _ & h & Vs).
    destruct (gfp_hlv_spec r' _ Hr' Fs) as [_ Vh].
    set (s := gfp_add r a a) in *.
    apply cong_divide. apply (Z.gauss p 2); [|exact p_odd_coprime].
    exists (value s mod 2 - h). lia.
Qed.

Lemma C5_gfp_hlv_correct_witness :
  length buf_sevens = LEN /\ length fe_zero = LEN /\ felem fe_max /\
  (felem (gfp_hlv buf_sevens fe_max) /\
   0 <= value (gfp_hlv buf_sevens fe_max) <= 2 * p - 1 /\
   (value fe_max mod 2 = 0 -> value (gfp_hlv buf_sevens fe_max) = value fe_max / 2) /\
   (value fe_max mod 2 = 1 ->
    value (gfp_hlv buf_sevens fe_max) mod p = ((value fe_max + p) / 2) mod p) /\
   value (gfp_hlv fe_zero (gfp_add buf_sevens fe_max fe_max)) mod p = value fe_max mod p).
Proof.
  assert (H1 : length buf_sevens = LEN) by reflexivity.
  assert (H2 : length fe_zero = LEN) by reflexivity.
  assert (H3 : felem fe_max) by (apply felemb_felem; reflexivity).
  exact (conj H1 (conj H2 (conj H3
           (C5_gfp_hlv_correct buf_sevens fe_zero fe_max H1 H2 H3)))).
Defined.

(** C6. [mpi_cmpw] does not follow the sign convention of [mpi_cmp]: on the
    one-word array [[0]] and the word 1 it returns +1 although the array is
    the smaller one ([mpi_cmp] returns -1), and on [[5]] and 1 it returns -1
    although the array is the greater one ([mpi_cmp] returns +1). *)
Theorem C6_mpi_cmpw_sign_inverted :
  mpi_cmpw [0] 1 1 = 1 /\ mpi_cmp [0] [1] 1 = Some (-1) /\
  mpi_cmpw [5] 1 1 = -1 /\ mpi_cmp [5] [1] 1 = Some 1.
Proof. repeat split; reflexivity. Qed.

(** C7 as stated fails: called on [a = 0] with a buffer [r] holding sevens,
    [gfp_inv] returns [M25519_ERR_INVERS] with [r] overwritten by zeros. *)
Lemma C7_r_unchanged_counterexample :
  gfp_inv 510 buf_sevens fe_zero = Some (M25519_ERR_INVERS, fe_zero) /\
  gfp_inv 510 buf_sevens fe_zero <> Some (M25519_ERR_INVERS, buf_sevens).
Proof.
  assert (H : gfp_inv 510 buf_sevens fe_zero = Some (M25519_ERR_INVERS, fe_zero))
    by (vm_compute; reflexivity).
  split; [exact H|]. rewrite H. discriminate.
Qed.

(** C7, amended. Called with [a = [0, ..., 0]], [gfp_inv(r, a)] returns
    [M25519_ERR_INVERS] and leaves the eight words of [r] all zero: [r] is
    the working variable [x2], set to 0 before the test. *)
Theorem C7_gfp_inv_zero_clears_r (fuel : nat) (r : list Z) :
  length r = LEN -> (510 <= fuel)%nat ->
  gfp_inv fuel r fe_zero = Some (M25519_ERR_INVERS, fe_zero).
Proof.
  intros Hr HF. destruct felem_scenarios as (F0 & _).
  destruct (gfp_inv_ok fuel r fe_zero Hr F0 HF) as (c & r' & E & _ & Hcase).
  rewrite E. destruct Hcase as [(_ & -> & ->)|(Hnz & _)]; [reflexivity|].
  exfalso. apply Hnz. reflexivity.
Qed.

Lemma C7_gfp_inv_zero_clears_r_witness :
  length buf_sevens = LEN /\ (510 <= 510)%nat /\
  gfp_inv 510 buf_sevens fe_zero = Some (M25519_ERR_INVERS, fe_zero).
Proof.
  assert (H1 : length buf_sevens = LEN) by reflexivity.
  assert (H2 : (510 <= 510)%nat) by lia.
  exact (conj H1 (conj H2 (C7_gfp_inv_zero_clears_r 510 buf_sevens H1 H2))).
Defined.

(** C8. For all [a] and [b] in [[0, 2^256 - 1]], [gfp_sub] (signed
    accumulator, arithmetic shift) and [gfp_sub_v2] (unsigned accumulator,
    operands biased by the words of [4p]) write the same eight words, whose
    value is congruent to [a - b] modulo [p] and lies in [[0, 2p - 1]]. *)
Theorem C8_gfp_sub_v2_identical (r a b : list Z) :
  length r = LEN -> felem a -> felem b ->
  gfp_sub r a b = gfp_sub_v2 r a b /\
  felem (gfp_sub r a b) /\
  value (gfp_sub r a b) mod p = (value a - value b) mod p /\
  0 <= value (gfp_sub r a b) <= 2 * p - 1.
Proof.
  intros Hr Ha Hb. split; [apply gfp_sub_v2_same; assumption|].
  destruct (gfp_sub_spec r a b Hr Ha Hb) as (F & R & V).
  split; [exact F|]. split; [|exact R].
  apply (cong_sub_mul _ _ (- (4 - (2 ^ 33 - 4 + a.[7%nat] - b.[7%nat]) / 2 ^ 31))).
  rewrite V. ring.
Qed.

Lemma C8_gfp_sub_v2_identical_witness :
  length buf_sevens = LEN /\ felem fe_zero /\ felem fe_max /\
  (gfp_sub buf_sevens fe_zero fe_max = gfp_sub_v2 buf_sevens fe_zero fe_max /\
   felem (gfp_sub buf_sevens fe_zero fe_max) /\
   value (gfp_sub buf_sevens fe_zero fe_max) mod p = (value fe_zero - value fe_max) mod p /\
   0 <= value (gfp_sub buf_sevens fe_zero fe_max) <= 2 * p - 1).
Proof.
  assert (H1 : length buf_sevens = LEN) by reflexivity.
  assert (H2 : felem fe_zero) by (apply felemb_felem; reflexivity).
  assert (H3 : felem fe_max) by (apply felemb_felem; reflexivity).
  exact (conj H1 (conj H2 (conj H3
           (C8_gfp_sub_v2_identical buf_sevens fe_zero fe_max H1 H2 H3)))).
Defined.

(** C9. [gfp_cmp] calls [mpi_cmp] with [len = LEN = 8], and every call that
    a run of [gfp_inv] makes passes [LEN] or the current [uvlen], always
    between 1 and [WSIZE = 32]: the assertion [len <= WSIZE] never fails and
    both functions return.  For [1 <= len <= 32], [mpi_cmp(a, b, len)] is
    the sign of [a - b]. *)
Theorem C9_mpi_cmp_len_respected (fuel : nat) (r a b x y : list Z) (len : nat) :
  length r = LEN -> felem a -> felem b -> (510 <= fuel)%nat ->
  words x -> words y -> length x = len -> length y = len -> (1 <= len <= 32)%nat ->
  (1 <= Z.of_nat LEN <= WSIZE /\
   gfp_cmp a b = mpi_cmp (gfp_fred (repeat 0 LEN) a) (gfp_fred (repeat 0 LEN) b) LEN /\
   gfp_cmp a b = Some (Z.sgn (value a mod p - value b mod p))) /\
  (exists c s, gfp_inv_run fuel r a = Some (c, s) /\
               Forall (fun n => 1 <= Z.of_nat n <= WSIZE) (cmp_lens s)) /\
  mpi_cmp x y len = Some (Z.sgn (value x - value y)).
Proof.
  intros Hr Ha Hb HF Hx Hy Lx Ly Hlen. split; [|split].
  - split; [vm_compute; split; discriminate|].
    split; [apply gfp_cmp_fred|apply gfp_cmp_spec; assumption].
  - pose proof (gfp_inv_run_ok fuel r a Hr Ha HF) as H.
    destruct (gfp_inv_run fuel r a) as [[c s]|]; [|contradiction].
    exists c, s. split; [reflexivity|]. destruct H as (_ & Hl & _).
    eapply Forall_impl; [|exact Hl]. cbv beta. intros n Hn.
    change LEN with 8%nat in Hn. unfold WSIZE. lia.
  - rewrite mpi_cmp_spec by (try assumption; lia).
    rewrite !firstn_all2 by lia. reflexivity.
Qed.

Lemma C9_mpi_cmp_len_respected_witness :
  length buf_sevens = LEN /\ felem fe_max /\ felem fe_two /\ (510 <= 510)%nat /\
  words [1; 2; 3] /\ words [3; 2; 1] /\ length [1; 2; 3] = 3%nat /\
  length [3; 2; 1] = 3%nat /\ (1 <= 3 <= 32)%nat /\
  ((1 <= Z.of_nat LEN <= WSIZE /\
    gfp_cmp fe_max fe_two
      = mpi_cmp (gfp_fred (repeat 0 LEN) fe_max) (gfp_fred (repeat 0 LEN) fe_two) LEN /\
    gfp_cmp fe_max fe_two = Some (Z.sgn (value fe_max mod p - value fe_two mod p))) /\
   (exists c s, gfp_inv_run 510 buf_sevens fe_max = Some (c, s) /\
                Forall (fun n => 1 <= Z.of_nat n <= WSIZE) (cmp_lens s)) /\
   mpi_cmp [1; 2; 3] [3; 2; 1] 3 = Some (Z.sgn (value [1; 2; 3] - value [3; 2; 1]))).
Proof.
  assert (H1 : length buf_sevens = LEN) by reflexivity.
  assert (H2 : felem fe_max) by (apply felemb_felem; reflexivity).
  assert (H3 : felem fe_two) by (apply felemb_felem; reflexivity).
  assert (H4 : (510 <= 510)%nat) by lia.
  assert (H5 : words [1; 2; 3]) by (apply wordsb_words; reflexivity).
  assert (H6 : words [3; 2; 1]) by (apply wordsb_words; reflexivity).
  assert (H7 : length [1; 2; 3] = 3%nat) by reflexivity.
  assert (H8 : length [3; 2; 1] = 3%nat) by reflexivity.
  assert (H9 : (1 <= 3 <= 32)%nat) by lia.
  exact (conj H1 (conj H2 (conj H3 (conj H4 (conj H5 (conj H6 (conj H7 (conj H8 (conj H9
           (C9_mpi_cmp_len_respected 510 buf_sevens fe_max fe_two [1; 2; 3] [3; 2; 1] 3
              H1 H2 H3 H4 H5 H6 H7 H8 H9)))))))))).
Defined.

(** * Further properties of the code *)

(** ** Multi-precision addition and subtraction *)

Lemma firstn_ext (l1 l2 : list Z) n :
  (n <= length l1)%nat -> (n <= length l2)%nat ->
  (forall j, (j < n)%nat -> l1.[j] = l2.[j]) -> firstn n l1 = firstn n l2.
Proof.
  intros H1 H2 H. apply (nth_ext _ _ 0 0).
  - rewrite !length_firstn. lia.
  - intros j Hj. rewrite length_firstn in Hj.
    rewrite !nth_firstn_lt by lia. apply H. lia.
Qed.

Lemma mpi_add_spec r a b len :
  (len <= length r)%nat -> words a -> words b ->
  length (fst (mpi_add r a b len)) = length r /\
  skipn len (fst (mpi_add r a b len)) = skipn len r /\
  words (firstn len (fst (mpi_add r a b len))) /\
  0 <= snd (mpi_add r a b len) <= 1 /\
  value (firstn len (fst (mpi_add r a b len))) + snd (mpi_add r a b len) * pw len =
    value (firstn len a) + value (firstn len b).
Proof.
  intros Hlen Ha Hb. unfold mpi_add.
  match goal with |- context [for_up len 0 ?body ?s0] =>
    pose proof (for_up_ind
      (fun i (s : list Z * Z) =>
         length (fst s) = length r /\ skipn i (fst s) = skipn i r /\
         words (firstn i (fst s)) /\ 0 <= snd s <= 1 /\
         value (firstn i (fst s)) + snd s * pw i =
           value (firstn i a) + value (firstn i b))
      body len 0%nat s0) as H;
    destruct (for_up len 0 body s0) as [r' sum]
  end.
  cbn [fst snd] in *. rewrite Nat.add_0_l in H. apply H; clear H.
  - cbn [fst snd firstn skipn value]. repeat split; try constructor; lia.
  - intros k [rk sk] Hk (I1 & I2 & I3 & I4 & I5). cbn [fst snd] in *.
    pose proof (words_nth a k Ha) as Hak. pose proof (words_nth b k Hb) as Hbk.
    rewrite (DWord_small a.[k]) by lia.
    rewrite (DWord_small (a.[k] + _)) by lia.
    rewrite DWord_small by lia.
    rewrite shiftr_WSIZE.
    set (X := sk + (a.[k] + b.[k])) in *.
    assert (HX : 0 <= X < 2 * 2 ^ 32) by (unfold X; lia).
    pose proof (carry_step X k) as HC.
    pose proof (Z.mod_pos_bound X (2 ^ 32) ltac:(lia)) as HM.
    assert (HQ : 0 <= X / 2 ^ 32 <= 1) by (apply div_bounds; lia).
    split; [rewrite length_upd; exact I1|].
    split; [rewrite skipn_upd_lt by lia; apply skipn_S_eq; exact I2|].
    split; [apply words_firstn_S_upd; try lia; auto; unfold Word, WSIZE; exact HM|].
    split; [exact HQ|].
    rewrite value_firstn_S_upd by lia. rewrite !value_firstn_S.
    unfold Word, WSIZE. rewrite pw_S in *.
    assert (HX' : X * pw k = sk * pw k + a.[k] * pw k + b.[k] * pw k)
      by (unfold X; ring).
    clear HX HM HQ. clearbody X.
    generalize dependent (X mod 2 ^ 32). generalize dependent (X / 2 ^ 32).
    intros; lia.
Qed.

Lemma value_firstn_range l n : words l -> 0 <= value (firstn n l) < pw n.
Proof.
  intros Hl. pose proof (value_range _ (words_firstn n l Hl)) as R.
  assert (pw (length (firstn n l)) <= pw n); [|lia].
  unfold pw, WSIZE. apply Z.pow_le_mono_r; [lia|]. rewrite length_firstn. lia.
Qed.

Lemma value_firstn_range' l n :
  words (firstn n l) -> 0 <= value (firstn n l) < pw n.
Proof.
  intros Hl. pose proof (value_firstn_range _ n Hl) as R.
  rewrite firstn_firstn, Nat.min_id in R. exact R.
Qed.

(** X1. [mpi_add(r, a, b, len)] writes the low [len] words of [a + b] to the
    first [len] words of [r], leaves the other words of [r] as they were and
    returns the carry, 0 or 1. *)
Theorem X1_mpi_add_sum_and_carry (r a b : list Z) (len : nat) :
  (len <= length r)%nat -> (len <= length a)%nat -> (len <= length b)%nat ->
  words a -> words b ->
  length (fst (mpi_add r a b len)) = length r /\
  skipn len (fst (mpi_add r a b len)) = skipn len r /\
  words (firstn len (fst (mpi_add r a b len))) /\
  (snd (mpi_add r a b len) = 0 \/ snd (mpi_add r a b len) = 1) /\
  value (firstn len (fst (mpi_add r a b len)))
    + snd (mpi_add r a b len) * 2 ^ (32 * Z.of_nat len)
    = value (firstn len a) + value (firstn len b).
Proof.
  intros Hr _ _ Ha Hb.
  destruct (mpi_add_spec r a b len Hr Ha Hb) as (S1 & S2 & S3 & S4 & S5).
  refine (conj S1 (conj S2 (conj S3 (conj _ S5)))). lia.
Qed.

Lemma X1_mpi_add_sum_and_carry_witness :
  (2 <= length mp_sevens)%nat /\ (2 <= length mp_ones)%nat /\
  (2 <= length mp_one)%nat /\ words mp_ones /\ words mp_one /\
  (length (fst (mpi_add mp_sevens mp_ones mp_one 2)) = length mp_sevens /\
   skipn 2 (fst (mpi_add mp_sevens mp_ones mp_one 2)) = skipn 2 mp_sevens /\
   words (firstn 2 (fst (mpi_add mp_sevens mp_ones mp_one 2))) /\
   (snd (mpi_add mp_sevens mp_ones mp_one 2) = 0 \/
    snd (mpi_add mp_sevens mp_ones mp_one 2) = 1) /\
   value (firstn 2 (fst (mpi_add mp_sevens mp_ones mp_one 2)))
     + snd (mpi_add mp_sevens mp_ones mp_one 2) * 2 ^ (32 * Z.of_nat 2)
     = value (firstn 2 mp_ones) + value (firstn 2 mp_one)).
Proof.
  assert (H1 : (2 <= length mp_sevens)%nat) by (cbn; lia).
  assert (H2 : (2 <= length mp_ones)%nat) by (cbn; lia).
  assert (H3 : (2 <= length mp_one)%nat) by (cbn; lia).
  assert (H4 : words mp_ones) by (apply wordsb_words; reflexivity).
  assert (H5 : words mp_one) by (apply wordsb_words; reflexivity).
  exact (conj H1 (conj H2 (conj H3 (conj H4 (conj H5
           (X1_mpi_add_sum_and_carry mp_sevens mp_ones mp_one 2
              H1 H2 H3 H4 H5)))))).
Defined.

(** X2. [mpi_sub(r, a, b, len)] writes [a - b] modulo [2^(32 len)] to the
    first [len] words of [r], leaves the other words of [r] as they were, and
    returns the borrow: 1 exactly when [a < b], else 0. *)
Theorem X2_mpi_sub_difference_and_borrow (r a b : list Z) (len : nat) :
  (len <= length r)%nat -> (len <= length a)%nat -> (len <= length b)%nat ->
  words a -> words b ->
  length (fst (mpi_sub r a b len)) = length r /\
  skipn len (fst (mpi_sub r a b len)) = skipn len r /\
  words (firstn len (fst (mpi_sub r a b len))) /\
  value (firstn len (fst (mpi_sub r a b len)))
    = (value (firstn len a) - value (firstn len b)) mod 2 ^ (32 * Z.of_nat len) /\
  snd (mpi_sub r a b len)
    = (if value (firstn len a) <? value (firstn len b) then 1 else 0).
Proof.
  intros Hr _ _ Ha Hb.
  destruct (mpi_sub_spec r a b len Hr Ha Hb) as (S1 & S2 & S3 & S4 & S5).
  pose proof (value_firstn_range a len Ha) as Ra.
  pose proof (value_firstn_range b len Hb) as Rb.
  pose proof (value_firstn_range' _ len S3) as Rr.
  change (2 ^ (32 * Z.of_nat len)) with (pw len).
  set (bw := snd (mpi_sub r a b len)) in *.
  refine (conj S1 (conj S2 (conj S3 _))).
  destruct (Z.ltb_spec (value (firstn len a)) (value (firstn len b))) as [Hlt|Hge].
  - assert (bw = 1) as E by nia. split; [|exact E].
    rewrite E in S5. apply (Z.mod_unique _ _ (-1)); lia.
  - assert (bw = 0) as E by nia. split; [|exact E].
    rewrite E in S5. rewrite Z.mod_small by lia. lia.
Qed.

Lemma X2_mpi_sub_difference_and_borrow_witness :
  (2 <= length mp_sevens)%nat /\ (2 <= length mp_hi)%nat /\
  (2 <= length mp_hi1)%nat /\ words mp_hi /\ words mp_hi1 /\
  (length (fst (mpi_sub mp_sevens mp_hi mp_hi1 2)) = length mp_sevens /\
   skipn 2 (fst (mpi_sub mp_sevens mp_hi mp_hi1 2)) = skipn 2 mp_sevens /\
   words (firstn 2 (fst (mpi_sub mp_sevens mp_hi mp_hi1 2))) /\
   value (firstn 2 (fst (mpi_sub mp_sevens mp_hi mp_hi1 2)))
     = (value (firstn 2 mp_hi) - value (firstn 2 mp_hi1)) mod 2 ^ (32 * Z.of_nat 2) /\
   snd (mpi_sub mp_sevens mp_hi mp_hi1 2)
     = (if value (firstn 2 mp_hi) <? value (firstn 2 mp_hi1) then 1 else 0)).
Proof.
  assert (H1 : (2 <= length mp_sevens)%nat) by (cbn; lia).
  assert (H2 : (2 <= length mp_hi)%nat) by (cbn; lia).
  assert (H3 : (2 <= length mp_hi1)%nat) by (cbn; lia).
  assert (H4 : words mp_hi) by (apply wordsb_words; reflexivity).
  assert (H5 : words mp_hi1) by (apply wordsb_words; reflexivity).
  exact (conj H1 (conj H2 (conj H3 (conj H4 (conj H5
           (X2_mpi_sub_difference_and_borrow mp_sevens mp_hi mp_hi1 2
              H1 H2 H3 H4 H5)))))).
Defined.

(** X3. Subtracting [b] from the result of [mpi_add(s, a, b, len)] gives
    back the [len] words of [a], and the borrow of the subtraction is the
    carry of the addition. *)
Theorem X3_mpi_add_then_sub (s r a b : list Z) (len : nat) :
  (len <= length s)%nat -> (len <= length r)%nat ->
  (len <= length a)%nat -> (len <= length b)%nat -> words a -> words b ->
  firstn len (fst (mpi_sub r (fst (mpi_add s a b len)) b len)) = firstn len a /\
  snd (mpi_sub r (fst (mpi_add s a b len)) b len) = snd (mpi_add s a b len).
Proof.
  intros Hs Hr Hla Hlb Ha Hb.
  destruct (mpi_add_spec s a b len Hs Ha Hb) as (A1 & A2 & A3 & A4 & A5).
  set (s' := fst (mpi_add s a b len)) in *. set (c := snd (mpi_add s a b len)) in *.
  pose proof (mpi_sub_spec r (firstn len s') b len Hr A3 Hb) as H.
  assert (E : mpi_sub r (firstn len s') b len = mpi_sub r s' b len).
  { unfold mpi_sub.
    match goal with
    | |- match ?L with _ => _ end = match ?R with _ => _ end =>
        assert (E : L = R); [|rewrite E; reflexivity]
    end.
    apply for_up_ext with (P := fun _ _ => True); [exact I|].
    intros k [rk dk] Hk _. rewrite nth_firstn_lt by lia. split; [reflexivity|exact I]. }
  rewrite E in H. destruct H as (S1 & S2 & S3 & S4 & S5).
  rewrite firstn_firstn, Nat.min_id in S5.
  set (d := fst (mpi_sub r s' b len)) in *. set (bw := snd (mpi_sub r s' b len)) in *.
  pose proof (value_firstn_range a len Ha) as Ra.
  pose proof (value_firstn_range b len Hb) as Rb.
  pose proof (value_firstn_range' _ len S3) as Rd.
  pose proof (value_firstn_range' _ len A3) as Rs.
  assert (Ebw : bw = c).
  { pose proof (pw_pos len). clear E. clearbody bw c d s'.
    assert (bw = 0 \/ bw = 1) as [-> | ->] by lia;
      assert (c = 0 \/ c = 1) as [-> | ->] by lia; lia. }
  split; [|exact Ebw].
  apply value_inj; [exact S3|apply words_firstn; exact Ha| |].
  - rewrite !length_firstn. lia.
  - rewrite Ebw in S5. lia.
Qed.

Lemma X3_mpi_add_then_sub_witness :
  (2 <= length mp_sevens)%nat /\ (2 <= length mp_nines)%nat /\
  (2 <= length mp_ones)%nat /\ (2 <= length mp_one)%nat /\
  words mp_ones /\ words mp_one /\
  (firstn 2 (fst (mpi_sub mp_nines (fst (mpi_add mp_sevens mp_ones mp_one 2))
                    mp_one 2))
     = firstn 2 mp_ones /\
   snd (mpi_sub mp_nines (fst (mpi_add mp_sevens mp_ones mp_one 2)) mp_one 2)
     = snd (mpi_add mp_sevens mp_ones mp_one 2)).
Proof.
  assert (H1 : (2 <= length mp_sevens)%nat) by (cbn; lia).
  assert (H2 : (2 <= length mp_nines)%nat) by (cbn; lia).
  assert (H3 : (2 <= length mp_ones)%nat) by (cbn; lia).
  assert (H4 : (2 <= length mp_one)%nat) by (cbn; lia).
  assert (H5 : words mp_ones) by (apply wordsb_words; reflexivity).
  assert (H6 : words mp_one) by (apply wordsb_words; reflexivity).
  exact (conj H1 (conj H2 (conj H3 (conj H4 (conj H5 (conj H6
           (X3_mpi_add_then_sub mp_sevens mp_nines mp_ones mp_one 2
              H1 H2 H3 H4 H5 H6))))))).
Defined.

(** ** Conditional addition, shift, comparison with a word, initialisation *)

Lemma mask_of_odd add : Z.odd add = true -> Word (0 - Z.land add 1) = 2 ^ 32 - 1.
Proof. intros H. rewrite land_1, Zmod_odd, H. reflexivity. Qed.

Lemma mask_of_even add : Z.even add = true -> Word (0 - Z.land add 1) = 0.
Proof. intros H. rewrite land_1, Zmod_even, H. reflexivity. Qed.

Lemma mpi_cadd_odd r a b add len :
  words b -> Z.odd add = true -> mpi_cadd r a b add len = mpi_add r a b len.
Proof.
  intros Hb Hodd. unfold mpi_cadd, mpi_add. cbv zeta. rewrite (mask_of_odd add Hodd).
  apply for_up_ext with (P := fun _ _ => True); [exact I|].
  intros k [rk sk] _ _. rewrite land_mask_ones by (apply words_nth; exact Hb).
  split; [reflexivity|exact I].
Qed.

Lemma mpi_cadd_even r a b add len :
  (len <= length r)%nat -> (len <= length a)%nat -> words a -> Z.even add = true ->
  length (fst (mpi_cadd r a b add len)) = length r /\
  firstn len (fst (mpi_cadd r a b add len)) = firstn len a /\
  skipn len (fst (mpi_cadd r a b add len)) = skipn len r /\
  snd (mpi_cadd r a b add len) = 0.
Proof.
  intros Hr Hla Ha Hev. unfold mpi_cadd. cbv zeta. rewrite (mask_of_even add Hev).
  match goal with |- context [for_up len 0 ?body ?s0] =>
    pose proof (for_up_ind
      (fun i (s : list Z * Z) =>
         length (fst s) = length r /\ skipn i (fst s) = skipn i r /\
         (forall j, (j < i)%nat -> (fst s).[j] = a.[j]) /\ snd s = 0)
      body len 0%nat s0) as H;
    destruct (for_up len 0 body s0) as [r' sum]
  end.
  cbn [fst snd] in *. rewrite Nat.add_0_l in H. destruct H as (I1 & I2 & I3 & I4).
  - cbn [fst snd skipn]. repeat split; try reflexivity. intros j Hj; lia.
  - intros k [rk sk] Hk (I1 & I2 & I3 & I4). cbn [fst snd] in *. subst sk.
    pose proof (words_nth a k Ha) as Hak.
    rewrite land_mask_0. rewrite (DWord_small a.[k]) by lia.
    rewrite Z.add_0_r. rewrite (DWord_small a.[k]) by lia.
    rewrite Z.add_0_l. rewrite (DWord_small a.[k]) by lia.
    rewrite (Word_small a.[k]) by lia.
    rewrite shiftr_WSIZE, Z.div_small by lia.
    split; [rewrite length_upd; exact I1|].
    split; [rewrite skipn_upd_lt by lia; apply skipn_S_eq; exact I2|].
    split; [|reflexivity].
    intros j Hj. destruct (Nat.eq_dec j k) as [->|Hne].
    + apply nth_upd_eq. lia.
    + rewrite nth_upd_neq by lia. apply I3. lia.
  - refine (conj I1 (conj _ (conj I2 I4))). apply firstn_ext; [lia|lia|exact I3].
Qed.

(** X4. [mpi_cadd] looks at the lowest bit of [add] only: when [add] is odd
    it returns the words and the carry of [mpi_add(r, a, b, len)]; when [add]
    is even (2, say) it copies the first [len] words of [a] to [r], leaves
    the other words of [r] as they were and returns carry 0. *)
Theorem X4_mpi_cadd_low_bit_of_add (r a b : list Z) (add : Z) (len : nat) :
  (len <= length r)%nat -> (len <= length a)%nat -> (len <= length b)%nat ->
  words a -> words b ->
  (Z.odd add = true -> mpi_cadd r a b add len = mpi_add r a b len) /\
  (Z.even add = true ->
   firstn len (fst (mpi_cadd r a b add len)) = firstn len a /\
   skipn len (fst (mpi_cadd r a b add len)) = skipn len r /\
   snd (mpi_cadd r a b add len) = 0).
Proof.
  intros Hr Hla _ Ha Hb. split.
  - intros Hodd. apply mpi_cadd_odd; assumption.
  - intros Hev. destruct (mpi_cadd_even r a b add len Hr Hla Ha Hev) as (_ & H).
    exact H.
Qed.

Lemma X4_mpi_cadd_low_bit_of_add_witness :
  (2 <= length mp_sevens)%nat /\ (2 <= length mp_ones)%nat /\ (2 <= length mp_one)%nat /\
  words mp_ones /\ words mp_one /\
  ((Z.odd 2 = true -> mpi_cadd mp_sevens mp_ones mp_one 2 2 = mpi_add mp_sevens mp_ones mp_one 2) /\
   (Z.even 2 = true ->
    firstn 2 (fst (mpi_cadd mp_sevens mp_ones mp_one 2 2)) = firstn 2 mp_ones /\
    skipn 2 (fst (mpi_cadd mp_sevens mp_ones mp_one 2 2)) = skipn 2 mp_sevens /\
    snd (mpi_cadd mp_sevens mp_ones mp_one 2 2) = 0)).
Proof.
  assert (H1 : (2 <= length mp_sevens)%nat) by (cbn; lia).
  assert (H2 : (2 <= length mp_ones)%nat) by (cbn; lia).
  assert (H3 : (2 <= length mp_one)%nat) by (cbn; lia).
  assert (H4 : words mp_ones) by (apply wordsb_words; reflexivity).
  assert (H5 : words mp_one) by (apply wordsb_words; reflexivity).
  exact (conj H1 (conj H2 (conj H3 (conj H4 (conj H5
           (X4_mpi_cadd_low_bit_of_add mp_sevens mp_ones mp_one 2 2 H1 H2 H3 H4 H5)))))).
Defined.

(** X5. For [len >= 1], [mpi_shr(r, a, len)] writes the [len]-word integer
    [a] divided by 2 (rounded down) to the first [len] words of [r], leaves
    the other words of [r] as they were and returns the bit shifted out,
    [a mod 2]. *)
Theorem X5_mpi_shr_halves (r a : list Z) (len : nat) :
  (1 <= len <= length r)%nat -> (len <= length a)%nat -> words a ->
  length (fst (mpi_shr r a len)) = length r /\
  skipn len (fst (mpi_shr r a len)) = skipn len r /\
  words (firstn len (fst (mpi_shr r a len))) /\
  value (firstn len (fst (mpi_shr r a len))) = value (firstn len a) / 2 /\
  snd (mpi_shr r a len) = value (firstn len a) mod 2.
Proof.
  intros Hlen Hla Ha.
  destruct (mpi_shr_spec r a len Hlen Ha) as (S1 & S2 & S3 & S4).
  assert (E : value (firstn len a) mod 2 = a.[0%nat] mod 2).
  { rewrite value_mod2. rewrite nth_firstn_lt by lia. reflexivity. }
  pose proof (Z.mod_pos_bound a.[0%nat] 2 ltac:(lia)) as Hm.
  refine (conj S1 (conj S2 (conj S3 (conj _ _)))).
  - apply (Z.div_unique _ _ _ (a.[0%nat] mod 2)); lia.
  - unfold mpi_shr. cbn [snd]. rewrite land_1. symmetry. exact E.
Qed.

Lemma X5_mpi_shr_halves_witness :
  (1 <= 2 <= length mp_sevens)%nat /\ (2 <= length mp_hi1)%nat /\ words mp_hi1 /\
  (length (fst (mpi_shr mp_sevens mp_hi1 2)) = length mp_sevens /\
   skipn 2 (fst (mpi_shr mp_sevens mp_hi1 2)) = skipn 2 mp_sevens /\
   words (firstn 2 (fst (mpi_shr mp_sevens mp_hi1 2))) /\
   value (firstn 2 (fst (mpi_shr mp_sevens mp_hi1 2))) = value (firstn 2 mp_hi1) / 2 /\
   snd (mpi_shr mp_sevens mp_hi1 2) = value (firstn 2 mp_hi1) mod 2).
Proof.
  assert (H1 : (1 <= 2 <= length mp_sevens)%nat) by (cbn; lia).
  assert (H2 : (2 <= length mp_hi1)%nat) by (cbn; lia).
  assert (H3 : words mp_hi1) by (apply wordsb_words; reflexivity).
  exact (conj H1 (conj H2 (conj H3 (X5_mpi_shr_halves mp_sevens mp_hi1 2 H1 H2 H3)))).
Defined.

(** X6. What [mpi_cmpw(a, b, len)] returns for [len >= 1]: 0 exactly when
    [a] is [[b, 0, ..., 0]]; +1 whenever one of the words [a[1..len-1]] is not
    0; and when those words are all 0, the sign of [b - a[0]] (so +1 for
    [a[0] < b] and -1 for [a[0] > b]). *)
Theorem X6_mpi_cmpw_verdict (a : list Z) (b : Z) (len : nat) :
  (1 <= len <= length a)%nat -> words a -> 0 <= b < 2 ^ 32 ->
  (mpi_cmpw a b len = 0 <-> value (firstn len a) = b) /\
  (2 ^ 32 <= value (firstn len a) -> mpi_cmpw a b len = 1) /\
  (value (firstn len a) < 2 ^ 32 ->
   mpi_cmpw a b len = Z.sgn (b - value (firstn len a))).
Proof.
  intros Hlen Ha Hb.
  split; [apply mpi_cmpw_eq0; [exact Ha|lia|exact Hb]|].
  rewrite mpi_cmpw_spec by (try exact Ha; lia).
  pose proof (value_skipn_S (firstn len a) 0) as HV.
  change (skipn 0 (firstn len a)) with (firstn len a) in HV.
  rewrite nth_firstn_lt in HV by lia.
  pose proof (value_range _ (words_skipn 1 _ (words_firstn len a Ha))) as R.
  pose proof (words_nth a 0 Ha) as Ha0.
  destruct (Z.eqb_spec (value (skipn 1 (firstn len a))) 0) as [E|E].
  - split; [lia|]. intros _. f_equal. lia.
  - split; [reflexivity|lia].
Qed.

Lemma X6_mpi_cmpw_verdict_witness :
  (1 <= 2 <= length mp_hi1)%nat /\ words mp_hi1 /\ 0 <= 1 < 2 ^ 32 /\
  ((mpi_cmpw mp_hi1 1 2 = 0 <-> value (firstn 2 mp_hi1) = 1) /\
   (2 ^ 32 <= value (firstn 2 mp_hi1) -> mpi_cmpw mp_hi1 1 2 = 1) /\
   (value (firstn 2 mp_hi1) < 2 ^ 32 ->
    mpi_cmpw mp_hi1 1 2 = Z.sgn (1 - value (firstn 2 mp_hi1)))).
Proof.
  assert (H1 : (1 <= 2 <= length mp_hi1)%nat) by (cbn; lia).
  assert (H2 : words mp_hi1) by (apply wordsb_words; reflexivity).
  assert (H3 : 0 <= 1 < 2 ^ 32) by lia.
  exact (conj H1 (conj H2 (conj H3 (X6_mpi_cmpw_verdict mp_hi1 1 2 H1 H2 H3)))).
Defined.

Lemma mpi_setw_spec r a len :
  (1 <= len <= length r)%nat ->
  length (mpi_setw r a len) = length r /\
  firstn len (mpi_setw r a len) = a :: repeat 0 (len - 1) /\
  skipn len (mpi_setw r a len) = skipn len r.
Proof.
  intros Hlen. unfold mpi_setw.
  match goal with |- context [for_down (len - 1) (len - 1) ?body ?s0] =>
    pose proof (for_down_ind
      (fun k (r' : list Z) =>
         length r' = length r /\ skipn len r' = skipn len r /\
         (forall j, (k <= j < len)%nat -> r'.[j] = 0))
      body (len - 1) (len - 1) s0 ltac:(lia)) as H;
    set (r1 := for_down (len - 1) (len - 1) body s0) in *
  end.
  replace (S (len - 1) - (len - 1))%nat with 1%nat in H by lia.
  replace (S (len - 1)) with len in H by lia.
  destruct H as (I1 & I2 & I3).
  - repeat split; try reflexivity. intros j Hj; lia.
  - intros k r' Hk (I1 & I2 & I3).
    split; [rewrite length_upd; exact I1|].
    split; [rewrite skipn_upd_lt by lia; exact I2|].
    intros j Hj. destruct (Nat.eq_dec j k) as [->|Hne].
    + apply nth_upd_eq. lia.
    + rewrite nth_upd_neq by lia. apply I3. lia.
  - split; [rewrite length_upd; exact I1|].
    split; [|rewrite skipn_upd_lt by lia; exact I2].
    apply (nth_ext _ _ 0 0).
    + rewrite length_firstn, length_upd. cbn [length]. rewrite repeat_length. lia.
    + intros j Hj. rewrite length_firstn, length_upd in Hj.
      rewrite nth_firstn_lt by lia.
      destruct j as [|j].
      * rewrite nth_upd_eq by lia. reflexivity.
      * rewrite nth_upd_neq by lia. cbn [nth].
        rewrite nth_repeat. apply I3. lia.
Qed.

Lemma value_repeat_0 n : value (repeat 0 n) = 0.
Proof. induction n as [|n IH]; cbn [repeat value]; [reflexivity|rewrite IH; lia]. Qed.

(** X7. For [len >= 1], [mpi_setw(r, a, len)] makes the first [len] words of
    [r] the array [[a, 0, ..., 0]] and leaves the other words as they were;
    [mpi_cmpw] of the result with [a] is 0. *)
Theorem X7_mpi_setw_then_cmpw (r : list Z) (a : Z) (len : nat) :
  (1 <= len <= length r)%nat -> words r -> 0 <= a < 2 ^ 32 ->
  firstn len (mpi_setw r a len) = a :: repeat 0 (len - 1) /\
  skipn len (mpi_setw r a len) = skipn len r /\
  value (firstn len (mpi_setw r a len)) = a /\
  mpi_cmpw (mpi_setw r a len) a len = 0.
Proof.
  intros Hlen Hr Ha. destruct (mpi_setw_spec r a len Hlen) as (S1 & S2 & S3).
  assert (V : value (firstn len (mpi_setw r a len)) = a).
  { rewrite S2. cbn [value]. rewrite value_repeat_0. lia. }
  refine (conj S2 (conj S3 (conj V _))).
  apply mpi_cmpw_eq0; [|lia|exact Ha|exact V].
  apply (words_of_parts _ len).
  - rewrite S2. constructor; [unfold WSIZE; exact Ha|].
    apply Forall_forall. intros x Hx. apply repeat_spec in Hx. subst x. unfold WSIZE; lia.
  - rewrite S3. apply words_skipn. exact Hr.
Qed.

Lemma X7_mpi_setw_then_cmpw_witness :
  (1 <= 2 <= length mp_sevens)%nat /\ words mp_sevens /\ 0 <= 5 < 2 ^ 32 /\
  (firstn 2 (mpi_setw mp_sevens 5 2) = 5 :: repeat 0 (2 - 1) /\
   skipn 2 (mpi_setw mp_sevens 5 2) = skipn 2 mp_sevens /\
   value (firstn 2 (mpi_setw mp_sevens 5 2)) = 5 /\
   mpi_cmpw (mpi_setw mp_sevens 5 2) 5 2 = 0).
Proof.
  assert (H1 : (1 <= 2 <= length mp_sevens)%nat) by (cbn; lia).
  assert (H2 : words mp_sevens) by (apply wordsb_words; reflexivity).
  assert (H3 : 0 <= 5 < 2 ^ 32) by lia.
  exact (conj H1 (conj H2 (conj H3 (X7_mpi_setw_then_cmpw mp_sevens 5 2 H1 H2 H3)))).
Defined.

Lemma mpi_copy_spec r a len :
  (len <= length r)%nat -> (len <= length a)%nat ->
  length (mpi_copy r a len) = length r /\
  firstn len (mpi_copy r a len) = firstn len a /\
  skipn len (mpi_copy r a len) = skipn len r.
Proof.
  intros Hr Hla. unfold mpi_copy.
  destruct len as [|n]; [cbn [for_down firstn skipn]; auto|].
  replace (S n - 1)%nat with n by lia.
  match goal with |- context [for_down (S n) n ?body ?s0] =>
    pose proof (for_down_ind
      (fun k (r' : list Z) =>
         length r' = length r /\ skipn (S n) r' = skipn (S n) r /\
         (forall j, (k <= j < S n)%nat -> r'.[j] = a.[j]))
      body (S n) n s0 ltac:(lia)) as H;
    set (r1 := for_down (S n) n body s0) in *
  end.
  replace (S n - S n)%nat with 0%nat in H by lia.
  destruct H as (I1 & I2 & I3).
  - repeat split; try reflexivity. intros j Hj; lia.
  - intros k r' Hk (I1 & I2 & I3).
    split; [rewrite length_upd; exact I1|].
    split; [rewrite skipn_upd_lt by lia; exact I2|].
    intros j Hj. destruct (Nat.eq_dec j k) as [->|Hne].
    + apply nth_upd_eq. lia.
    + rewrite nth_upd_neq by lia. apply I3. lia.
  - refine (conj I1 (conj _ I2)). apply firstn_ext; [lia|lia|].
    intros j Hj. apply I3. lia.
Qed.

(** X8. [mpi_copy(r, a, len)] makes the first [len] words of [r] those of
    [a] and leaves the other words of [r] as they were; for [len <= 32],
    [mpi_cmp] of the copy with [a] is 0. *)
Theorem X8_mpi_copy_then_cmp (r a : list Z) (len : nat) :
  (len <= length r)%nat -> (len <= length a)%nat -> (len <= 32)%nat ->
  words r -> words a ->
  firstn len (mpi_copy r a len) = firstn len a /\
  skipn len (mpi_copy r a len) = skipn len r /\
  mpi_cmp (mpi_copy r a len) a len = Some 0.
Proof.
  intros Hr Hla H32 Hwr Hwa.
  destruct (mpi_copy_spec r a len Hr Hla) as (S1 & S2 & S3).
  refine (conj S2 (conj S3 _)).
  rewrite mpi_cmp_spec; [rewrite S2, Z.sub_diag; reflexivity|exact H32| |exact Hwa].
  apply (words_of_parts _ len).
  - rewrite S2. apply words_firstn. exact Hwa.
  - rewrite S3. apply words_skipn. exact Hwr.
Qed.

Lemma X8_mpi_copy_then_cmp_witness :
  (2 <= length mp_sevens)%nat /\ (2 <= length mp_ones)%nat /\ (2 <= 32)%nat /\
  words mp_sevens /\ words mp_ones /\
  (firstn 2 (mpi_copy mp_sevens mp_ones 2) = firstn 2 mp_ones /\
   skipn 2 (mpi_copy mp_sevens mp_ones 2) = skipn 2 mp_sevens /\
   mpi_cmp (mpi_copy mp_sevens mp_ones 2) mp_ones 2 = Some 0).
Proof.
  assert (H1 : (2 <= length mp_sevens)%nat) by (cbn; lia).
  assert (H2 : (2 <= length mp_ones)%nat) by (cbn; lia).
  assert (H3 : (2 <= 32)%nat) by lia.
  assert (H4 : words mp_sevens) by (apply wordsb_words; reflexivity).
  assert (H5 : words mp_ones) by (apply wordsb_words; reflexivity).
  exact (conj H1 (conj H2 (conj H3 (conj H4 (conj H5
           (X8_mpi_copy_then_cmp mp_sevens mp_ones 2 H1 H2 H3 H4 H5)))))).
Defined.

(** ** Rows of a product *)

(** A row that stores [a[lo..lo+n-1] * w] in the words [lo..lo+n-1]. *)
Lemma row_first a w t lo n :
  (lo + n <= length t)%nat -> words a -> 0 <= w < 2 ^ 32 -> words (firstn lo t) ->
  forall st,
    st = for_up n lo
           (fun j '(t, prod) =>
              let prod := DWord (prod + DWord (DWord a.[j] * w)) in
              let t := upd t j (Word prod) in
              let prod := Z.shiftr prod WSIZE in
              (t, prod))
           (t, 0) ->
    length (fst st) = length t /\
    skipn (lo + n) (fst st) = skipn (lo + n) t /\
    words (firstn (lo + n) (fst st)) /\
    0 <= snd st < 2 ^ 32 /\
    value (firstn (lo + n) (fst st)) + snd st * pw (lo + n) =
      value (firstn lo t) + (value (firstn (lo + n) a) - value (firstn lo a)) * w.
Proof.
  intros Ht Ha Hw Hlo st ->.
  match goal with |- context [for_up n lo ?body ?s0] =>
    pose proof (for_up_ind
      (fun k (st : list Z * Z) =>
         length (fst st) = length t /\ skipn k (fst st) = skipn k t /\
         words (firstn k (fst st)) /\ 0 <= snd st < 2 ^ 32 /\
         value (firstn k (fst st)) + snd st * pw k =
           value (firstn lo t) + (value (firstn k a) - value (firstn lo a)) * w)
      body n lo s0) as H
  end.
  apply H; clear H.
  - cbn [fst snd]. repeat split; auto; lia.
  - intros k [tk pk] Hk (I1 & I2 & I3 & I4 & I5). cbn [fst snd] in *.
    pose proof (words_nth a k Ha) as Hak.
    pose proof (mul_bound a.[k] w pk Hak Hw I4) as HB.
    assert (HP : 0 <= a.[k] * w) by nia.
    rewrite (DWord_small a.[k]) by lia.
    rewrite (DWord_small (a.[k] * _)) by lia.
    rewrite DWord_small by lia.
    rewrite shiftr_WSIZE.
    set (X := pk + a.[k] * w) in *.
    pose proof (carry_step X k) as HC.
    pose proof (Z.mod_pos_bound X (2 ^ 32) ltac:(lia)) as HM.
    assert (HQ : 0 <= X / 2 ^ 32 <= 2 ^ 32 - 1) by (apply div_bounds; lia).
    split; [rewrite length_upd; exact I1|].
    split; [rewrite skipn_upd_lt by lia; apply skipn_S_eq; exact I2|].
    split; [apply words_firstn_S_upd; try lia; auto; unfold Word, WSIZE; exact HM|].
    split; [lia|].
    rewrite value_firstn_S_upd by lia. rewrite (value_firstn_S a k).
    unfold Word, WSIZE. rewrite pw_S in *.
    assert (HX' : X * pw k = pk * pw k + a.[k] * pw k * w)
      by (unfold X; ring).
    clear HM HQ HB. clearbody X.
    generalize dependent (X mod 2 ^ 32). generalize dependent (X / 2 ^ 32).
    intros; lia.
Qed.

(** A row that adds [a[lo..lo+n-1] * w] to the words [off+lo..off+lo+n-1]. *)
Lemma row_acc a w t off lo n :
  (off + lo + n <= length t)%nat -> words a -> 0 <= w < 2 ^ 32 ->
  words (firstn (off + lo + n) t) ->
  forall st,
    st = for_up n lo
           (fun j '(t, prod) =>
              let prod := DWord (prod + DWord (DWord a.[j] * w)) in
              let prod := DWord (prod + t.[(off + j)%nat]) in
              let t := upd t (off + j) (Word prod) in
              let prod := Z.shiftr prod WSIZE in
              (t, prod))
           (t, 0) ->
    length (fst st) = length t /\
    skipn (off + lo + n) (fst st) = skipn (off + lo + n) t /\
    words (firstn (off + lo + n) (fst st)) /\
    0 <= snd st < 2 ^ 32 /\
    value (firstn (off + lo + n) (fst st)) + snd st * pw (off + lo + n) =
      value (firstn (off + lo + n) t)
      + (value (firstn (lo + n) a) - value (firstn lo a)) * w * pw off.
Proof.
  intros Ht Ha Hw Hwt st ->.
  match goal with |- context [for_up n lo ?body ?s0] =>
    pose proof (for_up_ind
      (fun k (st : list Z * Z) =>
         length (fst st) = length t /\
         skipn (off + lo + n) (fst st) = skipn (off + lo + n) t /\
         words (firstn (off + lo + n) (fst st)) /\ 0 <= snd st < 2 ^ 32 /\
         value (firstn (off + lo + n) (fst st)) + snd st * pw (off + k) =
           value (firstn (off + lo + n) t)
           + (value (firstn k a) - value (firstn lo a)) * w * pw off)
      body n lo s0) as H
  end.
  cbv beta in H. rewrite (Nat.add_assoc off lo n) in H. apply H; clear H.
  - cbn [fst snd]. repeat split; auto; lia.
  - intros k [tk pk] Hk (I1 & I2 & I3 & I4 & I5). cbn [fst snd] in *.
    pose proof (words_nth a k Ha) as Hak.
    assert (Htk : 0 <= tk.[(off + k)%nat] < 2 ^ 32).
    { rewrite <- (nth_firstn_lt tk (off + k) (off + lo + n)) by lia.
      apply words_nth; exact I3. }
    pose proof (mul_bound a.[k] w pk Hak Hw I4) as HB.
    assert (HP : 0 <= a.[k] * w) by nia.
    rewrite (DWord_small a.[k]) by lia.
    rewrite (DWord_small (a.[k] * _)) by lia.
    rewrite (DWord_small (pk + _)) by lia.
    rewrite DWord_small by lia.
    rewrite shiftr_WSIZE.
    set (X := pk + a.[k] * w + tk.[(off + k)%nat]) in *.
    pose proof (carry_step X (off + k)) as HC.
    pose proof (Z.mod_pos_bound X (2 ^ 32) ltac:(lia)) as HM.
    assert (HQ : 0 <= X / 2 ^ 32 <= 2 ^ 32 - 1) by (apply div_bounds; unfold X; lia).
    split; [rewrite length_upd; exact I1|].
    split; [rewrite skipn_upd_lt by lia; exact I2|].
    split; [apply words_firstn_upd_in; auto; unfold Word, WSIZE; exact HM|].
    split; [lia|].
    rewrite value_firstn_upd_in by lia. rewrite (value_firstn_S a k).
    replace (off + S k)%nat with (S (off + k)) by lia.
    unfold Word, WSIZE.
    assert (HX' : X * pw (off + k) =
                  pk * pw (off + k) + a.[k] * pw k * w * pw off
                  + tk.[(off + k)%nat] * pw (off + k))
      by (unfold X; rewrite (pw_add off k); ring).
    clear HM HQ HB. clearbody X.
    generalize dependent (X mod 2 ^ 32). generalize dependent (X / 2 ^ 32).
    intros; lia.
Qed.

(** ** mpi_mul *)

Lemma mpi_mul_spec r a b len :
  (1 <= len)%nat -> (2 * len <= length r)%nat -> words a -> words b ->
  length (mpi_mul r a b len) = length r /\
  skipn (2 * len) (mpi_mul r a b len) = skipn (2 * len) r /\
  words (firstn (2 * len) (mpi_mul r a b len)) /\
  value (firstn (2 * len) (mpi_mul r a b len)) =
    value (firstn len a) * value (firstn len b).
Proof.
  intros Hlen Hr Ha Hb. unfold mpi_mul.
  destruct (for_up len 0 _ (r, 0)) as [r1 p1] eqn:E1.
  destruct (row_first a b.[0%nat] r 0 len ltac:(lia) Ha (words_nth b 0 Hb)
              ltac:(constructor) _ (eq_sym E1)) as (A1 & A2 & A3 & A4 & A5).
  cbn [fst snd] in *. clear E1. rewrite Nat.add_0_l in *.
  cbn [firstn value] in A5.
  rewrite (Word_small p1) by lia.
  match goal with |- context [for_up (len - 1) 1 ?body ?s0] =>
    pose proof (for_up_ind
      (fun i (t : list Z) =>
         length t = length r /\ skipn (2 * len) t = skipn (2 * len) r /\
         words (firstn (i + len) t) /\
         value (firstn (i + len) t) = value (firstn len a) * value (firstn i b))
      body (len - 1) 1%nat s0) as H;
    set (tf := for_up (len - 1) 1 body s0) in *
  end.
  replace (1 + (len - 1))%nat with len in H by lia. cbv beta in H.
  replace (len + len)%nat with (2 * len)%nat in H by lia.
  apply H; clear H.
  - split; [rewrite length_upd; exact A1|].
    split; [rewrite skipn_upd_lt by lia;
            apply (f_equal (skipn len)) in A2; rewrite !skipn_skipn in A2;
            replace (len + len)%nat with (2 * len)%nat in A2 by lia; exact A2|].
    change (1 + len)%nat with (S len).
    split; [apply words_firstn_S_upd; try lia; auto|].
    rewrite value_firstn_S_upd by lia.
    rewrite (value_firstn_S b 0). cbn [firstn value]. rewrite pw_0. lia.
  - intros i tk Hi (I1 & I2 & I3 & I4).
    destruct (for_up len 0 _ (tk, 0)) as [t1 prod] eqn:E.
    destruct (row_acc a b.[i] tk i 0 len ltac:(lia) Ha (words_nth b i Hb)
                ltac:(rewrite Nat.add_0_r; exact I3) _ (eq_sym E))
      as (R1 & R2 & R3 & R4 & R5).
    cbn [fst snd] in *. rewrite Nat.add_0_r, Nat.add_0_l in *.
    cbn [firstn value] in R5.
    rewrite (Word_small prod) by lia.
    split; [rewrite length_upd; lia|].
    split; [rewrite skipn_upd_lt by lia;
            apply (f_equal (skipn (len - i))) in R2; rewrite !skipn_skipn in R2;
            replace (len - i + (i + len))%nat with (2 * len)%nat in R2 by lia;
            rewrite R2; exact I2|].
    replace (S i + len)%nat with (S (i + len)) by lia.
    split; [apply words_firstn_S_upd; try lia; auto|].
    rewrite value_firstn_S_upd by lia. rewrite (value_firstn_S b i).
    rewrite I4 in R5. lia.
Qed.

(** ** mpi_sqr *)

Lemma pw_double k : pw (2 * k) = pw k * pw k.
Proof. replace (2 * k)%nat with (k + k)%nat by lia. apply pw_add. Qed.

(** The rows of [mpi_sqr]: the products [a[i] * a[j]] with [i < j], once. *)
Lemma sqr_rows a t len :
  (1 <= len)%nat -> (2 * len <= length t)%nat -> words a ->
  words (firstn (1 + len) t) ->
  value (firstn (1 + len) t) =
    (value (firstn len a) - value (firstn 1 a)) * a.[0%nat] ->
  forall t',
    t' = for_up (len - 1) 1
           (fun i t =>
              let '(t, prod) :=
                for_up (len - (i + 1)) (i + 1)
                  (fun j '(t, prod) =>
                     let prod := DWord (prod + DWord (DWord a.[j] * a.[i])) in
                     let prod := DWord (prod + t.[(i + j)%nat]) in
                     let t := upd t (i + j) (Word prod) in
                     let prod := Z.shiftr prod WSIZE in
                     (t, prod))
                  (t, 0) in
              upd t (i + len) (Word prod))
           t ->
    length t' = length t /\ skipn (2 * len) t' = skipn (2 * len) t /\
    words (firstn (2 * len) t') /\
    2 * value (firstn (2 * len) t') + diag a len =
      value (firstn len a) * value (firstn len a).
Proof.
  intros Hlen Ht Ha Hw Hv t' ->.
  match goal with |- context [for_up (len - 1) 1 ?body ?s0] =>
    pose proof (for_up_ind
      (fun i (t1 : list Z) =>
         length t1 = length t /\ skipn (2 * len) t1 = skipn (2 * len) t /\
         words (firstn (i + len) t1) /\
         2 * value (firstn (i + len) t1) + value (firstn i a) * value (firstn i a)
           + diag a i
         = 2 * value (firstn len a) * value (firstn i a))
      body (len - 1) 1%nat s0) as H;
    set (tf := for_up (len - 1) 1 body s0) in *
  end.
  replace (1 + (len - 1))%nat with len in H by lia. cbv beta in H.
  replace (len + len)%nat with (2 * len)%nat in H by lia.
  destruct H as (I1 & I2 & I3 & I4).
  - split; [reflexivity|]. split; [reflexivity|]. split; [exact Hw|].
    assert (E0 : value (firstn 1 a) = a.[0%nat]).
    { rewrite (value_firstn_S a 0). cbn [firstn value]. rewrite pw_0. lia. }
    rewrite Hv, E0. cbn [diag Nat.mul Nat.add]. rewrite pw_0. ring.
  - intros i tk Hi (I1 & I2 & I3 & I4).
    destruct (for_up (len - (i + 1)) (i + 1) _ (tk, 0)) as [t1 prod] eqn:E.
    assert (EN : (i + (i + 1) + (len - (i + 1)) = i + len)%nat) by lia.
    destruct (row_acc a a.[i] tk i (i + 1) (len - (i + 1)) ltac:(lia) Ha
                (words_nth a i Ha) ltac:(rewrite EN; exact I3) _ (eq_sym E))
      as (R1 & R2 & R3 & R4 & R5).
    cbn [fst snd] in *. rewrite EN in *.
    replace (i + 1 + (len - (i + 1)))%nat with len in R5 by lia.
    replace (i + 1)%nat with (S i) in R5 by lia.
    rewrite (Word_small prod) by lia.
    split; [rewrite length_upd; lia|].
    split; [rewrite skipn_upd_lt by lia;
            apply (f_equal (skipn (len - i))) in R2; rewrite !skipn_skipn in R2;
            replace (len - i + (i + len))%nat with (2 * len)%nat in R2 by lia;
            rewrite R2; exact I2|].
    replace (S i + len)%nat with (S (i + len)) by lia.
    split; [apply words_firstn_S_upd; try lia; auto|].
    rewrite value_firstn_S_upd by lia.
    cbn [diag]. rewrite pw_double. rewrite (value_firstn_S a i) in *.
    set (s := value (firstn i a)) in *. set (A := value (firstn len a)) in *.
    set (V := value (firstn (i + len) tk)) in *.
    set (V1 := value (firstn (i + len) t1)) in *.
    assert (E1 : V1 + prod * pw (i + len) = V + (A - (s + a.[i] * pw i)) * a.[i] * pw i)
      by exact R5.
    clear - I4 E1. clearbody s A V V1.
    generalize dependent (pw (i + len)). generalize dependent (pw i).
    generalize dependent a.[i]. intros x w E1 W. nia.
  - refine (conj I1 (conj I2 (conj I3 _))). lia.
Qed.

(** The last loop of [mpi_sqr]: doubling, and adding the squares. *)
Lemma sqr_double a t len :
  (2 * len <= length t)%nat -> words a -> words (firstn (2 * len) t) ->
  forall st,
    st = for_up len 0
           (fun i '(r, sum) =>
              let prod := DWord (DWord a.[i] * a.[i]) in
              let sum := DWord (sum + Word prod) in
              let sum := DWord (sum + DWord (DWord r.[(2 * i)%nat] + r.[(2 * i)%nat])) in
              let r := upd r (2 * i) (Word sum) in
              let sum := Z.shiftr sum WSIZE in
              let sum := DWord (sum + Word (Z.shiftr prod WSIZE)) in
              let sum :=
                DWord (sum + DWord (DWord r.[(2 * i + 1)%nat] + r.[(2 * i + 1)%nat])) in
              let r := upd r (2 * i + 1) (Word sum) in
              let sum := Z.shiftr sum WSIZE in
              (r, sum))
           (t, 0) ->
    length (fst st) = length t /\ skipn (2 * len) (fst st) = skipn (2 * len) t /\
    words (firstn (2 * len) (fst st)) /\ 0 <= snd st <= 2 /\
    value (firstn (2 * len) (fst st)) + snd st * pw (2 * len) =
      2 * value (firstn (2 * len) t) + diag a len.
Proof.
  intros Ht Ha Hw st ->.
  match goal with |- context [for_up len 0 ?body ?s0] =>
    pose proof (for_up_ind
      (fun i (st : list Z * Z) =>
         length (fst st) = length t /\ skipn (2 * i) (fst st) = skipn (2 * i) t /\
         words (firstn (2 * i) (fst st)) /\ 0 <= snd st <= 2 /\
         value (firstn (2 * i) (fst st)) + snd st * pw (2 * i) =
           2 * value (firstn (2 * i) t) + diag a i)
      body len 0%nat s0) as H
  end.
  apply H; clear H.
  - cbn [fst snd Nat.mul firstn skipn value diag]. repeat split; try constructor; lia.
  - intros k [rk sk] Hk (I1 & I2 & I3 & I4 & I5). cbn [fst snd] in *.
    pose proof (words_nth a k Ha) as Hak.
    assert (Ht0 : 0 <= t.[(2 * k)%nat] < 2 ^ 32).
    { rewrite <- (nth_firstn_lt t (2 * k) (2 * len)) by lia. apply words_nth; exact Hw. }
    assert (Ht1 : 0 <= t.[(2 * k + 1)%nat] < 2 ^ 32).
    { rewrite <- (nth_firstn_lt t (2 * k + 1) (2 * len)) by lia. apply words_nth; exact Hw. }
    rewrite (nth_upd_neq rk (2 * k) (2 * k + 1)) by lia.
    rewrite (nth_skipn_eq rk t (2 * k) (2 * k) I2) by lia.
    rewrite (nth_skipn_eq rk t (2 * k) (2 * k + 1) I2) by lia.
    assert (HP : 0 <= a.[k] * a.[k] <= (2 ^ 32 - 1) * (2 ^ 32 - 1)) by nia.
    rewrite (DWord_small a.[k]) by lia.
    rewrite (DWord_small (a.[k] * a.[k])) by lia.
    set (q := a.[k] * a.[k]) in *.
    pose proof (Z.div_mod q (2 ^ 32) ltac:(lia)) as Hq.
    pose proof (Z.mod_pos_bound q (2 ^ 32) ltac:(lia)) as Hqm.
    assert (Hqd : 0 <= q / 2 ^ 32 <= 2 ^ 32 - 2) by (apply div_bounds; lia).
    change (Word q) with (q mod 2 ^ 32).
    rewrite (shiftr_WSIZE q). rewrite (Word_small (q / 2 ^ 32)) by lia.
    rewrite (DWord_small (sk + _)) by lia.
    rewrite (DWord_small t.[(2 * k)%nat]) by lia.
    rewrite (DWord_small (t.[(2 * k)%nat] + _)) by lia.
    rewrite (DWord_small (sk + _ + _)) by lia.
    rewrite shiftr_WSIZE.
    set (X := sk + q mod 2 ^ 32 + (t.[(2 * k)%nat] + t.[(2 * k)%nat])) in *.
    pose proof (carry_step X (2 * k)) as HC.
    pose proof (Z.mod_pos_bound X (2 ^ 32) ltac:(lia)) as HM.
    assert (HQ : 0 <= X / 2 ^ 32 <= 2) by (apply div_bounds; unfold X; lia).
    rewrite (DWord_small (X / 2 ^ 32 + _)) by lia.
    rewrite (DWord_small t.[(2 * k + 1)%nat]) by lia.
    rewrite (DWord_small (t.[(2 * k + 1)%nat] + _)) by lia.
    rewrite (DWord_small (X / 2 ^ 32 + _ + _)) by lia.
    rewrite shiftr_WSIZE.
    set (Y := X / 2 ^ 32 + q / 2 ^ 32 + (t.[(2 * k + 1)%nat] + t.[(2 * k + 1)%nat])) in *.
    pose proof (carry_step Y (2 * k + 1)) as HC'.
    pose proof (Z.mod_pos_bound Y (2 ^ 32) ltac:(lia)) as HM'.
    assert (HQ' : 0 <= Y / 2 ^ 32 <= 2) by (apply div_bounds; unfold Y; lia).
    assert (HX' : X * pw (2 * k) =
                  sk * pw (2 * k) + (q mod 2 ^ 32) * pw (2 * k)
                  + 2 * t.[(2 * k)%nat] * pw (2 * k)) by (unfold X; ring).
    assert (HY' : Y * (2 ^ 32 * pw (2 * k)) =
                  (X / 2 ^ 32) * (2 ^ 32 * pw (2 * k))
                  + (q / 2 ^ 32) * (2 ^ 32 * pw (2 * k))
                  + 2 * t.[(2 * k + 1)%nat] * (2 ^ 32 * pw (2 * k))) by (unfold Y; ring).
    replace (2 * S k)%nat with (S (2 * k + 1)) by lia.
    replace (2 * k + 1)%nat with (S (2 * k)) in * by lia.
    split; [rewrite !length_upd; exact I1|].
    split.
    { rewrite !skipn_upd_lt by lia. apply skipn_S_eq. apply skipn_S_eq. exact I2. }
    assert (W1 : words (firstn (S (2 * k)) (upd rk (2 * k) (Word X)))).
    { apply words_firstn_S_upd; [lia|exact I3|unfold Word, WSIZE; exact HM]. }
    split; [apply words_firstn_S_upd;
            [rewrite length_upd; lia|exact W1|unfold Word, WSIZE; exact HM']|].
    split; [exact HQ'|].
    rewrite value_firstn_S_upd by (rewrite length_upd; lia).
    rewrite value_firstn_S_upd by lia.
    rewrite !value_firstn_S. cbn [diag]. fold q.
    unfold Word, WSIZE. rewrite !pw_S in *.
    assert (Hq' : q * pw (2 * k) =
                  2 ^ 32 * (q / 2 ^ 32) * pw (2 * k) + (q mod 2 ^ 32) * pw (2 * k))
      by (rewrite Hq at 1; ring).
    clear HM HQ HM' HQ' Hqm Hqd Hq HP. clearbody X Y q.
    generalize dependent (Y mod 2 ^ 32). generalize dependent (Y / 2 ^ 32).
    generalize dependent (X mod 2 ^ 32). generalize dependent (X / 2 ^ 32).
    generalize dependent (q mod 2 ^ 32). generalize dependent (q / 2 ^ 32).
    intros; lia.
Qed.

Lemma mpi_sqr_spec r a len :
  (1 <= len)%nat -> (2 * len <= length r)%nat -> words a ->
  length (mpi_sqr r a len) = length r /\
  skipn (2 * len) (mpi_sqr r a len) = skipn (2 * len) r /\
  words (firstn (2 * len) (mpi_sqr r a len)) /\
  value (firstn (2 * len) (mpi_sqr r a len)) =
    value (firstn len a) * value (firstn len a).
Proof.
  intros Hlen Hr Ha. unfold mpi_sqr. rewrite Nat.max_r by lia.
  assert (W0 : words (firstn 1 (upd r 0 0))).
  { apply words_firstn_S_upd; [lia|constructor|lia]. }
  assert (V0 : value (firstn 1 (upd r 0 0)) = 0).
  { rewrite value_firstn_S_upd by lia. cbn [firstn value]. lia. }
  destruct (for_up (len - 1) 1 _ (upd r 0 0, 0)) as [r1 p1] eqn:E1.
  destruct (row_first a a.[0%nat] (upd r 0 0) 1 (len - 1)
              ltac:(rewrite length_upd; lia) Ha (words_nth a 0 Ha) W0 _ (eq_sym E1))
    as (A1 & A2 & A3 & A4 & A5).
  cbn [fst snd] in *. clear E1.
  replace (1 + (len - 1))%nat with len in * by lia.
  rewrite length_upd in A1. rewrite V0 in A5.
  rewrite (Word_small p1) by lia.
  match goal with |- context [for_up (len - 1) 1 ?body (upd r1 len p1)] =>
    remember (for_up (len - 1) 1 body (upd r1 len p1)) as t2 eqn:E2
  end.
  apply sqr_rows in E2; try assumption.
  2: rewrite length_upd; lia.
  2: change (1 + len)%nat with (S len); apply words_firstn_S_upd; try lia; auto.
  2: change (1 + len)%nat with (S len); rewrite value_firstn_S_upd by lia; lia.
  destruct E2 as (B1 & B2 & B3 & B4). rewrite length_upd in B1.
  rewrite skipn_upd_lt in B2 by lia.
  destruct (for_up len 0 _ (t2, 0)) as [t3 c3] eqn:E3.
  destruct (sqr_double a t2 len ltac:(lia) Ha B3 _ (eq_sym E3))
    as (C1 & C2 & C3 & C4 & C5).
  cbn [fst snd] in *. clear E3.
  split; [lia|].
  split.
  { rewrite C2, B2. apply (f_equal (skipn len)) in A2.
    rewrite !skipn_skipn in A2. replace (len + len)%nat with (2 * len)%nat in A2 by lia.
    rewrite A2. apply skipn_upd_lt. lia. }
  split; [exact C3|].
  pose proof (value_firstn_range a len Ha) as RA.
  pose proof (value_firstn_range' _ _ C3) as R3.
  pose proof (pw_pos len) as Hp. rewrite pw_double in *.
  set (A := value (firstn len a)) in *.
  assert (HA2 : A * A < pw len * pw len) by nia.
  assert (c3 = 0) by nia. subst c3. lia.
Qed.

(** X9. For [len >= 1], [mpi_mul(r, a, b, len)] writes the full product of
    the [len]-word integers [a] and [b] to the first [2 len] words of [r] and
    leaves the other words of [r] as they were. *)
Theorem X9_mpi_mul_full_product (r a b : list Z) (len : nat) :
  (1 <= len)%nat -> (2 * len <= length r)%nat ->
  (len <= length a)%nat -> (len <= length b)%nat -> words a -> words b ->
  length (mpi_mul r a b len) = length r /\
  skipn (2 * len) (mpi_mul r a b len) = skipn (2 * len) r /\
  words (firstn (2 * len) (mpi_mul r a b len)) /\
  value (firstn (2 * len) (mpi_mul r a b len)) =
    value (firstn len a) * value (firstn len b).
Proof.
  intros Hlen Hr _ _ Ha Hb. apply mpi_mul_spec; assumption.
Qed.

Lemma X9_mpi_mul_full_product_witness :
  (1 <= 2)%nat /\ (2 * 2 <= length mp_buf5)%nat /\
  (2 <= length mp_ones)%nat /\ (2 <= length mp_ones)%nat /\
  words mp_ones /\ words mp_ones /\
  (length (mpi_mul mp_buf5 mp_ones mp_ones 2) = length mp_buf5 /\
   skipn (2 * 2) (mpi_mul mp_buf5 mp_ones mp_ones 2) = skipn (2 * 2) mp_buf5 /\
   words (firstn (2 * 2) (mpi_mul mp_buf5 mp_ones mp_ones 2)) /\
   value (firstn (2 * 2) (mpi_mul mp_buf5 mp_ones mp_ones 2)) =
     value (firstn 2 mp_ones) * value (firstn 2 mp_ones)).
Proof.
  assert (H1 : (1 <= 2)%nat) by lia.
  assert (H2 : (2 * 2 <= length mp_buf5)%nat) by (cbn; lia).
  assert (H3 : (2 <= length mp_ones)%nat) by (cbn; lia).
  assert (H4 : words mp_ones) by (apply wordsb_words; reflexivity).
  exact (conj H1 (conj H2 (conj H3 (conj H3 (conj H4 (conj H4
           (X9_mpi_mul_full_product mp_buf5 mp_ones mp_ones 2 H1 H2 H3 H3 H4 H4))))))).
Defined.

(** X10. For [len >= 1], [mpi_sqr(r, a, len)] writes the square of the
    [len]-word integer [a] to the first [2 len] words of [r]: the same words
    as [mpi_mul(r', a, a, len)]. *)
Theorem X10_mpi_sqr_is_mul (r r' a : list Z) (len : nat) :
  (1 <= len)%nat -> (2 * len <= length r)%nat -> (2 * len <= length r')%nat ->
  (len <= length a)%nat -> words a ->
  skipn (2 * len) (mpi_sqr r a len) = skipn (2 * len) r /\
  value (firstn (2 * len) (mpi_sqr r a len)) =
    value (firstn len a) * value (firstn len a) /\
  firstn (2 * len) (mpi_sqr r a len) = firstn (2 * len) (mpi_mul r' a a len).
Proof.
  intros Hlen Hr Hr' _ Ha.
  destruct (mpi_sqr_spec r a len Hlen Hr Ha) as (S1 & S2 & S3 & S4).
  destruct (mpi_mul_spec r' a a len Hlen Hr' Ha Ha) as (M1 & M2 & M3 & M4).
  refine (conj S2 (conj S4 _)).
  apply value_inj; [exact S3|exact M3| |congruence].
  rewrite !length_firstn. lia.
Qed.

Lemma X10_mpi_sqr_is_mul_witness :
  (1 <= 2)%nat /\ (2 * 2 <= length mp_buf5)%nat /\ (2 * 2 <= length mp_buf5)%nat /\
  (2 <= length mp_ones)%nat /\ words mp_ones /\
  (skipn (2 * 2) (mpi_sqr mp_buf5 mp_ones 2) = skipn (2 * 2) mp_buf5 /\
   value (firstn (2 * 2) (mpi_sqr mp_buf5 mp_ones 2)) =
     value (firstn 2 mp_ones) * value (firstn 2 mp_ones) /\
   firstn (2 * 2) (mpi_sqr mp_buf5 mp_ones 2)
     = firstn (2 * 2) (mpi_mul mp_buf5 mp_ones mp_ones 2)).
Proof.
  assert (H1 : (1 <= 2)%nat) by lia.
  assert (H2 : (2 * 2 <= length mp_buf5)%nat) by (cbn; lia).
  assert (H3 : (2 <= length mp_ones)%nat) by (cbn; lia).
  assert (H4 : words mp_ones) by (apply wordsb_words; reflexivity).
  exact (conj H1 (conj H2 (conj H2 (conj H3 (conj H4
           (X10_mpi_sqr_is_mul mp_buf5 mp_buf5 mp_ones 2 H1 H2 H2 H3 H4)))))).
Defined.

(** ** gfp_red *)

Lemma red_step1 r a :
  (7 <= length r)%nat -> words a ->
  forall st,
    st = for_up 7 0
           (fun i '(r, prod) =>
              let prod :=
                DWord (prod + DWord (DWord (DWord a.[(i + 8)%nat] * Z.shiftl CONSTC 1)
                                     + a.[i])) in
              let r := upd r i (Word prod) in
              let prod := Z.shiftr prod WSIZE in
              (r, prod))
           (r, 0) ->
    length (fst st) = length r /\ skipn 7 (fst st) = skipn 7 r /\
    words (firstn 7 (fst st)) /\ 0 <= snd st <= 38 /\
    value (firstn 7 (fst st)) + snd st * pw 7 =
      value (firstn 7 a) + 38 * value (firstn 7 (skipn 8 a)).
Proof.
  intros Hr Hw st ->.
  match goal with |- context [for_up 7 0 ?body ?s0] =>
    pose proof (for_up_ind
      (fun i (st : list Z * Z) =>
         length (fst st) = length r /\ skipn i (fst st) = skipn i r /\
         words (firstn i (fst st)) /\ 0 <= snd st <= 38 /\
         value (firstn i (fst st)) + snd st * pw i =
           value (firstn i a) + 38 * value (firstn i (skipn 8 a)))
      body 7 0%nat s0) as H
  end.
  apply H; clear H.
  - cbn [fst snd firstn skipn value]. repeat split; try constructor; lia.
  - intros k [rk pk] Hk (I1 & I2 & I3 & I4 & I5). cbn [fst snd] in *.
    pose proof (words_nth a k Hw) as Hlo. pose proof (words_nth a (k + 8) Hw) as Hhi.
    change (Z.shiftl CONSTC 1) with 38.
    rewrite (DWord_small a.[(k + 8)%nat]) by lia.
    rewrite (DWord_small (_ * 38)) by lia.
    rewrite (DWord_small (_ * 38 + _)) by lia.
    rewrite DWord_small by lia.
    rewrite shiftr_WSIZE.
    set (X := pk + (a.[(k + 8)%nat] * 38 + a.[k])) in *.
    pose proof (carry_step X k) as HC.
    pose proof (Z.mod_pos_bound X (2 ^ 32) ltac:(lia)) as HM.
    assert (HQ : 0 <= X / 2 ^ 32 <= 38) by (apply div_bounds; unfold X; lia).
    split; [rewrite length_upd; exact I1|].
    split; [rewrite skipn_upd_lt by lia; apply skipn_S_eq; exact I2|].
    split; [apply words_firstn_S_upd; try lia; auto; unfold Word, WSIZE; exact HM|].
    split; [exact HQ|].
    rewrite value_firstn_S_upd by lia. rewrite !value_firstn_S.
    rewrite nth_skipn. replace (8 + k)%nat with (k + 8)%nat by lia.
    unfold Word, WSIZE. rewrite pw_S in *.
    assert (HX' : X * pw k = pk * pw k + 38 * a.[(k + 8)%nat] * pw k + a.[k] * pw k)
      by (unfold X; ring).
    clear HM HQ. clearbody X.
    generalize dependent (X mod 2 ^ 32). generalize dependent (X / 2 ^ 32).
    intros; lia.
Qed.

(** The second loop reads the word of [r] it is about to overwrite. *)
Lemma red_step2 r c :
  (7 <= length r)%nat -> words (firstn 7 r) -> 0 <= c <= 1482 ->
  forall st,
    st = for_up 7 0
           (fun i '(r, sum) =>
              let sum := DWord (sum + r.[i]) in
              let r := upd r i (Word sum) in
              let sum := Z.shiftr sum WSIZE in
              (r, sum))
           (r, c) ->
    length (fst st) = length r /\ skipn 7 (fst st) = skipn 7 r /\
    words (firstn 7 (fst st)) /\ 0 <= snd st <= 1482 /\
    value (firstn 7 (fst st)) + snd st * pw 7 = c + value (firstn 7 r).
Proof.
  intros Hr Hw Hc st ->.
  match goal with |- context [for_up 7 0 ?body ?s0] =>
    pose proof (for_up_ind
      (fun i (st : list Z * Z) =>
         length (fst st) = length r /\ skipn i (fst st) = skipn i r /\
         words (firstn i (fst st)) /\ 0 <= snd st <= 1482 /\
         value (firstn i (fst st)) + snd st * pw i = c + value (firstn i r))
      body 7 0%nat s0) as H
  end.
  apply H; clear H.
  - cbn [fst snd firstn skipn value]. rewrite pw_0. repeat split; try constructor; lia.
  - intros k [rk pk] Hk (I1 & I2 & I3 & I4 & I5). cbn [fst snd] in *.
    rewrite (nth_skipn_eq rk r k k I2) by lia.
    assert (Hrk : 0 <= r.[k] < 2 ^ 32).
    { rewrite <- (nth_firstn_lt r k 7) by lia. apply words_nth; exact Hw. }
    rewrite DWord_small by lia.
    rewrite shiftr_WSIZE.
    set (X := pk + r.[k]) in *.
    pose proof (carry_step X k) as HC.
    pose proof (Z.mod_pos_bound X (2 ^ 32) ltac:(lia)) as HM.
    assert (HQ : 0 <= X / 2 ^ 32 <= 1) by (apply div_bounds; unfold X; lia).
    split; [rewrite length_upd; exact I1|].
    split; [rewrite skipn_upd_lt by lia; apply skipn_S_eq; exact I2|].
    split; [apply words_firstn_S_upd; try lia; auto; unfold Word, WSIZE; exact HM|].
    split; [lia|].
    rewrite value_firstn_S_upd by lia. rewrite !value_firstn_S.
    unfold Word, WSIZE. rewrite pw_S in *.
    assert (HX' : X * pw k = pk * pw k + r.[k] * pw k) by (unfold X; ring).
    clear HM HQ. clearbody X.
    generalize dependent (X mod 2 ^ 32). generalize dependent (X / 2 ^ 32).
    intros; lia.
Qed.

Lemma gfp_red_spec r a :
  length r = LEN -> length a = (2 * LEN)%nat -> words a ->
  felem (gfp_red r a) /\
  0 <= value (gfp_red r a) <= 2 * p - 1 /\
  exists h, value (gfp_red r a) = value a - h * p.
Proof.
  intros Hr Hla Ha. change (2 * LEN)%nat with 16%nat in Hla. change LEN with 8%nat in Hr.
  unfold gfp_red. change LEN with 8%nat.
  change (8 - 1)%nat with 7%nat. change (2 * 8 - 1)%nat with 15%nat.
  destruct (for_up 7 0 _ (r, 0)) as [r1 p1] eqn:E1.
  destruct (red_step1 r a ltac:(lia) Ha _ (eq_sym E1)) as (C1 & C2 & C3 & C4 & C5).
  cbn [fst snd] in *. clear E1.
  pose proof (words_nth a 7 Ha) as Ht7. pose proof (words_nth a 15 Ha) as Ht15.
  change (Z.shiftl CONSTC 1) with 38. change (DWord CONSTC) with 19.
  rewrite (DWord_small a.[15%nat]) by lia.
  rewrite (DWord_small (_ * 38)) by lia.
  rewrite (DWord_small (_ * 38 + _)) by lia.
  rewrite (DWord_small (p1 + _)) by lia.
  set (P := p1 + (a.[15%nat] * 38 + a.[7%nat])) in *.
  rewrite land_MSB0, shiftr_31.
  assert (Hh : 0 <= P / 2 ^ 31 <= 77) by (apply div31_bounds; unfold P; lia).
  pose proof (Z.mod_pos_bound P (2 ^ 31) ltac:(lia)) as Hm.
  pose proof (split_31 P) as HP.
  rewrite (DWord_small (19 * _)) by lia.
  destruct (for_up 7 0 _ (r1, 19 * (P / 2 ^ 31))) as [r' p4] eqn:E4.
  destruct (red_step2 r1 (19 * (P / 2 ^ 31)) ltac:(lia) C3 ltac:(lia) _ (eq_sym E4))
    as (D1 & D0 & D2 & D3 & D4).
  cbn [fst snd] in *. clear E4.
  rewrite (Word_small p4) by lia.
  rewrite (Word_small (_ + p4)) by lia.
  destruct (felem_upd_top r' (P mod 2 ^ 31 + p4)) as [F V]; try lia; auto.
  { change LEN with 8%nat. lia. }
  split; [exact F|]. rewrite V.
  pose proof (value_range _ D2) as R7.
  rewrite length_firstn, Nat.min_l in R7 by lia.
  pose proof (value_split_le 8 a ltac:(lia)) as HS.
  assert (L8 : length (skipn 8 a) = 8%nat) by (rewrite length_skipn; lia).
  pose proof (value_firstn_S (skipn 8 a) 7) as HH.
  rewrite (firstn_all2 (n := 8) (skipn 8 a)) in HH by lia.
  rewrite nth_skipn in HH. change (8 + 7)%nat with 15%nat in HH.
  pose proof (value_firstn_S a 7) as HL.
  pose proof (value_range _ (words_skipn 8 a Ha)) as RH.
  change (pw 8) with (2 ^ 256) in *. rewrite pw_7, p_val in *.
  remember (P / 2 ^ 31) as q eqn:Eq. remember (P mod 2 ^ 31) as m eqn:Em.
  clear Eq Em. subst P.
  split; [lia|].
  exists (2 * value (skipn 8 a) + q). lia.
Qed.

(** ** The product functions as a product followed by a reduction *)

Lemma for_up_sim {S1 S2 : Type} (R : nat -> S1 -> S2 -> Prop)
    (f : nat -> S1 -> S1) (g : nat -> S2 -> S2) n :
  forall i s1 s2,
    R i s1 s2 ->
    (forall k x y, (i <= k < i + n)%nat -> R k x y -> R (S k) (f k x) (g k y)) ->
    R (i + n)%nat (for_up n i f s1) (for_up n i g s2).
Proof.
  induction n as [|n IH]; intros i s1 s2 H0 Hs; cbn [for_up].
  - rewrite Nat.add_0_r. exact H0.
  - replace (i + S n)%nat with (S i + n)%nat by lia. apply IH.
    + apply Hs; [lia|exact H0].
    + intros k x y Hk. apply Hs. lia.
Qed.

(** The reduction at the end of [gfp_mul] and [gfp_sqr], which overwrites
    the low words of the product [t], is [gfp_red] on that product. *)
Lemma red_tail_eq r T :
  length r = LEN -> (LEN <= length T)%nat ->
  (let '(t, prod) :=
     for_up (LEN - 1) 0
       (fun i '(t, prod) =>
          let prod :=
            DWord (prod + DWord (DWord (DWord t.[(i + LEN)%nat] * Z.shiftl CONSTC 1) + t.[i])) in
          let t := upd t i (Word prod) in
          let prod := Z.shiftr prod WSIZE in
          (t, prod))
       (T, 0) in
   let prod :=
     DWord (prod + DWord (DWord (DWord t.[(2 * LEN - 1)%nat] * Z.shiftl CONSTC 1)
                          + t.[(LEN - 1)%nat])) in
   let msw := Z.land (Word prod) MSB0MASK in
   let prod := DWord (DWord CONSTC * Z.shiftr prod (WSIZE - 1)) in
   let '(r, prod) :=
     for_up (LEN - 1) 0
       (fun i '(r, prod) =>
          let prod := DWord (prod + t.[i]) in
          let r := upd r i (Word prod) in
          let prod := Z.shiftr prod WSIZE in
          (r, prod))
       (r, prod) in
   upd r (LEN - 1) (Word (msw + Word prod)))
  = gfp_red r T.
Proof.
  intros Hr HT. unfold gfp_red. change LEN with 8%nat in *.
  change (8 - 1)%nat with 7%nat. change (2 * 8 - 1)%nat with 15%nat.
  match goal with
  | |- match for_up 7 0 ?f ?s with _ => _ end = match for_up 7 0 ?g ?s' with _ => _ end =>
      pose proof (for_up_sim
        (fun k (x : list Z * Z) (y : list Z * Z) =>
           snd x = snd y /\ length (fst x) = length T /\ length (fst y) = length r /\
           (forall j, (j < k)%nat -> (fst x).[j] = (fst y).[j]) /\
           (forall j, (k <= j)%nat -> (fst x).[j] = T.[j]) /\
           (forall j, (k <= j)%nat -> (fst y).[j] = r.[j]))
        f g 7 0%nat s s') as H;
      destruct (for_up 7 0 f s) as [t1 c1]; destruct (for_up 7 0 g s') as [r1 c1']
  end.
  cbn [fst snd] in H. destruct H as (E1 & L1 & L1' & A1 & B1 & B1').
  - repeat split; try reflexivity. intros j Hj; lia.
  - intros k [tk ck] [rk ck'] Hk (E & L & L' & A & B & B'). cbn [fst snd] in *.
    subst ck'. rewrite (B (k + 8)%nat) by lia. rewrite (B k) by lia.
    split; [reflexivity|].
    split; [rewrite length_upd; exact L|]. split; [rewrite length_upd; exact L'|].
    split.
    { intros j Hj. destruct (Nat.eq_dec j k) as [->|Hne].
      - rewrite !nth_upd_eq by lia. reflexivity.
      - rewrite !nth_upd_neq by lia. apply A. lia. }
    split; intros j Hj; rewrite nth_upd_neq by lia; [apply B|apply B']; lia.
  - subst c1'. change (0 + 7)%nat with 7%nat in *.
    rewrite (B1 15%nat) by lia. rewrite (B1 7%nat) by lia.
    match goal with
    | |- match for_up 7 0 ?f ?s with _ => _ end = match for_up 7 0 ?g ?s' with _ => _ end =>
        pose proof (for_up_sim
          (fun k (x : list Z * Z) (y : list Z * Z) =>
             snd x = snd y /\ length (fst x) = length r /\ length (fst y) = length r /\
             (forall j, (j < k)%nat -> (fst x).[j] = (fst y).[j]) /\
             (forall j, (k <= j)%nat -> (fst y).[j] = r1.[j]))
          f g 7 0%nat s s') as H;
        destruct (for_up 7 0 f s) as [ra ca]; destruct (for_up 7 0 g s') as [rb cb]
    end.
    cbn [fst snd] in H. destruct H as (E2 & L2 & L2' & A2 & _).
    + repeat split; try reflexivity; try assumption. intros j Hj; lia.
    + intros k [xk ck] [yk ck'] Hk (E & L & L' & A & B). cbn [fst snd] in *.
      subst ck'. rewrite (B k) by lia. rewrite <- (A1 k) by lia.
      split; [reflexivity|].
      split; [rewrite length_upd; exact L|]. split; [rewrite length_upd; exact L'|].
      split.
      { intros j Hj. destruct (Nat.eq_dec j k) as [->|Hne].
        - rewrite !nth_upd_eq by lia. reflexivity.
        - rewrite !nth_upd_neq by lia. apply A. lia. }
      intros j Hj. rewrite nth_upd_neq by lia. apply B. lia.
    + subst cb. apply (nth_ext _ _ 0 0).
      * rewrite !length_upd. lia.
      * intros j Hj. rewrite length_upd in Hj.
        destruct (Nat.eq_dec j 7) as [->|Hne].
        -- rewrite !nth_upd_eq by lia. reflexivity.
        -- rewrite !nth_upd_neq by lia. apply A2. lia.
Qed.

Lemma gfp_mul_is_red r a b :
  length r = LEN -> felem a -> felem b ->
  gfp_mul r a b = gfp_red r (mpi_mul (repeat 0 (2 * LEN)) a b LEN).
Proof.
  intros Hr [Hla Ha] [Hlb Hb].
  destruct (mpi_mul_spec (repeat 0 (2 * LEN)) a b LEN) as (M1 & _);
    [change LEN with 8%nat; lia|rewrite repeat_length; lia|exact Ha|exact Hb|].
  rewrite repeat_length in M1.
  rewrite <- red_tail_eq by (try exact Hr; rewrite M1; change LEN with 8%nat; lia).
  unfold gfp_mul, mpi_mul.
  destruct (for_up LEN 0 _ (repeat 0 (2 * LEN), 0)) as [t1 p1].
  reflexivity.
Qed.

Lemma gfp_sqr_is_red r a :
  length r = LEN -> felem a ->
  gfp_sqr r a = gfp_red r (mpi_sqr (repeat 0 (2 * LEN)) a LEN).
Proof.
  intros Hr [Hla Ha].
  destruct (mpi_sqr_spec (repeat 0 (2 * LEN)) a LEN) as (M1 & _);
    [change LEN with 8%nat; lia|rewrite repeat_length; lia|exact Ha|].
  rewrite repeat_length in M1.
  rewrite <- red_tail_eq by (try exact Hr; rewrite M1; change LEN with 8%nat; lia).
  unfold gfp_sqr, mpi_sqr. change (Nat.max 1 LEN) with LEN.
  destruct (for_up (LEN - 1) 1 _ (upd (repeat 0 (2 * LEN)) 0 0, 0)) as [t1 p1].
  reflexivity.
Qed.

Lemma gfp_sqr_is_mul r a : length r = LEN -> felem a -> gfp_sqr r a = gfp_mul r a a.
Proof.
  intros Hr Ha. rewrite gfp_sqr_is_red, gfp_mul_is_red by assumption.
  f_equal. destruct Ha as [Hla Ha].
  assert (H1 : (1 <= LEN)%nat) by (change LEN with 8%nat; lia).
  assert (H2 : (2 * LEN <= length (repeat 0%Z (2 * LEN)))%nat)
    by (rewrite repeat_length; lia).
  destruct (mpi_sqr_spec _ a LEN H1 H2 Ha) as (S1 & _ & S3 & S4).
  destruct (mpi_mul_spec _ a a LEN H1 H2 Ha Ha) as (M1 & _ & M3 & M4).
  rewrite repeat_length in S1, M1.
  rewrite firstn_all2 in S3, S4, M3, M4 by lia.
  apply value_inj; [exact S3|exact M3|lia|congruence].
Qed.

(** X11. [gfp_red(r, a)] reduces any integer [a] of 16 words: it writes
    eight words whose value is congruent to [a] modulo [p] and lies in
    [[0, 2p - 1]]. *)
Theorem X11_gfp_red_reduces_16_words (r a : list Z) :
  length r = LEN -> length a = (2 * LEN)%nat -> words a ->
  felem (gfp_red r a) /\
  value (gfp_red r a) mod p = value a mod p /\
  0 <= value (gfp_red r a) <= 2 * p - 1.
Proof.
  intros Hr Hla Ha. destruct (gfp_red_spec r a Hr Hla Ha) as (F & R & h & V).
  split; [exact F|]. split; [apply (cong_sub_mul _ _ h V)|exact R].
Qed.

Lemma X11_gfp_red_reduces_16_words_witness :
  length buf_sevens = LEN /\ length wide_ones = (2 * LEN)%nat /\ words wide_ones /\
  (felem (gfp_red buf_sevens wide_ones) /\
   value (gfp_red buf_sevens wide_ones) mod p = value wide_ones mod p /\
   0 <= value (gfp_red buf_sevens wide_ones) <= 2 * p - 1).
Proof.
  assert (H1 : length buf_sevens = LEN) by reflexivity.
  assert (H2 : length wide_ones = (2 * LEN)%nat) by reflexivity.
  assert (H3 : words wide_ones) by (apply wordsb_words; reflexivity).
  exact (conj H1 (conj H2 (conj H3 (X11_gfp_red_reduces_16_words buf_sevens wide_ones H1 H2 H3)))).
Defined.

(** X12. [gfp_mul(r, a, b)] writes the same eight words as the full product
    [mpi_mul(t, a, b, LEN)] followed by [gfp_red(r, t)], whatever the scratch
    array [t] of 16 words held before. *)
Theorem X12_gfp_mul_is_mpi_mul_then_gfp_red (r t a b : list Z) :
  length r = LEN -> length t = (2 * LEN)%nat -> felem a -> felem b ->
  gfp_mul r a b = gfp_red r (mpi_mul t a b LEN).
Proof.
  intros Hr Ht Ha Hb. rewrite gfp_mul_is_red by assumption. f_equal.
  destruct Ha as [Hla Ha]. destruct Hb as [Hlb Hb].
  assert (H1 : (1 <= LEN)%nat) by (change LEN with 8%nat; lia).
  assert (H2 : (2 * LEN <= length (repeat 0%Z (2 * LEN)))%nat)
    by (rewrite repeat_length; lia).
  destruct (mpi_mul_spec _ a b LEN H1 H2 Ha Hb) as (S1 & _ & S3 & S4).
  destruct (mpi_mul_spec t a b LEN H1 ltac:(lia) Ha Hb) as (M1 & _ & M3 & M4).
  rewrite repeat_length in S1.
  rewrite firstn_all2 in S3, S4, M3, M4 by lia.
  apply value_inj; [exact S3|exact M3|lia|congruence].
Qed.

Lemma X12_gfp_mul_is_mpi_mul_then_gfp_red_witness :
  length buf_sevens = LEN /\ length wide_sevens = (2 * LEN)%nat /\
  felem fe_max /\ felem fe_p_minus_1 /\
  gfp_mul buf_sevens fe_max fe_p_minus_1
    = gfp_red buf_sevens (mpi_mul wide_sevens fe_max fe_p_minus_1 LEN).
Proof.
  assert (H1 : length buf_sevens = LEN) by reflexivity.
  assert (H2 : length wide_sevens = (2 * LEN)%nat) by reflexivity.
  assert (H3 : felem fe_max) by (apply felemb_felem; reflexivity).
  assert (H4 : felem fe_p_minus_1) by (apply felemb_felem; reflexivity).
  exact (conj H1 (conj H2 (conj H3 (conj H4
           (X12_gfp_mul_is_mpi_mul_then_gfp_red buf_sevens wide_sevens fe_max fe_p_minus_1
              H1 H2 H3 H4))))).
Defined.

(** X13. For every [a] in [[0, 2^256 - 1]], [gfp_sqr(r, a)] writes the same
    eight words as [gfp_mul(r, a, a)]: a value congruent to [a^2] modulo [p]
    in [[0, 2p - 1]]. *)
Theorem X13_gfp_sqr_is_gfp_mul (r a : list Z) :
  length r = LEN -> felem a ->
  gfp_sqr r a = gfp_mul r a a /\
  felem (gfp_sqr r a) /\
  value (gfp_sqr r a) mod p = (value a * value a) mod p /\
  0 <= value (gfp_sqr r a) <= 2 * p - 1.
Proof.
  intros Hr Ha. rewrite (gfp_sqr_is_mul r a Hr Ha).
  destruct (gfp_mul_spec r a a Hr Ha Ha) as (F & R & h & V).
  split; [reflexivity|]. split; [exact F|].
  split; [apply (cong_sub_mul _ _ h V)|exact R].
Qed.

Lemma X13_gfp_sqr_is_gfp_mul_witness :
  length buf_sevens = LEN /\ felem fe_max /\
  (gfp_sqr buf_sevens fe_max = gfp_mul buf_sevens fe_max fe_max /\
   felem (gfp_sqr buf_sevens fe_max) /\
   value (gfp_sqr buf_sevens fe_max) mod p = (value fe_max * value fe_max) mod p /\
   0 <= value (gfp_sqr buf_sevens fe_max) <= 2 * p - 1).
Proof.
  assert (H1 : length buf_sevens = LEN) by reflexivity.
  assert (H2 : felem fe_max) by (apply felemb_felem; reflexivity).
  exact (conj H1 (conj H2 (X13_gfp_sqr_is_gfp_mul buf_sevens fe_max H1 H2))).
Defined.

(** ** gfp_setp and gfp_cmpp *)

Lemma gtb_word_max x : 0 <= x < 2 ^ 32 -> (x >? ALL1MASK) = false.
Proof.
  intros H. change ALL1MASK with (2 ^ 32 - 1). rewrite Z.gtb_ltb.
  apply Z.ltb_ge. lia.
Qed.

Lemma gfp_setp_words r :
  length r = LEN ->
  gfp_setp r =
    [Word (0 - CONSTC); ALL1MASK; ALL1MASK; ALL1MASK; ALL1MASK; ALL1MASK; ALL1MASK; MSB0MASK].
Proof.
  intros Hl. destruct (length_8 r Hl) as (w0 & w1 & w2 & w3 & w4 & w5 & w6 & w7 & ->).
  reflexivity.
Qed.

(** [gfp_cmpp] is [mpi_cmp] against the words of [p], with the comparisons
    that cannot hold left out. *)
Lemma gfp_cmpp_mpi_cmp a :
  felem a -> mpi_cmp a (gfp_setp (repeat 0 LEN)) LEN = Some (gfp_cmpp a).
Proof.
  intros [Hl Hw]. destruct (length_8 a Hl) as (w0 & w1 & w2 & w3 & w4 & w5 & w6 & w7 & ->).
  unfold mpi_cmp, gfp_cmpp.
  rewrite (gfp_setp_words (repeat 0 LEN)) by reflexivity.
  change (Z.of_nat LEN <=? WSIZE) with true. cbv iota.
  change LEN with 8%nat. change (8 - 1)%nat with 7%nat. change (8 - 2)%nat with 6%nat.
  cbn [for_down nth Nat.sub].
  rewrite (gtb_word_max w1), (gtb_word_max w2), (gtb_word_max w3),
    (gtb_word_max w4), (gtb_word_max w5), (gtb_word_max w6)
    by (first [apply (words_nth _ 1 Hw) | apply (words_nth _ 2 Hw) | apply (words_nth _ 3 Hw)
              | apply (words_nth _ 4 Hw) | apply (words_nth _ 5 Hw) | apply (words_nth _ 6 Hw)]).
  cbn [Z.b2z]. rewrite !Z.lor_0_r. change (Word (Z.shiftl 0 1)) with 0.
  rewrite !Z.lor_0_l. reflexivity.
Qed.

Lemma gfp_cmpp_spec a : felem a -> gfp_cmpp a = Z.sgn (value a - p).
Proof.
  intros Ha. pose proof (gfp_cmpp_mpi_cmp a Ha) as H.
  destruct gfp_setp_spec as [[Lp Wp] Vp].
  rewrite mpi_cmp_spec in H by (try apply Ha; try exact Wp; change LEN with 8%nat; lia).
  rewrite !firstn_LEN in H by (try apply Ha; exact Lp).
  rewrite Vp in H. injection H as H. symmetry. exact H.
Qed.

(** X14. [gfp_setp(r)] makes any buffer of eight words the words of [p], and
    [gfp_cmpp(a)] is the sign of [a - p]: +1 for [a > p], 0 for [a = p], -1
    for [a < p], the result of [mpi_cmp(a, p, LEN)]. *)
Theorem X14_gfp_cmpp_sign (r a : list Z) :
  length r = LEN -> felem a ->
  felem (gfp_setp r) /\ value (gfp_setp r) = p /\
  gfp_cmpp a = Z.sgn (value a - p) /\
  mpi_cmp a (gfp_setp r) LEN = Some (gfp_cmpp a).
Proof.
  intros Hr Ha.
  assert (E : gfp_setp r = gfp_setp (repeat 0 LEN)).
  { rewrite (gfp_setp_words r Hr), (gfp_setp_words (repeat 0 LEN)) by reflexivity.
    reflexivity. }
  rewrite E. destruct gfp_setp_spec as [Fp Vp].
  refine (conj Fp (conj Vp (conj (gfp_cmpp_spec a Ha) (gfp_cmpp_mpi_cmp a Ha)))).
Qed.

Lemma X14_gfp_cmpp_sign_witness :
  length buf_sevens = LEN /\ felem fe_max /\
  (felem (gfp_setp buf_sevens) /\ value (gfp_setp buf_sevens) = p /\
   gfp_cmpp fe_max = Z.sgn (value fe_max - p) /\
   mpi_cmp fe_max (gfp_setp buf_sevens) LEN = Some (gfp_cmpp fe_max)).
Proof.
  assert (H1 : length buf_sevens = LEN) by reflexivity.
  assert (H2 : felem fe_max) by (apply felemb_felem; reflexivity).
  exact (conj H1 (conj H2 (X14_gfp_cmpp_sign buf_sevens fe_max H1 H2))).
Defined.

(** ** gfp_mul32 *)

Lemma land_MSB0_word x : 0 <= x < 2 ^ 32 -> Z.land x MSB0MASK = x mod 2 ^ 31.
Proof. intros H. rewrite <- (Word_small x) at 1 by exact H. apply land_MSB0. Qed.

(** The carry propagation of [gfp_mul32] and [gfp_red32]. *)
Lemma mul32_carry r t c :
  (7 <= length r)%nat -> words (firstn 1 r) -> words (firstn 7 t) -> 0 <= c <= 38 ->
  forall st,
    st = for_up 6 1
           (fun i '(r, prod) =>
              let prod := DWord (prod + DWord t.[i]) in
              let r := upd r i (Word prod) in
              let prod := Z.shiftr prod WSIZE in
              (r, prod))
           (r, c) ->
    length (fst st) = length r /\ words (firstn 7 (fst st)) /\ 0 <= snd st <= 38 /\
    value (firstn 7 (fst st)) + snd st * pw 7 =
      value (firstn 1 r) + c * pw 1 + (value (firstn 7 t) - value (firstn 1 t)).
Proof.
  intros Hr Hw1 Hw Hc st ->.
  match goal with |- context [for_up 6 1 ?body ?s0] =>
    pose proof (for_up_ind
      (fun i (st : list Z * Z) =>
         length (fst st) = length r /\ words (firstn i (fst st)) /\
         0 <= snd st <= 38 /\
         value (firstn i (fst st)) + snd st * pw i =
           value (firstn 1 r) + c * pw 1 + (value (firstn i t) - value (firstn 1 t)))
      body 6 1%nat s0) as H
  end.
  apply H; clear H.
  - cbn [fst snd]. repeat split; auto; lia.
  - intros k [rk pk] Hk (I1 & I2 & I3 & I4). cbn [fst snd] in *.
    assert (Htk : 0 <= t.[k] < 2 ^ 32).
    { rewrite <- (nth_firstn_lt t k 7) by lia. apply words_nth; exact Hw. }
    rewrite (DWord_small t.[k]) by lia.
    rewrite DWord_small by lia.
    rewrite shiftr_WSIZE.
    set (X := pk + t.[k]) in *.
    pose proof (carry_step X k) as HC.
    pose proof (Z.mod_pos_bound X (2 ^ 32) ltac:(lia)) as HM.
    assert (HQ : 0 <= X / 2 ^ 32 <= 1) by (apply div_bounds; unfold X; lia).
    split; [rewrite length_upd; exact I1|].
    split; [apply words_firstn_S_upd; try lia; auto; unfold Word, WSIZE; exact HM|].
    split; [lia|].
    rewrite value_firstn_S_upd by lia. rewrite (value_firstn_S t k).
    unfold Word, WSIZE. rewrite (pw_S k) in *.
    assert (HX' : X * pw k = pk * pw k + t.[k] * pw k) by (unfold X; ring).
    clear HM HQ. clearbody X.
    generalize dependent (X mod 2 ^ 32). generalize dependent (X / 2 ^ 32).
    intros; lia.
Qed.

Lemma gfp_red32_spec r a :
  length r = LEN -> length a = (LEN + 1)%nat -> words a ->
  felem (gfp_red32 r a) /\
  0 <= value (gfp_red32 r a) <= 2 * p - 1 /\
  value (gfp_red32 r a) = value a - (a.[7%nat] / 2 ^ 31 + 2 * a.[8%nat]) * p.
Proof.
  intros Hr Hla Ha. change LEN with 8%nat in *. change (8 + 1)%nat with 9%nat in Hla.
  unfold gfp_red32. change LEN with 8%nat.
  change (8 - 1 - 1)%nat with 6%nat. change (8 - 1)%nat with 7%nat.
  pose proof (words_nth a 0 Ha) as H0. pose proof (words_nth a 7 Ha) as H7.
  pose proof (words_nth a 8 Ha) as H8.
  rewrite (land_MSB0_word _ H7), shiftr_31.
  change (Z.shiftl CONSTC 1) with 38. change (DWord CONSTC) with 19.
  assert (Hh : 0 <= a.[7%nat] / 2 ^ 31 <= 1) by (apply div31_bounds; lia).
  pose proof (Z.mod_pos_bound a.[7%nat] (2 ^ 31) ltac:(lia)) as Hm.
  pose proof (split_31 a.[7%nat]) as HP.
  rewrite (DWord_small (19 * _)) by lia.
  rewrite (DWord_small a.[8%nat]) by lia.
  rewrite (DWord_small (_ * 38)) by lia.
  rewrite (DWord_small (_ * 38 + _)) by lia.
  rewrite (DWord_small (19 * _ + _)) by lia.
  rewrite shiftr_WSIZE.
  set (X := 19 * (a.[7%nat] / 2 ^ 31) + (a.[8%nat] * 38 + a.[0%nat])) in *.
  pose proof (carry_step X 0) as HC0.
  pose proof (Z.mod_pos_bound X (2 ^ 32) ltac:(lia)) as HM0.
  assert (HQ0 : 0 <= X / 2 ^ 32 <= 38) by (apply div_bounds; unfold X; lia).
  assert (W1 : words (firstn 1 (upd r 0 (Word X)))).
  { apply words_firstn_S_upd; [lia|constructor|unfold Word, WSIZE; exact HM0]. }
  assert (V1 : value (firstn 1 (upd r 0 (Word X))) = X mod 2 ^ 32).
  { rewrite value_firstn_S_upd by lia. cbn [firstn value]. rewrite pw_0.
    unfold Word, WSIZE. lia. }
  destruct (for_up 6 1 _ (upd r 0 (Word X), X / 2 ^ 32)) as [r' p4] eqn:E4.
  destruct (mul32_carry (upd r 0 (Word X)) a (X / 2 ^ 32)
              ltac:(rewrite length_upd; lia) W1 (words_firstn 7 a Ha) HQ0 _ (eq_sym E4))
    as (D1 & D2 & D3 & D4).
  cbn [fst snd] in *. clear E4. rewrite length_upd in D1. rewrite V1 in D4.
  rewrite (Word_small p4) by lia.
  rewrite (Word_small (p4 + _)) by lia.
  assert (L' : length r' = LEN) by (change LEN with 8%nat; lia).
  destruct (felem_upd_top r' (p4 + a.[7%nat] mod 2 ^ 31) L' D2 ltac:(lia)) as [F V].
  split; [exact F|]. rewrite V.
  pose proof (value_range _ (words_firstn 7 a Ha)) as R7.
  rewrite length_firstn, Nat.min_l in R7 by lia.
  assert (E1 : value (firstn 1 a) = a.[0%nat]).
  { rewrite (value_firstn_S a 0). cbn [firstn value]. rewrite pw_0. lia. }
  pose proof (value_firstn_S a 7) as HL8. pose proof (value_firstn_S a 8) as HL9.
  rewrite (firstn_all2 (n := 9) a) in HL9 by lia.
  rewrite E1 in D4.
  change (pw 0) with 1 in *. change (pw 1) with (2 ^ 32) in *.
  change (pw 8) with (2 ^ 256) in *. rewrite pw_7, p_val in *.
  assert (HX' : X = 19 * (a.[7%nat] / 2 ^ 31) + 38 * a.[8%nat] + a.[0%nat])
    by (unfold X; ring).
  clear HM0 HQ0 W1 V1 V. clearbody X.
  generalize dependent (X mod 2 ^ 32). generalize dependent (X / 2 ^ 32).
  generalize dependent (a.[7%nat] mod 2 ^ 31). generalize dependent (a.[7%nat] / 2 ^ 31).
  intros; lia.
Qed.

(** [gfp_mul32] keeps the product in its scratch array and reduces it. *)
Lemma gfp_mul32_is_red32 r a b :
  gfp_mul32 r a b = gfp_red32 r (mpi_mul32 (repeat 0 (LEN + 1)) a b LEN).
Proof.
  unfold gfp_mul32, mpi_mul32, gfp_red32.
  destruct (for_up LEN 0 _ (repeat 0 (LEN + 1), 0)) as [t1 p1].
  reflexivity.
Qed.

Lemma mpi_mul32_spec r a b len :
  (len + 1 <= length r)%nat -> words a -> words b ->
  length (mpi_mul32 r a b len) = length r /\
  skipn (len + 1) (mpi_mul32 r a b len) = skipn (len + 1) r /\
  words (firstn (len + 1) (mpi_mul32 r a b len)) /\
  value (firstn (len + 1) (mpi_mul32 r a b len)) = value (firstn len a) * b.[0%nat].
Proof.
  intros Hr Ha Hb. unfold mpi_mul32.
  destruct (for_up len 0 _ (r, 0)) as [r1 p1] eqn:E1.
  destruct (row_first a b.[0%nat] r 0 len ltac:(lia) Ha (words_nth b 0 Hb)
              ltac:(constructor) _ (eq_sym E1)) as (A1 & A2 & A3 & A4 & A5).
  cbn [fst snd] in *. clear E1. rewrite Nat.add_0_l in *.
  cbn [firstn value] in A5.
  rewrite (Word_small p1) by lia. replace (len + 1)%nat with (S len) by lia.
  split; [rewrite length_upd; exact A1|].
  split; [rewrite skipn_upd_lt by lia; apply skipn_S_eq; exact A2|].
  split; [apply words_firstn_S_upd; try lia; auto|].
  rewrite value_firstn_S_upd by lia. lia.
Qed.

Lemma gfp_mul32_spec r a b :
  length r = LEN -> felem a -> words b ->
  felem (gfp_mul32 r a b) /\
  0 <= value (gfp_mul32 r a b) <= 2 * p - 1 /\
  exists h, value (gfp_mul32 r a b) = value a * b.[0%nat] - h * p.
Proof.
  intros Hr [Hla Ha] Hb. rewrite gfp_mul32_is_red32.
  destruct (mpi_mul32_spec (repeat 0 (LEN + 1)) a b LEN
              ltac:(rewrite repeat_length; lia) Ha Hb) as (M1 & _ & M3 & M4).
  rewrite repeat_length in M1.
  rewrite firstn_all2 in M3, M4 by lia. rewrite (firstn_all2 (n := LEN) a) in M4 by lia.
  destruct (gfp_red32_spec r _ Hr M1 M3) as (F & R & V).
  split; [exact F|]. split; [exact R|].
  eexists. rewrite V, M4. reflexivity.
Qed.

(** X15. For every [a] in [[0, 2^256 - 1]] and every word [b[0]],
    [gfp_mul32(r, a, b)] writes eight words whose value is congruent to
    [a * b[0]] modulo [p] and lies in [[0, 2p - 1]]; the other words of [b]
    are not read.  It is [mpi_mul32] into a scratch array of nine words
    followed by [gfp_red32]. *)
Theorem X15_gfp_mul32_correct (r t a b : list Z) :
  length r = LEN -> length t = (LEN + 1)%nat -> felem a ->
  (1 <= length b)%nat -> words b ->
  felem (gfp_mul32 r a b) /\
  value (gfp_mul32 r a b) mod p = (value a * b.[0%nat]) mod p /\
  0 <= value (gfp_mul32 r a b) <= 2 * p - 1 /\
  gfp_mul32 r a b = gfp_mul32 r a [b.[0%nat]] /\
  gfp_mul32 r a b = gfp_red32 r (mpi_mul32 t a b LEN).
Proof.
  intros Hr Ht Ha _ Hb. destruct (gfp_mul32_spec r a b Hr Ha Hb) as (F & R & h & V).
  split; [exact F|]. split; [apply (cong_sub_mul _ _ h V)|]. split; [exact R|].
  split; [reflexivity|].
  rewrite gfp_mul32_is_red32. f_equal. destruct Ha as [Hla Ha].
  destruct (mpi_mul32_spec (repeat 0 (LEN + 1)) a b LEN
              ltac:(rewrite repeat_length; lia) Ha Hb) as (M1 & _ & M3 & M4).
  destruct (mpi_mul32_spec t a b LEN ltac:(lia) Ha Hb) as (N1 & _ & N3 & N4).
  rewrite repeat_length in M1.
  rewrite firstn_all2 in M3, M4, N3, N4 by lia.
  apply value_inj; [exact M3|exact N3|lia|congruence].
Qed.

Lemma X15_gfp_mul32_correct_witness :
  length buf_sevens = LEN /\ length mp_buf9 = (LEN + 1)%nat /\ felem fe_max /\
  (1 <= length mp_ones)%nat /\ words mp_ones /\
  (felem (gfp_mul32 buf_sevens fe_max mp_ones) /\
   value (gfp_mul32 buf_sevens fe_max mp_ones) mod p
     = (value fe_max * mp_ones.[0%nat]) mod p /\
   0 <= value (gfp_mul32 buf_sevens fe_max mp_ones) <= 2 * p - 1 /\
   gfp_mul32 buf_sevens fe_max mp_ones = gfp_mul32 buf_sevens fe_max [mp_ones.[0%nat]] /\
   gfp_mul32 buf_sevens fe_max mp_ones
     = gfp_red32 buf_sevens (mpi_mul32 mp_buf9 fe_max mp_ones LEN)).
Proof.
  assert (H1 : length buf_sevens = LEN) by reflexivity.
  assert (H2 : length mp_buf9 = (LEN + 1)%nat) by reflexivity.
  assert (H3 : felem fe_max) by (apply felemb_felem; reflexivity).
  assert (H4 : (1 <= length mp_ones)%nat) by (cbn; lia).
  assert (H5 : words mp_ones) by (apply wordsb_words; reflexivity).
  exact (conj H1 (conj H2 (conj H3 (conj H4 (conj H5
           (X15_gfp_mul32_correct buf_sevens mp_buf9 fe_max mp_ones H1 H2 H3 H4 H5)))))).
Defined.

(** ** gfp_cneg *)

Lemma lxor_ones x : 0 <= x < 2 ^ 32 -> Z.lxor (2 ^ 32 - 1) x = 2 ^ 32 - 1 - x.
Proof.
  intros Hx. rewrite <- (Word_lnot x Hx). unfold Word, WSIZE.
  rewrite <- Z.land_ones by lia. change (2 ^ 32 - 1) with (Z.ones 32).
  apply Z.bits_inj'. intros n Hn.
  rewrite Z.lxor_spec, Z.land_spec, Z.lnot_spec by exact Hn.
  rewrite Z.testbit_ones_nonneg by lia.
  destruct (Z.ltb_spec n 32) as [Hlt|Hge].
  - cbn. rewrite andb_true_r. reflexivity.
  - rewrite andb_false_r. cbn [xorb].
    rewrite <- (Z.mod_small x (2 ^ 32)) by exact Hx.
    apply Z.mod_pow2_bits_high. lia.
Qed.

(** The mask [0 - (neg & 1)] and what it does to a word. *)
Lemma lxor_mask o x :
  o = 0 \/ o = 1 -> 0 <= x < 2 ^ 32 ->
  Z.lxor (Word (0 - Word o)) x = o * (2 ^ 32 - 1) + (1 - 2 * o) * x.
Proof.
  intros [-> | ->] Hx.
  - change (Word (0 - Word 0)) with 0. rewrite Z.lxor_0_l. lia.
  - change (Word (0 - Word 1)) with (2 ^ 32 - 1). rewrite lxor_ones by exact Hx. lia.
Qed.

Lemma land_mask_37 o :
  o = 0 \/ o = 1 -> Z.land (Word (0 - Word o)) (Z.shiftl CONSTC 1 - 1) = 37 * o.
Proof. intros [-> | ->]; reflexivity. Qed.

Lemma mod2_cases x : x mod 2 = 0 \/ x mod 2 = 1.
Proof. pose proof (Z.mod_pos_bound x 2 ltac:(lia)). lia. Qed.

(** With [o] the lowest bit of [neg] and [s] the biased top word,
    [gfp_cneg] returns [(1 - 2 o) a + (2 + 2 o - s / 2^31) p]. *)
Lemma gfp_cneg_spec r a neg :
  length r = LEN -> felem a ->
  felem (gfp_cneg r a neg) /\
  0 <= value (gfp_cneg r a neg) <= 2 * p - 1 /\
  exists h, value (gfp_cneg r a neg) = (1 - 2 * (neg mod 2)) * value a + h * p.
Proof.
  intros Hr [Hla Ha]. assert (H8 : LEN = 8%nat) by reflexivity.
  unfold gfp_cneg. rewrite H8. change (8 - 1)%nat with 7%nat.
  rewrite land_1. pose proof (mod2_cases neg) as Ho.
  set (o := neg mod 2) in *.
  pose proof (words_nth a 7 Ha) as Ha7.
  rewrite (lxor_mask o a.[7%nat] Ho Ha7), (land_mask_37 o Ho).
  change (SDWord MIN4MASK) with (2 ^ 32 - 4).
  rewrite (SDWord_small (2 ^ 32 - 4 + _)) by (destruct Ho as [E|E]; rewrite E; lia).
  set (s := 2 ^ 32 - 4 + (o * (2 ^ 32 - 1) + (1 - 2 * o) * a.[7%nat])) in *.
  assert (Hsr : 2 ^ 32 - 4 <= s <= 2 ^ 33 - 5)
    by (unfold s; destruct Ho as [E|E]; rewrite E; lia).
  rewrite land_MSB0, shiftr_31.
  assert (Hh : 1 <= s / 2 ^ 31 <= 3) by (apply div31_bounds; lia).
  pose proof (Z.mod_pos_bound s (2 ^ 31) ltac:(lia)) as Hm.
  pose proof (split_31 s) as Hs.
  rewrite (Word_small (s / 2 ^ 31)) by lia.
  change (SDWord CONSTC) with 19. change (Z.shiftl CONSTC 1) with 38.
  rewrite (SDWord_small (19 * _)) by lia.
  rewrite (SDWord_small (19 * _ - 38)) by lia.
  rewrite (SDWord_small (19 * _ - 38 - _)) by lia.
  match goal with |- context [for_up 7 0 ?body ?s0] =>
    pose proof (for_up_ind
      (fun i (st : list Z * Z) =>
         length (fst st) = length r /\ words (firstn i (fst st)) /\
         -56 <= snd st <= 19 /\ ((1 <= i)%nat -> -1 <= snd st <= 1) /\
         value (firstn i (fst st)) + snd st * pw i =
           19 * (s / 2 ^ 31) - 38 - 37 * o
           + o * (pw i - 1) + (1 - 2 * o) * value (firstn i a))
      body 7 0%nat s0) as H;
    destruct (for_up 7 0 body s0) as [r' sum]
  end.
  cbn [fst snd] in H. rewrite Nat.add_0_l in H.
  destruct H as (I1 & I2 & I3 & I3' & I4).
  - cbn [firstn value]. rewrite pw_0.
    repeat split; try constructor; destruct Ho as [E|E]; rewrite E; lia.
  - intros k [rk sk] Hk (I1 & I2 & I3 & I3' & I4). cbn [fst snd] in *.
    pose proof (words_nth a k Ha) as Hak.
    rewrite (lxor_mask o a.[k] Ho Hak).
    rewrite (SDWord_small (o * _ + _)) by (destruct Ho as [E|E]; rewrite E; lia).
    rewrite SDWord_small by (destruct Ho as [E|E]; rewrite E; lia).
    rewrite shiftr_WSIZE.
    set (X := sk + (o * (2 ^ 32 - 1) + (1 - 2 * o) * a.[k])) in *.
    pose proof (carry_step X k) as HC.
    pose proof (Z.mod_pos_bound X (2 ^ 32) ltac:(lia)) as HM.
    assert (HQ : -1 <= X / 2 ^ 32 <= 1)
      by (apply div_bounds; unfold X; destruct Ho as [E|E]; rewrite E; lia).
    split; [rewrite length_upd; exact I1|].
    split; [apply words_firstn_S_upd; try lia; auto; unfold Word, WSIZE; exact HM|].
    split; [lia|]. split; [intros _; exact HQ|].
    rewrite value_firstn_S_upd by lia. rewrite !value_firstn_S.
    unfold Word, WSIZE. rewrite pw_S in *.
    assert (HX' : X * pw k =
                  sk * pw k + o * (2 ^ 32 - 1) * pw k + (1 - 2 * o) * a.[k] * pw k)
      by (unfold X; ring).
    clear HM HQ Hs Hsr. clearbody X s.
    generalize dependent (X mod 2 ^ 32). generalize dependent (X / 2 ^ 32).
    intros; destruct Ho as [E|E]; rewrite E in *; lia.
  - specialize (I3' ltac:(lia)).
    rewrite Word_add_r, Word_add_l.
    rewrite (Word_small (_ + sum + 4)) by lia.
    destruct (felem_upd_top r' (s mod 2 ^ 31 + sum + 4)) as [F V]; try lia; auto.
    split; [exact F|]. rewrite V.
    rewrite (value_LEN a Hla).
    pose proof (value_range _ I2) as R7.
    rewrite length_firstn, Nat.min_l in R7 by lia.
    pose proof (value_range _ (words_firstn 7 a Ha)) as RA.
    rewrite length_firstn, Nat.min_l in RA by lia.
    rewrite pw_7, p_val in *.
    remember (s / 2 ^ 31) as q eqn:Eq. remember (s mod 2 ^ 31) as m eqn:Em.
    clear Eq Em. subst s.
    split.
    + destruct Ho as [E|E]; rewrite E in *; lia.
    + exists (2 + 2 * o - q). destruct Ho as [E|E]; rewrite E in *; lia.
Qed.

(** X16. For every [a] in [[0, 2^256 - 1]], [gfp_cneg(r, a, neg)] writes
    eight words whose value lies in [[0, 2p - 1]] and is congruent modulo [p]
    to [-a] when [neg] is odd and to [a] when [neg] is even: only the lowest
    bit of [neg] counts. *)
Theorem X16_gfp_cneg_correct (r a : list Z) (neg : Z) :
  length r = LEN -> felem a ->
  felem (gfp_cneg r a neg) /\
  0 <= value (gfp_cneg r a neg) <= 2 * p - 1 /\
  (Z.odd neg = true -> value (gfp_cneg r a neg) mod p = (- value a) mod p) /\
  (Z.even neg = true -> value (gfp_cneg r a neg) mod p = value a mod p).
Proof.
  intros Hr Ha. destruct (gfp_cneg_spec r a neg Hr Ha) as (F & R & h & V).
  refine (conj F (conj R (conj _ _))); intros Hp.
  - rewrite Zmod_odd, Hp in V. apply (cong_sub_mul _ _ (- h)). rewrite V. ring.
  - rewrite Zmod_even, Hp in V. apply (cong_sub_mul _ _ (- h)). rewrite V. ring.
Qed.

Lemma X16_gfp_cneg_correct_witness :
  length buf_sevens = LEN /\ felem fe_max /\
  (felem (gfp_cneg buf_sevens fe_max 3) /\
   0 <= value (gfp_cneg buf_sevens fe_max 3) <= 2 * p - 1 /\
   (Z.odd 3 = true -> value (gfp_cneg buf_sevens fe_max 3) mod p = (- value fe_max) mod p) /\
   (Z.even 3 = true -> value (gfp_cneg buf_sevens fe_max 3) mod p = value fe_max mod p)).
Proof.
  assert (H1 : length buf_sevens = LEN) by reflexivity.
  assert (H2 : felem fe_max) by (apply felemb_felem; reflexivity).
  exact (conj H1 (conj H2 (X16_gfp_cneg_correct buf_sevens fe_max 3 H1 H2))).
Defined.

(** ** gfp_cneg_v2 *)

Lemma DWord_add_l x y : DWord (DWord x + y) = DWord (x + y).
Proof. unfold DWord. apply Zplus_mod_idemp_l. Qed.

Lemma gfp_cneg_v2_spec r a neg :
  length r = LEN -> felem a ->
  felem (gfp_cneg_v2 r a neg) /\
  0 <= value (gfp_cneg_v2 r a neg) <= 2 * p - 1 /\
  exists h, value (gfp_cneg_v2 r a neg) = (1 - 2 * (neg mod 2)) * value a + h * p.
Proof.
  intros Hr [Hla Ha]. assert (H8 : LEN = 8%nat) by reflexivity.
  unfold gfp_cneg_v2. rewrite H8. change (8 - 1 - 1)%nat with 6%nat.
  change (8 - 1)%nat with 7%nat.
  rewrite land_1. pose proof (mod2_cases neg) as Ho.
  set (o := neg mod 2) in *.
  pose proof (words_nth a 7 Ha) as Ha7. pose proof (words_nth a 0 Ha) as Ha0.
  rewrite (lxor_mask o a.[7%nat] Ho Ha7), (lxor_mask o a.[0%nat] Ho Ha0),
    (land_mask_37 o Ho).
  change (DWord (Z.shiftr FOURXPHI 1)) with (2 ^ 32 - 2).
  change (DWord (Z.shiftr FOURXPLO 1)) with (2 ^ 33 - 38).
  change (DWord (Z.shiftr FOURXPMI 1)) with (2 ^ 33 - 2).
  rewrite (DWord_small (2 ^ 32 - 2 + _)) by (destruct Ho as [E|E]; rewrite E; lia).
  set (s := 2 ^ 32 - 2 + (o * (2 ^ 32 - 1) + (1 - 2 * o) * a.[7%nat])) in *.
  assert (Hsr : 2 ^ 32 - 2 <= s <= 2 ^ 33 - 3)
    by (unfold s; destruct Ho as [E|E]; rewrite E; lia).
  rewrite land_MSB0, shiftr_31.
  assert (Hh : 1 <= s / 2 ^ 31 <= 3) by (apply div31_bounds; lia).
  pose proof (Z.mod_pos_bound s (2 ^ 31) ltac:(lia)) as Hm.
  pose proof (split_31 s) as Hs.
  assert (Es : s = 2 ^ 32 - 2 + (o * (2 ^ 32 - 1) + (1 - 2 * o) * a.[7%nat]))
    by reflexivity.
  clearbody s.
  rewrite (Word_small (s / 2 ^ 31)) by lia.
  change (DWord CONSTC) with 19.
  rewrite (DWord_small (19 * _)) by lia.
  rewrite (DWord_small (2 ^ 33 - 38 + _)) by (destruct Ho as [E|E]; rewrite E; lia).
  rewrite DWord_add_l.
  rewrite (DWord_small (19 * _ - _ + _)) by (destruct Ho as [E|E]; rewrite E; lia).
  rewrite shiftr_WSIZE.
  set (Y := 19 * (s / 2 ^ 31) - 37 * o
            + (2 ^ 33 - 38 + (o * (2 ^ 32 - 1) + (1 - 2 * o) * a.[0%nat]))) in *.
  pose proof (carry_step Y 0) as HC0.
  pose proof (Z.mod_pos_bound Y (2 ^ 32) ltac:(lia)) as HM0.
  assert (HQ0 : 1 <= Y / 2 ^ 32 <= 3)
    by (apply div_bounds; unfold Y; destruct Ho as [E|E]; rewrite E; lia).
  match goal with |- context [for_up 6 1 ?body ?s0] =>
    pose proof (for_up_ind
      (fun i (st : list Z * Z) =>
         length (fst st) = length r /\ words (firstn i (fst st)) /\
         1 <= snd st <= 3 /\
         value (firstn i (fst st)) + (snd st - 2) * pw i =
           19 * (s / 2 ^ 31) - 37 * o - 38
           + o * (pw i - 1) + (1 - 2 * o) * value (firstn i a))
      body 6 1%nat s0) as H;
    destruct (for_up 6 1 body s0) as [r' sum]
  end.
  cbn [fst snd] in H. change (1 + 6)%nat with 7%nat in H.
  destruct H as (I1 & I2 & I3 & I4).
  - split; [apply length_upd|].
    split; [apply words_firstn_S_upd;
            [lia|apply Forall_nil|unfold Word, WSIZE; exact HM0]|].
    split; [exact HQ0|].
    rewrite value_firstn_S_upd by lia. rewrite !value_firstn_S.
    cbn [firstn value]. unfold Word, WSIZE. rewrite pw_S, pw_0 in *.
    assert (HY : Y * 1 = 19 * (s / 2 ^ 31) - 37 * o + 2 ^ 33 - 38
                         + o * (2 ^ 32 - 1) + (1 - 2 * o) * a.[0%nat])
      by (unfold Y; ring).
    clear HM0 HQ0 Hs Hsr Es. clearbody Y.
    generalize dependent (Y mod 2 ^ 32). generalize dependent (Y / 2 ^ 32).
    intros; destruct Ho as [E|E]; rewrite E in *; lia.
  - intros k [rk sk] Hk (I1 & I2 & I3 & I4). cbn [fst snd] in *.
    pose proof (words_nth a k Ha) as Hak.
    rewrite (lxor_mask o a.[k] Ho Hak).
    rewrite (DWord_small (2 ^ 33 - 2 + _)) by (destruct Ho as [E|E]; rewrite E; lia).
    rewrite DWord_small by (destruct Ho as [E|E]; rewrite E; lia).
    rewrite shiftr_WSIZE.
    set (X := sk + (2 ^ 33 - 2 + (o * (2 ^ 32 - 1) + (1 - 2 * o) * a.[k]))) in *.
    pose proof (carry_step X k) as HC.
    pose proof (Z.mod_pos_bound X (2 ^ 32) ltac:(lia)) as HM.
    assert (HQ : 1 <= X / 2 ^ 32 <= 3)
      by (apply div_bounds; unfold X; destruct Ho as [E|E]; rewrite E; lia).
    split; [rewrite length_upd; exact I1|].
    split; [apply words_firstn_S_upd; try lia; auto; unfold Word, WSIZE; exact HM|].
    split; [exact HQ|].
    rewrite value_firstn_S_upd by lia. rewrite !value_firstn_S.
    unfold Word, WSIZE. rewrite pw_S in *.
    assert (HX' : X * pw k =
                  sk * pw k + (2 ^ 33 - 2) * pw k + o * (2 ^ 32 - 1) * pw k
                  + (1 - 2 * o) * a.[k] * pw k)
      by (unfold X; ring).
    clear HM HQ HC0 HM0 HQ0 Hs Hsr Es. clearbody X Y.
    generalize dependent (X mod 2 ^ 32). generalize dependent (X / 2 ^ 32).
    intros; destruct Ho as [E|E]; rewrite E in *; lia.
  - rewrite (Word_small sum) by lia.
    rewrite (Word_small (_ + sum)) by lia.
    destruct (felem_upd_top r' (s mod 2 ^ 31 + sum)) as [F V]; try lia; auto.
    split; [exact F|]. rewrite V.
    rewrite (value_LEN a Hla).
    pose proof (value_range _ I2) as R7.
    rewrite length_firstn, Nat.min_l in R7 by lia.
    pose proof (value_range _ (words_firstn 7 a Ha)) as RA.
    rewrite length_firstn, Nat.min_l in RA by lia.
    rewrite pw_7, p_val in *.
    remember (s / 2 ^ 31) as q eqn:Eq. remember (s mod 2 ^ 31) as m eqn:Em.
    clear Eq Em HC0 HM0 HQ0. clearbody Y.
    split.
    + destruct Ho as [E|E]; rewrite E in *; lia.
    + exists (2 + 2 * o - q). destruct Ho as [E|E]; rewrite E in *; lia.
Qed.

Lemma gfp_fred_cong t x y :
  length t = LEN -> felem x -> felem y -> value x mod p = value y mod p ->
  gfp_fred t x = gfp_fred t y.
Proof.
  intros Ht Hx Hy H.
  destruct (gfp_fred_value t x Ht Hx) as [[L1 W1] V1].
  destruct (gfp_fred_value t y Ht Hy) as [[L2 W2] V2].
  apply value_inj; [exact W1|exact W2|congruence|congruence].
Qed.

(** X17. The alternative [gfp_cneg_v2] of the comment block also writes a
    value in [[0, 2p - 1]] that is congruent modulo [p] to the value written
    by [gfp_cneg], so both results have the same full reduction; but the
    words themselves can differ: for [a = 2 * 2^224] and [neg = 0],
    [gfp_cneg] writes [a + p] and [gfp_cneg_v2] writes [a]. *)
Theorem X17_gfp_cneg_v2_congruent_not_identical (r t a : list Z) (neg : Z) :
  length r = LEN -> length t = LEN -> felem a ->
  felem (gfp_cneg_v2 r a neg) /\
  0 <= value (gfp_cneg_v2 r a neg) <= 2 * p - 1 /\
  value (gfp_cneg_v2 r a neg) mod p = value (gfp_cneg r a neg) mod p /\
  gfp_fred t (gfp_cneg_v2 r a neg) = gfp_fred t (gfp_cneg r a neg) /\
  value (gfp_cneg r fe_top2 0) = value fe_top2 + p /\
  value (gfp_cneg_v2 r fe_top2 0) = value fe_top2.
Proof.
  intros Hr Ht Ha.
  destruct (gfp_cneg_v2_spec r a neg Hr Ha) as (F2 & R2 & h2 & V2).
  destruct (gfp_cneg_spec r a neg Hr Ha) as (F1 & R1 & h1 & V1).
  assert (C : value (gfp_cneg_v2 r a neg) mod p = value (gfp_cneg r a neg) mod p).
  { apply (cong_sub_mul _ _ (h1 - h2)). rewrite V1, V2. ring. }
  refine (conj F2 (conj R2 (conj C (conj _ _)))).
  - apply gfp_fred_cong; assumption.
  - destruct (length_8 r Hr) as (w0 & w1 & w2 & w3 & w4 & w5 & w6 & w7 & ->).
    split; vm_compute; reflexivity.
Qed.

Lemma X17_gfp_cneg_v2_congruent_not_identical_witness :
  length buf_sevens = LEN /\ length fe_zero = LEN /\ felem fe_max /\
  (felem (gfp_cneg_v2 buf_sevens fe_max 1) /\
   0 <= value (gfp_cneg_v2 buf_sevens fe_max 1) <= 2 * p - 1 /\
   value (gfp_cneg_v2 buf_sevens fe_max 1) mod p
     = value (gfp_cneg buf_sevens fe_max 1) mod p /\
   gfp_fred fe_zero (gfp_cneg_v2 buf_sevens fe_max 1)
     = gfp_fred fe_zero (gfp_cneg buf_sevens fe_max 1) /\
   value (gfp_cneg buf_sevens fe_top2 0) = value fe_top2 + p /\
   value (gfp_cneg_v2 buf_sevens fe_top2 0) = value fe_top2).
Proof.
  assert (H1 : length buf_sevens = LEN) by reflexivity.
  assert (H2 : length fe_zero = LEN) by reflexivity.
  assert (H3 : felem fe_max) by (apply felemb_felem; reflexivity).
  exact (conj H1 (conj H2 (conj H3
           (X17_gfp_cneg_v2_congruent_not_identical buf_sevens fe_zero fe_max 1 H1 H2 H3)))).
Defined.

(** ** gfp_hlv_v2 *)

Lemma gfp_hlv_v2_spec r a :
  length r = LEN -> felem a ->
  felem (gfp_hlv_v2 r a) /\
  2 * value (gfp_hlv_v2 r a) = value a + (value a mod 2) * p.
Proof.
  intros Hr [Hla Ha]. assert (H8 : LEN = 8%nat) by reflexivity.
  unfold gfp_hlv_v2. rewrite H8. change (8 - 1 - 1)%nat with 6%nat.
  change (8 - 1)%nat with 7%nat. change (8 - 2)%nat with 6%nat.
  rewrite value_mod2.
  pose proof (words_nth a 7 Ha) as Ha7. pose proof (words_nth a 0 Ha) as Ha0.
  rewrite land_1.
  pose proof (Z.mod_pos_bound a.[0%nat] 2 ltac:(lia)) as Ho.
  pose proof (Z.div_mod a.[0%nat] 2 ltac:(lia)) as Hdm.
  set (o := a.[0%nat] mod 2) in *.
  assert (Hc : Z.land (Word (0 - CONSTC)) (Word (0 - o)) = (2 ^ 32 - 19) * o).
  { assert (o = 0 \/ o = 1) as [-> | ->] by lia; reflexivity. }
  assert (Hmsb : Z.land MSB0MASK (Word (0 - o)) = (2 ^ 31 - 1) * o).
  { assert (o = 0 \/ o = 1) as [-> | ->] by lia; reflexivity. }
  assert (Hmask : Word (0 - o) = (2 ^ 32 - 1) * o).
  { assert (o = 0 \/ o = 1) as [-> | ->] by lia; reflexivity. }
  rewrite Hc, Hmsb, Hmask.
  rewrite (DWord_small a.[0%nat]) by lia.
  rewrite (DWord_small (a.[0%nat] + _)) by lia.
  rewrite (DWord_small a.[7%nat]) by lia.
  rewrite (DWord_small (a.[7%nat] + _)) by lia.
  rewrite shiftr_WSIZE.
  set (X0 := a.[0%nat] + (2 ^ 32 - 19) * o) in *.
  pose proof (Z.div_mod X0 (2 ^ 32) ltac:(lia)) as HX0.
  pose proof (Z.mod_pos_bound X0 (2 ^ 32) ltac:(lia)) as HM0.
  assert (HQ0 : 0 <= X0 / 2 ^ 32 <= 1) by (apply div_bounds; unfold X0; lia).
  assert (Hev : (X0 mod 2 ^ 32) mod 2 = 0).
  { rewrite Z.mod_mod_divide by (exists (2 ^ 31); reflexivity).
    unfold X0. rewrite Hdm.
    replace (2 * (a.[0%nat] / 2) + o + (2 ^ 32 - 19) * o)
      with (0 + (a.[0%nat] / 2 + (2 ^ 31 - 9) * o) * 2) by lia.
    rewrite Z.mod_add by lia. reflexivity. }
  match goal with |- context [for_up 6 1 ?body ?s0] =>
    pose proof (for_up_ind
      (fun i (st : list Z * Z * Z) =>
         length (fst (fst st)) = length r /\
         words (firstn (i - 1) (fst (fst st))) /\
         0 <= snd (fst st) < 2 ^ 32 /\
         0 <= snd st <= 1 /\
         2 * value (firstn (i - 1) (fst (fst st)))
           + (snd (fst st) - snd (fst st) mod 2) * pw (i - 1) + snd st * pw i =
           value (firstn i a) + o * (pw i - 19))
      body 6 1%nat s0) as H;
    destruct (for_up 6 1 body s0) as [[r' tmp] sum]
  end.
  cbn [fst snd] in H. change (1 + 6)%nat with 7%nat in H.
  change (7 - 1)%nat with 6%nat in H.
  destruct H as (I1 & I2 & I3 & I4 & I5).
  - change (1 - 1)%nat with 0%nat. rewrite (value_firstn_S a 0).
    cbn [firstn value fst snd]. rewrite pw_S, pw_0.
    unfold Word, WSIZE. rewrite Hev.
    split; [reflexivity|]. split; [constructor|]. split; [exact HM0|].
    split; [exact HQ0|].
    fold X0. assert (HX0' : X0 = a.[0%nat] + (2 ^ 32 - 19) * o) by reflexivity.
    clear Hev HM0 HQ0. clearbody X0.
    generalize dependent (X0 mod 2 ^ 32). generalize dependent (X0 / 2 ^ 32).
    intros; lia.
  - intros k [[rk tk] sk] Hk (I1 & I2 & I3 & I4 & I5). cbn [fst snd] in *.
    pose proof (words_nth a k Ha) as Hak.
    rewrite (DWord_small a.[k]) by lia.
    rewrite (DWord_small (a.[k] + _)) by lia.
    rewrite DWord_small by lia.
    rewrite shiftr_WSIZE.
    rewrite shift_in by exact I3.
    set (X := sk + (a.[k] + (2 ^ 32 - 1) * o)) in *.
    pose proof (Z.div_mod X (2 ^ 32) ltac:(lia)) as HX.
    pose proof (Z.mod_pos_bound X (2 ^ 32) ltac:(lia)) as HM.
    assert (HQ : 0 <= X / 2 ^ 32 <= 1) by (apply div_bounds; unfold X; lia).
    pose proof (Z.mod_pos_bound X 2 ltac:(lia)) as HX2.
    pose proof (Z.div_mod tk 2 ltac:(lia)) as Htk.
    pose proof (Z.mod_pos_bound tk 2 ltac:(lia)) as Htk2.
    assert (HW2 : Word X mod 2 = X mod 2).
    { unfold Word, WSIZE. apply Z.mod_mod_divide. exists (2 ^ 31); reflexivity. }
    destruct k as [|k]; [lia|].
    replace (S (S k) - 1)%nat with (S k) by lia.
    replace (S k - 1)%nat with k in * by lia.
    split; [rewrite length_upd; exact I1|].
    split; [apply words_firstn_S_upd; try lia; auto|].
    split; [apply Word_range|].
    split; [exact HQ|].
    rewrite value_firstn_S_upd by lia. rewrite (value_firstn_S a (S k)).
    rewrite HW2. unfold Word, WSIZE. rewrite !pw_S in *.
    assert (HX' : X * pw k = sk * pw k + a.[S k] * pw k + (2 ^ 32 - 1) * o * pw k)
      by (unfold X; ring).
    clear HM HQ HW2 HX0 HM0 HQ0 Hev. clearbody X.
    generalize dependent (X mod 2 ^ 32). generalize dependent (X / 2 ^ 32).
    generalize dependent (X mod 2). generalize dependent (tk mod 2).
    generalize dependent (tk / 2).
    intros; nia.
  - rewrite shift_in by exact I3.
    rewrite DWord_small by lia.
    set (X := sum + (a.[7%nat] + (2 ^ 31 - 1) * o)) in *.
    assert (HXr : 0 <= X < 2 ^ 33) by (unfold X; lia).
    rewrite shiftr_1.
    pose proof (Z.div_mod X 2 ltac:(lia)) as HX.
    pose proof (Z.mod_pos_bound X 2 ltac:(lia)) as HX2.
    pose proof (Z.div_mod tmp 2 ltac:(lia)) as Htk.
    pose proof (Z.mod_pos_bound tmp 2 ltac:(lia)) as Htk2.
    rewrite (Word_small (X / 2)) by lia.
    assert (L6 : length (upd r' 6 (X mod 2 * 2 ^ 31 + tmp / 2)) = LEN)
      by (rewrite length_upd; lia).
    assert (W6 : words (firstn 7 (upd r' 6 (X mod 2 * 2 ^ 31 + tmp / 2))))
      by (apply words_firstn_S_upd; try lia; auto).
    destruct (felem_upd_top _ (X / 2) L6 W6 ltac:(lia)) as [F V].
    split; [exact F|]. rewrite V.
    rewrite value_firstn_S_upd by lia.
    rewrite (value_LEN a Hla).
    change (pw 6) with (2 ^ 192) in *. rewrite pw_7, p_val in *.
    assert (HX' : X = sum + a.[7%nat] + (2 ^ 31 - 1) * o) by (unfold X; ring).
    clear HX0 HM0 HQ0 Hev W6 V. clearbody X.
    generalize dependent (X mod 2). generalize dependent (X / 2).
    generalize dependent (tmp mod 2). generalize dependent (tmp / 2).
    intros; lia.
Qed.

(** X18. For every [a] in [[0, 2^256 - 1]] the alternative [gfp_hlv_v2] of
    the comment block (unsigned accumulator, the words of [p] added under a
    mask) writes the same eight words as [gfp_hlv]. *)
Theorem X18_gfp_hlv_v2_identical (r a : list Z) :
  length r = LEN -> felem a -> gfp_hlv_v2 r a = gfp_hlv r a.
Proof.
  intros Hr Ha.
  destruct (gfp_hlv_v2_spec r a Hr Ha) as [[L2 W2] V2].
  destruct (gfp_hlv_spec r a Hr Ha) as [[L1 W1] V1].
  apply value_inj; [exact W2|exact W1|congruence|lia].
Qed.

Lemma X18_gfp_hlv_v2_identical_witness :
  length buf_sevens = LEN /\ felem fe_max /\
  gfp_hlv_v2 buf_sevens fe_max = gfp_hlv buf_sevens fe_max.
Proof.
  assert (H1 : length buf_sevens = LEN) by reflexivity.
  assert (H2 : felem fe_max) by (apply felemb_felem; reflexivity).
  exact (conj H1 (conj H2 (X18_gfp_hlv_v2_identical buf_sevens fe_max H1 H2))).
Defined.

(** ** Hex-strings *)

(** A loop whose condition holds at each of its [n] iterations. *)
Lemma while_upto_ind {St : Type} (cond : St -> bool) (body : St -> St) n :
  forall (P : nat -> St -> Prop) s,
    P O s ->
    (forall k s, (k < n)%nat -> P k s -> cond s = true /\ P (S k) (body s)) ->
    P n (while_upto n cond body s).
Proof.
  induction n as [|n IH]; intros P s H0 Hstep; cbn [while_upto]; [exact H0|].
  destruct (Hstep O s ltac:(lia) H0) as [Hc H1]. rewrite Hc.
  apply (IH (fun k => P (S k))); [exact H1|].
  intros k s' Hk Hs. apply Hstep; [lia|exact Hs].
Qed.

Lemma strlen_spec s n :
  (n < length s)%nat -> (forall j, (j < n)%nat -> s.[j] <> 0) -> s.[n] = 0 ->
  strlen s = n.
Proof.
  revert n; induction s as [|c t IH]; intros n Hn Hnz Hz; cbn in Hn; [lia|].
  cbn [strlen]. destruct n as [|n].
  - cbn in Hz. rewrite Hz. reflexivity.
  - pose proof (Hnz O ltac:(lia)) as H0. cbn in H0.
    destruct (Z.eqb_spec c 0) as [E|_]; [contradiction|].
    f_equal. apply IH; [lia| |exact Hz].
    intros j Hj. apply (Hnz (S j)). lia.
Qed.

Lemma nibble_range w j : 0 <= nibble w j < 16.
Proof. unfold nibble. apply Z.mod_pos_bound. lia. Qed.

Lemma hexchar_range c : 0 <= c < 16 -> 48 <= hexchar c <= 70.
Proof. intros H. unfold hexchar. destruct (Z.ltb_spec c 10); lia. Qed.

Lemma land_UChar_15 w : Z.land (UChar w) 15 = w mod 16.
Proof.
  unfold UChar. change 15 with (Z.ones 4). rewrite Z.land_ones by lia.
  change (2 ^ 8) with (2 ^ 4 * 2 ^ 4). change (2 ^ 4) with 16.
  rewrite Z.rem_mul_r by lia.
  rewrite (Z.mul_comm 16), Z.mod_add by lia. apply Z.mod_mod. lia.
Qed.

Lemma div_pow16_S w j :
  w / 16 ^ Z.of_nat (S j) = w / 16 ^ Z.of_nat j / 16.
Proof.
  rewrite Nat2Z.inj_succ, Z.pow_succ_r by lia.
  rewrite Z.mul_comm, Z.div_div by lia. reflexivity.
Qed.

(** The eight characters that one iteration of [mpi_to_hex] writes. *)
Lemma to_hex_inner (H : list Z) (w : Z) (hlen : nat) :
  (8 <= hlen < length H)%nat ->
  let s := for_up (2 * sizeof_Word) 0
             (fun j '(hexstr, w) =>
                let c := Z.land (UChar w) 15 in
                let hexstr := upd hexstr (hlen - j) (c + (if c <? 10 then 48 else 55)) in
                let w := Z.shiftr w 4 in
                (hexstr, w))
             (H, w) in
  length (fst s) = length H /\
  (forall j, (j < 8)%nat -> (fst s).[(hlen - j)%nat] = hexchar (nibble w j)) /\
  (forall k, (k + 8 <= hlen \/ hlen < k)%nat -> (fst s).[k] = H.[k]).
Proof.
  intros Hh s.
  assert (G : length (fst s) = length H /\ snd s = w / 16 ^ Z.of_nat 8 /\
              (forall j, (j < 8)%nat -> (fst s).[(hlen - j)%nat] = hexchar (nibble w j)) /\
              (forall k, (k + 8 <= hlen \/ hlen < k)%nat -> (fst s).[k] = H.[k])).
  { subst s. change (2 * sizeof_Word)%nat with 8%nat.
    match goal with |- context [for_up 8 0 ?b ?s0] =>
      refine (for_up_ind
        (fun j s => length (fst s) = length H /\ snd s = w / 16 ^ Z.of_nat j /\
           (forall j', (j' < j)%nat -> (fst s).[(hlen - j')%nat] = hexchar (nibble w j')) /\
           (forall k, (k + j <= hlen \/ hlen < k)%nat -> (fst s).[k] = H.[k]))
        b 8 0%nat s0 _ _)
    end.
    - cbn [fst snd]. repeat split; auto.
      + change (16 ^ Z.of_nat 0) with 1. rewrite Z.div_1_r. reflexivity.
      + intros j' Hj'. lia.
    - intros k [H' w'] Hk (I1 & I2 & I3 & I4). cbn [fst snd] in *.
      cbv beta iota zeta. cbn [fst snd].
      rewrite length_upd. split; [exact I1|]. split.
      + rewrite Z.shiftr_div_pow2 by lia. rewrite div_pow16_S, I2. reflexivity.
      + split.
        * intros j' Hj'. destruct (Nat.eq_dec j' k) as [->|Hne].
          -- rewrite nth_upd_eq by lia. rewrite land_UChar_15, I2. reflexivity.
          -- rewrite nth_upd_neq by lia. apply I3. lia.
        * intros k' Hk'. rewrite nth_upd_neq by lia. apply I4. lia. }
  destruct G as (G1 & _ & G3 & G4). auto.
Qed.

(** The buffer after [mpi_to_hex]. *)
Lemma mpi_to_hex_spec hexstr a len :
  (8 * len + 3 <= length hexstr)%nat ->
  let H := mpi_to_hex hexstr a len in
  length H = length hexstr /\
  H.[0%nat] = 48 /\ H.[1%nat] = 120 /\ H.[(8 * len + 2)%nat] = 0 /\
  (forall i j, (i < len)%nat -> (j < 8)%nat ->
     H.[(1 + 8 * (len - i) - j)%nat] = hexchar (nibble a.[i] j)) /\
  (forall k, (8 * len + 2 < k)%nat -> H.[k] = hexstr.[k]).
Proof.
  intros HL H. subst H. unfold mpi_to_hex.
  change (2 * sizeof_Word)%nat with 8%nat.
  set (H0 := upd (upd (upd hexstr 0 48) 1 120) (1 + len * 8 + 1) 0).
  assert (L0 : length H0 = length hexstr) by (unfold H0; rewrite !length_upd; reflexivity).
  assert (A0 : H0.[0%nat] = 48).
  { unfold H0. rewrite !nth_upd_neq by lia. apply nth_upd_eq. lia. }
  assert (A1 : H0.[1%nat] = 120).
  { unfold H0. rewrite nth_upd_neq by lia. apply nth_upd_eq. rewrite length_upd. lia. }
  assert (A2 : H0.[(8 * len + 2)%nat] = 0).
  { unfold H0. replace (1 + len * 8 + 1)%nat with (8 * len + 2)%nat by lia.
    apply nth_upd_eq. rewrite !length_upd. lia. }
  assert (A3 : forall k, (8 * len + 2 < k)%nat -> H0.[k] = hexstr.[k]).
  { intros k Hk. unfold H0. rewrite !nth_upd_neq by lia. reflexivity. }
  match goal with |- context [while_upto len ?c ?b ?s0] =>
    pose proof (while_upto_ind c b len
      (fun k s => snd (fst s) = (1 + 8 * (len - k))%nat /\ snd s = k /\
         length (fst (fst s)) = length hexstr /\
         (forall i j, (i < k)%nat -> (j < 8)%nat ->
            (fst (fst s)).[(1 + 8 * (len - i) - j)%nat] = hexchar (nibble a.[i] j)) /\
         (forall k', (k' < 2 + 8 * (len - k) \/ 8 * len + 1 < k')%nat ->
            (fst (fst s)).[k'] = H0.[k']))
      s0) as W;
    destruct (while_upto len c b s0) as [[H hl] i]
  end.
  cbn [fst snd] in W.
  destruct W as (W1 & W2 & W3 & W4 & W5).
  - repeat split; auto; try lia; intros; lia.
  - intros k [[H' hl'] i'] Hk (I1 & I2 & I3 & I4 & I5). cbn [fst snd] in *.
    subst hl' i'. split.
    + apply andb_true_iff. split; [apply Nat.leb_le|apply Nat.ltb_lt]; lia.
    + cbv beta iota.
      pose proof (to_hex_inner H' a.[k] (1 + 8 * (len - k)) ltac:(lia)) as T.
      change (2 * sizeof_Word)%nat with 8%nat in T. cbv zeta in T.
      match type of T with context [for_up 8 0 ?b ?s0] =>
        match goal with |- context [for_up 8 0 ?b' ?s0'] =>
          change (for_up 8 0 b' s0') with (for_up 8 0 b s0)
        end;
        destruct (for_up 8 0 b s0) as [H'' w'']
      end.
      cbn [fst snd] in *. destruct T as (T1 & T2 & T3).
      repeat split; try lia.
      * intros i0 j Hi Hj. destruct (Nat.eq_dec i0 k) as [->|Hne].
        -- apply T2. exact Hj.
        -- rewrite T3 by lia. apply I4; lia.
      * intros k' Hk'. rewrite T3 by lia. apply I5. lia.
  - repeat split; auto.
    + rewrite W5 by lia. exact A0.
    + rewrite W5 by lia. exact A1.
    + rewrite W5 by lia. exact A2.
    + intros k Hk. rewrite W5 by lia. apply A3. exact Hk.
Qed.

(** In the string of [mpi_to_hex] the digit [j] of the word [i] is the
    character [8 * (len - i) + 1 - j]: the digits are in the reading order. *)
Lemma mpi_to_hex_char hexstr a len t :
  (8 * len + 3 <= length hexstr)%nat -> (t < 8 * len)%nat ->
  (mpi_to_hex hexstr a len).[(2 + t)%nat] =
  hexchar (nibble a.[(len - 1 - t / 8)%nat] (7 - t mod 8)).
Proof.
  intros HL Ht.
  destruct (mpi_to_hex_spec hexstr a len HL) as (_ & _ & _ & _ & S5 & _).
  pose proof (Nat.div_mod_eq t 8) as E.
  pose proof (Nat.mod_upper_bound t 8 ltac:(lia)) as B.
  assert (Q : (t / 8 < len)%nat) by (apply Nat.Div0.div_lt_upper_bound; lia).
  rewrite <- (S5 (len - 1 - t / 8)%nat (7 - t mod 8)%nat) by lia.
  f_equal. lia.
Qed.

Lemma mpi_to_hex_strlen hexstr a len :
  (8 * len + 3 <= length hexstr)%nat ->
  strlen (mpi_to_hex hexstr a len) = (8 * len + 2)%nat.
Proof.
  intros HL.
  destruct (mpi_to_hex_spec hexstr a len HL) as (S1 & S2 & S3 & S4 & S5 & _).
  apply strlen_spec; [lia| |exact S4].
  intros j Hj. destruct j as [|[|t]].
  - rewrite S2. lia.
  - rewrite S3. lia.
  - change (S (S t)) with (2 + t)%nat. rewrite mpi_to_hex_char by lia.
    pose proof (hexchar_range _ (nibble_range a.[(len - 1 - t / 8)%nat] (7 - t mod 8))).
    lia.
Qed.

(** [mpi_from_hex] decodes what [mpi_to_hex] writes for a digit. *)
Lemma decode_hexchar c :
  0 <= c < 16 ->
  UChar (if UChar (hexchar c) <=? 57 then UChar (hexchar c) - 48
         else Z.land (UChar (hexchar c)) 7 + 9) = c.
Proof.
  intros H.
  assert (c = 0 \/ c = 1 \/ c = 2 \/ c = 3 \/ c = 4 \/ c = 5 \/ c = 6 \/ c = 7 \/
          c = 8 \/ c = 9 \/ c = 10 \/ c = 11 \/ c = 12 \/ c = 13 \/ c = 14 \/ c = 15)
    as E by lia.
  repeat (destruct E as [->|E]; [reflexivity|]). subst c. reflexivity.
Qed.

Lemma shift_in_digit w c :
  0 <= w < 2 ^ 28 -> 0 <= c < 16 -> Z.lor (Word (Z.shiftl w 4)) c = 16 * w + c.
Proof.
  intros Hw Hc. rewrite Z.shiftl_mul_pow2 by lia.
  rewrite Word_small by lia. rewrite lor_shiftl_add by lia. lia.
Qed.

(** One word read back from its eight characters. *)
Lemma from_hex_inner (H : list Z) (w : Z) (hlen : nat) :
  (8 <= hlen)%nat -> 0 <= w < 2 ^ 32 ->
  (forall j, (j < 8)%nat -> H.[(hlen - 1 - j)%nat] = hexchar (nibble w j)) ->
  for_up 8 (hlen - 8)
    (fun j w =>
       let c := UChar H.[j] in
       let c := UChar (if c <=? 57 then c - 48 else Z.land c 7 + 9) in
       Z.lor (Word (Z.shiftl w 4)) c)
    0 = w.
Proof.
  intros Hh Hw HH.
  match goal with |- for_up 8 ?lo ?b ?s0 = _ =>
    pose proof (for_up_ind
      (fun k s => s = w / 16 ^ Z.of_nat (hlen - k)) b 8 lo s0) as F
  end.
  cbv beta in F. replace (hlen - 8 + 8)%nat with hlen in F by lia.
  rewrite F.
  - rewrite Nat.sub_diag. change (16 ^ Z.of_nat 0) with 1. apply Z.div_1_r.
  - replace (hlen - (hlen - 8))%nat with 8%nat by lia.
    change (16 ^ Z.of_nat 8) with (2 ^ 32). symmetry. apply Z.div_small. exact Hw.
  - intros k s Hk ->. cbv zeta.
    assert (HK : H.[k] = hexchar (nibble w (hlen - 1 - k))).
    { rewrite <- HH by lia. f_equal. lia. }
    rewrite HK, decode_hexchar by apply nibble_range.
    replace (hlen - k)%nat with (S (hlen - S k)) by lia.
    replace (hlen - 1 - k)%nat with (hlen - S k)%nat by lia.
    set (d := (hlen - S k)%nat). assert (Hd : (d < 8)%nat) by (unfold d; lia).
    rewrite shift_in_digit.
    + unfold nibble. rewrite div_pow16_S.
      pose proof (Z.div_mod (w / 16 ^ Z.of_nat d) 16 ltac:(lia)). lia.
    + rewrite div_pow16_S. split.
      * apply Z.div_pos; [apply Z.div_pos|]; lia.
      * apply Z.div_lt_upper_bound; [lia|].
        apply Z.le_lt_trans with w; [|lia].
        apply Z.div_le_upper_bound; [lia|]. 
        assert (1 <= 16 ^ Z.of_nat d) by (apply (Z.pow_le_mono_r 16 0); lia). nia.
    + apply nibble_range.
Qed.

Lemma mpi_from_hex_to_hex r hexstr a len :
  (1 <= len)%nat -> (len <= length a)%nat -> words a ->
  (8 * len + 3 <= length hexstr)%nat -> (len <= length r)%nat ->
  mpi_from_hex r (Some (mpi_to_hex hexstr a len)) len =
  (M25519_NO_ERROR, firstn len a ++ skipn len r).
Proof.
  intros H1 Ha Wa HL Hr.
  destruct (mpi_to_hex_spec hexstr a len HL) as (S1 & S2 & S3 & S4 & S5 & _).
  pose proof (mpi_to_hex_strlen hexstr a len HL) as SL.
  set (H := mpi_to_hex hexstr a len) in *.
  unfold mpi_from_hex. rewrite SL, S2, S3.
  replace (8 * len + 2 <? 3)%nat with false by (symmetry; apply Nat.ltb_ge; lia).
  change (negb (48 =? 48) || negb (TOLOWER 120 =? 120)) with false. cbv iota.
  change (2 * sizeof_Word)%nat with 8%nat.
  match goal with |- context [while_upto len ?c ?b ?s0] =>
    pose proof (while_upto_ind c b len
      (fun k s => snd (fst s) = (8 * (len - k) + 2)%nat /\ snd s = k /\
         length (fst (fst s)) = length r /\
         firstn k (fst (fst s)) = firstn k a /\
         skipn k (fst (fst s)) = skipn k r)
      s0) as W;
    destruct (while_upto len c b s0) as [[r' hl] i]
  end.
  cbn [fst snd] in W.
  destruct W as (W1 & W2 & W3 & W4 & W5).
  - repeat split; auto. f_equal. lia.
  - intros k [[r'' hl'] i'] Hk (I1 & I2 & I3 & I4 & I5). cbn [fst snd] in *.
    subst hl' i'. split.
    + apply andb_true_iff. split; apply Nat.ltb_lt; lia.
    + cbv beta iota zeta.
      replace (Nat.min (8 * (len - k) + 2 - 2) 8) with 8%nat by lia.
      assert (F := from_hex_inner H a.[k] (8 * (len - k) + 2) ltac:(lia)
                     (words_nth a k Wa)).
      cbv beta iota zeta in F. rewrite F.
      * rewrite length_upd. repeat split; try lia.
        -- rewrite firstn_S_upd by lia. rewrite firstn_S_nth by lia.
           rewrite I4. reflexivity.
        -- rewrite skipn_upd_lt by lia. apply skipn_S_eq. exact I5.
      * intros j Hj. rewrite <- (S5 k j) by lia. f_equal. lia.
  - subst i. rewrite Nat.sub_diag. cbn [for_up]. f_equal.
    rewrite <- (firstn_skipn len r') at 1. rewrite W4, W5. reflexivity.
Qed.

(** X19. [mpi_to_hex]: for a buffer of at least [8 * len + 3] characters the
    result is the string [0x] followed by the [8 * len] hex digits of the
    number, the most significant one first, in the characters [0-9A-F], each
    word giving eight of them, and the terminating 0; the string has
    [8 * len + 2] characters, and the buffer behind the terminator is left
    as it was. *)
Theorem X19_mpi_to_hex_format (hexstr a : list Z) (len : nat) :
  (len <= length a)%nat -> words a -> (8 * len + 3 <= length hexstr)%nat ->
  let H := mpi_to_hex hexstr a len in
  length H = length hexstr /\
  strlen H = (8 * len + 2)%nat /\
  H.[0%nat] = 48 /\ H.[1%nat] = 120 /\
  (forall t, (t < 8 * len)%nat ->
     H.[(2 + t)%nat] = hexchar (nibble a.[(len - 1 - t / 8)%nat] (7 - t mod 8)) /\
     (48 <= H.[(2 + t)%nat] <= 57 \/ 65 <= H.[(2 + t)%nat] <= 70)) /\
  H.[(8 * len + 2)%nat] = 0 /\
  (forall k, (8 * len + 2 < k)%nat -> H.[k] = hexstr.[k]).
Proof.
  intros Ha Wa HL H.
  destruct (mpi_to_hex_spec hexstr a len HL) as (S1 & S2 & S3 & S4 & S5 & S6).
  fold H in S1, S2, S3, S4, S5, S6.
  repeat split; auto.
  - apply mpi_to_hex_strlen. exact HL.
  - apply mpi_to_hex_char; assumption.
  - unfold H. rewrite mpi_to_hex_char by assumption.
    pose proof (nibble_range a.[(len - 1 - t / 8)%nat] (7 - t mod 8)) as B.
    unfold hexchar. destruct (Z.ltb_spec (nibble a.[(len - 1 - t / 8)%nat] (7 - t mod 8)) 10); lia.
Qed.

Lemma X19_mpi_to_hex_format_witness :
  let H := mpi_to_hex char_buf mp_hi1 2 in
  length H = length char_buf /\
  strlen H = (8 * 2 + 2)%nat /\
  H.[0%nat] = 48 /\ H.[1%nat] = 120 /\
  (forall t, (t < 8 * 2)%nat ->
     H.[(2 + t)%nat] = hexchar (nibble mp_hi1.[(2 - 1 - t / 8)%nat] (7 - t mod 8)) /\
     (48 <= H.[(2 + t)%nat] <= 57 \/ 65 <= H.[(2 + t)%nat] <= 70)) /\
  H.[(8 * 2 + 2)%nat] = 0 /\
  (forall k, (8 * 2 + 2 < k)%nat -> H.[k] = char_buf.[k]).
Proof.
  apply (X19_mpi_to_hex_format char_buf mp_hi1 2).
  - cbn. lia.
  - apply wordsb_words. reflexivity.
  - cbn. lia.
Defined.

(** X20. [mpi_from_hex] inverts [mpi_to_hex]: for [len >= 1], reading back
    the string written for the [len] words of [a] succeeds and stores these
    [len] words; the words of [r] behind them are left as they were. *)
Theorem X20_mpi_from_hex_inverts_mpi_to_hex (r hexstr a : list Z) (len : nat) :
  (1 <= len)%nat -> (len <= length a)%nat -> words a ->
  (8 * len + 3 <= length hexstr)%nat -> (len <= length r)%nat ->
  mpi_from_hex r (Some (mpi_to_hex hexstr a len)) len =
  (M25519_NO_ERROR, firstn len a ++ skipn len r).
Proof. apply mpi_from_hex_to_hex. Qed.

Lemma X20_mpi_from_hex_inverts_mpi_to_hex_witness :
  mpi_from_hex mp_sevens (Some (mpi_to_hex char_buf mp_ones 2)) 2 =
  (M25519_NO_ERROR, firstn 2 mp_ones ++ skipn 2 mp_sevens).
Proof.
  apply (X20_mpi_from_hex_inverts_mpi_to_hex mp_sevens char_buf mp_ones 2).
  - lia.
  - cbn. lia.
  - apply wordsb_words. reflexivity.
  - cbn. lia.
  - cbn. lia.
Defined.

(** X21. The format checks of [mpi_from_hex]: it succeeds exactly when the
    string has at least three characters and starts with [0x] or [0X]; a
    NULL pointer and every other string give [M25519_ERR_HEXSTR] and leave
    [r] untouched.  So the string [0x] that [mpi_to_hex] writes for
    [len = 0] is rejected. *)
Theorem X21_mpi_from_hex_format_checks (r : list Z) (len : nat) :
  mpi_from_hex r None len = (M25519_ERR_HEXSTR, r) /\
  (forall s,
     (fst (mpi_from_hex r (Some s) len) = M25519_NO_ERROR <->
      (3 <= strlen s)%nat /\ s.[0%nat] = 48 /\ (s.[1%nat] = 120 \/ s.[1%nat] = 88)) /\
     (fst (mpi_from_hex r (Some s) len) <> M25519_NO_ERROR ->
      mpi_from_hex r (Some s) len = (M25519_ERR_HEXSTR, r))) /\
  (forall hexstr a, (3 <= length hexstr)%nat ->
     mpi_from_hex r (Some (mpi_to_hex hexstr a 0)) 0 = (M25519_ERR_HEXSTR, r)).
Proof.
  split; [reflexivity|]. split.
  - intros s. unfold mpi_from_hex.
    destruct (Nat.ltb_spec (strlen s) 3) as [Hl|Hl].
    { cbn [fst]. split; [|reflexivity].
      split; [intros E; discriminate E|intros (E & _); lia]. }
    destruct (Z.eqb_spec s.[0%nat] 48) as [E0|E0]; cbn [negb orb].
    2:{ cbn [fst]. split; [|reflexivity].
        split; [intros E; discriminate E|intros (_ & E & _); contradiction]. }
    assert (T : TOLOWER s.[1%nat] = 120 <-> s.[1%nat] = 120 \/ s.[1%nat] = 88).
    { unfold TOLOWER. destruct (Z.leb_spec s.[1%nat] 90); lia. }
    destruct (Z.eqb_spec (TOLOWER s.[1%nat]) 120) as [E1|E1]; cbn [negb].
    2:{ cbn [fst]. split; [|reflexivity].
        split; [intros E; discriminate E|intros (_ & _ & E); apply T in E; contradiction]. }
    match goal with |- context [while_upto len ?c ?b ?s0] =>
      destruct (while_upto len c b s0) as [[r' hl] i]
    end.
    cbn [fst]. split.
    + split; [intros _; repeat split; auto; apply T; exact E1|reflexivity].
    + intros E. exfalso. apply E. reflexivity.
  - intros hexstr a HL.
    pose proof (mpi_to_hex_strlen hexstr a 0 ltac:(lia)) as SL.
    unfold mpi_from_hex. rewrite SL. reflexivity.
Qed.

(** ** The number read by mpi_from_hex *)

(** A loop that may end before its [n]-th iteration. *)
Lemma while_upto_inv {St : Type} (cond : St -> bool) (body : St -> St) n :
  forall (P : nat -> St -> Prop) s,
    P O s ->
    (forall k s, (k < n)%nat -> P k s -> cond s = true -> P (S k) (body s)) ->
    exists k, (k <= n)%nat /\ P k (while_upto n cond body s) /\
              (k = n \/ cond (while_upto n cond body s) = false).
Proof.
  induction n as [|n IH]; intros P s H0 Hstep; cbn [while_upto].
  - exists O. auto.
  - destruct (cond s) eqn:Hc.
    + destruct (IH (fun k => P (S k)) (body s)) as (k & Hk & HP & Hex).
      * apply Hstep; [lia|exact H0|exact Hc].
      * intros k s' Hk Hs Hc'. apply Hstep; [lia|exact Hs|exact Hc'].
      * exists (S k). split; [lia|]. split; [exact HP|].
        destruct Hex as [->|E]; auto.
    + exists O. split; [lia|]. auto.
Qed.

Lemma hexdigit_decode c :
  is_hexdigit c = true ->
  UChar (if UChar c <=? 57 then UChar c - 48 else Z.land (UChar c) 7 + 9)
  = hexdigit_val c /\ 0 <= hexdigit_val c < 16.
Proof.
  intros H. unfold is_hexdigit in H.
  assert (E : c = 48 \/ c = 49 \/ c = 50 \/ c = 51 \/ c = 52 \/ c = 53 \/ c = 54 \/ c = 55 \/ c = 56 \/ c = 57 \/ c = 65 \/ c = 66 \/ c = 67 \/ c = 68 \/ c = 69 \/ c = 70 \/ c = 97 \/ c = 98 \/ c = 99 \/ c = 100 \/ c = 101 \/ c = 102).
  { repeat match type of H with
           | (_ || _)%bool = true => apply orb_true_iff in H; destruct H as [H|H]
           end;
      apply andb_true_iff in H; destruct H as [H1 H2];
      apply Z.leb_le in H1; apply Z.leb_le in H2; lia. }
  clear H.
  repeat (destruct E as [->|E]; [split; [reflexivity|cbv; split; congruence]|]).
  subst c. split; [reflexivity|cbv; split; congruence].
Qed.

Lemma hexnum_range s lo n :
  (forall j, (j < n)%nat -> is_hexdigit s.[(lo + j)%nat] = true) ->
  0 <= hexnum s lo n < 16 ^ Z.of_nat n.
Proof.
  induction n as [|n IH]; intros H.
  - cbn. lia.
  - cbn [hexnum]. rewrite Nat2Z.inj_succ, Z.pow_succ_r by lia.
    destruct (hexdigit_decode _ (H n ltac:(lia))) as [_ B].
    assert (0 <= hexnum s lo n < 16 ^ Z.of_nat n) by (apply IH; intros; apply H; lia).
    lia.
Qed.

Lemma hexnum_app s lo n1 n2 :
  hexnum s lo (n1 + n2) = hexnum s lo n1 * 16 ^ Z.of_nat n2 + hexnum s (lo + n1) n2.
Proof.
  induction n2 as [|n2 IH].
  - rewrite Nat.add_0_r. cbn [hexnum]. change (16 ^ Z.of_nat 0) with 1. lia.
  - replace (n1 + S n2)%nat with (S (n1 + n2)) by lia. cbn [hexnum].
    rewrite IH, Nat2Z.inj_succ, Z.pow_succ_r by lia.
    replace (lo + (n1 + n2))%nat with (lo + n1 + n2)%nat by lia. ring.
Qed.

Lemma pw_16 k : pw k = 16 ^ Z.of_nat (8 * k).
Proof.
  induction k as [|k IH]; [reflexivity|].
  rewrite pw_S, IH. replace (8 * S k)%nat with (8 + 8 * k)%nat by lia.
  rewrite Nat2Z.inj_add, Z.pow_add_r by lia. reflexivity.
Qed.

(** One word read from [m <= 8] digits. *)
Lemma from_hex_block (H : list Z) (lo m : nat) :
  (m <= 8)%nat ->
  (forall j, (j < m)%nat -> is_hexdigit H.[(lo + j)%nat] = true) ->
  for_up m lo
    (fun j w =>
       let c := UChar H.[j] in
       let c := UChar (if c <=? 57 then c - 48 else Z.land c 7 + 9) in
       Z.lor (Word (Z.shiftl w 4)) c)
    0 = hexnum H lo m.
Proof.
  intros Hm HH.
  match goal with |- for_up m lo ?b ?s0 = _ =>
    pose proof (for_up_ind
      (fun k s => s = hexnum H lo (k - lo)) b m lo s0) as F
  end.
  cbv beta in F. rewrite F.
  - f_equal. lia.
  - rewrite Nat.sub_diag. reflexivity.
  - intros k s Hk ->. cbv zeta.
    replace (S k - lo)%nat with (S (k - lo)) by lia. cbn [hexnum].
    replace (lo + (k - lo))%nat with k by lia.
    assert (D : is_hexdigit H.[k] = true).
    { replace k with (lo + (k - lo))%nat by lia. apply HH. lia. }
    destruct (hexdigit_decode _ D) as [-> B].
    assert (R : 0 <= hexnum H lo (k - lo) < 16 ^ Z.of_nat (k - lo)).
    { apply hexnum_range. intros j Hj. apply HH. lia. }
    assert (16 ^ Z.of_nat (k - lo) <= 16 ^ 7) by (apply Z.pow_le_mono_r; lia).
    apply shift_in_digit; [|exact B]. change (2 ^ 28) with (16 ^ 7). lia.
Qed.

(** [while (i < len) r[i++] = 0]. *)
Lemma zero_fill r k len :
  (k <= len)%nat -> (len <= length r)%nat -> words (firstn k r) ->
  let r' := for_up (len - k) k (fun j r => upd r j 0) r in
  length r' = length r /\ words (firstn len r') /\
  value (firstn len r') = value (firstn k r) /\ skipn len r' = skipn len r.
Proof.
  intros Hk Hl Hw r'. subst r'.
  match goal with |- context [for_up ?n k ?b r] =>
    pose proof (for_up_ind
      (fun j s => length s = length r /\ words (firstn j s) /\
                  value (firstn j s) = value (firstn k r) /\
                  skipn j s = skipn j r) b n k r) as F
  end.
  cbv beta in F. replace (k + (len - k))%nat with len in F by lia.
  apply F; [auto|].
  intros j s Hj (I1 & I2 & I3 & I4). rewrite length_upd.
  split; [exact I1|]. split; [apply words_firstn_S_upd; [lia|exact I2|lia]|].
  split.
  - rewrite value_firstn_S_upd by lia. lia.
  - rewrite skipn_upd_lt by lia. apply skipn_S_eq. exact I4.
Qed.

Lemma mpi_from_hex_value r s len n :
  strlen s = (n + 2)%nat -> (1 <= n)%nat ->
  s.[0%nat] = 48 -> s.[1%nat] = 120 \/ s.[1%nat] = 88 ->
  (forall j, (j < n)%nat -> is_hexdigit s.[(2 + j)%nat] = true) ->
  (len <= length r)%nat ->
  exists r',
    mpi_from_hex r (Some s) len = (M25519_NO_ERROR, r') /\
    length r' = length r /\ words (firstn len r') /\
    value (firstn len r') = hexnum s 2 n mod pw len /\
    skipn len r' = skipn len r.
Proof.
  intros SL Hn S0 S1 HD Hr.
  unfold mpi_from_hex. rewrite SL.
  replace (n + 2 <? 3)%nat with false by (symmetry; apply Nat.ltb_ge; lia).
  rewrite S0. change (negb (48 =? 48)) with false. cbn [orb].
  assert (T : TOLOWER s.[1%nat] = 120).
  { unfold TOLOWER. destruct S1 as [-> | ->]; reflexivity. }
  rewrite T. change (negb (120 =? 120)) with false. cbv iota.
  change (2 * sizeof_Word)%nat with 8%nat.
  match goal with |- context [while_upto len ?c ?b ?s0] =>
    destruct (while_upto_inv c b len
      (fun k st => snd st = k /\ length (fst (fst st)) = length r /\
         skipn k (fst (fst st)) = skipn k r /\ words (firstn k (fst (fst st))) /\
         (2 <= snd (fst st) <= n + 2)%nat /\
         ((n + 2 - snd (fst st) = 8 * k)%nat \/ (snd (fst st) = 2%nat /\ (n <= 8 * k)%nat)) /\
         value (firstn k (fst (fst st))) = hexnum s (snd (fst st)) (n + 2 - snd (fst st)))
      s0) as (K & HK & W & Hex);
    [ | |destruct (while_upto len c b s0) as [[r' hl] i]]
  end.
  - cbn [fst snd]. repeat split; auto; try lia.
    + constructor.
    + rewrite Nat.sub_diag. reflexivity.
  - intros k [[r'' hl'] i'] Hk (I1 & I2 & I3 & I4 & I5 & I6 & I7) Hc.
    cbn [fst snd] in *. subst i'.
    apply andb_true_iff in Hc. destruct Hc as [Hc _]. apply Nat.ltb_lt in Hc.
    destruct I6 as [I6|[I6 _]]; [|lia].
    cbv beta iota zeta.
    set (m := Nat.min (hl' - 2) 8).
    assert (Hm : (1 <= m <= 8 /\ m <= hl' - 2)%nat) by (unfold m; lia).
    assert (F := from_hex_block s (hl' - m) m ltac:(lia)).
    cbv beta iota zeta in F. rewrite F.
    2:{ intros j Hj. replace (hl' - m + j)%nat with (2 + (hl' - m + j - 2))%nat by lia.
        apply HD. lia. }
    assert (R : 0 <= hexnum s (hl' - m) m < 16 ^ Z.of_nat m).
    { apply hexnum_range. intros j Hj.
      replace (hl' - m + j)%nat with (2 + (hl' - m + j - 2))%nat by lia.
      apply HD. lia. }
    assert (16 ^ Z.of_nat m <= 16 ^ 8) by (apply Z.pow_le_mono_r; lia).
    change (16 ^ 8) with (2 ^ 32) in *.
    rewrite length_upd. repeat split; try lia.
    + rewrite skipn_upd_lt by lia. apply skipn_S_eq. exact I3.
    + apply words_firstn_S_upd; [lia|exact I4|unfold WSIZE; lia].
    + rewrite value_firstn_S_upd by lia. rewrite I7.
      replace (n + 2 - (hl' - m))%nat with (m + (n + 2 - hl'))%nat by lia.
      rewrite hexnum_app. replace (hl' - m + m)%nat with hl' by lia.
      rewrite pw_16, I6. ring.
  - cbn [fst snd] in *. destruct W as (I1 & I2 & I3 & I4 & I5 & I6 & I7). subst i.
    destruct (zero_fill r' K len HK ltac:(lia) I4) as (Z1 & Z2 & Z3 & Z4).
    eexists. split; [reflexivity|].
    split; [lia|]. split; [exact Z2|]. split.
    + rewrite Z3, I7.
      pose proof (value_range _ I4) as VR. rewrite I7 in VR.
      assert (LK : length (firstn K r') = K) by (rewrite length_firstn; lia).
      rewrite LK in VR.
      assert (PK : pw K <= pw len).
      { replace len with (K + (len - K))%nat by lia. rewrite pw_add.
        pose proof (pw_pos K). pose proof (pw_pos (len - K)). nia. }
      destruct (Nat.eq_dec hl 2) as [->|Hne].
      * replace (n + 2 - 2)%nat with n in * by lia.
        rewrite Z.mod_small by lia. reflexivity.
      * assert (EK : K = len).
        { destruct Hex as [E|E]; [exact E|].
          apply andb_false_iff in E. destruct E as [E|E].
          - apply Nat.ltb_ge in E. lia.
          - apply Nat.ltb_ge in E. lia. }
        subst K. destruct I6 as [I6|[I6 _]]; [|contradiction].
        replace n with ((hl - 2) + (n + 2 - hl))%nat at 2 by lia.
        rewrite hexnum_app. replace (2 + (hl - 2))%nat with hl by lia.
        rewrite I6 at 2. rewrite <- pw_16.
        rewrite Z.add_comm, Z.mod_add by (pose proof (pw_pos len); lia).
        rewrite Z.mod_small by lia. reflexivity.
    + rewrite Z4. 
      replace len with ((len - K) + K)%nat by lia.
      rewrite <- !skipn_skipn, I3. reflexivity.
Qed.

(** X22. The number read by [mpi_from_hex]: for a string [0x] or [0X]
    followed by [n >= 1] hex digits ([0-9], [A-F], [a-f]), the call succeeds
    and the [len] words written hold the number that the digits write,
    reduced modulo [2 ^ (32 * len)]: a short digit string is extended by
    zero words, and of a long one the most significant digits are dropped.
    The words of [r] behind them are left as they were. *)
Theorem X22_mpi_from_hex_reads_hex_number (r s : list Z) (len n : nat) :
  strlen s = (n + 2)%nat -> (1 <= n)%nat ->
  s.[0%nat] = 48 -> s.[1%nat] = 120 \/ s.[1%nat] = 88 ->
  (forall j, (j < n)%nat -> is_hexdigit s.[(2 + j)%nat] = true) ->
  (len <= length r)%nat ->
  exists r',
    mpi_from_hex r (Some s) len = (M25519_NO_ERROR, r') /\
    length r' = length r /\ words (firstn len r') /\
    value (firstn len r') = hexnum s 2 n mod pw len /\
    skipn len r' = skipn len r.
Proof. apply mpi_from_hex_value. Qed.

Lemma X22_mpi_from_hex_reads_hex_number_witness :
  exists r',
    mpi_from_hex mp_sevens (Some str_0x1aB) 2 = (M25519_NO_ERROR, r') /\
    length r' = length mp_sevens /\ words (firstn 2 r') /\
    value (firstn 2 r') = hexnum str_0x1aB 2 3 mod pw 2 /\
    skipn 2 r' = skipn 2 mp_sevens.
Proof.
  apply (X22_mpi_from_hex_reads_hex_number mp_sevens str_0x1aB 2 3).
  - reflexivity.
  - lia.
  - reflexivity.
  - left. reflexivity.
  - intros j Hj. destruct j as [|[|[|j]]]; [reflexivity|reflexivity|reflexivity|lia].
  - cbn. lia.
Defined.

(** ** The field operations together *)

Lemma cong_add_mul x y h : x = y + h * p -> x mod p = y mod p.
Proof. intros ->. apply Z.mod_add. pose proof p_pos; lia. Qed.

Lemma mod_p_eq x y : x mod p = y mod p <-> exists h, x = y + h * p.
Proof.
  pose proof p_pos as Hp. split.
  - intros H. exists (x / p - y / p).
    pose proof (Z.div_mod x p ltac:(lia)). pose proof (Z.div_mod y p ltac:(lia)). nia.
  - intros [h ->]. apply Z.mod_add. lia.
Qed.

(** X23. The calls with the result array as first operand, as [gfp_fred],
    [gfp_cmp] and [gfp_inv] make them ([mpi_sub(r, r, b, len)] and the
    like): each one computes what the same call with a separate copy of the
    operand computes, whatever the arrays and the length. *)
Theorem X23_in_place_calls_agree :
  (forall r b len, mpi_sub_inplace r b len = mpi_sub r r b len) /\
  (forall r b add len, mpi_cadd_inplace r b add len = mpi_cadd r r b add len) /\
  (forall r len, mpi_shr_inplace r len = mpi_shr r r len) /\
  (forall r b, gfp_sub_inplace r b = gfp_sub r r b) /\
  (forall r, gfp_hlv_inplace r = gfp_hlv r r).
Proof.
  split; [exact mpi_sub_inplace_eq|]. split; [exact mpi_cadd_inplace_eq|].
  split; [exact mpi_shr_inplace_eq|]. split; [exact gfp_sub_inplace_eq|].
  exact gfp_hlv_inplace_eq.
Qed.

(** X24. [gfp_inv] is an involution up to congruence: for [a] not congruent
    to 0, inverting the inverse of [a] succeeds as well and gives an element
    congruent to [a], so the two have the same full reduction. *)
Theorem X24_gfp_inv_involution (fuel : nat) (r r' t a : list Z) :
  length r = LEN -> length r' = LEN -> length t = LEN -> felem a ->
  (510 <= fuel)%nat -> value a mod p <> 0 ->
  exists r1 r2,
    gfp_inv fuel r a = Some (M25519_NO_ERROR, r1) /\
    gfp_inv fuel r' r1 = Some (M25519_NO_ERROR, r2) /\
    value r2 mod p = value a mod p /\
    gfp_fred t r2 = gfp_fred t a.
Proof.
  intros Hr Hr' Ht Ha HF Hnz. pose proof p_pos as Hp.
  destruct (gfp_inv_ok fuel r a Hr Ha HF) as (c1 & r1 & E1 & F1 & [(Hz & _)|(_ & -> & D1)]);
    [contradiction|].
  assert (Hnz1 : value r1 mod p <> 0).
  { intros Hz. apply Z.mod_divide in Hz; [|lia]. destruct Hz as [k Hk].
    destruct D1 as [c Hc]. rewrite Hk in Hc.
    assert (E : 1 = (k * value a - c) * p) by lia.
    assert (H1 : (p | 1)) by (exists (k * value a - c); exact E).
    apply Z.divide_1_r_nonneg in H1; lia. }
  destruct (gfp_inv_ok fuel r' r1 Hr' F1 HF) as (c2 & r2 & E2 & F2 & [(Hz & _)|(_ & -> & D2)]);
    [contradiction|].
  assert (C : value r2 mod p = value a mod p).
  { apply cong_divide. destruct D1 as [k1 H1]. destruct D2 as [k2 H2].
    exists (value a * k2 - value r2 * k1).
    rewrite Z.mul_sub_distr_r, <- !Z.mul_assoc, <- H1, <- H2. ring. }
  exists r1, r2. split; [exact E1|]. split; [exact E2|]. split; [exact C|].
  apply gfp_fred_cong; assumption.
Qed.

Lemma X24_gfp_inv_involution_witness :
  exists r1 r2,
    gfp_inv 510 buf_sevens fe_two = Some (M25519_NO_ERROR, r1) /\
    gfp_inv 510 buf_sevens r1 = Some (M25519_NO_ERROR, r2) /\
    value r2 mod p = value fe_two mod p /\
    gfp_fred buf_sevens r2 = gfp_fred buf_sevens fe_two.
Proof.
  apply (X24_gfp_inv_involution 510 buf_sevens buf_sevens buf_sevens fe_two).
  - reflexivity.
  - reflexivity.
  - reflexivity.
  - apply felemb_felem. reflexivity.
  - lia.
  - vm_compute. discriminate.
Defined.

(** X25. Subtraction undoes addition, and conditional negation with an odd
    [neg] gives the additive inverse, up to congruence: the full reduction
    of [(a + b) - b] is that of [a], the full reduction of [a + (-a)] is the
    all-zero array, and negating twice gives back an element congruent to
    [a]. *)
Theorem X25_gfp_add_sub_cneg_cancel (r1 r2 t a b : list Z) (neg : Z) :
  length r1 = LEN -> length r2 = LEN -> length t = LEN -> felem a -> felem b ->
  Z.odd neg = true ->
  gfp_fred t (gfp_sub r2 (gfp_add r1 a b) b) = gfp_fred t a /\
  gfp_fred t (gfp_add r2 a (gfp_cneg r1 a neg)) = fe_zero /\
  gfp_fred t (gfp_cneg r2 (gfp_cneg r1 a neg) neg) = gfp_fred t a.
Proof.
  intros H1 H2 Ht Ha Hb Hn. pose proof p_pos as Hp.
  assert (Hm : neg mod 2 = 1).
  { rewrite Zodd_mod in Hn. apply Z.eqb_eq in Hn. exact Hn. }
  destruct (gfp_add_spec r1 a b H1 Ha Hb) as (Fs & _ & hs & Vs).
  destruct (gfp_sub_spec r2 _ b H2 Fs Hb) as (Fd & _ & Vd).
  destruct (gfp_cneg_spec r1 a neg H1 Ha) as (Fn & _ & hn & Vn).
  destruct (gfp_add_spec r2 a _ H2 Ha Fn) as (Fz & _ & hz & Vz).
  destruct (gfp_cneg_spec r2 _ neg H2 Fn) as (Fnn & _ & hnn & Vnn).
  rewrite Hm in Vn, Vnn.
  split; [|split].
  - apply gfp_fred_cong; [exact Ht|exact Fd|exact Ha|].
    match type of Vd with _ = _ + ?q0 * p => set (q := q0) in Vd end.
    apply mod_p_eq. exists (q - hs). rewrite Vd, Vs. ring.
  - apply fred_of_value; [exact Ht|exact Fz|apply felemb_felem; reflexivity|].
    change (value fe_zero) with 0. symmetry.
    apply Z.mod_divide; [lia|]. exists (hn - hz). rewrite Vz, Vn. ring.
  - apply gfp_fred_cong; [exact Ht|exact Fnn|exact Ha|].
    apply mod_p_eq. exists (hnn - hn). rewrite Vnn, Vn. ring.
Qed.

Lemma X25_gfp_add_sub_cneg_cancel_witness :
  gfp_fred buf_sevens (gfp_sub buf_sevens (gfp_add buf_sevens fe_max fe_p_minus_1) fe_p_minus_1)
    = gfp_fred buf_sevens fe_max /\
  gfp_fred buf_sevens (gfp_add buf_sevens fe_max (gfp_cneg buf_sevens fe_max 1)) = fe_zero /\
  gfp_fred buf_sevens (gfp_cneg buf_sevens (gfp_cneg buf_sevens fe_max 1) 1)
    = gfp_fred buf_sevens fe_max.
Proof.
  apply (X25_gfp_add_sub_cneg_cancel buf_sevens buf_sevens buf_sevens fe_max fe_p_minus_1 1).
  - reflexivity.
  - reflexivity.
  - reflexivity.
  - apply felemb_felem. reflexivity.
  - apply felemb_felem. reflexivity.
  - reflexivity.
Defined.

(** X26. [gfp_mul32] agrees with [gfp_mul]: multiplying by the word [b[0]]
    gives an element congruent to the product with the field element
    [[b[0], 0, ..., 0]], so the two have the same full reduction; and
    multiplication distributes over addition up to congruence. *)
Theorem X26_gfp_mul32_agrees_with_gfp_mul (r1 r2 r3 t a b c w : list Z) :
  length r1 = LEN -> length r2 = LEN -> length r3 = LEN -> length t = LEN ->
  felem a -> felem b -> felem c -> (1 <= length w)%nat -> words w ->
  gfp_fred t (gfp_mul32 r1 a w) =
    gfp_fred t (gfp_mul r1 a (w.[0%nat] :: repeat 0 (LEN - 1))) /\
  gfp_fred t (gfp_mul r2 a (gfp_add r1 b c)) =
    gfp_fred t (gfp_add r3 (gfp_mul r1 a b) (gfp_mul r2 a c)).
Proof.
  intros H1 H2 H3 Ht Ha Hb Hc Hl Hw. pose proof p_pos as Hp.
  split.
  - pose proof (words_nth w 0 Hw) as Hw0.
    assert (Fw : felem (w.[0%nat] :: repeat 0 (LEN - 1))).
    { split; [cbn; reflexivity|].
      constructor; [exact Hw0|]. apply Forall_forall. intros x Hx.
      apply repeat_spec in Hx. subst x. unfold WSIZE. lia. }
    assert (Vw : value (w.[0%nat] :: repeat 0 (LEN - 1)) = w.[0%nat]).
    { cbn [value]. rewrite value_repeat_0. lia. }
    destruct (gfp_mul32_spec r1 a w H1 Ha Hw) as (F32 & _ & h32 & V32).
    destruct (gfp_mul_spec r1 a _ H1 Ha Fw) as (Fm & _ & hm & Vm).
    apply gfp_fred_cong; [exact Ht|exact F32|exact Fm|].
    apply mod_p_eq. exists (hm - h32). rewrite V32, Vm, Vw. ring.
  - destruct (gfp_add_spec r1 b c H1 Hb Hc) as (Fs & _ & hs & Vs).
    destruct (gfp_mul_spec r2 a _ H2 Ha Fs) as (Fl & _ & hl & Vl).
    destruct (gfp_mul_spec r1 a b H1 Ha Hb) as (Fab & _ & hab & Vab).
    destruct (gfp_mul_spec r2 a c H2 Ha Hc) as (Fac & _ & hac & Vac).
    destruct (gfp_add_spec r3 _ _ H3 Fab Fac) as (Fr & _ & hr & Vr).
    apply gfp_fred_cong; [exact Ht|exact Fl|exact Fr|].
    apply mod_p_eq. exists (hab + hac + hr - hl - value a * hs).
    rewrite Vl, Vs, Vr, Vab, Vac. ring.
Qed.

Lemma X26_gfp_mul32_agrees_with_gfp_mul_witness :
  gfp_fred buf_sevens (gfp_mul32 buf_sevens fe_max mp_ones) =
    gfp_fred buf_sevens (gfp_mul buf_sevens fe_max (mp_ones.[0%nat] :: repeat 0 (LEN - 1))) /\
  gfp_fred buf_sevens (gfp_mul buf_sevens fe_max (gfp_add buf_sevens fe_p_minus_1 fe_two)) =
    gfp_fred buf_sevens
      (gfp_add buf_sevens (gfp_mul buf_sevens fe_max fe_p_minus_1)
                          (gfp_mul buf_sevens fe_max fe_two)).
Proof.
  apply (X26_gfp_mul32_agrees_with_gfp_mul buf_sevens buf_sevens buf_sevens buf_sevens
           fe_max fe_p_minus_1 fe_two mp_ones).
  - reflexivity.
  - reflexivity.
  - reflexivity.
  - reflexivity.
  - apply felemb_felem. reflexivity.
  - apply felemb_felem. reflexivity.
  - apply felemb_felem. reflexivity.
  - cbn. lia.
  - apply wordsb_words. reflexivity.
Defined.

(** * The assembly versions against the C functions *)

Section RV32_loops.

Import RV32.

(** ** Arrays in the memory *)

Lemma load_array_length m p n : length (load_array m p n) = n.
Proof. unfold load_array. rewrite length_map, length_seq. reflexivity. Qed.

Lemma nth_map_seq (f : nat -> Z) n :
  forall lo i, (i < n)%nat -> (map f (seq lo n)).[i] = f (lo + i)%nat.
Proof.
  induction n as [|n IH]; intros lo i Hi; [lia|].
  cbn [seq map]. destruct i as [|i].
  - cbn [nth]. f_equal. lia.
  - cbn [nth]. rewrite IH by lia. f_equal. lia.
Qed.

Lemma load_array_nth m p n i :
  (i < n)%nat -> (load_array m p n).[i] = m (p + 4 * Z.of_nat i).
Proof.
  intros H. unfold load_array. rewrite nth_map_seq by exact H. reflexivity.
Qed.

Lemma list_eq_nth (l1 l2 : list Z) :
  length l1 = length l2 -> (forall i, (i < length l1)%nat -> l1.[i] = l2.[i]) ->
  l1 = l2.
Proof. intros HL H. apply (nth_ext _ _ 0 0); assumption. Qed.

Lemma nth_upd l i j v :
  (upd l i v).[j] = if Nat.eqb j i then (if (i <? length l)%nat then v else l.[j]) else l.[j].
Proof.
  destruct (Nat.eqb_spec j i) as [->|Hne].
  - destruct (Nat.ltb_spec i (length l)) as [H|H].
    + apply nth_upd_eq. exact H.
    + rewrite !nth_overflow; [reflexivity|lia|rewrite length_upd; lia].
  - apply nth_upd_neq. auto.
Qed.

(** A store into the array is an update of the list. *)
Lemma load_array_store m m' p n k v :
  (k < n)%nat ->
  (forall ad, m' ad = if ad =? p + 4 * Z.of_nat k then v else m ad) ->
  load_array m' p n = upd (load_array m p n) k v.
Proof.
  intros Hk Hm. apply list_eq_nth.
  - rewrite length_upd, !load_array_length. reflexivity.
  - rewrite load_array_length. intros i Hi.
    rewrite nth_upd, load_array_length, !load_array_nth by assumption.
    rewrite Hm. destruct (Nat.eqb_spec i k) as [->|Hne].
    + rewrite Z.eqb_refl. destruct (Nat.ltb_spec k n); [reflexivity|lia].
    + destruct (Z.eqb_spec (p + 4 * Z.of_nat i) (p + 4 * Z.of_nat k)); [lia|reflexivity].
Qed.

Lemma for_up_snoc {St : Type} (body : nat -> St -> St) n :
  forall i s, for_up (S n) i body s = body (i + n)%nat (for_up n i body s).
Proof.
  induction n as [|n IH]; intros i s.
  - cbn [for_up]. rewrite Nat.add_0_r. reflexivity.
  - change (for_up (S (S n)) i body s) with (for_up (S n) (S i) body (body i s)).
    rewrite IH. cbn [for_up]. f_equal. lia.
Qed.

Lemma Word_cases v :
  - 2 ^ 32 <= v < 2 ^ 32 -> Word v = if v <? 0 then v + 2 ^ 32 else v.
Proof.
  intros H. unfold Word, WSIZE. destruct (Z.ltb_spec v 0).
  - symmetry. apply (Z.mod_unique _ _ (-1)); lia.
  - apply Z.mod_small. lia.
Qed.

Lemma Word_idem v : Word (Word v) = Word v.
Proof. unfold Word, WSIZE. apply Z.mod_mod. lia. Qed.

Lemma Word_add_4 v k : Word (Word (v + 4 * k) + 4) = Word (v + 4 * (k + 1)).
Proof.
  unfold Word, WSIZE. rewrite Zplus_mod_idemp_l. f_equal. ring.
Qed.

(** ** mpi_sub_rvm *)

(** One word of the subtraction, in the assembly and in C. *)
Lemma rv_sub_word a b bor :
  0 <= a < 2 ^ 32 -> 0 <= b < 2 ^ 32 -> bor = 0 \/ bor = 1 ->
  Word (Word (a - b) - bor) = Word (a - b - bor) /\
  Word ((if Word (a - b) <? bor then 1 else 0) + (if a <? b then 1 else 0))
    = (if a - b - bor <? 0 then 1 else 0).
Proof.
  intros Ha Hb Hc.
  rewrite (Word_cases (a - b)) by lia.
  rewrite (Word_cases (a - b - bor)) by lia.
  destruct (Z.ltb_spec (a - b) 0); destruct (Z.ltb_spec (a - b - bor) 0);
    destruct (Z.ltb_spec a b); try lia.
  - rewrite Word_cases by lia.
    destruct (Z.ltb_spec (a - b + 2 ^ 32 - bor) 0); try lia.
    destruct (Z.ltb_spec (a - b + 2 ^ 32) bor); try lia.
    split; [lia|reflexivity].
  - rewrite Word_cases by lia.
    destruct (Z.ltb_spec (a - b - bor) 0); try lia.
    destruct (Z.ltb_spec (a - b) bor); try lia.
    split; [lia|reflexivity].
  - rewrite Word_cases by lia.
    destruct (Z.ltb_spec (a - b - bor) 0); try lia.
    destruct (Z.ltb_spec (a - b) bor); try lia.
    split; [lia|reflexivity].
Qed.

Lemma c_sub_word a b dif :
  0 <= a < 2 ^ 32 -> 0 <= b < 2 ^ 32 -> dif = 0 \/ dif = 1 ->
  let d := DWord (dif + DWord (DWord a + Word (Z.lnot b))) in
  Word d = Word (a - b - (1 - dif)) /\
  Z.shiftr d WSIZE = 1 - (if a - b - (1 - dif) <? 0 then 1 else 0).
Proof.
  intros Ha Hb Hc d. subst d.
  rewrite Word_lnot by exact Hb.
  rewrite (DWord_small a) by lia.
  rewrite (DWord_small (a + _)) by lia.
  rewrite DWord_small by lia.
  rewrite shiftr_WSIZE.
  rewrite (Word_cases (a - b - (1 - dif))) by lia.
  destruct (Z.ltb_spec (a - b - (1 - dif)) 0).
  - split.
    + rewrite Word_small by lia. lia.
    + rewrite Z.div_small by lia. reflexivity.
  - split.
    + unfold Word, WSIZE. symmetry. apply (Z.mod_unique _ _ 1); lia.
    + symmetry. apply (Z.div_unique _ _ _ (a - b - (1 - dif))); lia.
Qed.

Lemma mpi_sub_LLOOP s :
  let av := mem s (Word (get s a1 + 0)) in
  let bv := mem s (Word (get s a2 + 0)) in
  let s' := run MpiSub.LLOOP s in
  get s' a0 = Word (get s a0 + 4) /\
  get s' a1 = Word (get s a1 + 4) /\
  get s' a2 = Word (get s a2 + 4) /\
  get s' a3 = Word (get s a3 + -1) /\
  get s' a7 = Word ((if Word (av - bv) <? get s a7 then 1 else 0)
                    + (if av <? bv then 1 else 0)) /\
  (forall ad, mem s' ad =
     if ad =? Word (get s a0 + 0) then Word (Word (av - bv) - get s a7)
     else mem s ad).
Proof. repeat split. Qed.

Section mpi_sub_rvm_proof.

Variables (s0 : machine) (pr pa pb : Z) (len : nat).

Let a := load_array (mem s0) pa len.
Let b := load_array (mem s0) pb len.
Let r := load_array (mem s0) pr len.

Hypothesis Hpr : 0 <= pr /\ pr + 4 * Z.of_nat len <= 2 ^ 32.
Hypothesis Hpa : 0 <= pa /\ pa + 4 * Z.of_nat len <= 2 ^ 32.
Hypothesis Hpb : 0 <= pb /\ pb + 4 * Z.of_nat len <= 2 ^ 32.
Hypothesis Wa : words a.
Hypothesis Wb : words b.
Hypothesis Hra : forall i j, (i < len)%nat -> (j < len)%nat ->
  pr + 4 * Z.of_nat i = pa + 4 * Z.of_nat j -> i = j.
Hypothesis Hrb : forall i j, (i < len)%nat -> (j < len)%nat ->
  pr + 4 * Z.of_nat i = pb + 4 * Z.of_nat j -> i = j.

Let cbody : nat -> list Z * Z -> list Z * Z :=
  fun i '(r, dif) =>
    let dif := DWord (dif + DWord (DWord a.[i] + Word (Z.lnot b.[i]))) in
    let r := upd r i (Word dif) in
    let dif := Z.shiftr dif WSIZE in
    (r, dif).

Let Inv (k : nat) (s : machine) : Prop :=
  get s a0 = Word (pr + 4 * Z.of_nat k) /\
  get s a1 = Word (pa + 4 * Z.of_nat k) /\
  get s a2 = Word (pb + 4 * Z.of_nat k) /\
  get s a3 = Z.of_nat (len - k) /\
  get s a7 = 1 - snd (for_up k 0 cbody (r, 1)) /\
  (snd (for_up k 0 cbody (r, 1)) = 0 \/ snd (for_up k 0 cbody (r, 1)) = 1) /\
  load_array (mem s) pr len = fst (for_up k 0 cbody (r, 1)) /\
  (forall ad, (forall i, (i < k)%nat -> ad <> pr + 4 * Z.of_nat i) ->
     mem s ad = mem s0 ad).

Lemma mpi_sub_rvm_step k s :
  (k < len)%nat -> Inv k s -> Inv (S k) (run MpiSub.LLOOP s).
Proof.
  intros Hk (I0 & I1 & I2 & I3 & I7 & Id & IM & IU).
  destruct (mpi_sub_LLOOP s) as (E0 & E1 & E2 & E3 & E7 & EM).
  set (s' := run MpiSub.LLOOP s) in *.
  assert (P2 : 2 ^ 32 = 4294967296) by reflexivity.
  assert (Aa : Word (get s a1 + 0) = pa + 4 * Z.of_nat k).
  { rewrite I1, Z.add_0_r, Word_idem. apply Word_small. lia. }
  assert (Ab : Word (get s a2 + 0) = pb + 4 * Z.of_nat k).
  { rewrite I2, Z.add_0_r, Word_idem. apply Word_small. lia. }
  assert (Ar : Word (get s a0 + 0) = pr + 4 * Z.of_nat k).
  { rewrite I0, Z.add_0_r, Word_idem. apply Word_small. lia. }
  rewrite Aa, Ab in E7, EM. rewrite Ar in EM.
  assert (Va : mem s (pa + 4 * Z.of_nat k) = a.[k]).
  { unfold a. rewrite load_array_nth by exact Hk. apply IU.
    intros i Hi E. symmetry in E. apply Hra in E; lia. }
  assert (Vb : mem s (pb + 4 * Z.of_nat k) = b.[k]).
  { unfold b. rewrite load_array_nth by exact Hk. apply IU.
    intros i Hi E. symmetry in E. apply Hrb in E; lia. }
  rewrite Va, Vb in E7, EM.
  pose proof (words_nth a k Wa) as Hak. pose proof (words_nth b k Wb) as Hbk.
  unfold WSIZE in Hak, Hbk.
  set (st := for_up k 0 cbody (r, 1)) in *.
  assert (Hbor : get s a7 = 0 \/ get s a7 = 1) by lia.
  destruct (rv_sub_word a.[k] b.[k] (get s a7) Hak Hbk Hbor) as [R1 R2].
  destruct (c_sub_word a.[k] b.[k] (snd st) Hak Hbk Id) as [C1 C2].
  rewrite R2 in E7. rewrite R1 in EM. rewrite I7 in E7, EM.
  assert (ES : for_up (S k) 0 cbody (r, 1) = cbody k st).
  { unfold st. rewrite for_up_snoc. reflexivity. }
  unfold Inv. rewrite ES. destruct st as [R d] eqn:Est. cbn [fst snd] in *.
  unfold cbody. cbn [fst snd].
  split; [rewrite E0, I0; replace (Z.of_nat (S k)) with (Z.of_nat k + 1) by lia;
          apply Word_add_4|].
  split; [rewrite E1, I1; replace (Z.of_nat (S k)) with (Z.of_nat k + 1) by lia;
          apply Word_add_4|].
  split; [rewrite E2, I2; replace (Z.of_nat (S k)) with (Z.of_nat k + 1) by lia;
          apply Word_add_4|].
  split; [rewrite E3, I3; rewrite Word_small by lia; lia|].
  split; [rewrite E7, C2; destruct (a.[k] - b.[k] - (1 - d) <? 0); reflexivity|].
  split; [rewrite C2; destruct (a.[k] - b.[k] - (1 - d) <? 0); lia|].
  split.
  - rewrite C1, <- IM. apply load_array_store; [exact Hk|exact EM].
  - intros ad Had. rewrite EM.
    destruct (Z.eqb_spec ad (pr + 4 * Z.of_nat k)) as [E|_].
    + exfalso. apply (Had k); [lia|exact E].
    + apply IU. intros i Hi. apply Had. lia.
Qed.

Lemma mpi_sub_rvm_loop n :
  forall k s fuel,
    (k + n = len)%nat -> (1 <= n <= fuel)%nat -> Inv k s ->
    exists s', loop_bnez fuel MpiSub.LLOOP a3 s = Some s' /\ Inv len s'.
Proof.
  induction n as [|n IH]; intros k s fuel Hkn Hn HI; [lia|].
  destruct fuel as [|fuel]; [lia|]. cbn [loop_bnez].
  assert (HI' : Inv (S k) (run MpiSub.LLOOP s)) by (apply mpi_sub_rvm_step; [lia|exact HI]).
  set (s1 := run MpiSub.LLOOP s) in *.
  assert (E3 : get s1 a3 = Z.of_nat n).
  { destruct HI' as (_ & _ & _ & E & _). rewrite E. f_equal. lia. }
  rewrite E3. destruct n as [|n].
  - cbn [Z.of_nat Z.eqb]. exists s1. split; [reflexivity|].
    replace len with (S k) by lia. exact HI'.
  - destruct (Z.eqb_spec (Z.of_nat (S n)) 0) as [E|_]; [lia|].
    apply (IH (S k)); [lia|lia|exact HI'].
Qed.

Lemma mpi_sub_rvm_correct fuel :
  (1 <= len <= fuel)%nat ->
  get s0 a0 = pr -> get s0 a1 = pa -> get s0 a2 = pb ->
  get s0 a3 = Z.of_nat len ->
  exists s',
    MpiSub.mpi_sub_rvm fuel s0 = Some s' /\
    load_array (mem s') pr len = fst (mpi_sub r a b len) /\
    get s' a0 = snd (mpi_sub r a b len) /\
    (forall ad, (forall i, (i < len)%nat -> ad <> pr + 4 * Z.of_nat i) ->
       mem s' ad = mem s0 ad).
Proof.
  intros Hl G0 G1 G2 G3.
  assert (P2 : 2 ^ 32 = 4294967296) by reflexivity.
  unfold MpiSub.mpi_sub_rvm.
  destruct (mpi_sub_rvm_loop len 0 (mv MpiSub.bor zero s0) fuel) as (s' & E & HI).
  - lia.
  - exact Hl.
  - unfold Inv. cbn [for_up fst snd]. change (Z.of_nat 0) with 0.
    rewrite !Z.mul_0_r, !Z.add_0_r, Nat.sub_0_r.
    change (get (mv MpiSub.bor zero s0) a0) with (get s0 a0).
    change (get (mv MpiSub.bor zero s0) a1) with (get s0 a1).
    change (get (mv MpiSub.bor zero s0) a2) with (get s0 a2).
    change (get (mv MpiSub.bor zero s0) a3) with (get s0 a3).
    change (get (mv MpiSub.bor zero s0) a7) with 0.
    change (mem (mv MpiSub.bor zero s0)) with (mem s0).
    rewrite G0, G1, G2, G3, !Word_small by lia.
    repeat split; auto.
  - cbv zeta. change MpiSub.len with a3. rewrite E. exists (mv a0 MpiSub.bor s').
    destruct HI as (_ & _ & _ & _ & I7 & _ & IM & IU).
    change (mem (mv a0 MpiSub.bor s')) with (mem s').
    change (get (mv a0 MpiSub.bor s') a0) with (get s' a7).
    unfold mpi_sub. fold a b. fold cbody.
    destruct (for_up len 0 cbody (r, 1)) as [R d]. cbn [fst snd] in *.
    split; [reflexivity|]. split; [exact IM|]. split; [exact I7|exact IU].
Qed.

End mpi_sub_rvm_proof.

(** X27. The assembly routine [mpi_sub_rvm] computes what the C function
    [mpi_sub] computes: called with [len >= 1] and the addresses of three
    arrays of [len] words, of which [r] is apart from [a] and from [b] or
    starts where they start, it ends after [len] runs of its loop, has
    stored the [len] words that [mpi_sub(r, a, b, len)] writes, returns its
    borrow in [a0], and changes no other word of the memory. *)
Theorem X27_mpi_sub_rvm_is_mpi_sub (s : machine) (pr pa pb : Z) (len fuel : nat) :
  (1 <= len <= fuel)%nat ->
  get s a0 = pr -> get s a1 = pa -> get s a2 = pb -> get s a3 = Z.of_nat len ->
  0 <= pr /\ pr + 4 * Z.of_nat len <= 2 ^ 32 ->
  0 <= pa /\ pa + 4 * Z.of_nat len <= 2 ^ 32 ->
  0 <= pb /\ pb + 4 * Z.of_nat len <= 2 ^ 32 ->
  words (load_array (mem s) pa len) -> words (load_array (mem s) pb len) ->
  pr = pa \/ pr + 4 * Z.of_nat len <= pa \/ pa + 4 * Z.of_nat len <= pr ->
  pr = pb \/ pr + 4 * Z.of_nat len <= pb \/ pb + 4 * Z.of_nat len <= pr ->
  exists s',
    MpiSub.mpi_sub_rvm fuel s = Some s' /\
    load_array (mem s') pr len =
      fst (mpi_sub (load_array (mem s) pr len) (load_array (mem s) pa len)
             (load_array (mem s) pb len) len) /\
    get s' a0 =
      snd (mpi_sub (load_array (mem s) pr len) (load_array (mem s) pa len)
             (load_array (mem s) pb len) len) /\
    (forall ad, (forall i, (i < len)%nat -> ad <> pr + 4 * Z.of_nat i) ->
       mem s' ad = mem s ad).
Proof.
  intros Hl G0 G1 G2 G3 Hpr Hpa Hpb Wa Wb Da Db.
  apply (mpi_sub_rvm_correct s pr pa pb len); try assumption.
  - intros i j Hi Hj E. lia.
  - intros i j Hi Hj E. lia.
Qed.

Lemma X27_mpi_sub_rvm_is_mpi_sub_witness :
  exists s',
    MpiSub.mpi_sub_rvm 2 mach_sub = Some s' /\
    load_array (mem s') 16 2 =
      fst (mpi_sub (load_array (mem mach_sub) 16 2) (load_array (mem mach_sub) 0 2)
             (load_array (mem mach_sub) 8 2) 2) /\
    get s' a0 =
      snd (mpi_sub (load_array (mem mach_sub) 16 2) (load_array (mem mach_sub) 0 2)
             (load_array (mem mach_sub) 8 2) 2) /\
    (forall ad, (forall i, (i < 2)%nat -> ad <> 16 + 4 * Z.of_nat i) ->
       mem s' ad = mem mach_sub ad).
Proof.
  apply (X27_mpi_sub_rvm_is_mpi_sub mach_sub 16 0 8 2 2).
  - lia.
  - reflexivity.
  - reflexivity.
  - reflexivity.
  - reflexivity.
  - cbn. lia.
  - cbn. lia.
  - cbn. lia.
  - apply wordsb_words. reflexivity.
  - apply wordsb_words. reflexivity.
  - cbn. lia.
  - cbn. lia.
Defined.

(** ** mpi_shr_rvm *)

Lemma mpi_shr_LLOOP s :
  let cur := mem s (Word (get s a1 + 0)) in
  let s' := run MpiShr.LLOOP s in
  get s' a0 = Word (get s a0 + 4) /\
  get s' a1 = Word (get s a1 + 4) /\
  get s' a2 = Word (get s a2 + -1) /\
  get s' a5 = Z.shiftr cur 1 /\
  get s' a6 = get s a6 /\
  (forall ad, mem s' ad =
     if ad =? Word (get s a0 + 0)
     then Z.lor (Word (Z.shiftl cur 31)) (get s a5)
     else mem s ad).
Proof. repeat split. Qed.

Section mpi_shr_rvm_proof.

Variables (s0 : machine) (pr pa : Z) (len : nat).

Let a := load_array (mem s0) pa len.
Let r := load_array (mem s0) pr len.

Hypothesis Hpr : 0 <= pr /\ pr + 4 * Z.of_nat len <= 2 ^ 32.
Hypothesis Hpa : 0 <= pa /\ pa + 4 * Z.of_nat len <= 2 ^ 32.
Hypothesis Hra : forall i j, (i < len)%nat -> (j < len)%nat ->
  pr + 4 * Z.of_nat i = pa + 4 * Z.of_nat j -> i = j.

Let cbody : nat -> list Z -> list Z :=
  fun i r => upd r i (Z.lor (Word (Z.shiftl a.[S i] (WSIZE - 1))) (Z.shiftr a.[i] 1)).

Let Inv (k : nat) (s : machine) : Prop :=
  get s a0 = Word (pr + 4 * Z.of_nat k) /\
  get s a1 = Word (pa + 4 * Z.of_nat (S k)) /\
  get s a2 = Z.of_nat (len - 1 - k) /\
  get s a5 = Z.shiftr a.[k] 1 /\
  get s a6 = Z.land a.[0%nat] 1 /\
  load_array (mem s) pr len = for_up k 0 cbody r /\
  (forall ad, (forall i, (i < k)%nat -> ad <> pr + 4 * Z.of_nat i) ->
     mem s ad = mem s0 ad).

Lemma mpi_shr_rvm_step k s :
  (S k < len)%nat -> Inv k s -> Inv (S k) (run MpiShr.LLOOP s).
Proof.
  intros Hk (I0 & I1 & I2 & I5 & I6 & IM & IU).
  destruct (mpi_shr_LLOOP s) as (E0 & E1 & E2 & E5 & E6 & EM).
  set (s' := run MpiShr.LLOOP s) in *.
  assert (P2 : 2 ^ 32 = 4294967296) by reflexivity.
  assert (Aa : Word (get s a1 + 0) = pa + 4 * Z.of_nat (S k)).
  { rewrite I1, Z.add_0_r, Word_idem. apply Word_small. lia. }
  assert (Ar : Word (get s a0 + 0) = pr + 4 * Z.of_nat k).
  { rewrite I0, Z.add_0_r, Word_idem. apply Word_small. lia. }
  rewrite Aa in E5, EM. rewrite Ar in EM.
  assert (Va : mem s (pa + 4 * Z.of_nat (S k)) = a.[S k]).
  { unfold a. rewrite load_array_nth by exact Hk. apply IU.
    intros i Hi E. symmetry in E. apply Hra in E; lia. }
  rewrite Va in E5, EM. rewrite I5 in EM.
  unfold Inv. rewrite for_up_snoc. cbn [Nat.add].
  split; [rewrite E0, I0; replace (Z.of_nat (S k)) with (Z.of_nat k + 1) by lia;
          apply Word_add_4|].
  split; [rewrite E1, I1; replace (Z.of_nat (S (S k))) with (Z.of_nat (S k) + 1) by lia;
          apply Word_add_4|].
  split; [rewrite E2, I2; rewrite Word_small by lia; lia|].
  split; [exact E5|]. split; [rewrite E6; exact I6|].
  split.
  - unfold cbody at 1. rewrite <- IM. apply load_array_store; [lia|exact EM].
  - intros ad Had. rewrite EM.
    destruct (Z.eqb_spec ad (pr + 4 * Z.of_nat k)) as [E|_].
    + exfalso. apply (Had k); [lia|exact E].
    + apply IU. intros i Hi. apply Had. lia.
Qed.

Lemma mpi_shr_rvm_loop n :
  forall k s fuel,
    (S k + n = len)%nat -> (1 <= n <= fuel)%nat -> Inv k s ->
    exists s', loop_bnez fuel MpiShr.LLOOP a2 s = Some s' /\ Inv (len - 1) s'.
Proof.
  induction n as [|n IH]; intros k s fuel Hkn Hn HI; [lia|].
  destruct fuel as [|fuel]; [lia|]. cbn [loop_bnez].
  assert (HI' : Inv (S k) (run MpiShr.LLOOP s)) by (apply mpi_shr_rvm_step; [lia|exact HI]).
  set (s1 := run MpiShr.LLOOP s) in *.
  assert (E3 : get s1 a2 = Z.of_nat n).
  { destruct HI' as (_ & _ & E & _). rewrite E. f_equal. lia. }
  rewrite E3. destruct n as [|n].
  - cbn [Z.of_nat Z.eqb]. exists s1. split; [reflexivity|].
    replace (len - 1)%nat with (S k) by lia. exact HI'.
  - destruct (Z.eqb_spec (Z.of_nat (S n)) 0) as [E|_]; [lia|].
    apply (IH (S k)); [lia|lia|exact HI'].
Qed.

Lemma mpi_shr_LTERM s :
  Inv (len - 1) s -> (1 <= len)%nat ->
  load_array (mem (run MpiShr.LTERM s)) pr len = fst (mpi_shr r a len) /\
  get (run MpiShr.LTERM s) a0 = snd (mpi_shr r a len) /\
  (forall ad, (forall i, (i < len)%nat -> ad <> pr + 4 * Z.of_nat i) ->
     mem (run MpiShr.LTERM s) ad = mem s0 ad).
Proof.
  intros (I0 & I1 & I2 & I5 & I6 & IM & IU) Hl.
  assert (P2 : 2 ^ 32 = 4294967296) by reflexivity.
  assert (EM : forall ad, mem (run MpiShr.LTERM s) ad =
                 if ad =? Word (get s a0 + 0) then get s a5 else mem s ad)
    by reflexivity.
  assert (E0 : get (run MpiShr.LTERM s) a0 = get s a6) by reflexivity.
  set (s' := run MpiShr.LTERM s) in *.
  assert (Ar : Word (get s a0 + 0) = pr + 4 * Z.of_nat (len - 1)).
  { rewrite I0, Z.add_0_r, Word_idem. apply Word_small. lia. }
  rewrite Ar, I5 in EM.
  unfold mpi_shr. cbn [fst snd]. fold cbody.
  split; [|split].
  - rewrite <- IM. apply load_array_store; [lia|exact EM].
  - rewrite E0. exact I6.
  - intros ad Had. rewrite EM.
    destruct (Z.eqb_spec ad (pr + 4 * Z.of_nat (len - 1))) as [E|_].
    + exfalso. apply (Had (len - 1)%nat); [lia|exact E].
    + apply IU. intros i Hi. apply Had. lia.
Qed.

Lemma mpi_shr_rvm_correct fuel :
  (1 <= len <= fuel)%nat ->
  get s0 a0 = pr -> get s0 a1 = pa -> get s0 a2 = Z.of_nat len ->
  exists s',
    MpiShr.mpi_shr_rvm fuel s0 = Some s' /\
    load_array (mem s') pr len = fst (mpi_shr r a len) /\
    get s' a0 = snd (mpi_shr r a len) /\
    (forall ad, (forall i, (i < len)%nat -> ad <> pr + 4 * Z.of_nat i) ->
       mem s' ad = mem s0 ad).
Proof.
  intros Hl G0 G1 G2.
  assert (P2 : 2 ^ 32 = 4294967296) by reflexivity.
  unfold MpiShr.mpi_shr_rvm. cbv zeta.
  match goal with |- context [get ?t MpiShr.len =? 0] => set (s1 := t) end.
  assert (F0 : get s1 a0 = get s0 a0) by reflexivity.
  assert (F1 : get s1 a1 = Word (get s0 a1 + 4)) by reflexivity.
  assert (F2 : get s1 a2 = Word (get s0 a2 + -1)) by reflexivity.
  assert (F5 : get s1 a5 = Z.shiftr (mem s0 (Word (get s0 a1 + 0))) 1) by reflexivity.
  assert (F6 : get s1 a6 = Z.land (mem s0 (Word (get s0 a1 + 0))) (Word 1)) by reflexivity.
  assert (FM : mem s1 = mem s0) by reflexivity.
  clearbody s1.
  assert (Aa : Word (get s0 a1 + 0) = pa + 4 * Z.of_nat 0).
  { rewrite G1, Z.add_0_r. change (Z.of_nat 0) with 0. rewrite Z.mul_0_r, Z.add_0_r.
    apply Word_small. lia. }
  assert (Va : mem s0 (pa + 4 * Z.of_nat 0) = a.[0%nat]).
  { unfold a. rewrite load_array_nth by lia. reflexivity. }
  rewrite Aa, Va in F5, F6. change (Word 1) with 1 in F6.
  assert (HI : Inv 0 s1).
  { unfold Inv. cbn [for_up]. rewrite F0, F1, F2, FM, G0, G1, G2.
    change (Z.of_nat 0) with 0. change (Z.of_nat 1) with 1.
    rewrite Z.mul_0_r, Z.add_0_r, Z.mul_1_r, !Word_small by lia.
    repeat split; auto. rewrite Word_small by lia. lia. }
  change MpiShr.len with a2.
  destruct (Z.eqb_spec (get s1 a2) 0) as [E|E].
  - exists (run MpiShr.LTERM s1). split; [reflexivity|].
    apply mpi_shr_LTERM; [|lia].
    assert (len = 1%nat) by (destruct HI as (_ & _ & I2 & _); lia).
    subst len. exact HI.
  - assert (2 <= len)%nat by (destruct HI as (_ & _ & I2 & _); lia).
    destruct (mpi_shr_rvm_loop (len - 1) 0 s1 fuel) as (s' & EL & HI'); [lia|lia|exact HI|].
    rewrite EL. exists (run MpiShr.LTERM s'). split; [reflexivity|].
    apply mpi_shr_LTERM; [exact HI'|lia].
Qed.

End mpi_shr_rvm_proof.

(** X28. The assembly routine [mpi_shr_rvm] computes what the C function
    [mpi_shr] computes: called with [len >= 1] and the addresses of two
    arrays of [len] words, of which [r] is apart from [a] or starts where
    [a] starts, it ends after [len - 1] runs of its loop, has stored the
    [len] words that [mpi_shr(r, a, len)] writes, returns the bit shifted out
    in [a0], and changes no other word of the memory. *)
Theorem X28_mpi_shr_rvm_is_mpi_shr (s : machine) (pr pa : Z) (len fuel : nat) :
  (1 <= len <= fuel)%nat ->
  get s a0 = pr -> get s a1 = pa -> get s a2 = Z.of_nat len ->
  0 <= pr /\ pr + 4 * Z.of_nat len <= 2 ^ 32 ->
  0 <= pa /\ pa + 4 * Z.of_nat len <= 2 ^ 32 ->
  pr = pa \/ pr + 4 * Z.of_nat len <= pa \/ pa + 4 * Z.of_nat len <= pr ->
  exists s',
    MpiShr.mpi_shr_rvm fuel s = Some s' /\
    load_array (mem s') pr len =
      fst (mpi_shr (load_array (mem s) pr len) (load_array (mem s) pa len) len) /\
    get s' a0 =
      snd (mpi_shr (load_array (mem s) pr len) (load_array (mem s) pa len) len) /\
    (forall ad, (forall i, (i < len)%nat -> ad <> pr + 4 * Z.of_nat i) ->
       mem s' ad = mem s ad).
Proof.
  intros Hl G0 G1 G2 Hpr Hpa Da.
  apply (mpi_shr_rvm_correct s pr pa len); try assumption.
  intros i j Hi Hj E. lia.
Qed.

Lemma X28_mpi_shr_rvm_is_mpi_shr_witness :
  exists s',
    MpiShr.mpi_shr_rvm 3 mach_shr = Some s' /\
    load_array (mem s') 0 3 =
      fst (mpi_shr (load_array (mem mach_shr) 0 3) (load_array (mem mach_shr) 0 3) 3) /\
    get s' a0 =
      snd (mpi_shr (load_array (mem mach_shr) 0 3) (load_array (mem mach_shr) 0 3) 3) /\
    (forall ad, (forall i, (i < 3)%nat -> ad <> 0 + 4 * Z.of_nat i) ->
       mem s' ad = mem mach_shr ad).
Proof.
  apply (X28_mpi_shr_rvm_is_mpi_shr mach_shr 0 0 3 3).
  - lia.
  - reflexivity.
  - reflexivity.
  - reflexivity.
  - cbn. lia.
  - cbn. lia.
  - left. reflexivity.
Defined.

End RV32_loops.

(** ** Words of the unrolled routines *)

Lemma Word_cases3 v :
  - 2 * 2 ^ 32 <= v < 2 * 2 ^ 32 ->
  Word v = if v <? - 2 ^ 32 then v + 2 * 2 ^ 32
           else if v <? 0 then v + 2 ^ 32
           else if v <? 2 ^ 32 then v else v - 2 ^ 32.
Proof.
  intros H. unfold Word, WSIZE.
  destruct (Z.ltb_spec v (- 2 ^ 32)); [symmetry; apply (Z.mod_unique _ _ (-2)); lia|].
  destruct (Z.ltb_spec v 0); [symmetry; apply (Z.mod_unique _ _ (-1)); lia|].
  destruct (Z.ltb_spec v (2 ^ 32)); [apply Z.mod_small; lia|].
  symmetry; apply (Z.mod_unique _ _ 1); lia.
Qed.

Lemma divmod_intro X :
  exists Q M, X = 2 ^ 32 * Q + M /\ 0 <= M < 2 ^ 32 /\ X mod 2 ^ 32 = M /\ X / 2 ^ 32 = Q.
Proof.
  exists (X / 2 ^ 32), (X mod 2 ^ 32).
  split; [apply Z.div_mod; lia|]. split; [apply Z.mod_pos_bound; lia|]. auto.
Qed.

Ltac plain_term t :=
  lazymatch t with
  | context [Word _] => fail
  | context [if _ then _ else _] => fail
  | _ => idtac
  end.

Ltac word_cases :=
  repeat first
    [ match goal with
      | |- context [Word ?v] => rewrite (Word_cases3 v) by lia
      end
    | match goal with
      | |- context [if ?x <? ?y then _ else _] =>
          plain_term x; plain_term y; destruct (Z.ltb_spec x y); try lia
      end ].

Lemma sra1_carry c :
  - 2 <= c <= 1 ->
  Word (Z.shiftr (RV32.signed (Word c)) 1) = if c <? 0 then 2 ^ 32 - 1 else 0.
Proof.
  intros H. assert (c = -2 \/ c = -1 \/ c = 0 \/ c = 1) as [-> | [-> | [-> | ->]]] by lia;
    reflexivity.
Qed.

(** [SUBW_V2]: the incoming carry [c], which is -2, -1, 0 or 1, is added to
    [a - b]; the low word and the carry of the sum come out. *)
Lemma rv_subw_v2 a b c :
  0 <= a < 2 ^ 32 -> 0 <= b < 2 ^ 32 -> - 2 <= c <= 1 ->
  let cin := Word c in
  let t0 := Word (Z.shiftr (RV32.signed cin) 1) in
  let slo1 := Word (a + cin) in
  let shi1 := if slo1 <? cin then 1 else 0 in
  let shi2 := Word (shi1 + t0) in
  let t0' := if slo1 <? b then 1 else 0 in
  let slo := Word (slo1 - b) in
  let shi := Word (shi2 - t0') in
  slo = (c + a - b) mod 2 ^ 32 /\ shi = Word ((c + a - b) / 2 ^ 32) /\
  - 2 <= (c + a - b) / 2 ^ 32 <= 1.
Proof.
  intros Ha Hb Hc. cbv zeta. rewrite sra1_carry by exact Hc.
  assert (P2 : 2 ^ 32 = 4294967296) by reflexivity.
  pose proof (div_bounds (c + a - b) (-2) 1 ltac:(lia)) as HQ.
  destruct (divmod_intro (c + a - b)) as (Q & M & HX & HM & -> & EQ).
  rewrite EQ in *. clear EQ.
  split; [|split; [|exact HQ]]; word_cases; lia.
Qed.

(** [SUBW_V3] and [MULHIXC]: the top words with the bias [0x1FFFFFFFC]. *)
Lemma rv_subw_v3 a b :
  0 <= a < 2 ^ 32 -> 0 <= b < 2 ^ 32 ->
  let slo1 := Word (a + -4) in
  let t0 := if slo1 <? a then 1 else 0 in
  let shi1 := Word (t0 + 1) in
  let t0' := if slo1 <? b then 1 else 0 in
  let slo := Word (slo1 - b) in
  let shi := Word (shi1 - t0') in
  slo = (2 ^ 33 - 4 + a - b) mod 2 ^ 32 /\ shi = (2 ^ 33 - 4 + a - b) / 2 ^ 32 /\
  0 <= (2 ^ 33 - 4 + a - b) / 2 ^ 32 <= 2.
Proof.
  intros Ha Hb. cbv zeta.
  assert (P2 : 2 ^ 32 = 4294967296) by reflexivity.
  assert (P3 : 2 ^ 33 = 8589934592) by reflexivity.
  pose proof (div_bounds (2 ^ 33 - 4 + a - b) 0 2 ltac:(lia)) as HQ.
  destruct (divmod_intro (2 ^ 33 - 4 + a - b)) as (Q & M & HX & HM & -> & EQ).
  rewrite EQ in *. clear EQ.
  split; [|split; [|exact HQ]]; word_cases; lia.
Qed.

Lemma rv_mulhixc hi lo :
  0 <= hi <= 2 -> 0 <= lo < 2 ^ 32 ->
  let X := 2 ^ 32 * hi + lo in
  Word (Word (Word (Z.shiftl hi 1) + Z.shiftr lo 31) * 19) = 19 * (X / 2 ^ 31) /\
  Z.shiftr (Word (Z.shiftl lo 1)) 1 = X mod 2 ^ 31 /\
  0 <= X / 2 ^ 31 <= 5.
Proof.
  intros Hh Hl X.
  assert (P2 : 2 ^ 32 = 4294967296) by reflexivity.
  assert (P1 : 2 ^ 31 = 2147483648) by reflexivity.
  rewrite !Z.shiftl_mul_pow2, !Z.shiftr_div_pow2 by lia.
  change (2 ^ 1) with 2.
  assert (HQ : 0 <= X / 2 ^ 31 <= 5) by (apply div31_bounds; unfold X; lia).
  assert (E1 : X / 2 ^ 31 = 2 * hi + lo / 2 ^ 31).
  { unfold X. replace (2 ^ 32 * hi + lo) with (lo + (2 * hi) * 2 ^ 31) by lia.
    rewrite Z.div_add by lia. lia. }
  assert (E2 : X mod 2 ^ 31 = lo mod 2 ^ 31).
  { unfold X. replace (2 ^ 32 * hi + lo) with (lo + (2 * hi) * 2 ^ 31) by lia.
    apply Z.mod_add. lia. }
  pose proof (Z.div_mod lo (2 ^ 31) ltac:(lia)) as Hlo.
  pose proof (Z.mod_pos_bound lo (2 ^ 31) ltac:(lia)) as Hlm.
  assert (Hld : 0 <= lo / 2 ^ 31 <= 1) by (apply div31_bounds; lia).
  split; [|split; [|exact HQ]].
  - rewrite (Word_small (hi * 2)) by lia. rewrite (Word_small (hi * 2 + _)) by lia.
    rewrite Word_small by lia. lia.
  - rewrite E2.
    assert (EW : Word (lo * 2) = 2 * (lo mod 2 ^ 31)).
    { unfold Word, WSIZE. symmetry. apply (Z.mod_unique _ _ (lo / 2 ^ 31)); lia. }
    rewrite EW. rewrite Z.mul_comm. apply Z.div_mul. lia.
Qed.

(** [SUBW_V1]: four times [c] is taken from the carry [cin], then [a - b]
    is added. *)
Lemma rv_subw_v1 a b cin :
  0 <= a < 2 ^ 32 -> 0 <= b < 2 ^ 32 -> 0 <= cin <= 95 ->
  let ccw := Word (Z.shiftl 19 2) in
  let t0 := if cin <? ccw then 1 else 0 in
  let shi1 := Word (cin - ccw) in
  let slo1 := Word (a + shi1) in
  let shi2 := if slo1 <? shi1 then 1 else 0 in
  let shi3 := Word (shi2 - t0) in
  let t0' := if slo1 <? b then 1 else 0 in
  let slo := Word (slo1 - b) in
  let shi := Word (shi3 - t0') in
  slo = (cin - 76 + a - b) mod 2 ^ 32 /\ shi = Word ((cin - 76 + a - b) / 2 ^ 32) /\
  - 2 <= (cin - 76 + a - b) / 2 ^ 32 <= 1.
Proof.
  intros Ha Hb Hc. cbv zeta. change (Word (Z.shiftl 19 2)) with 76.
  assert (P2 : 2 ^ 32 = 4294967296) by reflexivity.
  pose proof (div_bounds (cin - 76 + a - b) (-2) 1 ltac:(lia)) as HQ.
  destruct (divmod_intro (cin - 76 + a - b)) as (Q & M & HX & HM & -> & EQ).
  rewrite EQ in *. clear EQ.
  split; [|split; [|exact HQ]]; word_cases; lia.
Qed.

Section RV32_gfp_sub.

Import RV32.

Lemma run_app l1 l2 s : run (l1 ++ l2) s = run l2 (run l1 s).
Proof. revert s; induction l1 as [|i l1 IH]; intros s; cbn [run app]; auto. Qed.

(** ** gfp_sub_rvm *)

Lemma rvm_sub_top s :
  let av := mem s (Word (get s a1 + 28)) in
  let bv := mem s (Word (get s a2 + 28)) in
  let slo1 := Word (av + -4) in
  let t0 := if slo1 <? av then 1 else 0 in
  let shi1 := Word (t0 + 1) in
  let t0' := if slo1 <? bv then 1 else 0 in
  let slo := Word (slo1 - bv) in
  let shi := Word (shi1 - t0') in
  let s' := run (GfpSub.SUBW_V3 GfpSub.cryw GfpSub.sumw 28
                 ++ [ li GfpSub.tmp1 GfpSub.CCON ]
                 ++ GfpSub.MULHIXC GfpSub.cryw GfpSub.rmsw GfpSub.tmp1
                      GfpSub.cryw GfpSub.sumw) s in
  get s' a0 = get s a0 /\ get s' a1 = get s a1 /\ get s' a2 = get s a2 /\
  get s' a4 = 19 /\
  get s' a6 = Word (Word (Word (Z.shiftl shi 1) + Z.shiftr slo 31) * 19) /\
  get s' a7 = Z.shiftr (Word (Z.shiftl slo 1)) 1 /\
  (forall ad, mem s' ad = mem s ad).
Proof. repeat split. Qed.

Lemma rvm_sub_v1 s :
  let av := mem s (Word (get s a1 + 0)) in
  let bv := mem s (Word (get s a2 + 0)) in
  let cin := get s a6 in
  let ccw := Word (Z.shiftl (get s a4) 2) in
  let t0 := if cin <? ccw then 1 else 0 in
  let shi1 := Word (cin - ccw) in
  let slo1 := Word (av + shi1) in
  let shi2 := if slo1 <? shi1 then 1 else 0 in
  let shi3 := Word (shi2 - t0) in
  let t0' := if slo1 <? bv then 1 else 0 in
  let slo := Word (slo1 - bv) in
  let shi := Word (shi3 - t0') in
  let s' := run (GfpSub.SUBW_V1 GfpSub.cryw GfpSub.sumw GfpSub.tmp1 GfpSub.cryw 0) s in
  get s' a0 = get s a0 /\ get s' a1 = get s a1 /\ get s' a2 = get s a2 /\
  get s' a7 = get s a7 /\ get s' a6 = shi /\
  (forall ad, mem s' ad = if ad =? Word (get s a0 + 0) then slo else mem s ad).
Proof. repeat split. Qed.

Lemma rvm_sub_v2 s i :
  let av := mem s (Word (get s a1 + i)) in
  let bv := mem s (Word (get s a2 + i)) in
  let cin := get s a6 in
  let t0 := Word (Z.shiftr (signed cin) 1) in
  let slo1 := Word (av + cin) in
  let shi1 := if slo1 <? cin then 1 else 0 in
  let shi2 := Word (shi1 + t0) in
  let t0' := if slo1 <? bv then 1 else 0 in
  let slo := Word (slo1 - bv) in
  let shi := Word (shi2 - t0') in
  let s' := run (GfpSub.SUBW_V2 GfpSub.cryw GfpSub.sumw GfpSub.cryw i) s in
  get s' a0 = get s a0 /\ get s' a1 = get s a1 /\ get s' a2 = get s a2 /\
  get s' a7 = get s a7 /\ get s' a6 = shi /\
  (forall ad, mem s' ad = if ad =? Word (get s a0 + i) then slo else mem s ad).
Proof. repeat split. Qed.

Lemma rvm_sub_v4 s :
  let s' := run (GfpSub.SUBW_V4 GfpSub.rmsw GfpSub.cryw 28) s in
  forall ad, mem s' ad =
    if ad =? Word (get s a0 + 28) then Word (Word (get s a7 + get s a6) + 4)
    else mem s ad.
Proof. reflexivity. Qed.

Lemma gfp_sub_rvm_blocks s :
  GfpSub.gfp_sub_rvm s =
  run (GfpSub.SUBW_V4 GfpSub.rmsw GfpSub.cryw 28)
   (run (GfpSub.SUBW_V2 GfpSub.cryw GfpSub.sumw GfpSub.cryw 24)
    (run (GfpSub.SUBW_V2 GfpSub.cryw GfpSub.sumw GfpSub.cryw 20)
     (run (GfpSub.SUBW_V2 GfpSub.cryw GfpSub.sumw GfpSub.cryw 16)
      (run (GfpSub.SUBW_V2 GfpSub.cryw GfpSub.sumw GfpSub.cryw 12)
       (run (GfpSub.SUBW_V2 GfpSub.cryw GfpSub.sumw GfpSub.cryw 8)
        (run (GfpSub.SUBW_V2 GfpSub.cryw GfpSub.sumw GfpSub.cryw 4)
         (run (GfpSub.SUBW_V1 GfpSub.cryw GfpSub.sumw GfpSub.tmp1 GfpSub.cryw 0)
          (run (GfpSub.SUBW_V3 GfpSub.cryw GfpSub.sumw 28
                ++ [ li GfpSub.tmp1 GfpSub.CCON ]
                ++ GfpSub.MULHIXC GfpSub.cryw GfpSub.rmsw GfpSub.tmp1
                     GfpSub.cryw GfpSub.sumw) s)))))))).
Proof.
  unfold GfpSub.gfp_sub_rvm. rewrite <- !run_app, <- !app_assoc. reflexivity.
Qed.

Section gfp_sub_rvm_proof.

Variables (s0 : machine) (pr pa pb : Z).

Let a := load_array (mem s0) pa LEN.
Let b := load_array (mem s0) pb LEN.
Let r := load_array (mem s0) pr LEN.
Let top := 2 ^ 33 - 4 + a.[7%nat] - b.[7%nat].

Hypothesis G0 : get s0 a0 = pr.
Hypothesis G1 : get s0 a1 = pa.
Hypothesis G2 : get s0 a2 = pb.
Hypothesis Hpr : 0 <= pr /\ pr + 32 <= 2 ^ 32.
Hypothesis Hpa : 0 <= pa /\ pa + 32 <= 2 ^ 32.
Hypothesis Hpb : 0 <= pb /\ pb + 32 <= 2 ^ 32.
Hypothesis Wa : words a.
Hypothesis Wb : words b.
Hypothesis Hra : forall i j, (i < 8)%nat -> (j < 8)%nat ->
  pr + 4 * Z.of_nat i = pa + 4 * Z.of_nat j -> i = j.
Hypothesis Hrb : forall i j, (i < 8)%nat -> (j < 8)%nat ->
  pr + 4 * Z.of_nat i = pb + 4 * Z.of_nat j -> i = j.

Let InvS (j : nat) (s : machine) : Prop :=
  get s a0 = pr /\ get s a1 = pa /\ get s a2 = pb /\
  get s a7 = top mod 2 ^ 31 /\
  (exists c, get s a6 = Word c /\ - 2 <= c <= 1 /\
     value (firstn j (load_array (mem s) pr LEN)) + c * pw j =
       19 * (top / 2 ^ 31) - 76 + value (firstn j a) - value (firstn j b)) /\
  words (firstn j (load_array (mem s) pr LEN)) /\
  (forall ad, (forall i, (i < j)%nat -> ad <> pr + 4 * Z.of_nat i) ->
     mem s ad = mem s0 ad).

Lemma gfp_sub_rvm_first :
  InvS 1 (run (GfpSub.SUBW_V1 GfpSub.cryw GfpSub.sumw GfpSub.tmp1 GfpSub.cryw 0)
           (run (GfpSub.SUBW_V3 GfpSub.cryw GfpSub.sumw 28
                 ++ [ li GfpSub.tmp1 GfpSub.CCON ]
                 ++ GfpSub.MULHIXC GfpSub.cryw GfpSub.rmsw GfpSub.tmp1
                      GfpSub.cryw GfpSub.sumw) s0)).
Proof.
  assert (P2 : 2 ^ 32 = 4294967296) by reflexivity.
  destruct (rvm_sub_top s0) as (T0 & T1 & T2 & T4 & T6 & T7 & TM).
  set (s1 := run (_ ++ _) s0) in *.
  destruct (rvm_sub_v1 s1) as (V0 & V1 & V2 & V7 & V6 & VM).
  set (s2 := run _ s1) in *.
  cbv zeta in T6, T7, V6, VM.
  rewrite G1, G2 in T6, T7.
  rewrite (Word_small (pa + 28)), (Word_small (pb + 28)) in T6, T7 by lia.
  assert (A7 : mem s0 (pa + 28) = a.[7%nat])
    by (unfold a; rewrite load_array_nth by (change LEN with 8%nat; lia); reflexivity).
  assert (B7 : mem s0 (pb + 28) = b.[7%nat])
    by (unfold b; rewrite load_array_nth by (change LEN with 8%nat; lia); reflexivity).
  rewrite A7, B7 in T6, T7.
  pose proof (words_nth a 7 Wa) as Ha7. pose proof (words_nth b 7 Wb) as Hb7.
  unfold WSIZE in Ha7, Hb7.
  destruct (rv_subw_v3 a.[7%nat] b.[7%nat] Ha7 Hb7) as (S1 & S2 & S3).
  cbv zeta in S1, S2. fold top in S1, S2, S3.
  rewrite S1 in T6, T7. rewrite S2 in T6.
  pose proof (Z.mod_pos_bound top (2 ^ 32) ltac:(lia)) as HM.
  destruct (rv_mulhixc (top / 2 ^ 32) (top mod 2 ^ 32) S3 HM) as (M1 & M2 & M3).
  cbv zeta in M1, M2, M3.
  rewrite <- (Z.div_mod top (2 ^ 32)) in M1, M2, M3 by lia.
  rewrite M1 in T6. rewrite M2 in T7.
  rewrite T1, T2, T4, T6, !TM, G1, G2, !Z.add_0_r in V6.
  rewrite (Word_small pa), (Word_small pb) in V6 by lia.
  rewrite T0, T1, T2, T4, T6, !TM, G0, G1, G2, !Z.add_0_r in VM.
  rewrite (Word_small pa), (Word_small pb), (Word_small pr) in VM by lia.
  assert (A0 : mem s0 pa = a.[0%nat]).
  { unfold a. rewrite load_array_nth by (change LEN with 8%nat; lia).
    f_equal. change (Z.of_nat 0) with 0. lia. }
  assert (B0 : mem s0 pb = b.[0%nat]).
  { unfold b. rewrite load_array_nth by (change LEN with 8%nat; lia).
    f_equal. change (Z.of_nat 0) with 0. lia. }
  rewrite A0, B0 in V6, VM.
  pose proof (words_nth a 0 Wa) as Ha0. pose proof (words_nth b 0 Wb) as Hb0.
  unfold WSIZE in Ha0, Hb0.
  destruct (rv_subw_v1 a.[0%nat] b.[0%nat] (19 * (top / 2 ^ 31)) Ha0 Hb0 ltac:(lia))
    as (R1 & R2 & R3).
  cbv zeta in R1, R2. rewrite R2 in V6. rewrite R1 in VM.
  set (X := 19 * (top / 2 ^ 31) - 76 + a.[0%nat] - b.[0%nat]) in *.
  assert (ER : load_array (mem s2) pr LEN = upd (load_array (mem s1) pr LEN) 0 (X mod 2 ^ 32)).
  { apply load_array_store; [change LEN with 8%nat; lia|].
    intros ad. rewrite VM. change (Z.of_nat 0) with 0. rewrite Z.mul_0_r, Z.add_0_r.
    reflexivity. }
  unfold InvS.
  split; [rewrite V0, T0; exact G0|]. split; [rewrite V1, T1; exact G1|].
  split; [rewrite V2, T2; exact G2|]. split; [rewrite V7; exact T7|].
  assert (L1 : (0 < length (load_array (mem s1) pr LEN))%nat)
    by (rewrite load_array_length; change LEN with 8%nat; lia).
  split; [|split].
  - exists (X / 2 ^ 32). split; [exact V6|]. split; [exact R3|].
    rewrite ER, value_firstn_S_upd by exact L1.
    rewrite !value_firstn_S. cbn [firstn value]. rewrite pw_0.
    pose proof (carry_step X 0) as HC. rewrite pw_0 in HC.
    change (pw 1) with (2 ^ 32) in *. unfold X in *. lia.
  - rewrite ER. apply words_firstn_S_upd; [exact L1|constructor|].
    apply Z.mod_pos_bound. lia.
  - intros ad Had. rewrite VM.
    destruct (Z.eqb_spec ad pr) as [E|_].
    + exfalso. apply (Had 0%nat); [lia|]. change (Z.of_nat 0) with 0. lia.
    + apply TM.
Qed.

Lemma gfp_sub_rvm_next j s :
  (1 <= j <= 6)%nat -> InvS j s ->
  InvS (S j) (run (GfpSub.SUBW_V2 GfpSub.cryw GfpSub.sumw GfpSub.cryw
                     (4 * Z.of_nat j)) s).
Proof.
  intros Hj (I0 & I1 & I2 & I7 & (c & I6 & Hc & IV) & IW & IU).
  assert (P2 : 2 ^ 32 = 4294967296) by reflexivity.
  destruct (rvm_sub_v2 s (4 * Z.of_nat j)) as (V0 & V1 & V2 & V7 & V6 & VM).
  set (s' := run _ s) in *.
  cbv zeta in V6, VM. rewrite I1, I2, I6 in V6. rewrite I0, I1, I2, I6 in VM.
  rewrite (Word_small (pa + _)), (Word_small (pb + _)) in V6 by lia.
  rewrite (Word_small (pa + _)), (Word_small (pb + _)), (Word_small (pr + _)) in VM by lia.
  assert (Aj : mem s (pa + 4 * Z.of_nat j) = a.[j]).
  { unfold a. rewrite load_array_nth by (change LEN with 8%nat; lia). apply IU.
    intros i Hi E. symmetry in E. apply Hra in E; lia. }
  assert (Bj : mem s (pb + 4 * Z.of_nat j) = b.[j]).
  { unfold b. rewrite load_array_nth by (change LEN with 8%nat; lia). apply IU.
    intros i Hi E. symmetry in E. apply Hrb in E; lia. }
  rewrite Aj, Bj in V6, VM.
  pose proof (words_nth a j Wa) as Haj. pose proof (words_nth b j Wb) as Hbj.
  unfold WSIZE in Haj, Hbj.
  destruct (rv_subw_v2 a.[j] b.[j] c Haj Hbj Hc) as (R1 & R2 & R3).
  cbv zeta in R1, R2. rewrite R2 in V6. rewrite R1 in VM.
  set (X := c + a.[j] - b.[j]) in *.
  assert (ER : load_array (mem s') pr LEN = upd (load_array (mem s) pr LEN) j (X mod 2 ^ 32)).
  { apply load_array_store; [change LEN with 8%nat; lia|exact VM]. }
  assert (L1 : (j < length (load_array (mem s) pr LEN))%nat)
    by (rewrite load_array_length; change LEN with 8%nat; lia).
  unfold InvS.
  split; [rewrite V0; exact I0|]. split; [rewrite V1; exact I1|].
  split; [rewrite V2; exact I2|]. split; [rewrite V7; exact I7|].
  split; [|split].
  - exists (X / 2 ^ 32). split; [exact V6|]. split; [exact R3|].
    rewrite ER, value_firstn_S_upd by exact L1.
    rewrite !(value_firstn_S _ j).
    pose proof (carry_step X j) as HC.
    assert (HX : X * pw j = c * pw j + a.[j] * pw j - b.[j] * pw j) by (unfold X; ring).
    clearbody X. lia.
  - rewrite ER. apply words_firstn_S_upd; [exact L1|exact IW|].
    apply Z.mod_pos_bound. lia.
  - intros ad Had. rewrite VM.
    destruct (Z.eqb_spec ad (pr + 4 * Z.of_nat j)) as [E|_].
    + exfalso. apply (Had j); [lia|exact E].
    + apply IU. intros i Hi. apply Had. lia.
Qed.

Lemma gfp_sub_rvm_correct :
  load_array (mem (GfpSub.gfp_sub_rvm s0)) pr LEN = gfp_sub r a b /\
  (forall ad, (forall i, (i < 8)%nat -> ad <> pr + 4 * Z.of_nat i) ->
     mem (GfpSub.gfp_sub_rvm s0) ad = mem s0 ad).
Proof.
  assert (P2 : 2 ^ 32 = 4294967296) by reflexivity.
  assert (P1 : 2 ^ 31 = 2147483648) by reflexivity.
  rewrite gfp_sub_rvm_blocks.
  pose proof gfp_sub_rvm_first as H1. set (s1 := run _ (run _ s0)) in *.
  pose proof (gfp_sub_rvm_next 1 s1 ltac:(lia) H1) as H2. set (s2 := run _ s1) in *.
  pose proof (gfp_sub_rvm_next 2 s2 ltac:(lia) H2) as H3. set (s3 := run _ s2) in *.
  pose proof (gfp_sub_rvm_next 3 s3 ltac:(lia) H3) as H4. set (s4 := run _ s3) in *.
  pose proof (gfp_sub_rvm_next 4 s4 ltac:(lia) H4) as H5. set (s5 := run _ s4) in *.
  pose proof (gfp_sub_rvm_next 5 s5 ltac:(lia) H5) as H6. set (s6 := run _ s5) in *.
  pose proof (gfp_sub_rvm_next 6 s6 ltac:(lia) H6) as H7. set (s7 := run _ s6) in *.
  clearbody s7. clear H1 H2 H3 H4 H5 H6.
  destruct H7 as (I0 & I1 & I2 & I7 & (c & I6 & Hc & IV) & IW & IU).
  pose proof (rvm_sub_v4 s7) as VM. cbv zeta in VM.
  set (s8 := run _ s7) in *.
  rewrite I0, I7, I6, (Word_small (pr + 28)) in VM by lia.
  pose proof (Z.mod_pos_bound top (2 ^ 31) ltac:(lia)) as HM.
  set (msw := top mod 2 ^ 31) in *.
  assert (EV : Word (Word (msw + Word c) + 4) = msw + c + 4) by (word_cases; lia).
  rewrite EV in VM.
  assert (ER : load_array (mem s8) pr LEN = upd (load_array (mem s7) pr LEN) 7 (msw + c + 4)).
  { apply load_array_store; [change LEN with 8%nat; lia|exact VM]. }
  assert (Fa : felem a) by (split; [apply load_array_length|exact Wa]).
  assert (Fb : felem b) by (split; [apply load_array_length|exact Wb]).
  assert (Lr : length r = LEN) by apply load_array_length.
  destruct (gfp_sub_spec r a b Lr Fa Fb) as ((LC & WC) & _ & VC).
  fold top in VC.
  destruct (felem_upd_top (load_array (mem s7) pr LEN) (msw + c + 4)
              (load_array_length _ _ _) IW ltac:(lia)) as ((LA & WA) & VA).
  split.
  - rewrite ER. apply value_inj; [exact WA|exact WC|congruence|].
    rewrite VA, VC. rewrite (value_LEN a (proj1 Fa)), (value_LEN b (proj1 Fb)).
    pose proof (split_31 top) as HT. fold msw in HT.
    rewrite pw_7 in *. rewrite p_val.
    assert (HTop : a.[7%nat] - b.[7%nat] = 2 ^ 31 * (top / 2 ^ 31) + msw - 2 ^ 33 + 4)
      by (unfold top in HT |- *; lia).
    clearbody msw top. 
    generalize dependent (value (firstn 7 (load_array (mem s7) pr LEN))).
    generalize dependent (value (firstn 7 a)). generalize dependent (value (firstn 7 b)).
    generalize dependent (top / 2 ^ 31).
    intros. nia.
  - intros ad Had. rewrite VM.
    destruct (Z.eqb_spec ad (pr + 28)) as [E|_].
    + exfalso. apply (Had 7%nat); [lia|exact E].
    + apply IU. intros i Hi. apply Had. lia.
Qed.

End gfp_sub_rvm_proof.

(** X29. The assembly routine [gfp_sub_rvm] computes what the C function
    [gfp_sub] computes: called with the addresses of three arrays of eight
    words, of which [r] is apart from [a] and from [b] or starts where they
    start, it stores the eight words that [gfp_sub(r, a, b)] writes and
    changes no other word of the memory. *)
Theorem X29_gfp_sub_rvm_is_gfp_sub (s : machine) (pr pa pb : Z) :
  get s a0 = pr -> get s a1 = pa -> get s a2 = pb ->
  0 <= pr /\ pr + 32 <= 2 ^ 32 ->
  0 <= pa /\ pa + 32 <= 2 ^ 32 ->
  0 <= pb /\ pb + 32 <= 2 ^ 32 ->
  words (load_array (mem s) pa LEN) -> words (load_array (mem s) pb LEN) ->
  pr = pa \/ pr + 32 <= pa \/ pa + 32 <= pr ->
  pr = pb \/ pr + 32 <= pb \/ pb + 32 <= pr ->
  load_array (mem (GfpSub.gfp_sub_rvm s)) pr LEN =
    gfp_sub (load_array (mem s) pr LEN) (load_array (mem s) pa LEN)
      (load_array (mem s) pb LEN) /\
  (forall ad, (forall i, (i < 8)%nat -> ad <> pr + 4 * Z.of_nat i) ->
     mem (GfpSub.gfp_sub_rvm s) ad = mem s ad).
Proof.
  intros G0 G1 G2 Hpr Hpa Hpb Wa Wb Da Db.
  apply (gfp_sub_rvm_correct s pr pa pb); try assumption.
  - intros i j Hi Hj E. lia.
  - intros i j Hi Hj E. lia.
Qed.

Lemma X29_gfp_sub_rvm_is_gfp_sub_witness :
  load_array (mem (GfpSub.gfp_sub_rvm mach_gsub)) 64 LEN =
    gfp_sub (load_array (mem mach_gsub) 64 LEN) (load_array (mem mach_gsub) 0 LEN)
      (load_array (mem mach_gsub) 32 LEN) /\
  (forall ad, (forall i, (i < 8)%nat -> ad <> 64 + 4 * Z.of_nat i) ->
     mem (GfpSub.gfp_sub_rvm mach_gsub) ad = mem mach_gsub ad).
Proof.
  apply (X29_gfp_sub_rvm_is_gfp_sub mach_gsub 64 0 32).
  - reflexivity.
  - reflexivity.
  - reflexivity.
  - cbn. lia.
  - cbn. lia.
  - cbn. lia.
  - apply wordsb_words. reflexivity.
  - apply wordsb_words. reflexivity.
  - cbn. lia.
  - cbn. lia.
Defined.

End RV32_gfp_sub.

(** ** gfp_hlv_rvm *)

Lemma shl31_word d : Word (Z.shiftl d 31) = (d mod 2) * 2 ^ 31.
Proof.
  unfold Word, WSIZE. rewrite Z.shiftl_mul_pow2 by lia.
  pose proof (Z.div_mod d 2 ltac:(lia)) as Hd.
  pose proof (Z.mod_pos_bound d 2 ltac:(lia)) as Hb.
  symmetry. apply (Z.mod_unique _ _ (d / 2)); lia.
Qed.

Lemma lxor_shiftl_add x y n :
  0 <= n -> 0 <= y < 2 ^ n -> Z.lxor (x * 2 ^ n) y = x * 2 ^ n + y.
Proof.
  intros Hn Hy. symmetry. apply Z.add_nocarry_lxor.
  apply Z.bits_inj'. intros i Hi. rewrite Z.land_spec, Z.bits_0.
  destruct (Z.lt_ge_cases i n) as [Hlt|Hge].
  - rewrite Z.mul_pow2_bits_low by lia. reflexivity.
  - rewrite <- (Z.mod_small y (2 ^ n)) by lia.
    rewrite Z.mod_pow2_bits_high by lia. apply andb_false_r.
Qed.

(** The word stored for [r[i-1]]: the upper 31 bits of [old] under the
    lowest bit of [d]. *)
Lemma half_or old d :
  0 <= old < 2 ^ 32 ->
  Z.lor (Z.shiftr old 1) (Word (Z.shiftl d 31)) = old / 2 + (d mod 2) * 2 ^ 31 /\
  Z.lxor (Z.shiftr old 1) (Word (Z.shiftl d 31)) = old / 2 + (d mod 2) * 2 ^ 31 /\
  0 <= old / 2 + (d mod 2) * 2 ^ 31 < 2 ^ 32.
Proof.
  intros Ho. rewrite shl31_word, shiftr_1.
  assert (Hh : 0 <= old / 2 < 2 ^ 31).
  { split; [apply Z.div_pos; lia|apply Z.div_lt_upper_bound; lia]. }
  pose proof (Z.mod_pos_bound d 2 ltac:(lia)) as Hb.
  split; [|split].
  - rewrite Z.lor_comm, lor_shiftl_add by lia. lia.
  - rewrite Z.lxor_comm, lxor_shiftl_add by lia. lia.
  - lia.
Qed.

Lemma rv_hlvw_v1 a :
  0 <= a < 2 ^ 32 ->
  let o := a mod 2 in
  let mask := Word (0 - Z.land a (Word 1)) in
  let tmp0 := Z.land (Word 19) mask in
  let bb := if a <? tmp0 then 1 else 0 in
  let d := Word (a - tmp0) in
  mask = o * (2 ^ 32 - 1) /\ d - bb * 2 ^ 32 = a - 19 * o /\ 0 <= bb <= o /\
  0 <= d < 2 ^ 32 /\ d mod 2 = 0.
Proof.
  intros Ha. cbv zeta. change (Word 1) with 1. change (Word 19) with 19.
  rewrite land_1.
  assert (P2 : 2 ^ 32 = 4294967296) by reflexivity.
  pose proof (Z.div_mod a 2 ltac:(lia)) as Hd.
  pose proof (Z.mod_pos_bound a 2 ltac:(lia)) as Hb.
  assert (EM : Word (0 - a mod 2) = a mod 2 * (2 ^ 32 - 1)).
  { assert (a mod 2 = 0 \/ a mod 2 = 1) as [E|E] by lia; rewrite E; reflexivity. }
  assert (ET : Z.land 19 (Word (0 - a mod 2)) = 19 * (a mod 2)).
  { assert (a mod 2 = 0 \/ a mod 2 = 1) as [E|E] by lia; rewrite E; reflexivity. }
  rewrite ET, EM.
  generalize dependent (a mod 2). generalize dependent (a / 2). intros q o Hd Ho.
  assert (Hw : 0 <= Word (a - 19 * o) < 2 ^ 32) by (apply Z.mod_pos_bound; lia).
  split; [reflexivity|]. split; [|split; [|split; [exact Hw|]]].
  - word_cases; lia.
  - destruct (Z.ltb_spec a (19 * o)); lia.
  - rewrite (Word_cases (a - 19 * o)) by lia.
    destruct (Z.ltb_spec (a - 19 * o) 0).
    + replace (a - 19 * o + 2 ^ 32) with (0 + (q - 9 * o + 2 ^ 31) * 2) by lia.
      rewrite Z.mod_add by lia. reflexivity.
    + replace (a - 19 * o) with (0 + (q - 9 * o) * 2) by lia.
      rewrite Z.mod_add by lia. reflexivity.
Qed.

Lemma rv_hlvw_v2 a bb :
  0 <= a < 2 ^ 32 -> 0 <= bb <= 1 ->
  let d := Word (a - bb) in
  let bb' := if a <? bb then 1 else 0 in
  d - bb' * 2 ^ 32 = a - bb /\ 0 <= bb' <= bb /\ 0 <= d < 2 ^ 32.
Proof.
  intros Ha Hb. cbv zeta.
  assert (P2 : 2 ^ 32 = 4294967296) by reflexivity.
  assert (Hw : 0 <= Word (a - bb) < 2 ^ 32) by (apply Z.mod_pos_bound; lia).
  split; [|split; [|exact Hw]].
  - word_cases; lia.
  - destruct (Z.ltb_spec a bb); lia.
Qed.

Lemma rv_hlvw_v3 a bb o :
  0 <= a < 2 ^ 32 -> 0 <= bb <= o -> o = 0 \/ o = 1 ->
  let m1 := Word (Z.shiftl (o * (2 ^ 32 - 1)) 31) in
  let m2 := Word (m1 - bb) in
  let sum := Word (a + m2) in
  let cry := if sum <? m2 then 1 else 0 in
  sum + cry * 2 ^ 32 = a + o * 2 ^ 31 - bb /\ 0 <= sum < 2 ^ 32 /\
  0 <= cry <= 1.
Proof.
  intros Ha Hb Ho. cbv zeta.
  assert (P2 : 2 ^ 32 = 4294967296) by reflexivity.
  assert (P1 : 2 ^ 31 = 2147483648) by reflexivity.
  assert (E1 : Word (Z.shiftl (o * (2 ^ 32 - 1)) 31) = o * 2 ^ 31).
  { destruct Ho as [-> | ->]; reflexivity. }
  rewrite E1.
  assert (Hw : 0 <= Word (a + Word (o * 2 ^ 31 - bb)) < 2 ^ 32)
    by (apply Z.mod_pos_bound; lia).
  split; [|split; [exact Hw|]].
  - word_cases; lia.
  - destruct (_ <? _); lia.
Qed.

Section RV32_gfp_hlv.

Import RV32.

Lemma rvm_hlv_v1 s :
  let av := mem s (Word (get s a1 + 0)) in
  let mask := Word (0 - Z.land av (Word 1)) in
  let tmp0 := Z.land (Word 19) mask in
  let s' := run (GfpHlv.HLVW_V1 GfpHlv.bbit GfpHlv.dif0 0) s in
  get s' a0 = get s a0 /\ get s' a1 = get s a1 /\
  get s' a2 = mask /\
  get s' a5 = Word (av - tmp0) /\
  get s' a7 = (if av <? tmp0 then 1 else 0) /\
  (forall ad, mem s' ad = mem s ad).
Proof. repeat split. Qed.

(** [HLVW_V2 bbit, dif1, bbit, dif0, i] and [HLVW_V2 bbit, dif0, bbit, dif1, i]. *)
Lemma rvm_hlv_v2_odd s i :
  let av := mem s (Word (get s a1 + i)) in
  let d := Word (av - get s a7) in
  let s' := run (GfpHlv.HLVW_V2 GfpHlv.bbit GfpHlv.dif1 GfpHlv.bbit GfpHlv.dif0 i) s in
  get s' a0 = get s a0 /\ get s' a1 = get s a1 /\ get s' a2 = get s a2 /\
  get s' a6 = d /\
  get s' a7 = (if av <? get s a7 then 1 else 0) /\
  (forall ad, mem s' ad =
     if ad =? Word (get s a0 + (i - 4))
     then Z.lor (Z.shiftr (get s a5) 1) (Word (Z.shiftl d 31))
     else mem s ad).
Proof. repeat split. Qed.

Lemma rvm_hlv_v2_even s i :
  let av := mem s (Word (get s a1 + i)) in
  let d := Word (av - get s a7) in
  let s' := run (GfpHlv.HLVW_V2 GfpHlv.bbit GfpHlv.dif0 GfpHlv.bbit GfpHlv.dif1 i) s in
  get s' a0 = get s a0 /\ get s' a1 = get s a1 /\ get s' a2 = get s a2 /\
  get s' a5 = d /\
  get s' a7 = (if av <? get s a7 then 1 else 0) /\
  (forall ad, mem s' ad =
     if ad =? Word (get s a0 + (i - 4))
     then Z.lor (Z.shiftr (get s a6) 1) (Word (Z.shiftl d 31))
     else mem s ad).
Proof. repeat split. Qed.

Lemma rvm_hlv_v3 s :
  let av := mem s (Word (get s a1 + 28)) in
  let m1 := Word (Z.shiftl (get s a2) 31) in
  let m2 := Word (m1 - get s a7) in
  let sum := Word (av + m2) in
  let cry := if sum <? m2 then 1 else 0 in
  let r6 := Z.lxor (Z.shiftr (get s a5) 1) (Word (Z.shiftl sum 31)) in
  let r7 := Z.lxor (Z.shiftr sum 1) (Word (Z.shiftl cry 31)) in
  let s' := run (GfpHlv.HLVW_V3 GfpHlv.bbit GfpHlv.dif1 GfpHlv.bbit GfpHlv.dif0 28) s in
  forall ad, mem s' ad =
    if ad =? Word (get s a0 + 28) then r7
    else if ad =? Word (get s a0 + (28 - 4)) then r6
    else mem s ad.
Proof. reflexivity. Qed.

Lemma gfp_hlv_rvm_blocks s :
  GfpHlv.gfp_hlv_rvm s =
  run (GfpHlv.HLVW_V3 GfpHlv.bbit GfpHlv.dif1 GfpHlv.bbit GfpHlv.dif0 28)
   (run (GfpHlv.HLVW_V2 GfpHlv.bbit GfpHlv.dif0 GfpHlv.bbit GfpHlv.dif1 24)
    (run (GfpHlv.HLVW_V2 GfpHlv.bbit GfpHlv.dif1 GfpHlv.bbit GfpHlv.dif0 20)
     (run (GfpHlv.HLVW_V2 GfpHlv.bbit GfpHlv.dif0 GfpHlv.bbit GfpHlv.dif1 16)
      (run (GfpHlv.HLVW_V2 GfpHlv.bbit GfpHlv.dif1 GfpHlv.bbit GfpHlv.dif0 12)
       (run (GfpHlv.HLVW_V2 GfpHlv.bbit GfpHlv.dif0 GfpHlv.bbit GfpHlv.dif1 8)
        (run (GfpHlv.HLVW_V2 GfpHlv.bbit GfpHlv.dif1 GfpHlv.bbit GfpHlv.dif0 4)
         (run (GfpHlv.HLVW_V1 GfpHlv.bbit GfpHlv.dif0 0) s))))))).
Proof.
  unfold GfpHlv.gfp_hlv_rvm. rewrite <- !run_app, <- ?app_assoc. reflexivity.
Qed.

Section gfp_hlv_rvm_proof.

Variables (s0 : machine) (pr pa : Z).

Let a := load_array (mem s0) pa LEN.
Let r := load_array (mem s0) pr LEN.
Let o := a.[0%nat] mod 2.

Hypothesis G0 : get s0 a0 = pr.
Hypothesis G1 : get s0 a1 = pa.
Hypothesis Hpr : 0 <= pr /\ pr + 32 <= 2 ^ 32.
Hypothesis Hpa : 0 <= pa /\ pa + 32 <= 2 ^ 32.
Hypothesis Wa : words a.
Hypothesis Hra : forall i j, (i < 8)%nat -> (j < 8)%nat ->
  pr + 4 * Z.of_nat i = pa + 4 * Z.of_nat j -> i = j.

(** [j] words of [a] are read, [j - 1] words of [r] written; [dr] holds
    the last difference word. *)
Let InvH (dr : reg) (j : nat) (s : machine) : Prop :=
  get s a0 = pr /\ get s a1 = pa /\ get s a2 = o * (2 ^ 32 - 1) /\
  0 <= get s dr < 2 ^ 32 /\ 0 <= get s a7 <= o /\
  2 * value (firstn (j - 1) (load_array (mem s) pr LEN))
    + 2 * (get s dr / 2) * pw (j - 1) - get s a7 * pw j
    = value (firstn j a) - 19 * o /\
  words (firstn (j - 1) (load_array (mem s) pr LEN)) /\
  (forall ad, (forall i, (i < j - 1)%nat -> ad <> pr + 4 * Z.of_nat i) ->
     mem s ad = mem s0 ad).

Lemma o_cases : o = 0 \/ o = 1.
Proof. unfold o. pose proof (Z.mod_pos_bound a.[0%nat] 2 ltac:(lia)). lia. Qed.

Lemma gfp_hlv_rvm_first :
  InvH a5 1 (run (GfpHlv.HLVW_V1 GfpHlv.bbit GfpHlv.dif0 0) s0).
Proof.
  assert (P2 : 2 ^ 32 = 4294967296) by reflexivity.
  destruct (rvm_hlv_v1 s0) as (V0 & V1 & V2 & V5 & V7 & VM).
  set (s1 := run _ s0) in *. cbv zeta in V2, V5, V7.
  rewrite G1, Z.add_0_r, (Word_small pa) in V2, V5, V7 by lia.
  assert (A0 : mem s0 pa = a.[0%nat]).
  { unfold a. rewrite load_array_nth by (change LEN with 8%nat; lia).
    f_equal. change (Z.of_nat 0) with 0. lia. }
  rewrite A0 in V2, V5, V7.
  pose proof (words_nth a 0 Wa) as Ha0. unfold WSIZE in Ha0.
  destruct (rv_hlvw_v1 a.[0%nat] Ha0) as (R1 & R2 & R3 & R4 & R5).
  cbv zeta in R1, R2, R3, R4, R5. fold o in R1, R2, R3.
  rewrite <- V5 in R2, R4, R5. rewrite <- V7 in R2, R3. rewrite <- V2 in R1.
  unfold InvH. change (1 - 1)%nat with 0%nat.
  split; [rewrite V0; exact G0|]. split; [rewrite V1; exact G1|].
  split; [exact R1|]. split; [exact R4|]. split; [exact R3|].
  split; [|split].
  - rewrite (value_firstn_S a 0). rewrite !firstn_0. cbn [value].
    rewrite pw_0. change (pw 1) with (2 ^ 32).
    pose proof (Z.div_mod (get s1 a5) 2 ltac:(lia)) as Hd. lia.
  - constructor.
  - intros ad _. apply VM.
Qed.

Lemma gfp_hlv_rvm_step_common j s (dr dr' : reg) s' :
  (1 <= j <= 6)%nat -> InvH dr j s ->
  get s' a0 = get s a0 -> get s' a1 = get s a1 -> get s' a2 = get s a2 ->
  get s' dr' = Word (mem s (Word (get s a1 + 4 * Z.of_nat j)) - get s a7) ->
  get s' a7 = (if mem s (Word (get s a1 + 4 * Z.of_nat j)) <? get s a7 then 1 else 0) ->
  (forall ad, mem s' ad =
     if ad =? Word (get s a0 + (4 * Z.of_nat j - 4))
     then Z.lor (Z.shiftr (get s dr) 1)
            (Word (Z.shiftl (Word (mem s (Word (get s a1 + 4 * Z.of_nat j)) - get s a7)) 31))
     else mem s ad) ->
  InvH dr' (S j) s'.
Proof.
  intros Hj (I0 & I1 & I2 & ID & IB & IV & IW & IU) V0 V1 V2 VD V7 VM.
  assert (P2 : 2 ^ 32 = 4294967296) by reflexivity.
  pose proof o_cases as Ho.
  rewrite I1, (Word_small (pa + _)) in VD, V7 by lia.
  rewrite I0, I1, (Word_small (pa + _)), (Word_small (pr + _)) in VM by lia.
  assert (Aj : mem s (pa + 4 * Z.of_nat j) = a.[j]).
  { unfold a. rewrite load_array_nth by (change LEN with 8%nat; lia). apply IU.
    intros i Hi E. symmetry in E. apply Hra in E; lia. }
  rewrite Aj in VD, V7, VM.
  pose proof (words_nth a j Wa) as Haj. unfold WSIZE in Haj.
  destruct (rv_hlvw_v2 a.[j] (get s a7) Haj ltac:(lia)) as (R1 & R2 & R3).
  cbv zeta in R1, R2, R3. rewrite <- VD in R1, R3, VM. rewrite <- V7 in R1, R2.
  destruct (half_or (get s dr) (get s' dr') ID) as (O1 & _ & O3).
  rewrite O1 in VM.
  replace (4 * Z.of_nat j - 4) with (4 * Z.of_nat (j - 1)) in VM by lia.
  assert (ER : load_array (mem s') pr LEN
               = upd (load_array (mem s) pr LEN) (j - 1)
                   (get s dr / 2 + get s' dr' mod 2 * 2 ^ 31)).
  { apply load_array_store; [change LEN with 8%nat; lia|exact VM]. }
  assert (L1 : (j - 1 < length (load_array (mem s) pr LEN))%nat)
    by (rewrite load_array_length; change LEN with 8%nat; lia).
  unfold InvH. replace (S j - 1)%nat with (S (j - 1)) by lia.
  split; [rewrite V0; exact I0|]. split; [rewrite V1; exact I1|].
  split; [rewrite V2; exact I2|]. split; [exact R3|]. split; [lia|].
  split; [|split].
  - rewrite ER, value_firstn_S_upd by exact L1.
    rewrite (value_firstn_S a j).
    pose proof (Z.div_mod (get s' dr') 2 ltac:(lia)) as Hd.
    replace (S (j - 1)) with j by lia. rewrite (pw_S j).
    assert (EP : pw j = 2 ^ 32 * pw (j - 1)).
    { replace j with (S (j - 1)) at 1 by lia. apply pw_S. }
    generalize dependent (value (firstn (j - 1) (load_array (mem s) pr LEN))).
    generalize dependent (value (firstn j a)).
    generalize dependent (get s' dr' / 2). generalize dependent (get s' dr' mod 2).
    generalize dependent (get s dr / 2).
    intros. rewrite EP in *. generalize dependent (pw (j - 1)). intros. nia.
  - rewrite ER. apply words_firstn_S_upd; [exact L1|exact IW|exact O3].
  - intros ad Had. rewrite VM.
    destruct (Z.eqb_spec ad (pr + 4 * Z.of_nat (j - 1))) as [E|_].
    + exfalso. apply (Had (j - 1)%nat); [lia|exact E].
    + apply IU. intros i Hi. apply Had. lia.
Qed.

Lemma gfp_hlv_rvm_odd j s :
  (1 <= j <= 6)%nat -> InvH a5 j s ->
  InvH a6 (S j)
    (run (GfpHlv.HLVW_V2 GfpHlv.bbit GfpHlv.dif1 GfpHlv.bbit GfpHlv.dif0
            (4 * Z.of_nat j)) s).
Proof.
  intros Hj HI.
  destruct (rvm_hlv_v2_odd s (4 * Z.of_nat j)) as (V0 & V1 & V2 & V6 & V7 & VM).
  apply (gfp_hlv_rvm_step_common j s a5 a6); assumption.
Qed.

Lemma gfp_hlv_rvm_even j s :
  (1 <= j <= 6)%nat -> InvH a6 j s ->
  InvH a5 (S j)
    (run (GfpHlv.HLVW_V2 GfpHlv.bbit GfpHlv.dif0 GfpHlv.bbit GfpHlv.dif1
            (4 * Z.of_nat j)) s).
Proof.
  intros Hj HI.
  destruct (rvm_hlv_v2_even s (4 * Z.of_nat j)) as (V0 & V1 & V2 & V5 & V7 & VM).
  apply (gfp_hlv_rvm_step_common j s a6 a5); assumption.
Qed.

Lemma gfp_hlv_rvm_correct :
  load_array (mem (GfpHlv.gfp_hlv_rvm s0)) pr LEN = gfp_hlv r a /\
  (forall ad, (forall i, (i < 8)%nat -> ad <> pr + 4 * Z.of_nat i) ->
     mem (GfpHlv.gfp_hlv_rvm s0) ad = mem s0 ad).
Proof.
  assert (P2 : 2 ^ 32 = 4294967296) by reflexivity.
  assert (P1 : 2 ^ 31 = 2147483648) by reflexivity.
  pose proof o_cases as Ho.
  rewrite gfp_hlv_rvm_blocks.
  pose proof gfp_hlv_rvm_first as H1. set (s1 := run _ s0) in *.
  pose proof (gfp_hlv_rvm_odd 1 s1 ltac:(lia) H1) as H2. set (s2 := run _ s1) in *.
  pose proof (gfp_hlv_rvm_even 2 s2 ltac:(lia) H2) as H3. set (s3 := run _ s2) in *.
  pose proof (gfp_hlv_rvm_odd 3 s3 ltac:(lia) H3) as H4. set (s4 := run _ s3) in *.
  pose proof (gfp_hlv_rvm_even 4 s4 ltac:(lia) H4) as H5. set (s5 := run _ s4) in *.
  pose proof (gfp_hlv_rvm_odd 5 s5 ltac:(lia) H5) as H6. set (s6 := run _ s5) in *.
  pose proof (gfp_hlv_rvm_even 6 s6 ltac:(lia) H6) as H7. set (s7 := run _ s6) in *.
  clearbody s7. clear H1 H2 H3 H4 H5 H6.
  destruct H7 as (I0 & I1 & I2 & ID & IB & IV & IW & IU).
  change (7 - 1)%nat with 6%nat in *.
  pose proof (rvm_hlv_v3 s7) as VM. cbv zeta in VM.
  set (s8 := run _ s7) in *.
  rewrite I0, I1, I2 in VM. change (28 - 4) with 24 in VM.
  rewrite (Word_small (pa + 28)), (Word_small (pr + 28)), (Word_small (pr + 24)) in VM by lia.
  assert (A7 : mem s7 (pa + 28) = a.[7%nat]).
  { unfold a. rewrite load_array_nth by (change LEN with 8%nat; lia).
    change (4 * Z.of_nat 7) with 28. apply IU.
    intros i Hi E. symmetry in E. change 28 with (4 * Z.of_nat 7) in E.
    apply Hra in E; lia. }
  rewrite A7 in VM.
  pose proof (words_nth a 7 Wa) as Ha7. unfold WSIZE in Ha7.
  destruct (rv_hlvw_v3 a.[7%nat] (get s7 a7) o Ha7 IB Ho) as (R1 & R2 & R3).
  cbv zeta in R1, R2, R3.
  set (sum := Word (a.[7%nat] + _)) in *.
  set (cry := if sum <? _ then 1 else 0) in *.
  destruct (half_or (get s7 a5) sum ID) as (_ & O2 & O3).
  destruct (half_or sum cry R2) as (_ & O4 & O5).
  assert (Ec : cry mod 2 = cry) by (apply Z.mod_small; lia).
  rewrite Ec in O4, O5. rewrite O2, O4 in VM.
  set (r6 := get s7 a5 / 2 + sum mod 2 * 2 ^ 31) in *.
  set (r7 := sum / 2 + cry * 2 ^ 31) in *.
  set (R := load_array (mem s7) pr LEN) in *.
  assert (LR : length R = LEN) by apply load_array_length.
  assert (ER : load_array (mem s8) pr LEN = upd (upd R 6 r6) 7 r7).
  { set (m6 := fun ad => if ad =? pr + 4 * Z.of_nat 6 then r6 else mem s7 ad).
    assert (E6 : load_array m6 pr LEN = upd R 6 r6).
    { apply load_array_store; [change LEN with 8%nat; lia|]. intros ad. reflexivity. }
    rewrite <- E6. apply load_array_store; [change LEN with 8%nat; lia|].
    intros ad. rewrite VM. unfold m6. change (4 * Z.of_nat 7) with 28.
    change (4 * Z.of_nat 6) with 24. reflexivity. }
  assert (Fa : felem a) by (split; [apply load_array_length|exact Wa]).
  assert (Lr : length r = LEN) by apply load_array_length.
  destruct (gfp_hlv_spec r a Lr Fa) as ((LC & WC) & VC).
  assert (W7 : words (firstn 7 (upd R 6 r6))).
  { apply words_firstn_S_upd; [rewrite LR; change LEN with 8%nat; lia|exact IW|exact O3]. }
  destruct (felem_upd_top (upd R 6 r6) r7 ltac:(rewrite length_upd; exact LR) W7 O5)
    as ((LA & WA) & VA).
  split.
  - rewrite ER. apply value_inj; [exact WA|exact WC|congruence|].
    assert (E2 : 2 * value (upd (upd R 6 r6) 7 r7) = 2 * value (gfp_hlv r a)); [|lia].
    rewrite VA, VC, value_mod2. fold o.
    rewrite value_firstn_S_upd by (rewrite LR; change LEN with 8%nat; lia).
    rewrite (value_LEN a (proj1 Fa)).
    pose proof (Z.div_mod sum 2 ltac:(lia)) as Hs.
    change (pw 7) with (2 ^ 32 * pw 6) in *. rewrite p_val.
    change (pw 6) with (2 ^ 192) in *.
    unfold r6, r7.
    generalize dependent (value (firstn 6 R)). generalize dependent (value (firstn 7 a)).
    generalize dependent (get s7 a5 / 2). generalize dependent (sum mod 2).
    generalize dependent (sum / 2).
    intros. destruct Ho as [E|E]; rewrite E in *; lia.
  - intros ad Had. rewrite VM.
    destruct (Z.eqb_spec ad (pr + 28)) as [E|_].
    + exfalso. apply (Had 7%nat); [lia|exact E].
    + destruct (Z.eqb_spec ad (pr + 24)) as [E|_].
      * exfalso. apply (Had 6%nat); [lia|exact E].
      * apply IU. intros i Hi. apply Had. lia.
Qed.

End gfp_hlv_rvm_proof.

(** X30. The assembly routine [gfp_hlv_rvm] computes what the C function
    [gfp_hlv] computes: called with the addresses of two arrays of eight
    words, of which [r] is apart from [a] or starts where [a] starts, it
    stores the eight words that [gfp_hlv(r, a)] writes and changes no other
    word of the memory. *)
Theorem X30_gfp_hlv_rvm_is_gfp_hlv (s : machine) (pr pa : Z) :
  get s a0 = pr -> get s a1 = pa ->
  0 <= pr /\ pr + 32 <= 2 ^ 32 ->
  0 <= pa /\ pa + 32 <= 2 ^ 32 ->
  words (load_array (mem s) pa LEN) ->
  pr = pa \/ pr + 32 <= pa \/ pa + 32 <= pr ->
  load_array (mem (GfpHlv.gfp_hlv_rvm s)) pr LEN =
    gfp_hlv (load_array (mem s) pr LEN) (load_array (mem s) pa LEN) /\
  (forall ad, (forall i, (i < 8)%nat -> ad <> pr + 4 * Z.of_nat i) ->
     mem (GfpHlv.gfp_hlv_rvm s) ad = mem s ad).
Proof.
  intros G0 G1 Hpr Hpa Wa Da.
  apply (gfp_hlv_rvm_correct s pr pa); try assumption.
  intros i j Hi Hj E. lia.
Qed.

Lemma X30_gfp_hlv_rvm_is_gfp_hlv_witness :
  load_array (mem (GfpHlv.gfp_hlv_rvm mach_ghlv)) 0 LEN =
    gfp_hlv (load_array (mem mach_ghlv) 0 LEN) (load_array (mem mach_ghlv) 0 LEN) /\
  (forall ad, (forall i, (i < 8)%nat -> ad <> 0 + 4 * Z.of_nat i) ->
     mem (GfpHlv.gfp_hlv_rvm mach_ghlv) ad = mem mach_ghlv ad).
Proof.
  apply (X30_gfp_hlv_rvm_is_gfp_hlv mach_ghlv 0 0).
  - reflexivity.
  - reflexivity.
  - cbn. lia.
  - cbn. lia.
  - apply wordsb_words. reflexivity.
  - left. reflexivity.
Defined.

End RV32_gfp_hlv.
